(* ===== verification/_CoqProject ===== *)
-Q . S2P
Prelude.v
Outcome.v
OrdMap.v
Order.v
OrderBook.v
BookSpec.v
BookDepth.v
MatchingEngine.v
MatchSpec.v
MatchProof.v
MatchTheorems.v
MatchFacts.v
Bytes.v
Serializer.v
BinarySerializer.v
RingBuffer.v
SpscConcurrent.v
SharedQueue.v
ThreadSafeQueue.v
OrderProcessor.v
ProcessorProof.v
ExchangeSpec.v
ProcessorTheorems.v
Sockets.v
ExchangeServer.v
ServerRead.v
Framing.v
ServerWrite.v
ServerLoop.v
Program.v
ProgramProof.v
NetworkUtils.v
OrderSimulator.v
ExchangeClient.v
ClientProgram.v
EndToEnd.v
SimulatedSockets.v
UnitTests.v
Witnesses.v
ProgramWitnesses.v
