(* ===== verification/Prelude.v ===== *)
(** * Exchange simulator: a verification development

    The program is a limit order exchange.  Clients send orders and cancels over
    TCP.  An I/O thread cuts the byte streams into messages and puts them on an
    inbound ring buffer; a processing thread takes them off, runs them against
    the order book through the matching engine, and puts encoded responses on
    an outbound ring buffer; the I/O thread appends these to the write buffers
    of the clients and sends them.  The two threads share nothing else.

    ** How the code is modelled

    A C++ function that changes a state is a function into [outcome]: [Ok] with
    the new state and the result, [Throw] with the state at the throw, [UB] for
    undefined behaviour, [Diverge] for a loop that used up its fuel and [Killed]
    when a signal ended the process ([Outcome.v]).  Integers are [Z]; every operation that can leave the range of its
    type is wrapped with [u8], [u32] or [u64] (this file).  Bytes are integers
    below 256.  [std::map] is a sorted association list with its comparator
    ([OrdMap.v]); [std::unordered_map] is a [gmap]; a [std::list] iterator is
    the address of a node, and erasing through an address that is not in the
    list is [UB].  [high_resolution_clock] is a parameter [clock], whose [i]-th
    reading is [clock i].  The byte order of the host is a parameter.  The
    operating system is a parameter too: the class [Sockets] with the laws
    [SocketLaws], which state what POSIX documents for the calls, among it that
    [send] to a peer that is gone may raise [SIGPIPE] and that [epoll_ctl] may
    fail; the random engine is the class [RandomEngine].

    ** Files

    - [Prelude.v]: machine integers, tactics, list lemmas.
    - [Outcome.v]: the effect monad, loops with fuel, their laws.
    - [OrdMap.v]: [std::map] and its lemmas.
    - [Order.v]: [include/order.hpp], [include/trade.hpp] and the records of
      acknowledgements and rejections; the validating constructor.
    - [OrderBook.v]: [src/orderbook.cpp], every operation, and the
      representation invariant [book_ok] with the stronger [book_indexed].
      [BookSpec.v]: the abstract book [SpecBook] and the refinement theorems of
      [add_order] and [cancel_order].  [BookDepth.v]: [print_depth].
    - [MatchingEngine.v]: [src/matching_engine.cpp]; the two mirrored branches
      of [match] share one pair of loops with the side as argument.
      [MatchSpec.v]: price-time priority as a function on lists.
      [MatchProof.v]: the loops against it.  [MatchTheorems.v]: refinement,
      priority, conservation, soundness and exhaustiveness of trades, and that
      reachable books are never crossed.  [MatchFacts.v]: what callers need.
    - [Bytes.v]: object representation of integers and [memcpy].
      [Serializer.v]: the messages, the abstract class [Serializer] as a type
      class and its laws.  [BinarySerializer.v]: [src/binary_serializer.cpp],
      round trips, and the instance of the laws.
    - [RingBuffer.v]: [include/spsc_ring_buffer.hpp] run by one thread at a
      time, the interface [BoundedQueue], and the refinement of a bounded FIFO.
      [SpscConcurrent.v]: the same code cut into memory accesses of two threads
      with release and acquire atomics; no data race, FIFO order.
      [SharedQueue.v]: a queue with a thread popping at its other end.
      [ThreadSafeQueue.v]: [include/thread_safe_queue.hpp], the mutex queue that
      the ring buffer replaced, as steps of any number of threads.
    - [OrderProcessor.v]: [src/order_processor.cpp], against the [Serializer]
      and [BoundedQueue] classes.  [ProcessorProof.v], [ProcessorTheorems.v]:
      what each kind of request does to the book, the routing table and the
      outbound queue, the invariant between requests, that every request is
      answered, and that the result does not depend on the outbound queue.
      [ExchangeSpec.v]: the sequential exchange, a pure function from requests
      to responses, and the refinement of [process].
    - [Sockets.v]: the operating system calls.  [ExchangeServer.v]:
      [src/exchange_server.cpp] and [include/client_state.hpp].
      [ServerRead.v]: reassembly of messages from arbitrary pieces.
      [Framing.v]: the function that cuts a stream into frames.
      [ServerWrite.v]: the outgoing byte streams.  [ServerLoop.v]: accepting
      connections, [start] and the turn of the event loop, with the invariant
      [server_ok] of the server.
      [SimulatedSockets.v]: a network that satisfies the laws.
    - [NetworkUtils.v]: the blocking reads of [src/network_utils.cpp].
      [OrderSimulator.v]: [src/order_simulator.cpp], with the random engine as a
      parameter.  [ExchangeClient.v]: [src/exchange_client.cpp] and the client
      threads of [src/client_main.cpp].  [ClientProgram.v]: the rest of
      [src/client_main.cpp].
    - [Program.v]: [src/main.cpp], the objects and the interleaving of the two
      threads.  [ProgramProof.v]: the invariant of the whole program; it is
      safe, processes the requests of each connection in order and none twice,
      and what each connected client was sent, has in its buffer or is on the way
      to it are exactly the responses of the sequential exchange to it.
      [EndToEnd.v]: the client program's orders satisfy what the server program
      demands.
    - [UnitTests.v], [Witnesses.v], [ProgramWitnesses.v]: unit tests of the
      repository evaluated on the model, and a concrete instance of every
      theorem that has hypotheses.

    ** The two threads

    A step of the program has at most one access to a shared queue, and the
    accesses are atomic, which is what [SpscConcurrent.v] shows of the ring
    buffer.  [io_action] is the event loop of [ExchangeServer::run] in such
    steps; it calls the same functions as [event_loop_turn], and
    [turn_decomposes] shows that a turn is a sequence of its steps.  [pg_sent]
    records the responses it has popped, also those that it drops because their
    client is gone; what clients get is stated of the bytes in the sockets and
    write buffers.  There is one exception: while the I/O thread handles an event it may
    push several requests, and the schedule of the inbound queue says what the
    processing thread pops in between; the popped requests are processed after
    the event, which changes nothing, since processing touches the inbound queue
    no more and handling an event never touches the outbound queue.  A request
    is processed with an outbox of its own and the responses are pushed one by
    one afterwards; [process_queue_independent] shows that they are the ones
    [process] would have pushed itself.

    ** Fuel and schedules

    The loops of [match] get one more turn than there are orders in a level or
    levels in a side; the refinement theorem shows that this is enough.  The
    loop of [handle_read] needs two turns more than there are bytes to come, that
    of [read_exact] one more than the bytes it is asked for, and that of
    [accept_client] one more than the connections that are waiting; [server_ok]
    keeps these bounds for the bytes and connections still to come.
    A thread that spins on a full queue is given a schedule of what the other
    thread takes; the theorems assume that there is room for the messages or that
    the other thread takes something often enough, and say how often.  The endless loops [OrderProcessor::run]
    and [ExchangeServer::run] are modelled by their turns, and the program by
    its finite executions, one for every schedule of the two threads.

    ** Defects found

    Theorems also record what the code does where it does not do what it means
    to: a cancel of an unknown id is acknowledged and rejected
    ([process_cancel_unknown_acks]); payload lengths and the side byte are not
    checked ([process_short_payload_undefined],
    [deserialize_order_memory_safe_iff], [process_unnamed_side_acknowledged]);
    an unexpected message type ends the processor
    ([run_unknown_type_terminates]); a reused id hides a resting order from
    cancellation ([duplicate_id_orphans]); rejection reasons do not survive a
    big-endian host ([rejection_big_endian_loses_reason]); negative prices are
    accepted ([Order_ctor_accepts_negative_price]); a writable event that is
    still registered disconnects a healthy client
    ([stale_epollout_disconnects]); data that the socket did not take is
    forgotten until the next message ([flush_would_block_forgets]); the mutex
    queue is not safe for two consumers ([tsq_two_consumers_undefined]); a short
    client run divides by zero ([client_run_streams_orders]); a connection that
    cannot be accepted ends the server ([accept_client_registers]); a [send] to
    a client that is gone can end the server by [SIGPIPE]
    ([sigpipe_ends_exchange]).

    ** Not modelled

    Memory exhaustion (the theorems about [main] assume that no write buffer
    outgrows 2^64 bytes), signals other than [SIGPIPE] and the duration of
    operations.  The client threads run on separate parts of the system, so
    nothing is said about how their calls interleave.  The theorems about the
    bytes each client gets assume that no descriptor is used for two connections;
    of clients that are no longer connected they say nothing.  The destructors and the end of [main] are never
    reached.  The benchmarks and tests of the repository are not part of the
    program; some unit tests are evaluated in [UnitTests.v].

    Planned: routing of responses when a descriptor is used again, and progress of
    the whole program under fair schedules. *)

From stdpp Require Export base tactics list gmap strings pretty numbers sorting.
From Stdlib Require Export ZArith Lia.

#[global] Open Scope Z_scope.

(** ** Machine integers

    A [w]-bit unsigned integer is a [Z] in [0, 2^w); every arithmetic
    operation of the code that can leave that range is wrapped explicitly. *)

Definition u8 (z : Z) : Z := z `mod` 2 ^ 8.
Definition u32 (z : Z) : Z := z `mod` 2 ^ 32.
Definition u64 (z : Z) : Z := z `mod` 2 ^ 64.

Definition is_u8 (z : Z) : Prop := 0 <= z < 2 ^ 8.
Definition is_u32 (z : Z) : Prop := 0 <= z < 2 ^ 32.
Definition is_u64 (z : Z) : Prop := 0 <= z < 2 ^ 64.

#[export] Instance is_u8_dec z : Decision (is_u8 z).
Proof. unfold is_u8. apply _. Defined.
#[export] Instance is_u32_dec z : Decision (is_u32 z).
Proof. unfold is_u32. apply _. Defined.
#[export] Instance is_u64_dec z : Decision (is_u64 z).
Proof. unfold is_u64. apply _. Defined.

(** ** Hint databases of the development *)

Create HintDb exchange discriminated.
Create HintDb width discriminated.

Lemma u8_is_u8 z : is_u8 (u8 z).
Proof. apply Z.mod_pos_bound. lia. Qed.

Lemma u32_is_u32 z : is_u32 (u32 z).
Proof. apply Z.mod_pos_bound. lia. Qed.

Lemma u64_is_u64 z : is_u64 (u64 z).
Proof. apply Z.mod_pos_bound. lia. Qed.

Lemma u8_id z : is_u8 z → u8 z = z.
Proof. apply Z.mod_small. Qed.

Lemma u32_id z : is_u32 z → u32 z = z.
Proof. apply Z.mod_small. Qed.

Lemma u64_id z : is_u64 z → u64 z = z.
Proof. apply Z.mod_small. Qed.

#[export] Hint Resolve u8_is_u8 u32_is_u32 u64_is_u64 : width.

(** [width] closes goals about ranges: it unfolds the range predicates and
    calls [lia]. *)
Ltac width := unfold is_u8, is_u32, is_u64 in *; first [ lia | auto with width ].

(** ** Tactics *)

(** Turn boolean comparisons in the context and the goal into propositions. *)
Ltac bool_to_prop :=
  repeat match goal with
  | H : (_ && _)%bool = true |- _ => apply andb_true_iff in H as [? ?]
  | H : (_ && _)%bool = false |- _ => apply andb_false_iff in H
  | H : (_ || _)%bool = true |- _ => apply orb_true_iff in H
  | H : (_ || _)%bool = false |- _ => apply orb_false_iff in H as [? ?]
  | H : negb _ = true |- _ => apply negb_true_iff in H
  | H : negb _ = false |- _ => apply negb_false_iff in H
  | H : (_ <? _) = true |- _ => apply Z.ltb_lt in H
  | H : (_ <? _) = false |- _ => apply Z.ltb_ge in H
  | H : (_ <=? _) = true |- _ => apply Z.leb_le in H
  | H : (_ <=? _) = false |- _ => apply Z.leb_gt in H
  | H : (_ =? _) = true |- _ => apply Z.eqb_eq in H
  | H : (_ =? _) = false |- _ => apply Z.eqb_neq in H
  | H : bool_decide _ = true |- _ => apply bool_decide_eq_true in H
  | H : bool_decide _ = false |- _ => apply bool_decide_eq_false in H
  end.

(** ** Lists *)

(** Sum of a list of integers. *)
Definition sum_Z (l : list Z) : Z := foldr Z.add 0 l.

Lemma sum_Z_app l k : sum_Z (l ++ k) = sum_Z l + sum_Z k.
Proof. induction l as [|x l IH]; simpl; lia. Qed.

Lemma sum_Z_nonneg l : Forall (λ z, 0 <= z) l → 0 <= sum_Z l.
Proof. induction 1; simpl; lia. Qed.

(** The longest prefix of a list satisfying [P], and what follows it. *)
Fixpoint span {A} (P : A → bool) (l : list A) : list A * list A :=
  match l with
  | [] => ([], [])
  | x :: l' => if P x then let '(a, b) := span P l' in (x :: a, b) else ([], l)
  end.

Lemma span_app {A} (P : A → bool) l a b : span P l = (a, b) → l = a ++ b.
Proof.
  revert a b; induction l as [|x l IH]; intros a b; simpl; [naive_solver|].
  destruct (P x); [|naive_solver].
  destruct (span P l) as [a' b'] eqn:?; intros; simplify_eq. simpl. by rewrite (IH a' b).
Qed.

Lemma span_prefix {A} (P : A → bool) l a b :
  span P l = (a, b) → Forall (λ x, P x = true) a.
Proof.
  revert a b; induction l as [|x l IH]; intros a b; simpl; [naive_solver|].
  destruct (P x) eqn:?; [|naive_solver].
  destruct (span P l) as [a' b'] eqn:?; intros; simplify_eq. constructor; eauto.
Qed.

Lemma span_app_true {A} (P : A → bool) l k :
  Forall (λ x, P x = true) l → span P (l ++ k) = (l ++ (span P k).1, (span P k).2).
Proof.
  induction 1 as [|x l Hx _ IH]; simpl; [by destruct (span P k)|].
  rewrite Hx, IH. done.
Qed.

Lemma span_all_false {A} (P : A → bool) l :
  Forall (λ x, P x = false) l → span P l = ([], l).
Proof. destruct 1 as [|x l Hx ?]; simpl; [done|]. by rewrite Hx. Qed.

Lemma NoDup_fmap_inj {A B} (f : A → B) (l : list A) x y :
  NoDup (f <$> l) → x ∈ l → y ∈ l → f x = f y → x = y.
Proof.
  intros Hnd Hx Hy Heq.
  apply list_elem_of_lookup in Hx as [i Hi]. apply list_elem_of_lookup in Hy as [j Hj].
  assert (i = j) as ->; [|by simplify_eq].
  eapply (NoDup_lookup (f <$> l)); rewrite ?list_lookup_fmap; eauto.
  - by rewrite Hi.
  - by rewrite Hj, Heq.
Qed.

Lemma alter_insert {A} (f : A → A) (l : list A) (i : nat) x : l !! i = Some x → alter f i l = <[i := f x]> l.
Proof.
  intros Hx. apply list_eq. intros j. rewrite list_lookup_alter. destruct (decide (i = j)) as [<-|Hne].
  - rewrite Hx, list_lookup_insert_eq; [done|by eapply lookup_lt_Some].
  - by rewrite list_lookup_insert_ne.
Qed.

(** ** Sequences and their parts *)

Lemma submseteq_NoDup {A} (l k : list A) : l ⊆+ k → NoDup k → NoDup l.
Proof.
  intros [k' Hk]%submseteq_Permutation Hnd. rewrite Hk in Hnd. by apply NoDup_app in Hnd as [? _].
Qed.

(** A sequence is contained in another one when its parts are, for a partition
    of the elements. *)
Lemma submseteq_parts {A B} `{EqDecision B} (f : A → B) (l k : list A) :
  (∀ b, filter (λ x, f x = b) l ⊆+ filter (λ x, f x = b) k) → l ⊆+ k.
Proof.
  revert k. induction l as [|x l IH]; intros k H; [apply submseteq_nil_l|].
  assert (x ∈ k) as Hx.
  { specialize (H (f x)). rewrite filter_cons_True in H by done.
    apply (list_elem_of_filter (λ y, f y = f x)). eapply elem_of_submseteq; [|exact H]. by left. }
  apply list_elem_of_split in Hx as (k1 & k2 & ->). rewrite <- Permutation_middle. apply submseteq_skip, IH.
  intros b. specialize (H b). rewrite <- Permutation_middle, !filter_cons in H.
  case_decide; [by apply (submseteq_app_inv_l _ _ [x])|done].
Qed.

Lemma filter_all {A} (P : A → Prop) `{∀ x, Decision (P x)} (l : list A) : (∀ x, x ∈ l → P x) → filter P l = l.
Proof.
  induction l as [|x l IH]; intros H0; [done|]. rewrite filter_cons_True by (apply H0; by left).
  f_equal. apply IH. intros y Hy. apply H0. by right.
Qed.

Lemma filter_none {A} (P : A → Prop) `{∀ x, Decision (P x)} (l : list A) : (∀ x, x ∈ l → ¬ P x) → filter P l = [].
Proof.
  induction l as [|x l IH]; intros H0; [done|]. rewrite filter_cons_False by (apply H0; by left).
  apply IH. intros y Hy. apply H0. by right.
Qed.
