(* ===== verification/Outcome.v ===== *)
(** * Effects: results, exceptions, undefined behaviour and loops

    A C++ routine that mutates a state of type [S] and returns an [A] is a
    function [S → outcome S A].  An exception keeps the state reached when it
    was thrown, so that a handler sees the mutations done before the throw.
    [UB] stands for undefined behaviour (an out-of-bounds access, a dangling
    iterator), [Diverge] for a loop that used up its fuel, and [Killed] for a
    process that a signal ended: the program installs no handler and masks no
    signal, so the default action of [SIGPIPE] applies. *)

From S2P Require Import Prelude.

(** The [std::exception] classes the program throws, with their [what()]. *)
Inductive exn :=
  | invalid_argument (what : string)
  | runtime_error (what : string)
  | length_error (what : string)
  | out_of_range (what : string)
  | system_error (what : string).

#[export] Instance exn_eq_dec : EqDecision exn.
Proof. solve_decision. Defined.

Definition exn_what (e : exn) : string :=
  match e with
  | invalid_argument w | runtime_error w | length_error w | out_of_range w
  | system_error w => w
  end.

Inductive outcome (S A : Type) :=
  | Ok (s : S) (a : A)
  | Throw (s : S) (e : exn)
  | UB
  | Diverge
  | Killed (s : S).

Arguments Ok {S A} s a.
Arguments Throw {S A} s e.
Arguments UB {S A}.
Arguments Diverge {S A}.
Arguments Killed {S A} s.

Definition M (S A : Type) : Type := S → outcome S A.

Definition ret {S A} (a : A) : M S A := λ s, Ok s a.

Definition bind {S A B} (m : M S A) (k : A → M S B) : M S B := λ s,
  match m s with
  | Ok s' a => k a s'
  | Throw s' e => Throw s' e
  | UB => UB
  | Diverge => Diverge
  | Killed s' => Killed s'
  end.

Definition throw {S A} (e : exn) : M S A := λ s, Throw s e.
Definition undefined {S A} : M S A := λ _, UB.
Definition get {S} : M S S := λ s, Ok s s.
Definition gets {S A} (f : S → A) : M S A := λ s, Ok s (f s).
Definition put {S} (s : S) : M S unit := λ _, Ok s tt.
Definition modify {S} (f : S → S) : M S unit := λ s, Ok (f s) tt.

(** [try { m } catch (const std::exception& e) { h e }] *)
Definition try_catch {S A} (m : M S A) (h : exn → M S A) : M S A := λ s,
  match m s with
  | Throw s' e => h e s'
  | o => o
  end.

(** A value that is missing only when the code's behaviour is undefined. *)
Definition or_ub {S A} (o : option A) : M S A :=
  match o with Some a => ret a | None => undefined end.

(** A pure computation that may throw. *)
Definition or_throw {S A} (r : exn + A) : M S A :=
  match r with inr a => ret a | inl e => throw e end.

(** Run a computation on a part of the state. *)
Definition zoom {S T A} (g : S → T) (p : T → S → S) (m : M T A) : M S A := λ s,
  match m (g s) with
  | Ok t a => Ok (p t s) a
  | Throw t e => Throw (p t s) e
  | UB => UB
  | Diverge => Diverge
  | Killed t => Killed (p t s)
  end.

(** [while (cond) body] with fuel for the number of tests of [cond]. *)
Fixpoint while {S} (fuel : nat) (cond : S → bool) (body : M S unit) : M S unit := λ s,
  match fuel with
  | O => Diverge
  | Datatypes.S f => if cond s then bind body (λ _, while f cond body) s else Ok s tt
  end.

(** The same for a body that may [break]. *)
Inductive ctl := Next | Break.

Fixpoint while_brk {S} (fuel : nat) (cond : S → bool) (body : M S ctl) : M S unit := λ s,
  match fuel with
  | O => Diverge
  | Datatypes.S f =>
      if cond s then
        bind body (λ c, match c with Next => while_brk f cond body | Break => ret tt end) s
      else Ok s tt
  end.

(** [for (x : l) body(x)] *)
Fixpoint for_each {S A} (l : list A) (body : A → M S unit) : M S unit :=
  match l with
  | [] => ret tt
  | x :: l' => bind (body x) (λ _, for_each l' body)
  end.

Declare Scope effect_scope.
Delimit Scope effect_scope with eff.
Notation "x <- m ;; k" := (bind m (λ x, k))
  (at level 100, m at next level, right associativity, only parsing) : effect_scope.
Notation "m ;;; k" := (bind m (λ _, k))
  (at level 100, right associativity, only parsing) : effect_scope.
#[global] Open Scope effect_scope.

(** ** Laws used by the proofs *)

Lemma bind_Ok {S A B} (m : M S A) (k : A → M S B) s s' a :
  m s = Ok s' a → bind m k s = k a s'.
Proof. unfold bind. by intros ->. Qed.

Lemma bind_ret {S A B} (a : A) (k : A → M S B) s : bind (ret a) k s = k a s.
Proof. done. Qed.

Lemma bind_Throw {S A B} (m : M S A) (k : A → M S B) s s' e :
  m s = Throw s' e → bind m k s = Throw s' e.
Proof. unfold bind. by intros ->. Qed.

Lemma bind_Killed {S A B} (m : M S A) (k : A → M S B) s s' :
  m s = Killed s' → bind m k s = Killed s'.
Proof. unfold bind. by intros ->. Qed.

Lemma bind_assoc {S A B C} (m : M S A) (k : A → M S B) (h : B → M S C) s :
  bind (bind m k) h s = bind m (λ a, bind (k a) h) s.
Proof. unfold bind. by destruct (m s). Qed.

Lemma bind_inv_Ok {S A B} (m : M S A) (k : A → M S B) s s2 b :
  bind m k s = Ok s2 b → ∃ s1 a, m s = Ok s1 a ∧ k a s1 = Ok s2 b.
Proof. unfold bind. destruct (m s); naive_solver. Qed.

(** A loop whose body keeps an invariant and decreases a measure finishes
    within any fuel above the measure, in a state that satisfies the invariant
    and falsifies the condition. *)
Lemma while_total {S} (I : S → Prop) (μ : S → nat) (cond : S → bool) (body : M S unit) :
  (∀ s, I s → cond s = true → ∃ s', body s = Ok s' tt ∧ I s' ∧ (μ s' < μ s)%nat) →
  ∀ fuel s, I s → (μ s < fuel)%nat →
  ∃ s', while fuel cond body s = Ok s' tt ∧ I s' ∧ cond s' = false.
Proof.
  intros Hbody. induction fuel as [|fuel IH]; intros s HI Hlt; [lia|]. simpl.
  destruct (cond s) eqn:Hc; [|by eauto].
  destruct (Hbody s HI Hc) as (s' & Hs' & HI' & Hm).
  rewrite (bind_Ok _ _ _ _ _ Hs'). apply IH; [done|lia].
Qed.

Lemma for_each_app {S A} (l k : list A) (body : A → M S unit) s :
  for_each (l ++ k) body s = bind (for_each l body) (λ _, for_each k body) s.
Proof.
  revert s. induction l as [|x l IH]; intros s; simpl; [done|].
  unfold bind. destruct (body x s); [|done..]. rewrite IH. done.
Qed.
