(* ===== verification/OrdMap.v ===== *)
(** * [std::map]: an ordered associative container

    The order book keeps its price levels in two [std::map]s, one with the
    default comparator and one with [std::greater].  The model is the
    in-order sequence of the container's entries, with the comparator as a
    parameter: [begin()] is the head of the sequence, [operator[]] followed by
    an update through the returned reference is [om_upsert], and [erase(key)]
    is [om_erase].  [StrictTotal] is what the standard requires of a
    comparator. *)

From S2P Require Import Prelude.

Class StrictTotal (lt : Z → Z → bool) : Prop := {
  st_irrefl k : lt k k = false;
  st_trans a b c : lt a b = true → lt b c = true → lt a c = true;
  st_total a b : lt a b = false → lt b a = false → a = b;
}.

(** [std::less] and [std::greater] on prices *)
Definition price_less (a b : Z) : bool := a <? b.
Definition price_greater (a b : Z) : bool := b <? a.

#[export] Instance price_less_strict : StrictTotal price_less.
Proof. unfold price_less. split; intros; rewrite ?Z.ltb_lt, ?Z.ltb_ge in *; lia. Qed.

#[export] Instance price_greater_strict : StrictTotal price_greater.
Proof. unfold price_greater. split; intros; rewrite ?Z.ltb_lt, ?Z.ltb_ge in *; lia. Qed.

Fixpoint om_find {V} (lt : Z → Z → bool) (k : Z) (m : list (Z * V)) : option V :=
  match m with
  | [] => None
  | (k', v) :: m' =>
      if lt k k' then None else if lt k' k then om_find lt k m' else Some v
  end.

(** [m[k]] default-constructs a missing entry as [d]; [f] is what the caller
    does to the entry through the reference it gets. *)
Fixpoint om_upsert {V} (lt : Z → Z → bool) (k : Z) (d : V) (f : V → V)
    (m : list (Z * V)) : list (Z * V) :=
  match m with
  | [] => [(k, f d)]
  | (k', v) :: m' =>
      if lt k k' then (k, f d) :: m
      else if lt k' k then (k', v) :: om_upsert lt k d f m'
      else (k', f v) :: m'
  end.

Fixpoint om_erase {V} (lt : Z → Z → bool) (k : Z) (m : list (Z * V)) : list (Z * V) :=
  match m with
  | [] => []
  | (k', v) :: m' =>
      if lt k k' then m else if lt k' k then (k', v) :: om_erase lt k m' else m'
  end.

(** The container's invariant: strictly increasing keys. *)
Definition om_sorted {V} (lt : Z → Z → bool) (m : list (Z * V)) : Prop :=
  StronglySorted (λ a b, lt a.1 b.1 = true) m.

Section laws.
Context {V : Type} (lt : Z → Z → bool) `{!StrictTotal lt}.
Implicit Types (m : list (Z * V)) (k : Z) (v : V).

Lemma st_asym a b : lt a b = true → lt b a = false.
Proof.
  intros Hab. destruct (lt b a) eqn:Hba; [|done].
  pose proof (st_trans _ _ _ Hab Hba) as H. by rewrite st_irrefl in H.
Qed.

Lemma om_sorted_cons k v m :
  om_sorted lt ((k, v) :: m) ↔ om_sorted lt m ∧ Forall (λ e, lt k e.1 = true) m.
Proof.
  split; [intros H; by apply StronglySorted_inv in H|intros [??]; by constructor].
Qed.

(** An entry that some key precedes strictly has another key. *)
Lemma om_above_ne k m k' v' :
  Forall (λ e, lt k e.1 = true) m → (k', v') ∈ m → k' ≠ k.
Proof.
  intros Hall Hin ->. rewrite Forall_forall in Hall. apply Hall in Hin. simpl in Hin.
  by rewrite st_irrefl in Hin.
Qed.

Lemma om_find_elem k v m : om_sorted lt m → om_find lt k m = Some v ↔ (k, v) ∈ m.
Proof.
  induction m as [|[k' v'] m IH]; intros Hs; simpl; [set_solver|].
  apply om_sorted_cons in Hs as [Hs Hall]. specialize (IH Hs).
  rewrite elem_of_cons. destruct (lt k k') eqn:H1; [|destruct (lt k' k) eqn:H2].
  - split; [done|]. intros [?|Hin]; simplify_eq; [by rewrite st_irrefl in H1|].
    rewrite Forall_forall in Hall. apply Hall in Hin. simpl in Hin.
    rewrite (st_asym _ _ H1) in Hin. done.
  - rewrite IH. split; [by right|]. intros [?|?]; simplify_eq; [|done].
    by rewrite st_irrefl in H2.
  - pose proof (st_total _ _ H1 H2) as ->.
    split; [intros; simplify_eq; by left|]. intros [?|Hin]; simplify_eq; [done|].
    by destruct (om_above_ne k' m k' v Hall).
Qed.

Lemma om_find_None k m : om_sorted lt m → om_find lt k m = None ↔ ∀ v, (k, v) ∉ m.
Proof.
  intros Hs. split.
  - intros Hn v Hin. apply om_find_elem in Hin; [congruence|done].
  - intros Hn. destruct (om_find lt k m) eqn:E; [|done].
    apply om_find_elem in E; [|done]. by destruct (Hn v).
Qed.

Lemma om_key_inj m k v v' : om_sorted lt m → (k, v) ∈ m → (k, v') ∈ m → v = v'.
Proof. intros Hs. rewrite <- !om_find_elem by done. congruence. Qed.

Lemma om_upsert_above k k' d f m :
  lt k' k = true → Forall (λ e, lt k' e.1 = true) m →
  Forall (λ e, lt k' e.1 = true) (om_upsert lt k d f m).
Proof.
  intros Hk. induction 1 as [|[k1 v1] m H1 Hm IH]; simpl; [by constructor|].
  destruct (lt k k1), (lt k1 k); repeat (constructor; try done).
Qed.

Lemma om_upsert_sorted k d f m : om_sorted lt m → om_sorted lt (om_upsert lt k d f m).
Proof.
  induction m as [|[k' v'] m IH]; intros Hs; simpl.
  { by repeat constructor. }
  pose proof Hs as [Hs' Hall]%om_sorted_cons.
  destruct (lt k k') eqn:H1; [|destruct (lt k' k) eqn:H2].
  - apply om_sorted_cons. split; [done|]. constructor; [done|].
    eapply Forall_impl; [done|]. intros [k1 v1] Hk1. simpl in *. by eapply st_trans.
  - apply om_sorted_cons. split; [by apply IH|]. by apply om_upsert_above.
  - by apply om_sorted_cons.
Qed.

Lemma om_upsert_elem k d f m k' v' : om_sorted lt m →
  (k', v') ∈ om_upsert lt k d f m ↔
    (k' = k ∧ v' = f (default d (om_find lt k m))) ∨ (k' ≠ k ∧ (k', v') ∈ m).
Proof.
  induction m as [|[k1 v1] m IH]; intros Hs; simpl.
  { rewrite list_elem_of_singleton. split; [intros; simplify_eq; auto|].
    intros [[-> ->]|[_ ?%elem_of_nil]]; done. }
  pose proof Hs as [Hs' Hall]%om_sorted_cons.
  destruct (lt k k1) eqn:H1; [|destruct (lt k1 k) eqn:H2].
  - rewrite elem_of_cons. simpl. split; [|naive_solver].
    intros [?|Hin]; [simplify_eq; auto|]. right. split; [|done].
    apply (om_above_ne k ((k1, v1) :: m) k' v'); [|done].
    constructor; [done|]. eapply Forall_impl; [done|].
    intros [k2 v2] ?. simpl in *. by eapply st_trans.
  - rewrite !elem_of_cons, IH by done. split.
    + intros [?|[?|[??]]]; simplify_eq; auto. right. split; [|by left].
      intros ->. by rewrite st_irrefl in H2.
    + naive_solver.
  - pose proof (st_total _ _ H1 H2) as ->. rewrite !elem_of_cons. simpl. split.
    + intros [?|Hin]; simplify_eq; [by left|]. right. split; [|by right].
      by eapply om_above_ne.
    + intros [[-> ->]|[? [?|?]]]; simplify_eq; auto.
Qed.

Lemma om_find_upsert k d f m : om_sorted lt m →
  om_find lt k (om_upsert lt k d f m) = Some (f (default d (om_find lt k m))).
Proof.
  intros Hs. apply om_find_elem; [by apply om_upsert_sorted|].
  apply om_upsert_elem; [done|]. by left.
Qed.

Lemma om_find_upsert_ne k k' d f m : om_sorted lt m → k' ≠ k →
  om_find lt k' (om_upsert lt k d f m) = om_find lt k' m.
Proof.
  intros Hs Hne. apply option_eq. intros v.
  rewrite !om_find_elem, om_upsert_elem by auto using om_upsert_sorted. naive_solver.
Qed.

Lemma om_erase_sub k m e : e ∈ om_erase lt k m → e ∈ m.
Proof.
  induction m as [|[k1 v1] m IH]; simpl; [done|].
  destruct (lt k k1), (lt k1 k); rewrite ?elem_of_cons; naive_solver.
Qed.

Lemma om_erase_sorted k m : om_sorted lt m → om_sorted lt (om_erase lt k m).
Proof.
  induction m as [|[k1 v1] m IH]; intros Hs; simpl; [done|].
  pose proof Hs as [Hs' Hall]%om_sorted_cons.
  destruct (lt k k1), (lt k1 k); try done.
  apply om_sorted_cons. split; [by apply IH|]. rewrite Forall_forall in *.
  intros e ?%om_erase_sub. by apply Hall.
Qed.

Lemma om_erase_elem k m k' v' : om_sorted lt m →
  (k', v') ∈ om_erase lt k m ↔ k' ≠ k ∧ (k', v') ∈ m.
Proof.
  induction m as [|[k1 v1] m IH]; intros Hs; simpl; [set_solver|].
  pose proof Hs as [Hs' Hall]%om_sorted_cons.
  destruct (lt k k1) eqn:H1; [|destruct (lt k1 k) eqn:H2].
  - split; [|naive_solver]. intros Hin. split; [|done].
    apply (om_above_ne k ((k1, v1) :: m) k' v'); [|done].
    constructor; [done|]. eapply Forall_impl; [done|].
    intros [k2 v2] ?. simpl in *. by eapply st_trans.
  - rewrite !elem_of_cons, IH by done. split; [|naive_solver].
    intros [?|[??]]; simplify_eq; [|naive_solver]. split; [|by left].
    intros ->. by rewrite st_irrefl in H2.
  - pose proof (st_total _ _ H1 H2) as ->. rewrite elem_of_cons. split; [|naive_solver].
    intros Hin. split; [by eapply om_above_ne|by right].
Qed.

(** At the head of the sequence the operations act on the first entry. *)
Lemma om_find_head k v m : om_find lt k ((k, v) :: m) = Some v.
Proof. simpl. by rewrite st_irrefl. Qed.

Lemma om_upsert_head k v d f m : om_upsert lt k d f ((k, v) :: m) = (k, f v) :: m.
Proof. simpl. by rewrite st_irrefl. Qed.

Lemma om_erase_head k v m : om_erase lt k ((k, v) :: m) = m.
Proof. simpl. by rewrite st_irrefl. Qed.

(** A present key splits the sequence; updates and erasure act at that place. *)
Lemma om_focus k v m : om_sorted lt m → om_find lt k m = Some v →
  ∃ m1 m2, m = m1 ++ (k, v) :: m2 ∧
    (∀ d f, om_upsert lt k d f m = m1 ++ (k, f v) :: m2) ∧
    (∀ w, om_erase lt k (m1 ++ (k, w) :: m2) = m1 ++ m2).
Proof.
  induction m as [|[k' v'] m IH]; intros Hs Hf; simpl in *; [done|].
  apply om_sorted_cons in Hs as [Hs _].
  destruct (lt k k') eqn:H1; [done|destruct (lt k' k) eqn:H2].
  - destruct (IH Hs Hf) as (m1 & m2 & -> & Hu & He). exists ((k', v') :: m1), m2.
    split_and!; [done| |].
    + intros d f. by rewrite Hu.
    + intros w. simpl. by rewrite H1, H2, He.
  - pose proof (st_total _ _ H1 H2) as ->. simplify_eq. exists [], m.
    split_and!; [done..|]. intros w. simpl. by rewrite H1.
Qed.

(** The first key is the least one. *)
Lemma om_head_least k v m k' v' :
  om_sorted lt ((k, v) :: m) → (k', v') ∈ (k, v) :: m → k' = k ∨ lt k k' = true.
Proof.
  intros [_ Hall]%om_sorted_cons [?|Hin]%elem_of_cons; simplify_eq; [by left|].
  right. rewrite Forall_forall in Hall. by apply Hall in Hin.
Qed.
End laws.

#[export] Hint Resolve om_upsert_sorted om_erase_sorted : exchange.
