(* ===== verification/Order.v ===== *)
(** * Orders, trades and the message records

    [include/order.hpp], [include/trade.hpp], [include/types.hpp] and the
    plain structs.  [Side] and [OrderType] are scoped enumerations with a
    fixed underlying type [uint8_t]: every byte is a value of the enumeration,
    named or not, and the serializer copies raw bytes into them, so each
    inductive type has a constructor for the bytes without a name. *)

From S2P Require Import Prelude Outcome.

(** ** Enumerations *)

Inductive Side := BID | ASK | Side_unnamed (b : Z).
Inductive OrderType := LIMIT | MARKET | OrderType_unnamed (b : Z).

#[export] Instance Side_eq_dec : EqDecision Side.
Proof. solve_decision. Defined.
#[export] Instance OrderType_eq_dec : EqDecision OrderType.
Proof. solve_decision. Defined.

Definition Side_of_byte (b : Z) : Side :=
  if b =? 0 then BID else if b =? 1 then ASK else Side_unnamed b.
Definition Side_to_byte (s : Side) : Z :=
  match s with BID => 0 | ASK => 1 | Side_unnamed b => b end.
Definition OrderType_of_byte (b : Z) : OrderType :=
  if b =? 0 then LIMIT else if b =? 1 then MARKET else OrderType_unnamed b.
Definition OrderType_to_byte (t : OrderType) : Z :=
  match t with LIMIT => 0 | MARKET => 1 | OrderType_unnamed b => b end.

(** A value of the C++ enumeration: the named values have one representation. *)
Definition Side_wf (s : Side) : Prop := Side_of_byte (Side_to_byte s) = s ∧ is_u8 (Side_to_byte s).
Definition OrderType_wf (t : OrderType) : Prop :=
  OrderType_of_byte (OrderType_to_byte t) = t ∧ is_u8 (OrderType_to_byte t).

(** ** [class Order] *)

Record Order := mkOrder {
  timestamp_ : Z;
  id_ : Z;
  price_ : Z;
  quantity_ : Z;
  side_ : Side;
  orderType_ : OrderType;
}.

#[export] Instance Order_eq_dec : EqDecision Order.
Proof. solve_decision. Defined.

(** The constructor, with the reading of [high_resolution_clock] as [now]. *)
Definition Order_ctor (now id price quantity : Z) (side : Side) (orderType : OrderType) :
    exn + Order :=
  let order := mkOrder (u64 now) id price quantity side orderType in
  if bool_decide (orderType = LIMIT) && (price <=? 0) then
    inl (invalid_argument "limit orders cant have non-positive price")
  else if bool_decide (orderType = MARKET) && (0 <? price) then
    inl (invalid_argument "market orders cant have positive price")
  else if quantity =? 0 then
    inl (invalid_argument "quantity must be greater than 0")
  else inr order.

Definition set_quantity (q : Z) (o : Order) : Order :=
  mkOrder (timestamp_ o) (id_ o) (price_ o) q (side_ o) (orderType_ o).

Definition reduce_quantity (quantity : Z) (o : Order) : exn + Order :=
  if quantity_ o <? quantity then
    inl (invalid_argument "cannot reduce by more than current quantity")
  else inr (set_quantity (u32 (quantity_ o - quantity)) o).

Definition nl : string := String (Ascii.ascii_of_nat 10) "".

(** [Order::toString]: what is written to [std::cout]. *)
Definition Order_toString (o : Order) : M string unit :=
  modify (λ out, out +:+ "timestamp: " +:+ pretty (timestamp_ o) +:+ nl) ;;;
  modify (λ out, out +:+ "id: " +:+ pretty (id_ o) +:+ nl) ;;;
  modify (λ out, out +:+ "price: " +:+ pretty (price_ o) +:+ nl) ;;;
  modify (λ out, out +:+ "quantity: " +:+ pretty (quantity_ o) +:+ nl) ;;;
  modify (λ out, out +:+ "side: " +:+
    (if bool_decide (side_ o = BID) then "bid" else "ask") +:+ nl) ;;;
  modify (λ out, out +:+ "orderType: " +:+
    (if bool_decide (orderType_ o = LIMIT) then "limit" else "market") +:+ nl +:+ nl).

(** The range of the fields of any [Order] object. *)
Record order_in_range (o : Order) : Prop := {
  oir_timestamp : is_u64 (timestamp_ o);
  oir_id : is_u64 (id_ o);
  oir_price : is_u64 (price_ o);
  oir_quantity : is_u32 (quantity_ o);
  oir_side : Side_wf (side_ o);
  oir_type : OrderType_wf (orderType_ o);
}.

(** What the constructor's validation establishes. *)
Record order_valid (o : Order) : Prop := {
  ov_range : order_in_range o;
  ov_limit : orderType_ o = LIMIT → 0 < price_ o;
  ov_market : orderType_ o = MARKET → price_ o = 0;
  ov_quantity : 0 < quantity_ o;
}.

(** ** [struct Trade] and the acknowledgement and rejection records *)

Record Trade := mkTrade {
  trade_price : Z;
  buyer_order_id : Z;
  seller_order_id : Z;
  trade_quantity : Z;
  trade_timestamp : Z;
}.

#[export] Instance Trade_eq_dec : EqDecision Trade.
Proof. solve_decision. Defined.

Record Acknowledgement := mkAck { ack_id : Z }.
Record Rejection := mkRejection { rejection_id : Z; reason : string }.

#[export] Instance Acknowledgement_eq_dec : EqDecision Acknowledgement.
Proof. solve_decision. Defined.
#[export] Instance Rejection_eq_dec : EqDecision Rejection.
Proof. solve_decision. Defined.

(** ** Lemmas *)

Lemma Side_byte_wf b : is_u8 b → Side_wf (Side_of_byte b) ∧ Side_to_byte (Side_of_byte b) = b.
Proof.
  intros Hb. unfold Side_wf, Side_of_byte, Side_to_byte.
  repeat case_match; bool_to_prop; simplify_eq; repeat split; try done; width.
Qed.

Lemma OrderType_byte_wf b :
  is_u8 b → OrderType_wf (OrderType_of_byte b) ∧ OrderType_to_byte (OrderType_of_byte b) = b.
Proof.
  intros Hb. unfold OrderType_wf, OrderType_of_byte, OrderType_to_byte.
  repeat case_match; bool_to_prop; simplify_eq; repeat split; try done; width.
Qed.

Lemma Order_ctor_inr now id price quantity side orderType o :
  Order_ctor now id price quantity side orderType = inr o →
  o = mkOrder (u64 now) id price quantity side orderType ∧
  (orderType = LIMIT → 0 < price) ∧ (orderType = MARKET → price <= 0) ∧ quantity ≠ 0.
Proof.
  unfold Order_ctor. intros H. repeat case_match; simplify_eq; bool_to_prop.
  repeat split; try done; intros ->; naive_solver lia.
Qed.

Lemma Order_ctor_valid now id price quantity side orderType o :
  is_u64 id → is_u64 price → is_u32 quantity → Side_wf side → OrderType_wf orderType →
  Order_ctor now id price quantity side orderType = inr o → order_valid o.
Proof.
  intros ????? (-> & ? & Hm & ?)%Order_ctor_inr.
  split; simpl; [split; simpl; auto with width|done| |width].
  intros Ht. specialize (Hm Ht). width.
Qed.

(** The validation accepts every valid order. *)
Lemma Order_ctor_complete now o : order_valid o →
  Order_ctor now (id_ o) (price_ o) (quantity_ o) (side_ o) (orderType_ o) =
    inr (mkOrder (u64 now) (id_ o) (price_ o) (quantity_ o) (side_ o) (orderType_ o)).
Proof.
  intros [_ Hl Hm Hq]. unfold Order_ctor.
  repeat case_match; try done; exfalso; bool_to_prop; naive_solver lia.
Qed.

Lemma Order_ctor_limit now id price quantity side :
  0 < price → 0 < quantity →
  Order_ctor now id price quantity side LIMIT =
    inr (mkOrder (u64 now) id price quantity side LIMIT).
Proof.
  intros ??. unfold Order_ctor. rewrite bool_decide_eq_true_2 by done. simpl.
  by rewrite (proj2 (Z.leb_gt _ _)), (proj2 (Z.eqb_neq _ _)) by lia.
Qed.

Lemma reduce_quantity_inr q o :
  is_u32 (quantity_ o) → 0 <= q <= quantity_ o →
  reduce_quantity q o = inr (set_quantity (quantity_ o - q) o).
Proof.
  intros ??. unfold reduce_quantity. rewrite (proj2 (Z.ltb_ge _ _)) by lia.
  by rewrite u32_id by width.
Qed.

(** ** Main theorems *)

(** The constructor accepts exactly the orders with a positive quantity, a
    positive price for a limit order and price zero for a market order; what it
    builds carries its arguments and the clock reading, and every other
    combination is refused with [invalid_argument]. *)
Lemma Order_ctor_validates now id price quantity side orderType :
  is_u64 id → is_u64 price → is_u32 quantity → Side_wf side → OrderType_wf orderType →
  let accepted := 0 < quantity ∧ (orderType = LIMIT → 0 < price) ∧ (orderType = MARKET → price = 0) in
  (accepted →
    Order_ctor now id price quantity side orderType =
      inr (mkOrder (u64 now) id price quantity side orderType) ∧
    order_valid (mkOrder (u64 now) id price quantity side orderType)) ∧
  (¬ accepted → ∃ w, Order_ctor now id price quantity side orderType = inl (invalid_argument w)).
Proof.
  intros Hid Hp Hq Hs Ht accepted. split.
  - intros (H1 & H2 & H3).
    assert (order_valid (mkOrder (u64 now) id price quantity side orderType)) as Hv.
    { split; [split|..]; cbn; auto with width. }
    split; [apply (Order_ctor_complete now _ Hv)|done].
  - intros Hn. destruct (Order_ctor _ _ _ _ _ _) as [e|o] eqn:Hc.
    + unfold Order_ctor in Hc. repeat case_match; simplify_eq; eauto.
    + destruct Hn. apply Order_ctor_inr in Hc as (_ & Hl & Hm & Hq0).
      split_and!; [width|done|]. intros Ht'. specialize (Hm Ht'). width.
Qed.

(** Prices are unsigned, so a negative price is converted to a huge
    positive one before the validation sees it: a limit order constructed with
    a negative price is accepted. *)
Lemma Order_ctor_accepts_negative_price now id price quantity side :
  - 2 ^ 63 <= price < 0 → 0 < quantity →
  ∃ o, Order_ctor now id (u64 price) quantity side LIMIT = inr o ∧ price_ o = 2 ^ 64 + price.
Proof.
  intros Hp Hq.
  assert (u64 price = 2 ^ 64 + price) as ->.
  { unfold u64. rewrite <- (Z.mod_add price 1), Z.mod_small by lia. lia. }
  eexists. split; [apply Order_ctor_limit; lia|done].
Qed.
