(* ===== verification/OrderBook.v ===== *)
(** * The limit order book: [include/orderbook.hpp], [src/orderbook.cpp]

    Price levels are [std::map]s from prices to [std::list]s of orders, and
    [order_map_] takes an order id to the position of the order.  The position
    is a [std::list] iterator: it is modelled as the address of the list node,
    and [next_addr] is the allocator's next fresh address.  Erasing through an
    iterator that is not a node of the list is undefined behaviour. *)

From S2P Require Import Prelude Outcome OrdMap Order.

(** ** Data *)

(** A node of a [std::list<Order>]. *)
Record node := Node { addr : nat; elem : Order }.

#[export] Instance node_eq_dec : EqDecision node.
Proof. solve_decision. Defined.

Abbreviation levels := (list (Z * list node)).

Record OrderLocation := mkLoc {
  loc_side : Side;
  loc_price : Z;
  list_position : nat;
}.

#[export] Instance OrderLocation_eq_dec : EqDecision OrderLocation.
Proof. solve_decision. Defined.

Record OrderBook := mkBook {
  bids_ : levels;
  asks_ : levels;
  order_map_ : gmap Z OrderLocation;
  next_addr : nat;
}.

Definition empty_book : OrderBook := mkBook [] [] ∅ 0.

Definition set_bids (m : levels) (b : OrderBook) : OrderBook :=
  mkBook m (asks_ b) (order_map_ b) (next_addr b).
Definition set_asks (m : levels) (b : OrderBook) : OrderBook :=
  mkBook (bids_ b) m (order_map_ b) (next_addr b).
Definition set_order_map (i : gmap Z OrderLocation) (b : OrderBook) : OrderBook :=
  mkBook (bids_ b) (asks_ b) i (next_addr b).

(** ** Operations *)

Definition best_bid (b : OrderBook) : option Z :=
  match bids_ b with [] => None | (p, _) :: _ => Some p end.

Definition best_ask (b : OrderBook) : option Z :=
  match asks_ b with [] => None | (p, _) :: _ => Some p end.

(** [auto& list = levels[price]; list.push_back(order);] *)
Definition push_level (lt : Z → Z → bool) (n : node) (m : levels) : levels :=
  om_upsert lt (price_ (elem n)) [] (λ l, l ++ [n]) m.

Definition add_order (order : Order) : M OrderBook unit :=
  if bool_decide (orderType_ order = LIMIT) then
    if bool_decide (side_ order = ASK) then
      modify (λ b,
        let a := next_addr b in
        mkBook (bids_ b) (push_level price_less (Node a order) (asks_ b))
          (<[id_ order := mkLoc ASK (price_ order) a]> (order_map_ b)) (S a))
    else if bool_decide (side_ order = BID) then
      modify (λ b,
        let a := next_addr b in
        mkBook (push_level price_greater (Node a order) (bids_ b)) (asks_ b)
          (<[id_ order := mkLoc BID (price_ order) a]> (order_map_ b)) (S a))
    else ret tt
  else ret tt.

(** [list.erase(it)]: [None] when [it] is not an iterator of this list. *)
Fixpoint list_erase (pos : nat) (l : list node) : option (list node) :=
  match l with
  | [] => None
  | n :: l' => if Nat.eqb (addr n) pos then Some l' else cons n <$> list_erase pos l'
  end.

(** [auto& list = levels[price]; list.erase(pos); if (list.empty()) levels.erase(price);] *)
Definition erase_level (lt : Z → Z → bool) (price : Z) (pos : nat) (m : levels) :
    option levels :=
  l ← list_erase pos (default [] (om_find lt price m));
  let m' := om_upsert lt price [] (λ _, l) m in
  Some (match l with [] => om_erase lt price m' | _ => m' end).

Definition cancel_order (id : Z) : M OrderBook unit :=
  b <- get ;;
  match order_map_ b !! id with
  | Some loc =>
      (if bool_decide (loc_side loc = ASK) then
         m <- or_ub (erase_level price_less (loc_price loc) (list_position loc) (asks_ b)) ;;
         modify (set_asks m)
       else if bool_decide (loc_side loc = BID) then
         m <- or_ub (erase_level price_greater (loc_price loc) (list_position loc) (bids_ b)) ;;
         modify (set_bids m)
       else ret tt) ;;;
      modify (λ b', set_order_map (delete id (order_map_ b')) b')
  | None => throw (invalid_argument "order id not found in the book")
  end.

(** *** [print_depth] *)

(** [total_quantity += order.quantity()] over a level, in a [uint32_t]. *)
Definition level_total (l : list node) : Z :=
  foldl (λ acc n, u32 (acc + quantity_ (elem n))) 0 l.

(** [for (int i = 0; i < levels && it != end; i++)] collecting price and total. *)
Fixpoint depth_rows (i levels : Z) (m : list (Z * list node)) : list (Z * Z) :=
  match m with
  | [] => []
  | (p, l) :: m' => if i <? levels then (p, level_total l) :: depth_rows (i + 1) levels m' else []
  end.

Definition s32 (z : Z) : Z := (z + 2 ^ 31) `mod` 2 ^ 32 - 2 ^ 31.

(** [std::vector<std::pair<Price, Quantity>>::reserve] with an [int] argument:
    the conversion to [size_t] makes a negative argument larger than
    [max_size()], which throws. *)
Definition vector_max_size : Z := (2 ^ 63 - 1) `div` 16.
Definition vector_reserve (n : Z) : M string unit :=
  if vector_max_size <? u64 n then throw (length_error "vector::reserve") else ret tt.

Definition emit (s : string) : M string unit := modify (λ out, out +:+ s).

Definition depth_row (tag : string) (row : Z * Z) : string :=
  tag +:+ pretty row.1 +:+ " | " +:+ pretty row.2 +:+ nl.

(** The state is the text written to [out]. *)
Definition print_depth (b : OrderBook) (levels : Z) : M string unit :=
  emit ("---order book---" +:+ nl) ;;;
  vector_reserve (Z.min levels (s32 (Z.of_nat (length (asks_ b))))) ;;;
  for_each (rev (depth_rows 0 levels (asks_ b))) (λ row, emit (depth_row " ASK " row)) ;;;
  emit ("--------------" +:+ nl) ;;;
  for_each (depth_rows 0 levels (bids_ b)) (λ row, emit (depth_row " BID " row)).

(** ** Views of the book *)

(** The orders of a side in priority order: by price, then by arrival. *)
Definition flat (m : levels) : list node := m ≫= snd.
Definition all_nodes (b : OrderBook) : list node := flat (bids_ b) ++ flat (asks_ b).

Definition loc_of (n : node) : OrderLocation :=
  mkLoc (side_ (elem n)) (price_ (elem n)) (addr n).

(** ** Representation invariant *)

Definition resting_ok (s : Side) (p : Z) (o : Order) : Prop :=
  order_valid o ∧ side_ o = s ∧ price_ o = p ∧ orderType_ o = LIMIT.

Record side_ok (lt : Z → Z → bool) (s : Side) (m : levels) : Prop := {
  so_sorted : om_sorted lt m;
  so_nonempty p l : (p, l) ∈ m → l ≠ [];
  so_resting p l n : (p, l) ∈ m → n ∈ l → resting_ok s p (elem n);
}.

(** Every book the program can reach satisfies [book_ok]: levels are sorted
    and never empty, resting orders are valid limit orders filed under their
    own side and price, node addresses are distinct, and every entry of
    [order_map_] points to a live node that carries that id. *)
Record book_ok (b : OrderBook) : Prop := {
  bo_bids : side_ok price_greater BID (bids_ b);
  bo_asks : side_ok price_less ASK (asks_ b);
  bo_nodup : NoDup (addr <$> all_nodes b);
  bo_fresh n : n ∈ all_nodes b → (addr n < next_addr b)%nat;
  bo_index id loc : order_map_ b !! id = Some loc →
    ∃ n, n ∈ all_nodes b ∧ id_ (elem n) = id ∧ loc_of n = loc;
}.

(** The index is complete when it also finds every resting order; this needs
    distinct ids. *)
Definition book_indexed (b : OrderBook) : Prop :=
  ∀ n, n ∈ all_nodes b → order_map_ b !! id_ (elem n) = Some (loc_of n).

(** ** Lemmas on the views *)

Lemma elem_of_flat n m : n ∈ flat m ↔ ∃ p l, (p, l) ∈ m ∧ n ∈ l.
Proof.
  unfold flat. rewrite list_elem_of_bind. split.
  - intros ([p l] & ? & ?). eauto.
  - intros (p & l & ? & ?). by exists (p, l).
Qed.

Lemma flat_cons p l m : flat ((p, l) :: m) = l ++ flat m.
Proof. done. Qed.

Lemma flat_resting lt s m n : side_ok lt s m → n ∈ flat m →
  resting_ok s (price_ (elem n)) (elem n).
Proof.
  intros Hok (p & l & Hpl & Hn)%elem_of_flat.
  pose proof (so_resting _ _ _ Hok _ _ _ Hpl Hn) as (? & ? & ? & ?). by split_and!.
Qed.

Lemma flat_in_level lt s m n : side_ok lt s m → n ∈ flat m →
  ∃ l, (price_ (elem n), l) ∈ m ∧ n ∈ l.
Proof.
  intros Hok (p & l & Hpl & Hn)%elem_of_flat.
  pose proof (so_resting _ _ _ Hok _ _ _ Hpl Hn) as (? & ? & <- & ?). eauto.
Qed.

Lemma side_ok_cons lt s `{!StrictTotal lt} p l m :
  side_ok lt s ((p, l) :: m) ↔
    side_ok lt s m ∧ l ≠ [] ∧ (∀ n, n ∈ l → resting_ok s p (elem n)) ∧
    Forall (λ e, lt p e.1 = true) m.
Proof.
  split.
  - intros [[Hs Hall]%om_sorted_cons Hne Hr]. split_and!.
    + split; [done|intros; eapply Hne; by right|intros; eapply Hr; [by right|done]].
    + eapply Hne. by left.
    + intros n Hn. eapply Hr; eauto. by left.
    + done.
  - intros ([Hs Hne Hr] & Hl & Hn & Hall). split.
    + by apply om_sorted_cons.
    + intros p' l' [?|?]%elem_of_cons; simplify_eq; eauto.
    + intros p' l' n [?|?]%elem_of_cons ?; simplify_eq; eauto.
Qed.

Lemma side_ok_nil lt s : side_ok lt s [].
Proof. split; [constructor|set_solver..]. Qed.

(** Any node after the head level is priced strictly after it. *)
Lemma flat_above lt s `{!StrictTotal lt} p m n :
  side_ok lt s m → Forall (λ e, lt p e.1 = true) m → n ∈ flat m →
  lt p (price_ (elem n)) = true.
Proof.
  intros Hok Hall Hn. destruct (flat_in_level _ _ _ _ Hok Hn) as (l & Hl & _).
  rewrite Forall_forall in Hall. by apply (Hall _ Hl).
Qed.

(** ** [push_level] *)

Lemma push_level_ok lt s `{!StrictTotal lt} n m :
  resting_ok s (price_ (elem n)) (elem n) → side_ok lt s m → side_ok lt s (push_level lt n m).
Proof.
  intros Hn [Hs Hne Hr]. unfold push_level. split.
  - by apply om_upsert_sorted.
  - intros p l. rewrite om_upsert_elem by done. intros [[-> ->]|[_ ?]]; [|by eauto].
    by destruct (default _ _).
  - intros p l n'. rewrite om_upsert_elem by done. intros [[-> ->]|[_ ?]] Hin; [|by eauto].
    apply elem_of_app in Hin as [Hin|?%list_elem_of_singleton]; [|by subst].
    destruct (om_find lt _ m) eqn:Hf; [|by apply elem_of_nil in Hin].
    rewrite om_find_elem in Hf by done. by eapply Hr.
Qed.

(** A new order goes behind every order of its side priced at least as well:
    price priority first, arrival second. *)
Fixpoint insert_prio (lt : Z → Z → bool) (o : Order) (l : list Order) : list Order :=
  match l with
  | [] => [o]
  | x :: l' => if lt (price_ o) (price_ x) then o :: l else x :: insert_prio lt o l'
  end.

Lemma insert_prio_app lt o l k :
  Forall (λ x, lt (price_ o) (price_ x) = false) l →
  insert_prio lt o (l ++ k) = l ++ insert_prio lt o k.
Proof. induction 1 as [|x l Hx _ IH]; simpl; [done|]. by rewrite Hx, IH. Qed.

Lemma insert_prio_front lt o l :
  Forall (λ x, lt (price_ o) (price_ x) = true) l → insert_prio lt o l = o :: l.
Proof. destruct 1 as [|x l Hx ?]; simpl; [done|]. by rewrite Hx. Qed.

Lemma insert_prio_perm lt o l : insert_prio lt o l ≡ₚ o :: l.
Proof.
  induction l as [|x l IH]; simpl; [done|]. destruct (lt _ _); [done|].
  rewrite IH. by apply Permutation_swap.
Qed.

Lemma flat_push_level lt s `{!StrictTotal lt} n m :
  side_ok lt s m →
  elem <$> flat (push_level lt n m) = insert_prio lt (elem n) (elem <$> flat m).
Proof.
  unfold push_level. set (p := price_ (elem n)).
  induction m as [|[k v] m IH]; intros Hok; simpl; [done|].
  apply side_ok_cons in Hok as (Hok & Hv & Hr & Hall); [|done].
  assert (∀ b, lt p k = b → Forall (λ x, lt p (price_ x) = b) (elem <$> v)) as Hvk.
  { intros b Hb. rewrite Forall_fmap, Forall_forall. intros x Hx.
    destruct (Hr x Hx) as (_ & _ & Hp & _). unfold compose. by rewrite Hp. }
  assert (∀ q, lt p q = true ∨ p = q → Forall (λ e, lt q e.1 = true) m →
    Forall (λ x, lt p (price_ x) = true) (elem <$> flat m)) as Hm.
  { intros q Hq Hqa. rewrite Forall_fmap, Forall_forall. intros x Hx. unfold compose.
    pose proof (flat_above lt s q m x Hok Hqa Hx).
    destruct Hq as [?| ->]; [by eapply st_trans|done]. }
  destruct (lt p k) eqn:H1; [|destruct (lt k p) eqn:H2]; rewrite !flat_cons, ?fmap_app.
  - simpl. rewrite insert_prio_front; [done|]. apply Forall_app. eauto.
  - rewrite IH by done. by rewrite insert_prio_app by auto.
  - pose proof (st_total _ _ H1 H2) as <-. simpl.
    rewrite insert_prio_app by auto. rewrite insert_prio_front by eauto. 
    by rewrite <- app_assoc.
Qed.

Lemma flat_push_level_perm lt s `{!StrictTotal lt} n m :
  side_ok lt s m → flat (push_level lt n m) ≡ₚ n :: flat m.
Proof.
  unfold push_level. set (p := price_ (elem n)).
  induction m as [|[k v] m IH]; intros Hok; simpl; [done|].
  apply side_ok_cons in Hok as (Hok & _); [|done].
  destruct (lt p k), (lt k p); rewrite !flat_cons; try done.
  - rewrite IH by done. by rewrite Permutation_middle.
  - rewrite <- app_assoc. simpl. by rewrite Permutation_middle.
Qed.

(** ** [erase_level] *)

Lemma flat_app m1 m2 : flat (m1 ++ m2) = flat m1 ++ flat m2.
Proof. apply bind_app. Qed.

Lemma list_erase_live n l : n ∈ l → is_Some (list_erase (addr n) l).
Proof.
  induction l as [|x l IH]; simpl; [by intros ?%elem_of_nil|].
  intros [->|Hn]%elem_of_cons; [by rewrite Nat.eqb_refl|].
  destruct (Nat.eqb _ _); [done|]. destruct (IH Hn) as [l' ->]. done.
Qed.

Lemma list_erase_inv pos l l' : list_erase pos l = Some l' →
  ∃ l1 n l2, l = l1 ++ n :: l2 ∧ l' = l1 ++ l2 ∧ addr n = pos.
Proof.
  revert l'. induction l as [|x l IH]; intros l'; simpl; [done|].
  destruct (Nat.eqb_spec (addr x) pos).
  - intros [= <-]. by exists [], x, l.
  - intros (l0 & Hl0 & ->)%fmap_Some_1.
    destruct (IH _ Hl0) as (l1 & n' & l2 & -> & -> & ?). by exists (x :: l1), n', l2.
Qed.

Definition drop_addr (a : nat) (l : list node) : list node := filter (λ x, addr x ≠ a) l.

Lemma drop_addr_notin a l : a ∉ addr <$> l → drop_addr a l = l.
Proof.
  intros Ha. unfold drop_addr. induction l as [|x l IH]; [done|].
  rewrite filter_cons_True by set_solver. rewrite IH; [done|set_solver].
Qed.

Lemma drop_addr_middle n l1 l2 :
  NoDup (addr <$> l1 ++ n :: l2) → drop_addr (addr n) (l1 ++ n :: l2) = l1 ++ l2.
Proof.
  intros Hnd. rewrite fmap_app, fmap_cons in Hnd.
  apply NoDup_app in Hnd as (_ & Hdis & [Hn _]%NoDup_cons).
  unfold drop_addr. rewrite filter_app, filter_cons_False by naive_solver.
  f_equal; apply drop_addr_notin; set_solver.
Qed.

Lemma erase_level_spec lt s `{!StrictTotal lt} m n :
  side_ok lt s m → NoDup (addr <$> flat m) → n ∈ flat m →
  ∃ m', erase_level lt (price_ (elem n)) (addr n) m = Some m' ∧ side_ok lt s m' ∧
    flat m' = drop_addr (addr n) (flat m).
Proof.
  intros Hok Hnd Hn. pose proof Hok as [Hs Hne Hr].
  destruct (flat_in_level _ _ _ _ Hok Hn) as (l & Hl & Hnl).
  pose proof (proj2 (om_find_elem lt _ _ _ Hs) Hl) as Hf.
  destruct (om_focus lt _ _ _ Hs Hf) as (m1 & m2 & Hm & Hu & He).
  destruct (list_erase_live _ _ Hnl) as [l' Hl'].
  destruct (list_erase_inv _ _ _ Hl') as (l1 & n' & l2 & -> & -> & Ha).
  assert (flat m1 ++ (l1 ++ l2) ++ flat m2 = drop_addr (addr n) (flat m)) as Hflat.
  { assert (flat m = (flat m1 ++ l1) ++ n' :: (l2 ++ flat m2)) as Heq.
    { rewrite Hm, flat_app, flat_cons, <- !app_assoc. done. }
    rewrite Heq in Hnd |- *. rewrite <- Ha, drop_addr_middle by done.
    by rewrite <- !app_assoc. }
  unfold erase_level. rewrite Hf. simpl. rewrite Hl'. simpl. rewrite Hu.
  destruct (l1 ++ l2) as [|x l'] eqn:Hl12; eexists; (split; [done|]).
  - rewrite He, flat_app. simpl in Hflat. split; [|done].
    rewrite <- (He (l1 ++ n' :: l2)), <- Hm. split.
    + by apply om_erase_sorted.
    + intros p k. rewrite om_erase_elem by done. intros [_ ?]. eauto.
    + intros p k z. rewrite om_erase_elem by done. intros [_ ?] ?. eauto.
  - rewrite flat_app, flat_cons. split; [|done].
    rewrite <- (Hu [] (λ _, x :: l')). split.
    + by apply om_upsert_sorted.
    + intros p k. rewrite om_upsert_elem by done. intros [[_ ->]|[_ ?]]; eauto.
    + intros p k z. rewrite om_upsert_elem by done. intros [[-> ->]|[_ ?]] Hz; [|by eauto].
      apply (Hr _ _ _ Hl). rewrite <- Hl12 in Hz. set_solver.
Qed.
