(* ===== verification/BookSpec.v ===== *)
(** * The order book against its abstract specification

    [SpecBook] is what a client of the book sees: for each side the resting
    orders in priority order.  The theorems show that [add_order],
    [cancel_order], [best_bid] and [best_ask] preserve the representation
    invariant and implement the specification. *)

From S2P Require Import Prelude Outcome OrdMap Order OrderBook.

Record SpecBook := mkSpec { sb_bids : list Order; sb_asks : list Order }.

Definition abs (b : OrderBook) : SpecBook :=
  mkSpec (elem <$> flat (bids_ b)) (elem <$> flat (asks_ b)).

Definition spec_orders (sb : SpecBook) : list Order := sb_bids sb ++ sb_asks sb.

Definition spec_add (o : Order) (sb : SpecBook) : SpecBook :=
  match orderType_ o, side_ o with
  | LIMIT, BID => mkSpec (insert_prio price_greater o (sb_bids sb)) (sb_asks sb)
  | LIMIT, ASK => mkSpec (sb_bids sb) (insert_prio price_less o (sb_asks sb))
  | _, _ => sb
  end.

Definition drop_id (id : Z) (l : list Order) : list Order := filter (λ o, id_ o ≠ id) l.

Definition spec_cancel (id : Z) (sb : SpecBook) : SpecBook :=
  mkSpec (drop_id id (sb_bids sb)) (drop_id id (sb_asks sb)).

(** The index answers for exactly the resting ids. *)
Definition spec_resting (id : Z) (sb : SpecBook) : Prop := id ∈ id_ <$> spec_orders sb.

#[export] Instance spec_resting_dec id sb : Decision (spec_resting id sb).
Proof. unfold spec_resting. apply _. Defined.

(** No resting bid could trade with a resting ask. *)
Definition uncrossed (sb : SpecBook) : Prop :=
  ∀ x y, x ∈ sb_bids sb → y ∈ sb_asks sb → price_ x < price_ y.

(** A queue in price order: no order is priced better than one before it. *)
Definition price_sorted (lt : Z → Z → bool) (l : list Order) : Prop :=
  StronglySorted (λ x y, lt (price_ y) (price_ x) = false) l.

(** The orders [add_order] links into the book. *)
Definition rests (o : Order) : Prop := orderType_ o = LIMIT ∧ (side_ o = BID ∨ side_ o = ASK).

#[export] Instance rests_dec o : Decision (rests o).
Proof. unfold rests. apply _. Defined.

(** ** The empty book *)

Lemma empty_book_ok : book_ok empty_book.
Proof.
  split; simpl; try apply side_ok_nil.
  - constructor.
  - intros n ?%elem_of_nil. done.
  - intros id loc. by rewrite lookup_empty.
Qed.

Lemma empty_book_indexed : book_indexed empty_book.
Proof. intros n ?%elem_of_nil. done. Qed.

(** ** [add_order] *)

Lemma add_order_limit_bid o b : orderType_ o = LIMIT → side_ o = BID →
  add_order o b = Ok (mkBook (push_level price_greater (Node (next_addr b) o) (bids_ b)) (asks_ b)
    (<[id_ o := mkLoc BID (price_ o) (next_addr b)]> (order_map_ b)) (S (next_addr b))) tt.
Proof.
  intros Ht Hs. unfold add_order. rewrite Ht, Hs, bool_decide_eq_true_2 by done.
  rewrite bool_decide_eq_false_2, bool_decide_eq_true_2 by done. done.
Qed.

Lemma add_order_limit_ask o b : orderType_ o = LIMIT → side_ o = ASK →
  add_order o b = Ok (mkBook (bids_ b) (push_level price_less (Node (next_addr b) o) (asks_ b))
    (<[id_ o := mkLoc ASK (price_ o) (next_addr b)]> (order_map_ b)) (S (next_addr b))) tt.
Proof.
  intros Ht Hs. unfold add_order. rewrite Ht, Hs, !bool_decide_eq_true_2 by done. done.
Qed.

Lemma add_order_other o b : ¬ rests o → add_order o b = Ok b tt.
Proof.
  unfold add_order, rests. intros H. repeat case_bool_decide; naive_solver.
Qed.

(** What linking a fresh node for [o] does to the whole book. *)
Record added (o : Order) (b b' : OrderBook) : Prop := {
  ad_nodes : all_nodes b' ≡ₚ Node (next_addr b) o :: all_nodes b;
  ad_map : order_map_ b' = <[id_ o := loc_of (Node (next_addr b) o)]> (order_map_ b);
  ad_addr : next_addr b' = S (next_addr b);
}.

Lemma added_ok o b b' : book_ok b → added o b b' →
  side_ok price_greater BID (bids_ b') → side_ok price_less ASK (asks_ b') → book_ok b'.
Proof.
  intros [_ _ Hnd Hfr Hix] [Hn Hm Ha] Hb' Ha'. split; [done..| | |].
  - rewrite Hn, fmap_cons. constructor; [|done]. simpl.
    intros (n & Heq & Hin)%list_elem_of_fmap. apply Hfr in Hin. lia.
  - intros n. rewrite Hn, Ha. intros [->|Hin]%elem_of_cons; simpl; [lia|].
    apply Hfr in Hin. lia.
  - intros id loc. rewrite Hm, lookup_insert. case_decide; intros; simplify_eq.
    + exists (Node (next_addr b) o). rewrite Hn. split; [by left|done].
    + destruct (Hix _ _ H0) as (n & Hin & ? & ?). exists n. rewrite Hn. set_solver.
Qed.

Lemma added_indexed o b b' : book_indexed b → added o b b' →
  id_ o ∉ id_ <$> (elem <$> all_nodes b) → book_indexed b'.
Proof.
  intros Hix [Hn Hm _] Hid n. rewrite Hn, Hm. intros [->|Hin]%elem_of_cons; simpl.
  - by rewrite lookup_insert_eq.
  - rewrite lookup_insert_ne; [by apply Hix|]. intros Heq. apply Hid. rewrite Heq.
    apply list_elem_of_fmap_2, list_elem_of_fmap_2, Hin.
Qed.

Lemma add_order_added o b : book_ok b → order_valid o → rests o →
  ∃ b', add_order o b = Ok b' tt ∧ added o b b' ∧ book_ok b' ∧ abs b' = spec_add o (abs b).
Proof.
  intros Hok Hv [Ht [Hs|Hs]].
  - rewrite (add_order_limit_bid o b Ht Hs). eexists. split; [done|].
    set (b' := mkBook _ _ _ _). assert (added o b b') as Had.
    { split; unfold loc_of; simpl; [|by rewrite Hs|done].
      unfold all_nodes; simpl. by rewrite (flat_push_level_perm _ BID) by apply Hok. }
    split_and!; [done| |].
    + eapply added_ok; [done..| |apply Hok]. simpl. apply push_level_ok; [apply _| |apply Hok].
      by split_and!.
    + unfold abs, spec_add. rewrite Ht, Hs. simpl. by rewrite (flat_push_level _ BID) by apply Hok.
  - rewrite (add_order_limit_ask o b Ht Hs). eexists. split; [done|].
    set (b' := mkBook _ _ _ _). assert (added o b b') as Had.
    { split; unfold loc_of; simpl; [|by rewrite Hs|done].
      unfold all_nodes; simpl. rewrite (flat_push_level_perm _ ASK) by apply Hok.
      by rewrite Permutation_middle. }
    split_and!; [done| |].
    + eapply added_ok; [done..|apply Hok|]. simpl. apply push_level_ok; [apply _| |apply Hok].
      by split_and!.
    + unfold abs, spec_add. rewrite Ht, Hs. simpl. by rewrite (flat_push_level _ ASK) by apply Hok.
Qed.

Lemma spec_add_other o sb : ¬ rests o → spec_add o sb = sb.
Proof. unfold spec_add, rests. destruct (orderType_ o), (side_ o); naive_solver. Qed.

(** ** [cancel_order] *)

(** What unlinking node [n] and its index entry does to the book. *)
Record removed (n : node) (b b' : OrderBook) : Prop := {
  rm_bids : flat (bids_ b') = drop_addr (addr n) (flat (bids_ b));
  rm_asks : flat (asks_ b') = drop_addr (addr n) (flat (asks_ b));
  rm_map : order_map_ b' = delete (id_ (elem n)) (order_map_ b);
  rm_addr : next_addr b' = next_addr b;
}.

Lemma drop_addr_elem a l n : n ∈ drop_addr a l ↔ addr n ≠ a ∧ n ∈ l.
Proof. unfold drop_addr. by rewrite list_elem_of_filter. Qed.

Lemma removed_nodes n b b' : removed n b b' → all_nodes b' = drop_addr (addr n) (all_nodes b).
Proof.
  intros [Hb Ha _ _]. unfold all_nodes, drop_addr. rewrite Hb, Ha. by rewrite filter_app.
Qed.

Lemma NoDup_drop_addr a l : NoDup (addr <$> l) → NoDup (addr <$> drop_addr a l).
Proof.
  intros Hnd. eapply sublist_NoDup; [done|].
  apply fmap_sublist, sublist_filter.
Qed.

Lemma removed_ok n b b' : book_ok b → n ∈ all_nodes b →
  (∀ i loc, order_map_ b !! i = Some loc → i ≠ id_ (elem n) → list_position loc ≠ addr n) →
  removed n b b' →
  side_ok price_greater BID (bids_ b') → side_ok price_less ASK (asks_ b') → book_ok b'.
Proof.
  intros [_ _ Hnd Hfr Hix] Hin Hsep Hrm Hb' Ha'.
  pose proof (removed_nodes _ _ _ Hrm) as Hn. destruct Hrm as [_ _ Hm Had].
  split; [done..| | |].
  - rewrite Hn. by apply NoDup_drop_addr.
  - intros x. rewrite Hn, Had, drop_addr_elem. intros [_ ?]. auto.
  - intros id loc. rewrite Hm. intros [Hne Hl]%lookup_delete_Some.
    destruct (Hix _ _ Hl) as (x & Hx & Hid & Hloc). exists x. rewrite Hn, drop_addr_elem.
    split_and!; try done. specialize (Hsep _ _ Hl ltac:(congruence)). by subst loc.
Qed.

(** Entries of the index with different ids point to different nodes. *)
Lemma book_ok_index_sep b n : book_ok b → n ∈ all_nodes b →
  ∀ i loc, order_map_ b !! i = Some loc → i ≠ id_ (elem n) → list_position loc ≠ addr n.
Proof.
  intros Hok Hin i loc Hl Hne Heq. destruct (bo_index _ Hok _ _ Hl) as (x & Hx & Hid & <-).
  apply Hne. rewrite <- Hid. do 2 f_equal.
  apply (NoDup_fmap_inj addr (all_nodes b)); [apply Hok|done..].
Qed.

Lemma side_of_node b n : book_ok b → n ∈ all_nodes b →
  (side_ (elem n) = BID ∧ n ∈ flat (bids_ b)) ∨ (side_ (elem n) = ASK ∧ n ∈ flat (asks_ b)).
Proof.
  intros Hok [Hn|Hn]%elem_of_app.
  - left. destruct (flat_resting _ _ _ _ (bo_bids _ Hok) Hn) as (_ & ? & _). done.
  - right. destruct (flat_resting _ _ _ _ (bo_asks _ Hok) Hn) as (_ & ? & _). done.
Qed.

Lemma flat_NoDup b : book_ok b →
  NoDup (addr <$> flat (bids_ b)) ∧ NoDup (addr <$> flat (asks_ b)) ∧
  (∀ a, a ∈ addr <$> flat (bids_ b) → a ∉ addr <$> flat (asks_ b)).
Proof.
  intros Hok. pose proof (bo_nodup _ Hok) as H. unfold all_nodes in H.
  rewrite fmap_app in H. apply NoDup_app in H as (? & ? & ?). naive_solver.
Qed.

Lemma cancel_order_missing id b : order_map_ b !! id = None →
  cancel_order id b = Throw b (invalid_argument "order id not found in the book").
Proof. intros H. unfold cancel_order, bind, get. by rewrite H. Qed.

Lemma cancel_order_removed id loc b : book_ok b → order_map_ b !! id = Some loc →
  ∃ n b', cancel_order id b = Ok b' tt ∧ n ∈ all_nodes b ∧ id_ (elem n) = id ∧
    loc_of n = loc ∧ removed n b b' ∧ book_ok b'.
Proof.
  intros Hok Hl. destruct (bo_index _ Hok _ _ Hl) as (n & Hin & Hid & Hloc).
  destruct (flat_NoDup _ Hok) as (Hnb & Hna & Hdis).
  exists n. unfold cancel_order, bind, get. rewrite Hl. rewrite <- Hloc. simpl.
  pose proof (book_ok_index_sep b n Hok Hin) as Hsep.
  destruct (side_of_node b n Hok Hin) as [[Hs Hf]|[Hs Hf]]; rewrite Hs.
  - rewrite bool_decide_eq_false_2, bool_decide_eq_true_2 by done.
    destruct (erase_level_spec price_greater BID (bids_ b) n) as (m' & He & Hok' & Hfl);
      [apply Hok|done..|]. rewrite He. simpl. eexists. split; [done|].
    assert (removed n b (set_order_map (delete id (order_map_ b)) (set_bids m' b))) as Hrm.
    { split; simpl; [done| |by rewrite Hid|done]. rewrite drop_addr_notin; [done|].
      apply Hdis, list_elem_of_fmap_2, Hf. }
    split_and!; try done. eapply removed_ok; [done..| |]; simpl; [done|apply Hok].
  - rewrite bool_decide_eq_true_2 by done.
    destruct (erase_level_spec price_less ASK (asks_ b) n) as (m' & He & Hok' & Hfl);
      [apply Hok|done..|]. rewrite He. simpl. eexists. split; [done|].
    assert (removed n b (set_order_map (delete id (order_map_ b)) (set_asks m' b))) as Hrm.
    { split; simpl; [|done|by rewrite Hid|done]. rewrite drop_addr_notin; [done|].
      intros Ha. apply (Hdis (addr n)); [done|]. apply list_elem_of_fmap_2, Hf. }
    split_and!; try done. eapply removed_ok; [done..| |]; simpl; [apply Hok|done].
Qed.

(** ** Consequences of a complete index *)

Lemma spec_orders_abs b : spec_orders (abs b) = elem <$> all_nodes b.
Proof. unfold spec_orders, all_nodes. simpl. by rewrite fmap_app. Qed.

Lemma spec_resting_node id b :
  spec_resting id (abs b) ↔ ∃ n, n ∈ all_nodes b ∧ id_ (elem n) = id.
Proof.
  unfold spec_resting. rewrite spec_orders_abs, list_elem_of_fmap. setoid_rewrite list_elem_of_fmap. naive_solver.
Qed.

Lemma indexed_lookup id b : book_ok b → book_indexed b →
  is_Some (order_map_ b !! id) ↔ spec_resting id (abs b).
Proof.
  intros Hok Hix. rewrite spec_resting_node. split.
  - intros [loc Hl]. destruct (bo_index _ Hok _ _ Hl) as (n & ? & ? & _). eauto.
  - intros (n & Hn & <-). rewrite (Hix _ Hn). eauto.
Qed.

(** Under a complete index ids are unique. *)
Lemma indexed_id_inj b n n' : book_ok b → book_indexed b →
  n ∈ all_nodes b → n' ∈ all_nodes b → id_ (elem n) = id_ (elem n') → n = n'.
Proof.
  intros Hok Hix Hn Hn' Heq. apply (NoDup_fmap_inj addr (all_nodes b)); [apply Hok|done..|].
  pose proof (Hix _ Hn) as H1. pose proof (Hix _ Hn') as H2. rewrite Heq in H1.
  assert (loc_of n = loc_of n') as Hl by congruence. by injection Hl.
Qed.

Lemma removed_indexed n b b' : book_ok b → book_indexed b → n ∈ all_nodes b →
  removed n b b' → book_indexed b'.
Proof.
  intros Hok Hix Hn Hrm x. rewrite (removed_nodes _ _ _ Hrm), drop_addr_elem.
  intros [Hne Hx]. rewrite (rm_map _ _ _ Hrm), lookup_delete_ne; [by apply Hix|].
  intros Heq. apply Hne. f_equal. by eapply indexed_id_inj.
Qed.

Lemma drop_addr_id n l :
  (∀ x, x ∈ l → id_ (elem x) = id_ (elem n) ↔ addr x = addr n) →
  elem <$> drop_addr (addr n) l = drop_id (id_ (elem n)) (elem <$> l).
Proof.
  unfold drop_addr, drop_id. induction l as [|x l IH]; intros H; [done|].
  specialize (IH ltac:(set_solver)). pose proof (H x ltac:(set_solver)) as Hx.
  rewrite fmap_cons. destruct (decide (addr x = addr n)).
  - rewrite !filter_cons_False by naive_solver. done.
  - rewrite !filter_cons_True by naive_solver. rewrite fmap_cons. by rewrite IH.
Qed.

Lemma removed_abs n b b' : book_ok b → book_indexed b → n ∈ all_nodes b →
  removed n b b' → abs b' = spec_cancel (id_ (elem n)) (abs b).
Proof.
  intros Hok Hix Hn Hrm. unfold abs, spec_cancel. simpl.
  rewrite (rm_bids _ _ _ Hrm), (rm_asks _ _ _ Hrm).
  assert (∀ x, x ∈ all_nodes b → id_ (elem x) = id_ (elem n) ↔ addr x = addr n) as Hinj.
  { intros x Hx. split; intros Heq.
    - f_equal. by eapply indexed_id_inj.
    - do 2 f_equal. apply (NoDup_fmap_inj addr (all_nodes b)); [apply Hok|done..]. }
  unfold all_nodes in Hinj.
  rewrite !drop_addr_id; [done|intros; apply Hinj; set_solver..].
Qed.

Lemma drop_id_notin id l : id ∉ id_ <$> l → drop_id id l = l.
Proof.
  intros Ha. unfold drop_id. induction l as [|x l IH]; [done|].
  rewrite filter_cons_True by set_solver. rewrite IH; [done|set_solver].
Qed.

Lemma drop_id_insert_prio lt o l :
  id_ o ∉ id_ <$> l → drop_id (id_ o) (insert_prio lt o l) = l.
Proof.
  intros Hid. induction l as [|x l IH]; simpl.
  - unfold drop_id. by rewrite filter_cons_False by naive_solver.
  - destruct (lt _ _).
    + unfold drop_id at 1. rewrite filter_cons_False by naive_solver.
      by apply (drop_id_notin _ (x :: l)).
    + unfold drop_id. rewrite filter_cons_True by set_solver.
      f_equal. apply IH. set_solver.
Qed.

Lemma spec_cancel_add o sb : ¬ spec_resting (id_ o) sb →
  spec_cancel (id_ o) (spec_add o sb) = sb.
Proof.
  unfold spec_resting, spec_orders, spec_cancel, spec_add. destruct sb as [bids asks].
  rewrite fmap_app, elem_of_app. intros Hid.
  destruct (orderType_ o), (side_ o); simpl;
    rewrite ?drop_id_insert_prio by naive_solver; by rewrite ?drop_id_notin by naive_solver.
Qed.

(** The head level's price is attained, and every price of the side is the
    head's or comes after it. *)
Lemma head_extremal lt s `{!StrictTotal lt} (R : Z → Prop) p l m :
  side_ok lt s ((p, l) :: m) → (∀ q, q = p ∨ lt p q = true → R q) →
  (∃ o, o ∈ elem <$> flat ((p, l) :: m) ∧ price_ o = p) ∧
  ∀ o, o ∈ elem <$> flat ((p, l) :: m) → R (price_ o).
Proof.
  intros Hok HR. split.
  - apply side_ok_cons in Hok as (_ & Hl & Hr & _); [|done]. destruct l as [|n l]; [done|].
    exists (elem n). split; [by left|]. apply (Hr n). by left.
  - intros o (n & -> & Hn)%list_elem_of_fmap. apply HR.
    destruct (flat_in_level _ _ _ _ Hok Hn) as (l' & Hl' & _).
    by eapply om_head_least; [apply Hok|].
Qed.

(** The sides of a well-formed book are in price order. *)
Lemma flat_price_sorted lt s `{!StrictTotal lt} m : side_ok lt s m →
  price_sorted lt (elem <$> flat m).
Proof.
  induction m as [|[p l] m IH]; intros Hok; [constructor|].
  apply side_ok_cons in Hok as (Hok & _ & Hr & Hall); [|done].
  specialize (IH Hok). rewrite flat_cons, fmap_app.
  assert (∀ n, n ∈ flat m → lt (price_ (elem n)) p = false) as Hm.
  { intros n Hn. apply st_asym; [done|]. by eapply flat_above. }
  clear Hok Hall. induction l as [|n l IHl]; csimpl; [done|].
  destruct (Hr n ltac:(set_solver)) as (_ & _ & Hp & _).
  constructor; [apply IHl; set_solver|]. rewrite Hp. apply Forall_app. split.
  - rewrite Forall_fmap, Forall_forall. intros x Hx. unfold compose.
    destruct (Hr x ltac:(set_solver)) as (_ & _ & -> & _). apply st_irrefl.
  - rewrite Forall_fmap, Forall_forall. intros x Hx. by apply Hm.
Qed.

(** A quoted price is the price of a resting order. *)
Lemma best_quotes_attained b : book_ok b →
  (∀ p, best_bid b = Some p → ∃ o, o ∈ sb_bids (abs b) ∧ price_ o = p) ∧
  (∀ p, best_ask b = Some p → ∃ o, o ∈ sb_asks (abs b) ∧ price_ o = p).
Proof.
  intros [Hb Ha _ _ _]. unfold best_bid, best_ask, abs; simpl. split; intros q.
  - destruct (bids_ b) as [|[p l] m]; [done|]. intros [= <-].
    by apply (head_extremal _ _ (λ _, True) _ _ _ Hb).
  - destruct (asks_ b) as [|[p l] m]; [done|]. intros [= <-].
    by apply (head_extremal _ _ (λ _, True) _ _ _ Ha).
Qed.

(** ** Main theorems *)

(** C9: [add_order] never fails on a well-formed book; it preserves the
    representation invariant, places the order behind the orders of its side
    with at least as good a price (and ignores orders that do not rest), and
    keeps the index complete when the id is not resting already. *)
Theorem add_order_refines b o : book_ok b → order_valid o →
  ∃ b', add_order o b = Ok b' tt ∧ book_ok b' ∧ abs b' = spec_add o (abs b) ∧
    (book_indexed b → ¬ spec_resting (id_ o) (abs b) → book_indexed b').
Proof.
  intros Hok Hv. destruct (decide (rests o)) as [Hr|Hr].
  - destruct (add_order_added o b Hok Hv Hr) as (b' & He & Had & Hok' & Habs).
    exists b'. split_and!; try done. intros Hix Hid. eapply added_indexed; [done..|].
    contradict Hid. unfold spec_resting. by rewrite spec_orders_abs.
  - exists b. rewrite add_order_other, spec_add_other by done. done.
Qed.

(** C8: on a well-formed book with a complete index, [cancel_order id] succeeds
    exactly when [id] is resting; it then removes that order and nothing else,
    keeping the order of the rest, and preserves both invariants.  Otherwise it
    throws [invalid_argument] and leaves the book unchanged. *)
Theorem cancel_order_refines b id : book_ok b → book_indexed b →
  (spec_resting id (abs b) →
    ∃ b', cancel_order id b = Ok b' tt ∧ book_ok b' ∧ book_indexed b' ∧
      abs b' = spec_cancel id (abs b) ∧ ¬ spec_resting id (abs b')) ∧
  (¬ spec_resting id (abs b) →
    cancel_order id b = Throw b (invalid_argument "order id not found in the book")).
Proof.
  intros Hok Hix. split; intros Hr.
  - destruct (proj2 (indexed_lookup id b Hok Hix) Hr) as [loc Hl].
    destruct (cancel_order_removed id loc b Hok Hl) as (n & b' & He & Hn & Hid & _ & Hrm & Hok').
    assert (book_indexed b') as Hix' by by apply (removed_indexed n b).
    exists b'. split_and!; try done.
    + rewrite <- Hid. by apply removed_abs.
    + rewrite <- (indexed_lookup id b' Hok' Hix'), (rm_map _ _ _ Hrm), Hid.
      rewrite lookup_delete_eq. by intros [? ?].
  - apply cancel_order_missing. apply eq_None_not_Some. by rewrite indexed_lookup.
Qed.

(** C26: whatever the ids of the resting orders, [cancel_order] never
    dereferences a dangling list iterator: on a well-formed book it either
    throws without effect, or unlinks exactly one node, which carries the
    requested id. *)
Theorem cancel_order_memory_safe b id : book_ok b →
  (order_map_ b !! id = None ∧
   cancel_order id b = Throw b (invalid_argument "order id not found in the book")) ∨
  (∃ n b', cancel_order id b = Ok b' tt ∧ book_ok b' ∧ id_ (elem n) = id ∧
     all_nodes b ≡ₚ n :: all_nodes b').
Proof.
  intros Hok. destruct (order_map_ b !! id) as [loc|] eqn:Hl.
  - right. destruct (cancel_order_removed id loc b Hok Hl) as (n & b' & He & Hn & Hid & _ & Hrm & Hok').
    exists n, b'. split_and!; try done. rewrite (removed_nodes _ _ _ Hrm).
    pose proof (bo_nodup _ Hok) as Hnd.
    apply list_elem_of_split in Hn as (l1 & l2 & Heq). rewrite Heq in Hnd |- *.
    rewrite drop_addr_middle by done. by rewrite Permutation_middle.
  - left. split; [done|]. by apply cancel_order_missing.
Qed.

(** Adding an order whose id is not resting and cancelling it again gives
    back the same resting orders and the same index. *)
Lemma add_cancel_roundtrip b o :
  book_ok b → book_indexed b → order_valid o → rests o → ¬ spec_resting (id_ o) (abs b) →
  ∃ b1 b2, add_order o b = Ok b1 tt ∧ cancel_order (id_ o) b1 = Ok b2 tt ∧
    abs b2 = abs b ∧ order_map_ b2 = order_map_ b.
Proof.
  intros Hok Hix Hv Hr Hid.
  destruct (add_order_added o b Hok Hv Hr) as (b1 & He & Had & Hok1 & Habs).
  assert (order_map_ b1 !! id_ o = Some (loc_of (Node (next_addr b) o))) as Hl.
  { rewrite (ad_map _ _ _ Had). by apply lookup_insert_eq. }
  assert (book_indexed b1) as Hix1.
  { eapply added_indexed; [done..|]. contradict Hid. unfold spec_resting.
    by rewrite spec_orders_abs. }
  destruct (cancel_order_removed _ _ b1 Hok1 Hl) as (n & b2 & Hc & Hn & Hidn & _ & Hrm & Hok2).
  exists b1, b2. split_and!; try done.
  - rewrite (removed_abs n b1 b2), Hidn, Habs by done. by apply spec_cancel_add.
  - rewrite (rm_map _ _ _ Hrm), Hidn, (ad_map _ _ _ Had), delete_insert_eq.
    apply delete_id, eq_None_not_Some. by rewrite indexed_lookup.
Qed.

(** C40: the ids are not checked for uniqueness.  When an order is added under
    the id of a resting order, cancelling that id removes the newer one only:
    the older order stays in the book and can no longer be cancelled. *)
Theorem duplicate_id_orphans b n o :
  book_ok b → n ∈ all_nodes b → order_valid o → rests o → id_ o = id_ (elem n) →
  ∃ b1 b2, add_order o b = Ok b1 tt ∧ cancel_order (id_ o) b1 = Ok b2 tt ∧
    n ∈ all_nodes b2 ∧
    cancel_order (id_ o) b2 = Throw b2 (invalid_argument "order id not found in the book").
Proof.
  intros Hok Hn Hv Hr Hid.
  destruct (add_order_added o b Hok Hv Hr) as (b1 & He & Had & Hok1 & _).
  assert (order_map_ b1 !! id_ o = Some (loc_of (Node (next_addr b) o))) as Hl.
  { rewrite (ad_map _ _ _ Had). by apply lookup_insert_eq. }
  destruct (cancel_order_removed _ _ b1 Hok1 Hl) as (x & b2 & Hc & Hx & Hidx & Hlx & Hrm & Hok2).
  exists b1, b2. split_and!; try done.
  - rewrite (removed_nodes _ _ _ Hrm), drop_addr_elem, (ad_nodes _ _ _ Had).
    injection Hlx as _ _ ->. pose proof (bo_fresh _ Hok _ Hn). split; [lia|by right].
  - apply cancel_order_missing. rewrite (rm_map _ _ _ Hrm), Hidx. apply lookup_delete_eq.
Qed.

(** [best_bid] is the highest price among the resting bids and [best_ask]
    the lowest among the resting asks; each is [nullopt] exactly when its side
    is empty. *)
Lemma best_quotes_extremal b : book_ok b →
  match best_bid b with
  | Some p => (∃ o, o ∈ sb_bids (abs b) ∧ price_ o = p) ∧ ∀ o, o ∈ sb_bids (abs b) → price_ o <= p
  | None => sb_bids (abs b) = []
  end ∧
  match best_ask b with
  | Some p => (∃ o, o ∈ sb_asks (abs b) ∧ price_ o = p) ∧ ∀ o, o ∈ sb_asks (abs b) → p <= price_ o
  | None => sb_asks (abs b) = []
  end.
Proof.
  intros [Hb Ha _ _ _]. unfold best_bid, best_ask, abs; simpl. split.
  - destruct (bids_ b) as [|[p l] m]; [done|]. apply (head_extremal _ _ (λ q, q <= p) _ _ _ Hb).
    unfold price_greater. intros q [->|?%Z.ltb_lt]; lia.
  - destruct (asks_ b) as [|[p l] m]; [done|]. apply (head_extremal _ _ (λ q, p <= q) _ _ _ Ha).
    unfold price_less. intros q [->|?%Z.ltb_lt]; lia.
Qed.
