(* ===== verification/BookDepth.v ===== *)
(** * The depth display: [OrderBook::print_depth]

    What the display shows, stated on the resting orders: the first [n] price
    levels of each side with the total quantity at each price, the asks from
    the worst shown price down to the best. *)

From S2P Require Import Prelude Outcome OrdMap Order OrderBook BookSpec.

(** Consecutive orders of equal price, with their total quantity. *)
Fixpoint price_levels (l : list Order) : list (Z * Z) :=
  match l with
  | [] => []
  | o :: l' =>
      match price_levels l' with
      | (p, q) :: r =>
          if p =? price_ o then (p, quantity_ o + q) :: r
          else (price_ o, quantity_ o) :: (p, q) :: r
      | [] => [(price_ o, quantity_ o)]
      end
  end.

(** What is printed for one level: the total is kept in 32 bits. *)
Definition shown (row : Z * Z) : Z * Z := (row.1, u32 row.2).

Definition rows_text (tag : string) (rows : list (Z * Z)) : string :=
  foldr (λ row s, depth_row tag row +:+ s) "" rows.

Definition depth_text (n : nat) (sb : SpecBook) : string :=
  "---order book---" +:+ nl +:+
  rows_text " ASK " (rev (take n (shown <$> price_levels (sb_asks sb)))) +:+
  "--------------" +:+ nl +:+
  rows_text " BID " (take n (shown <$> price_levels (sb_bids sb))).

(** ** Lemmas *)

Lemma string_app_assoc (a b c : string) : (a +:+ b) +:+ c = a +:+ (b +:+ c).
Proof. induction a as [|x a IH]; [done|]. exact (f_equal (String x) IH). Qed.

Lemma string_app_nil (a : string) : a +:+ "" = a.
Proof. induction a as [|x a IH]; [done|]. exact (f_equal (String x) IH). Qed.

Lemma emit_rows tag rows out :
  for_each rows (λ row, emit (depth_row tag row)) out = Ok (out +:+ rows_text tag rows) tt.
Proof.
  revert out. induction rows as [|r rows IH]; intros out; cbn [for_each rows_text foldr].
  - by rewrite string_app_nil.
  - unfold bind, emit, modify at 1. rewrite IH. by rewrite string_app_assoc.
Qed.

Definition level_sum (l : list node) : Z := sum_Z ((λ n, quantity_ (elem n)) <$> l).

(** Adding up in 32 bits is adding up and truncating. *)
Lemma level_total_sum l : level_total l = u32 (level_sum l).
Proof.
  assert (∀ acc, u32 (foldl (λ a n, u32 (a + quantity_ (elem n))) acc l) =
    u32 (acc + level_sum l)) as H.
  { induction l as [|n l IH]; intros acc; cbn [foldl]; [by rewrite Z.add_0_r|].
    rewrite IH. change (level_sum (n :: l)) with (quantity_ (elem n) + level_sum l).
    unfold u32. rewrite Zplus_mod_idemp_l. f_equal. lia. }
  unfold level_total. specialize (H 0). rewrite Z.add_0_l in H. rewrite <- H.
  symmetry. destruct l as [|n l _] using rev_ind; [done|]. rewrite foldl_snoc. apply u32_id, u32_is_u32.
Qed.

Lemma depth_rows_take n m :
  depth_rows 0 (Z.of_nat n) m = take n ((λ '(p, l), (p, level_total l)) <$> m).
Proof.
  assert (∀ i, 0 <= i → depth_rows i (i + Z.of_nat n) m =
    take n ((λ '(p, l), (p, level_total l)) <$> m)) as H; [|by apply (H 0)].
  revert n. induction m as [|[p l] m IH]; intros n i Hi; cbn [depth_rows]; [by destruct n|].
  destruct n as [|n].
  - rewrite Z.add_0_r. by rewrite Z.ltb_irrefl.
  - rewrite (proj2 (Z.ltb_lt _ _)) by lia.
    replace (i + Z.of_nat (S n)) with (i + 1 + Z.of_nat n) by lia. by rewrite IH by lia.
Qed.

Lemma price_levels_level p l r :
  l ≠ [] → Forall (λ n, price_ (elem n) = p) l →
  match r with (p', _) :: _ => p' ≠ p | [] => True end →
  ∀ k, price_levels k = r → price_levels ((elem <$> l) ++ k) = (p, level_sum l) :: r.
Proof.
  intros Hne Hp Hr k Hk. induction Hp as [|n l Hn Hp IH]; [done|].
  destruct l as [|n' l].
  - cbn. rewrite Hk, Hn. unfold level_sum. cbn. rewrite Z.add_0_r.
    destruct r as [|[p' q'] r]; [done|]. by rewrite (proj2 (Z.eqb_neq _ _) Hr).
  - change (price_levels (elem n :: ((elem <$> n' :: l) ++ k)) = (p, level_sum (n :: n' :: l)) :: r).
    cbn [price_levels]. rewrite IH by done. by rewrite Hn, Z.eqb_refl.
Qed.

Lemma price_levels_flat lt s `{!StrictTotal lt} m : side_ok lt s m →
  price_levels (elem <$> flat m) = (λ '(p, l), (p, level_sum l)) <$> m.
Proof.
  induction m as [|[p l] m IH]; intros Hok; [done|].
  apply side_ok_cons in Hok as (Hok & Hl & Hr & Hall); [|done].
  rewrite flat_cons, fmap_app. cbn [fmap list_fmap].
  apply price_levels_level; [done| |destruct m as [|[p' l'] m]; [done|]|by apply IH].
  - apply Forall_forall. intros n Hn. by destruct (Hr n Hn) as (_ & _ & ? & _).
  - cbn. apply Forall_cons in Hall as [Hlt _]. intros ->. by rewrite st_irrefl in Hlt.
Qed.

Lemma shown_rows lt s `{!StrictTotal lt} n m : side_ok lt s m →
  depth_rows 0 (Z.of_nat n) m = take n (shown <$> price_levels (elem <$> flat m)).
Proof.
  intros Hok. rewrite depth_rows_take, (price_levels_flat lt s) by done. f_equal.
  rewrite <- list_fmap_compose. apply list_fmap_ext. intros ? [p l] _. cbn. unfold shown.
  by rewrite level_total_sum.
Qed.

(** A negative number of levels is not rejected up front: the header is
    written, and then the conversion of the negative size to [size_t] makes
    [vector::reserve] throw. *)
Lemma print_depth_negative_throws b n out :
  - 2 ^ 31 <= n < 0 →
  print_depth b n out = Throw (out +:+ "---order book---" +:+ nl) (length_error "vector::reserve").
Proof.
  intros Hn. unfold print_depth, emit at 1, bind, modify, vector_reserve.
  rewrite (proj2 (Z.ltb_lt _ _)); [done|].
  assert (- 2 ^ 31 <= s32 (Z.of_nat (length (asks_ b))) < 2 ^ 31) as Hs.
  { unfold s32. pose proof (Z.mod_pos_bound (Z.of_nat (length (asks_ b)) + 2 ^ 31) (2 ^ 32)). lia. }
  set (k := Z.min _ _). assert (- 2 ^ 31 <= k < 0) as Hk by lia.
  change vector_max_size with 576460752303423487.
  unfold u64. rewrite <- (Z.mod_add k 1), Z.mod_small by lia. lia.
Qed.

(** ** Main theorems *)

(** On a well-formed book [print_depth(out, n)] with [n] not negative
    writes the first [n] price levels of each side: prices in order of
    priority for the bids and in the opposite order for the asks, each with
    the total resting quantity at that price modulo 2^32. *)
Lemma print_depth_shows_levels b n out : book_ok b →
  Z.of_nat n < 2 ^ 31 → Z.of_nat (length (asks_ b)) < 2 ^ 31 →
  print_depth b (Z.of_nat n) out = Ok (out +:+ depth_text n (abs b)) tt.
Proof.
  intros Hok Hn Hlen. unfold print_depth.
  unfold emit at 1, bind at 1, modify at 1.
  assert (vector_reserve (Z.min (Z.of_nat n) (s32 (Z.of_nat (length (asks_ b))))) =
    ret tt) as ->.
  { unfold vector_reserve, s32. rewrite Z.mod_small by lia.
    replace (_ + _ - _) with (Z.of_nat (length (asks_ b))) by lia.
    change vector_max_size with 576460752303423487.
    rewrite u64_id by width. by rewrite (proj2 (Z.ltb_ge _ _)) by lia. }
  rewrite bind_ret, (shown_rows price_less ASK), (shown_rows price_greater BID) by apply Hok.
  unfold bind at 1. rewrite emit_rows. unfold emit at 1, bind, modify. rewrite emit_rows.
  unfold depth_text. by rewrite !string_app_assoc.
Qed.
