(* ===== verification/MatchingEngine.v ===== *)
(** * The matching engine: [src/matching_engine.cpp]

    [match] has two mirrored branches, one per side of the incoming order.
    They differ in the map that is consumed, in the test that stops at a price
    that does not cross, and in which of the two ids is the buyer; the model
    writes the common loops once and takes these three as arguments.
    [high_resolution_clock] is a parameter [clock]: its [i]-th reading is
    [clock i], and the number of readings so far is part of the state. *)

From S2P Require Import Prelude Outcome OrdMap Order OrderBook.

(** ** State *)

(** The variables of the inner loop: [orders] is a reference to the level. *)
Record LevelLoop := mkLevelLoop {
  ll_orders : list node;
  ll_order_map : gmap Z OrderLocation;
  ll_remaining : Z;
  ll_trades : list Trade;
  ll_reads : nat;
}.

(** The variables of the outer loop. *)
Record MatchLoop := mkMatchLoop {
  ml_book : OrderBook;
  ml_remaining : Z;
  ml_trades : list Trade;
  ml_reads : nat;
}.

(** The state of a call: the shared book, the caller's [trades] vector and the
    clock. *)
Record Engine := mkEngine {
  eng_book : OrderBook;
  eng_trades : list Trade;
  eng_reads : nat;
}.

(** A side of the book as the loops use it. *)
Record side_access := mkAccess {
  sa_lt : Z → Z → bool;
  sa_get : OrderBook → levels;
  sa_set : levels → OrderBook → OrderBook;
}.

Definition asks_access : side_access := mkAccess price_less asks_ set_asks.
Definition bids_access : side_access := mkAccess price_greater bids_ set_bids.

(** ** Operations *)

Section engine.
Context (clock : nat → Z).

(** One iteration of the inner loop; [mk matched filled now] builds the trade. *)
Definition level_body (mk : Order → Z → Z → Trade) : M LevelLoop unit :=
  s <- get ;;
  match ll_orders s with
  | [] => undefined
  | matched :: rest =>
      let filled := Z.min (quantity_ (elem matched)) (ll_remaining s) in
      let trade := mk (elem matched) filled (u64 (clock (ll_reads s))) in
      let remaining := u32 (ll_remaining s - filled) in
      put (mkLevelLoop (ll_orders s) (ll_order_map s) remaining
             (ll_trades s ++ [trade]) (S (ll_reads s))) ;;;
      if quantity_ (elem matched) =? filled then
        modify (λ s', mkLevelLoop rest (delete (id_ (elem matched)) (ll_order_map s'))
                        (ll_remaining s') (ll_trades s') (ll_reads s'))
      else
        o <- or_throw (reduce_quantity filled (elem matched)) ;;
        modify (λ s', mkLevelLoop (Node (addr matched) o :: rest) (ll_order_map s')
                        (ll_remaining s') (ll_trades s') (ll_reads s'))
  end.

Definition level_cond (s : LevelLoop) : bool :=
  (0 <? ll_remaining s) && match ll_orders s with [] => false | _ => true end.

(** Each iteration pops an order or uses up the quantity, so one test more
    than there are orders is enough fuel. *)
Definition level_loop (mk : Order → Z → Z → Trade) : M LevelLoop unit := λ s,
  while (S (length (ll_orders s))) level_cond (level_body mk) s.

(** The level [levels[p]] as the inner loop's [orders], and back. *)
Definition level_of (acc : side_access) (p : Z) (b : OrderBook) : list node :=
  default [] (om_find (sa_lt acc) p (sa_get acc b)).

Definition enter_level (acc : side_access) (p : Z) (s : MatchLoop) : LevelLoop :=
  mkLevelLoop (level_of acc p (ml_book s)) (order_map_ (ml_book s))
    (ml_remaining s) (ml_trades s) (ml_reads s).

Definition leave_level (acc : side_access) (p : Z) (l : LevelLoop) (s : MatchLoop) : MatchLoop :=
  let b := ml_book s in
  mkMatchLoop
    (set_order_map (ll_order_map l)
       (sa_set acc (om_upsert (sa_lt acc) p [] (λ _, ll_orders l) (sa_get acc b)) b))
    (ll_remaining l) (ll_trades l) (ll_reads l).

(** [if (orders.empty()) levels.erase(p);] *)
Definition drop_empty_level (acc : side_access) (p : Z) : M MatchLoop unit :=
  modify (λ s,
    let b := ml_book s in
    match level_of acc p b with
    | [] => mkMatchLoop (sa_set acc (om_erase (sa_lt acc) p (sa_get acc b)) b)
              (ml_remaining s) (ml_trades s) (ml_reads s)
    | _ => s
    end).

(** One iteration of the outer loop; [beyond best] is the test that stops a
    limit order. *)
Definition match_body (acc : side_access) (beyond : Z → bool)
    (mk : Z → Order → Z → Z → Trade) (order : Order) : M MatchLoop ctl :=
  s <- get ;;
  match sa_get acc (ml_book s) with
  | [] => undefined
  | (best, _) :: _ =>
      if bool_decide (orderType_ order = LIMIT) && beyond best then ret Break
      else
        zoom (enter_level acc best) (leave_level acc best) (level_loop (mk best)) ;;;
        drop_empty_level acc best ;;;
        ret Next
  end.

Definition match_cond (acc : side_access) (s : MatchLoop) : bool :=
  (0 <? ml_remaining s) && match sa_get acc (ml_book s) with [] => false | _ => true end.

(** Each iteration removes a level, uses up the quantity or stops. *)
Definition match_loop (acc : side_access) (beyond : Z → bool)
    (mk : Z → Order → Z → Z → Trade) (order : Order) : M MatchLoop unit := λ s,
  while_brk (S (length (sa_get acc (ml_book s)))) (match_cond acc)
    (match_body acc beyond mk order) s.

(** What is left of a limit order is added to the book as a new [Order]. *)
Definition rest_order (order : Order) : M MatchLoop unit :=
  s <- get ;;
  if (0 <? ml_remaining s) && bool_decide (orderType_ order = LIMIT) then
    let now := clock (ml_reads s) in
    put (mkMatchLoop (ml_book s) (ml_remaining s) (ml_trades s) (S (ml_reads s))) ;;;
    remaining_order <- or_throw (Order_ctor now (id_ order) (price_ order) (ml_remaining s)
                                   (side_ order) (orderType_ order)) ;;
    zoom ml_book (λ b s', mkMatchLoop b (ml_remaining s') (ml_trades s') (ml_reads s'))
      (add_order remaining_order)
  else ret tt.

Definition bid_trade (order : Order) (best_ask : Z) (matched : Order) (filled now : Z) : Trade :=
  mkTrade best_ask (id_ order) (id_ matched) filled now.

Definition ask_trade (order : Order) (best_bid : Z) (matched : Order) (filled now : Z) : Trade :=
  mkTrade best_bid (id_ matched) (id_ order) filled now.

(** [MatchingEngine::match] *)
Definition match_ (order : Order) : M Engine unit :=
  zoom (λ e, mkMatchLoop (eng_book e) (quantity_ order) (eng_trades e) (eng_reads e))
       (λ s _, mkEngine (ml_book s) (ml_trades s) (ml_reads s))
    (if bool_decide (side_ order = BID) then
       match_loop asks_access (λ best_ask, price_ order <? best_ask) (bid_trade order) order ;;;
       rest_order order
     else if bool_decide (side_ order = ASK) then
       match_loop bids_access (λ best_bid, best_bid <? price_ order) (ask_trade order) order ;;;
       rest_order order
     else ret tt).
End engine.
