(* ===== verification/MatchSpec.v ===== *)
(** * Specification of matching, and facts about it

    Price-time priority as a function on lists: the incoming order meets the
    resting orders of the other side in priority order, stops at the first one
    that does not cross, and fills each as far as its quantity goes. *)

From S2P Require Import Prelude Outcome OrdMap Order OrderBook BookSpec MatchingEngine.

(** ** Filling a queue of resting orders *)

(** [fill] runs on orders (the specification) and on list nodes (the code). *)
Class Resting (A : Type) := {
  r_order : A → Order;
  r_reduce : Z → A → A;
  r_reduce_order q a : r_order (r_reduce q a) = set_quantity q (r_order a);
}.

#[export] Instance Resting_Order : Resting Order :=
  { r_order o := o; r_reduce := set_quantity; r_reduce_order q a := eq_refl }.
#[export] Instance Resting_node : Resting node :=
  { r_order := elem; r_reduce q n := Node (addr n) (set_quantity q (elem n));
    r_reduce_order q a := eq_refl }.

(** The fills (order before the fill, quantity taken), what is left of the
    queue, and the quantity that found no counterparty. *)
Fixpoint fill {A} `{!Resting A} (q : Z) (l : list A) : list (Order * Z) * list A * Z :=
  match l with
  | [] => ([], [], q)
  | a :: l' =>
      let avail := quantity_ (r_order a) in
      if q <=? 0 then ([], l, q)
      else if avail <=? q then
        let '(fs, r, q') := fill (q - avail) l' in ((r_order a, avail) :: fs, r, q')
      else ([(r_order a, q)], r_reduce (avail - q) a :: l', 0)
  end.

(** ** The specification of [match] *)

(** A limit order trades at prices at least as good as its own, any other
    order at every price. *)
Definition crosses (o : Order) (p : Z) : bool :=
  negb (bool_decide (orderType_ o = LIMIT) &&
        match side_ o with BID => price_ o <? p | ASK => p <? price_ o | _ => false end).

Definition spec_fills (o : Order) (opp : list Order) : list (Order * Z) * list Order * Z :=
  let '(a, b) := span (λ x, crosses o (price_ x)) opp in
  let '(fs, r, q) := fill (quantity_ o) a in
  (fs, r ++ b, q).

(** Trades are stamped with successive clock readings, at the resting price. *)
Fixpoint spec_trades (clock : nat → Z) (mk : Z → Order → Z → Z → Trade) (reads : nat)
    (fs : list (Order * Z)) : list Trade :=
  match fs with
  | [] => []
  | (x, f) :: fs' => mk (price_ x) x f (u64 (clock reads)) :: spec_trades clock mk (S reads) fs'
  end.

(** The unfilled quantity of a limit order rests. *)
Definition spec_rest (clock : nat → Z) (o : Order) (q : Z) (reads : nat) (sb : SpecBook) :
    SpecBook * nat :=
  if (0 <? q) && bool_decide (orderType_ o = LIMIT) then
    (spec_add (mkOrder (u64 (clock reads)) (id_ o) (price_ o) q (side_ o) LIMIT) sb, S reads)
  else (sb, reads).

Definition spec_match (clock : nat → Z) (o : Order) (reads : nat) (sb : SpecBook) :
    SpecBook * list Trade * nat :=
  match side_ o with
  | BID =>
      let '(fs, asks, q) := spec_fills o (sb_asks sb) in
      let '(sb', n) := spec_rest clock o q (reads + length fs) (mkSpec (sb_bids sb) asks) in
      (sb', spec_trades clock (bid_trade o) reads fs, n)
  | ASK =>
      let '(fs, bids, q) := spec_fills o (sb_bids sb) in
      let '(sb', n) := spec_rest clock o q (reads + length fs) (mkSpec bids (sb_asks sb)) in
      (sb', spec_trades clock (ask_trade o) reads fs, n)
  | Side_unnamed _ => (sb, [], reads)
  end.

(** ** Facts about [fill] *)

Section fill.
Context {A : Type} `{!Resting A}.
Implicit Types (l r : list A) (q : Z) (fs : list (Order * Z)).

Definition full_fills (l : list A) : list (Order * Z) :=
  (λ a, (r_order a, quantity_ (r_order a))) <$> l.

Definition total (l : list A) : Z := sum_Z ((λ a, quantity_ (r_order a)) <$> l).

Definition positive (l : list A) : Prop := Forall (λ a, 0 < quantity_ (r_order a)) l.

Lemma total_nil : total [] = 0.
Proof. done. Qed.

Lemma total_cons a l : total (a :: l) = quantity_ (r_order a) + total l.
Proof. done. Qed.

Lemma total_app l r : total (l ++ r) = total l + total r.
Proof. unfold total. by rewrite fmap_app, sum_Z_app. Qed.

(** Either a prefix is consumed entirely and the quantity ends with it or the
    queue does, or a prefix is consumed and the next order partly. *)
Lemma fill_cases q l fs r q' : 0 <= q → positive l → fill q l = (fs, r, q') →
  (∃ l1, l = l1 ++ r ∧ fs = full_fills l1 ∧ q' = q - total l1 ∧ 0 <= q' ∧ (r = [] ∨ q' = 0)) ∨
  (∃ l1 x l2 p, l = l1 ++ x :: l2 ∧ fs = full_fills l1 ++ [(r_order x, p)] ∧
     r = r_reduce (quantity_ (r_order x) - p) x :: l2 ∧ q' = 0 ∧
     p = q - total l1 ∧ 0 < p < quantity_ (r_order x)).
Proof.
  intros Hq Hp. revert q fs r q' Hq. induction Hp as [|a l Ha Hp IH]; intros q fs r q' Hq; simpl.
  { intros [= <- <- <-]. left. exists []. rewrite total_nil. split_and!; [done|done|lia|lia|by left]. }
  destruct (q <=? 0) eqn:H1; bool_to_prop.
  { intros [= <- <- <-]. left. exists []. rewrite total_nil. split_and!; [done|done|lia|lia|right; lia]. }
  destruct (quantity_ (r_order a) <=? q) eqn:H2; bool_to_prop.
  - destruct (fill _ l) as [[fs1 r1] q1] eqn:Hf. intros [= <- <- <-].
    assert (0 <= q - quantity_ (r_order a)) as Hq1 by lia.
    destruct (IH _ _ _ _ Hq1 Hf) as
      [(l1 & -> & -> & -> & ? & ?)|(l1 & x & l2 & p & -> & -> & -> & -> & -> & ?)].
    + left. exists (a :: l1). rewrite total_cons.
      split_and!; [done|done|lia|lia|done].
    + right. exists (a :: l1), x, l2, (q - quantity_ (r_order a) - total l1).
      rewrite total_cons. split_and!; done || lia.
  - intros [= <- <- <-]. right. exists [], a, l, q. rewrite total_nil.
    split_and!; done || lia.
Qed.

Lemma fill_zero l : fill 0 l = ([], l, 0).
Proof. by destruct l. Qed.

Lemma fill_app q l k : fill q (l ++ k) =
  let '(fs, r, q') := fill q l in
  match r with
  | [] => let '(fs2, r2, q2) := fill q' k in (fs ++ fs2, r2, q2)
  | _ => (fs, r ++ k, q')
  end.
Proof.
  revert q. induction l as [|a l IH]; intros q; simpl.
  { by destruct (fill q k) as [[??]?]. }
  destruct (q <=? 0); [done|]. destruct (_ <=? q); [|done].
  rewrite IH. destruct (fill _ l) as [[fs [|x r]] q1]; [|done].
  by destruct (fill q1 k) as [[??]?].
Qed.

Lemma positive_app l r : positive (l ++ r) ↔ positive l ∧ positive r.
Proof. apply Forall_app. Qed.

(** Quantity is conserved on both sides of the trade. *)
Lemma fill_conserve q l fs r q' : 0 <= q → positive l → fill q l = (fs, r, q') →
  sum_Z fs.*2 + q' = q ∧ total l = sum_Z fs.*2 + total r.
Proof.
  intros Hq Hp Hf.
  assert (∀ k, sum_Z (full_fills k).*2 = total k) as Hfull.
  { intros k. unfold full_fills, total. by rewrite <- list_fmap_compose. }
  destruct (fill_cases _ _ _ _ _ Hq Hp Hf) as
    [(l1 & -> & -> & -> & ? & ?)|(l1 & x & l2 & p & -> & -> & -> & -> & Hpq & ?)].
  - rewrite Hfull, total_app. lia.
  - rewrite fmap_app, sum_Z_app, Hfull, total_app, !total_cons, r_reduce_order.
    simpl. lia.
Qed.

Lemma fill_bounds q l fs r q' : 0 <= q → positive l → fill q l = (fs, r, q') → 0 <= q' <= q.
Proof.
  intros Hq Hp Hf.
  destruct (fill_cases _ _ _ _ _ Hq Hp Hf) as
    [(l1 & -> & -> & -> & ? & ?)|(l1 & x & l2 & p & -> & -> & -> & -> & Hpq & ?)]; [|lia].
  apply positive_app in Hp as [Hp _].
  assert (0 <= total l1); [|lia]. apply sum_Z_nonneg. apply Forall_fmap.
  eapply Forall_impl; [exact Hp|]. unfold compose. simpl. lia.
Qed.

(** Every fill is of an order of the queue, for a positive quantity that the
    order has. *)
Lemma fill_sound q l fs r q' : 0 <= q → positive l → fill q l = (fs, r, q') →
  Forall (λ '(o, p), o ∈ r_order <$> l ∧ 0 < p <= quantity_ o) fs.
Proof.
  intros Hq Hp Hf.
  assert (∀ k, positive k → (∀ x, x ∈ k → x ∈ l) →
    Forall (λ '(o, p), o ∈ r_order <$> l ∧ 0 < p <= quantity_ o) (full_fills k)) as Hfull.
  { intros k Hk Hkl. unfold positive in Hk. unfold full_fills.
    rewrite Forall_fmap, Forall_forall in *. intros x Hx. unfold compose. split.
    - by apply list_elem_of_fmap_2, Hkl.
    - specialize (Hk x Hx). lia. }
  destruct (fill_cases _ _ _ _ _ Hq Hp Hf) as
    [(l1 & -> & -> & -> & ? & ?)|(l1 & x & l2 & p & -> & -> & -> & -> & Hpq & ?)].
  - apply Hfull; [by apply positive_app in Hp as [??]|set_solver].
  - apply Forall_app. split; [apply Hfull; [by apply positive_app in Hp as [??]|set_solver]|].
    apply Forall_singleton. split; [|lia]. rewrite fmap_app, fmap_cons. set_solver.
Qed.

Lemma fill_rest_zero q l fs r q' : 0 <= q → positive l → fill q l = (fs, r, q') →
  r ≠ [] → q' = 0.
Proof.
  intros Hq Hp Hf Hr. destruct (fill_cases _ _ _ _ _ Hq Hp Hf) as
    [(l1 & -> & -> & -> & ? & [?|?])|(l1 & x & l2 & p & -> & -> & -> & -> & ?)]; done.
Qed.
End fill.

(** Running on nodes and running on their orders agree. *)
Lemma fill_elem q (l : list node) :
  fill q (elem <$> l) = let '(fs, r, q') := fill q l in (fs, elem <$> r, q').
Proof.
  revert q. induction l as [|n l IH]; intros q; simpl; [done|].
  destruct (q <=? 0); [done|]. destruct (_ <=? q); [|done].
  rewrite IH. by destruct (fill _ l) as [[??]?].
Qed.

Lemma span_elem (P : Order → bool) (l : list node) :
  span P (elem <$> l) =
    let '(a, b) := span (λ n, P (elem n)) l in (elem <$> a, elem <$> b).
Proof.
  induction l as [|n l IH]; csimpl; [done|]. destruct (P (elem n)); [|done].
  rewrite IH. by destruct (span _ l).
Qed.
