(* ===== verification/MatchProof.v ===== *)
(** * [match] implements its specification

    The loops of [src/matching_engine.cpp] are shown to compute [spec_match]:
    they terminate within their fuel, never take an undefined step and never
    throw on a well-formed book. *)

From S2P Require Import Prelude Outcome OrdMap Order OrderBook BookSpec MatchingEngine MatchSpec.

(** The ids that leave the index: those of the orders filled entirely. *)
Definition del_ids (fs : list (Order * Z)) (m : gmap Z OrderLocation) : gmap Z OrderLocation :=
  foldl (λ m '(o, p), if quantity_ o =? p then delete (id_ o) m else m) m fs.

Lemma del_ids_app fs gs m : del_ids (fs ++ gs) m = del_ids gs (del_ids fs m).
Proof. apply foldl_app. Qed.

Lemma spec_trades_app clock mk reads fs gs :
  spec_trades clock mk reads (fs ++ gs) =
    spec_trades clock mk reads fs ++ spec_trades clock mk (reads + length fs) gs.
Proof.
  revert reads. induction fs as [|[x f] fs IH]; intros reads; simpl.
  - by rewrite Nat.add_0_r.
  - rewrite IH. by rewrite Nat.add_succ_r.
Qed.

(** The book with one side and the index replaced. *)
Definition on_side (acc : side_access) (m : levels) (i : gmap Z OrderLocation) (b : OrderBook) :
    OrderBook := set_order_map i (sa_set acc m b).

(** What the loops rely on when they go through an access record. *)
Class SideAccess (acc : side_access) (s : Side) : Prop := {
  sa_strict :: StrictTotal (sa_lt acc);
  sa_get_on m i b : sa_get acc (on_side acc m i b) = m;
  sa_map_on m i b : order_map_ (on_side acc m i b) = i;
  sa_set_on m' m i b : sa_set acc m' (on_side acc m i b) = on_side acc m' i b;
  sa_on_on m' i' m i b : on_side acc m' i' (on_side acc m i b) = on_side acc m' i' b;
  sa_on_eta b : on_side acc (sa_get acc b) (order_map_ b) b = b;
  sa_next m i b : next_addr (on_side acc m i b) = next_addr b;
  sa_nodes m i b : all_nodes (on_side acc m i b) ≡ₚ flat m ++ all_nodes (sa_set acc [] b);
  sa_side_ok b : book_ok b → side_ok (sa_lt acc) s (sa_get acc b);
  sa_sides_ok m i b : book_ok b → side_ok (sa_lt acc) s m →
    side_ok price_greater BID (bids_ (on_side acc m i b)) ∧
    side_ok price_less ASK (asks_ (on_side acc m i b));
}.

#[export] Instance asks_access_ok : SideAccess asks_access ASK.
Proof.
  split; try done; [apply _|by intros []| |by intros ? []|by intros ??? []].
  intros m i b. unfold all_nodes. simpl. rewrite app_nil_r. apply Permutation_app_comm.
Qed.

#[export] Instance bids_access_ok : SideAccess bids_access BID.
Proof. split; try done; [apply _|by intros []|by intros ? []|by intros ??? []]. Qed.

Section refine.
Context (clock : nat → Z).

(** ** The inner loop *)

Definition level_nodes_ok (best : Z) (l : list node) : Prop :=
  Forall (λ n, 0 < quantity_ (elem n) ∧ is_u32 (quantity_ (elem n)) ∧ price_ (elem n) = best) l.

Lemma level_body_pop mk n l idx q ts reads :
  0 < quantity_ (elem n) <= q → is_u32 q →
  level_body clock mk (mkLevelLoop (n :: l) idx q ts reads) =
  Ok (mkLevelLoop l (delete (id_ (elem n)) idx) (q - quantity_ (elem n))
        (ts ++ [mk (elem n) (quantity_ (elem n)) (u64 (clock reads))]) (S reads)) tt.
Proof.
  intros Hq Hu. unfold level_body, bind, get, put, modify. simpl.
  rewrite Z.min_l, Z.eqb_refl, u32_id by width. done.
Qed.

Lemma level_body_partial mk n l idx q ts reads :
  0 < q < quantity_ (elem n) → is_u32 (quantity_ (elem n)) →
  level_body clock mk (mkLevelLoop (n :: l) idx q ts reads) =
  Ok (mkLevelLoop (r_reduce (quantity_ (elem n) - q) n :: l) idx 0
        (ts ++ [mk (elem n) q (u64 (clock reads))]) (S reads)) tt.
Proof.
  intros Hq Hu. unfold level_body, bind, get, put, modify. simpl.
  rewrite Z.min_r, (proj2 (Z.eqb_neq _ _)), reduce_quantity_inr by width. simpl.
  by rewrite Z.sub_diag.
Qed.

Lemma level_loop_spec best mk l : level_nodes_ok best l →
  ∀ fuel q idx ts reads, (length l < fuel)%nat → is_u32 q →
  let '(fs, r, q') := fill q l in
  while fuel level_cond (level_body clock (mk best)) (mkLevelLoop l idx q ts reads) =
  Ok (mkLevelLoop r (del_ids fs idx) q' (ts ++ spec_trades clock mk reads fs)
        (reads + length fs)) tt.
Proof.
  induction 1 as [|n l (Hp & Hu & Hbest) Hl IH]; intros [|fuel] q idx ts reads Hfuel Hq;
    simpl in Hfuel; try lia; simpl.
  { unfold level_cond. simpl. rewrite andb_false_r, app_nil_r, Nat.add_0_r. done. }
  unfold level_cond at 1. simpl. rewrite andb_true_r.
  destruct (Z.leb_spec q 0).
  { rewrite (proj2 (Z.ltb_ge 0 q)) by lia. simpl. by rewrite app_nil_r, Nat.add_0_r. }
  rewrite (proj2 (Z.ltb_lt 0 q)) by lia.
  destruct (Z.leb_spec (quantity_ (elem n)) q).
  - rewrite (bind_Ok _ _ _ _ _ (level_body_pop (mk best) n l idx q ts reads ltac:(lia) Hq)).
    specialize (IH fuel (q - quantity_ (elem n)) (delete (id_ (elem n)) idx)
      (ts ++ [mk best (elem n) (quantity_ (elem n)) (u64 (clock reads))]) (S reads)
      ltac:(lia) ltac:(width)).
    destruct (fill _ l) as [[fs r] q'] eqn:Hf. rewrite IH. simpl.
    rewrite Z.eqb_refl, Hbest, <- app_assoc, Nat.add_succ_r. done.
  - rewrite (bind_Ok _ _ _ _ _ (level_body_partial (mk best) n l idx q ts reads ltac:(lia) Hu)).
    destruct fuel as [|fuel]; [lia|]. simpl.
    by rewrite (proj2 (Z.eqb_neq (quantity_ (elem n)) q)), Hbest, Nat.add_1_r by lia.
Qed.

(** What is left of a level is still made of resting orders. *)
Lemma level_rest_ok s p l q fs r q' : 0 <= q → (∀ n, n ∈ l → resting_ok s p (elem n)) →
  fill q l = (fs, r, q') → ∀ n, n ∈ r → resting_ok s p (elem n).
Proof.
  intros Hq Hl Hf. assert (positive l) as Hp.
  { apply Forall_forall. intros n Hn. apply (Hl n Hn). }
  destruct (fill_cases _ _ _ _ _ Hq Hp Hf) as
    [(l1 & -> & _)|(l1 & x & l2 & k & -> & _ & -> & _ & _ & Hk)].
  { intros n Hn. apply Hl. set_solver. }
  intros n [->|Hn]%elem_of_cons; [|apply Hl; set_solver].
  destruct (Hl x) as ([[] Hlim Hmk Hqt] & ? & ? & ?); [set_solver|].
  split_and!; simpl; try done. split; simpl; try done; [|simpl in Hk; lia].
  split; simpl; try done. simpl in Hk. width.
Qed.

(** ** The outer loop *)

Section outer.
Context (acc : side_access) (s : Side) `{!SideAccess acc s}.
Context (beyond : Z → bool) (mk : Z → Order → Z → Z → Trade) (order : Order).
Hypothesis beyond_mono : ∀ p q, sa_lt acc p q = true → beyond p = true → beyond q = true.

Definition crossing (n : node) : bool :=
  negb (bool_decide (orderType_ order = LIMIT) && beyond (price_ (elem n))).

Lemma level_nodes_resting p l m :
  side_ok (sa_lt acc) s ((p, l) :: m) → level_nodes_ok p l.
Proof.
  intros Hok. apply side_ok_cons in Hok as (_ & _ & Hr & _); [|apply _].
  apply Forall_forall. intros n Hn. destruct (Hr n Hn) as (Hv & _ & Hp & _).
  split_and!; [apply Hv|apply Hv|done].
Qed.

Lemma match_body_level p l m q idx ts reads b0 :
  side_ok (sa_lt acc) s ((p, l) :: m) → is_u32 q →
  bool_decide (orderType_ order = LIMIT) && beyond p = false →
  let '(fs, r, q') := fill q l in
  match_body clock acc beyond mk order (mkMatchLoop (on_side acc ((p, l) :: m) idx b0) q ts reads) =
  Ok (mkMatchLoop (on_side acc (match r with [] => m | _ => (p, r) :: m end) (del_ids fs idx) b0)
        q' (ts ++ spec_trades clock mk reads fs) (reads + length fs)) Next.
Proof.
  intros Hok Hq Hx. pose proof (level_nodes_resting _ _ _ Hok) as Hl.
  pose proof (level_loop_spec p mk l Hl (S (length l)) q idx ts reads (Nat.lt_succ_diag_r _) Hq) as Hloop.
  destruct (fill q l) as [[fs r] q'].
  unfold match_body, bind, get. cbn [ml_book]. rewrite sa_get_on, Hx.
  unfold zoom, level_loop, enter_level, level_of. cbn [ml_book ml_remaining ml_trades ml_reads ll_orders].
  rewrite sa_get_on, om_find_head, sa_map_on by apply _. cbn [default]. unfold id.
  rewrite Hloop. unfold leave_level. cbn [ml_book ll_orders ll_order_map ll_remaining ll_trades ll_reads].
  rewrite sa_get_on, om_upsert_head, sa_set_on by apply _.
  change (set_order_map (del_ids fs idx) (on_side acc ((p, r) :: m) idx b0))
    with (on_side acc ((p, r) :: m) (del_ids fs idx) b0).
  unfold drop_empty_level, level_of, modify, ret. cbn [ml_book ml_remaining ml_trades ml_reads].
  rewrite sa_get_on, om_find_head by apply _. cbn [default]. unfold id.
  destruct r; [|done]. rewrite om_erase_head, sa_set_on by apply _. done.
Qed.

Lemma match_body_break p l m q idx ts reads b0 :
  bool_decide (orderType_ order = LIMIT) && beyond p = true →
  let st := mkMatchLoop (on_side acc ((p, l) :: m) idx b0) q ts reads in
  match_body clock acc beyond mk order st = Ok st Break.
Proof.
  intros Hx. unfold match_body, bind, get. cbn [ml_book]. by rewrite sa_get_on, Hx.
Qed.

(** Once the head level does not cross, no order of the side does. *)
Lemma flat_not_crossing p l m : side_ok (sa_lt acc) s ((p, l) :: m) →
  bool_decide (orderType_ order = LIMIT) && beyond p = true →
  Forall (λ n, crossing n = false) (flat ((p, l) :: m)).
Proof.
  intros Hok [Ht Hb]%andb_true_iff. apply Forall_forall. intros n Hn. unfold crossing.
  rewrite Ht. simpl. destruct (flat_in_level _ _ _ _ Hok Hn) as (k & Hk & _).
  assert (beyond (price_ (elem n)) = true) as ->; [|done].
  destruct (om_head_least (sa_lt acc) p l m _ k (so_sorted _ _ _ Hok) Hk) as [->|Hlt];
    [done|by eapply beyond_mono].
Qed.

Lemma level_crossing p l m : side_ok (sa_lt acc) s ((p, l) :: m) →
  bool_decide (orderType_ order = LIMIT) && beyond p = false →
  Forall (λ n, crossing n = true) l.
Proof.
  intros Hok Hx. apply level_nodes_resting in Hok. eapply Forall_impl; [exact Hok|].
  intros n (_ & _ & Hp). unfold crossing. simpl. by rewrite Hp, Hx.
Qed.

Lemma match_cond_on p l m q idx ts reads b0 :
  match_cond acc (mkMatchLoop (on_side acc ((p, l) :: m) idx b0) q ts reads) = (0 <? q).
Proof. unfold match_cond. cbn [ml_book ml_remaining]. by rewrite sa_get_on, andb_true_r. Qed.

Lemma match_loop_spec b0 m : side_ok (sa_lt acc) s m →
  ∀ fuel q idx ts reads, (length m < fuel)%nat → is_u32 q →
  let '(a, z) := span crossing (flat m) in
  let '(fs, r, q') := fill q a in
  ∃ m', while_brk fuel (match_cond acc) (match_body clock acc beyond mk order)
          (mkMatchLoop (on_side acc m idx b0) q ts reads) =
        Ok (mkMatchLoop (on_side acc m' (del_ids fs idx) b0) q'
              (ts ++ spec_trades clock mk reads fs) (reads + length fs)) tt ∧
    side_ok (sa_lt acc) s m' ∧ flat m' = r ++ z.
Proof.
  induction m as [|[p l] m IH]; intros Hok [|fuel] q idx ts reads Hfuel Hq;
    simpl in Hfuel; try lia.
  { simpl. unfold match_cond. cbn [ml_book]. rewrite sa_get_on, andb_false_r.
    exists []. by rewrite app_nil_r, Nat.add_0_r. }
  cbn [while_brk]. rewrite match_cond_on.
  destruct (Z.ltb_spec 0 q) as [Hpos|Hneg]; cycle 1.
  { assert (q = 0) as -> by width. destruct (span crossing (flat ((p, l) :: m))) as [a z] eqn:Hsp.
    rewrite fill_zero. exists ((p, l) :: m). simpl. rewrite app_nil_r, Nat.add_0_r.
    split_and!; [done..|]. by apply (span_app crossing). }
  destruct (bool_decide (orderType_ order = LIMIT) && beyond p) eqn:Hx.
  { rewrite span_all_false by by apply flat_not_crossing.
    rewrite (bind_Ok _ _ _ _ _ (match_body_break p l m q idx ts reads b0 Hx)).
    exists ((p, l) :: m). simpl. by rewrite app_nil_r, Nat.add_0_r. }
  pose proof (match_body_level p l m q idx ts reads b0 Hok Hq Hx) as Hbody.
  pose proof (level_crossing p l m Hok Hx) as Hl.
  pose proof (level_nodes_resting p l m Hok) as Hln.
  apply side_ok_cons in Hok as (Hok & Hne & Hr & Hall); [|apply _].
  assert (positive l) as Hpl.
  { eapply Forall_impl; [exact Hln|]. by intros n (? & _). }
  rewrite flat_cons, span_app_true by done.
  destruct (span crossing (flat m)) as [a z] eqn:Hsp. cbn [fst snd].
  rewrite fill_app. destruct (fill q l) as [[fs r] q1] eqn:Hf.
  rewrite (bind_Ok _ _ _ _ _ Hbody). cbn beta iota.
  pose proof (fill_bounds q l fs r q1 ltac:(width) Hpl Hf) as Hb.
  destruct r as [|x r].
  - specialize (IH Hok fuel q1 (del_ids fs idx) (ts ++ spec_trades clock mk reads fs)
      (reads + length fs)%nat ltac:(lia) ltac:(width)).
    destruct (fill q1 a) as [[fs2 r2] q2]. destruct IH as (m' & -> & ? & ?).
    exists m'. split; [|done].
    by rewrite del_ids_app, spec_trades_app, length_app, app_assoc, Nat.add_assoc.
  - assert (q1 = 0) as -> by by eapply fill_rest_zero; [..|exact Hf|]; [width|..].
    destruct fuel as [|fuel]; [lia|]. cbn [while_brk]. rewrite match_cond_on. simpl.
    exists ((p, x :: r) :: m). split; [done|]. split.
    + apply side_ok_cons; [apply _|]. split_and!; [done..| |done].
      apply (level_rest_ok s p l q fs (x :: r) 0); [width|done..].
    + rewrite flat_cons. apply (span_app crossing) in Hsp. rewrite Hsp. simpl.
      by rewrite <- app_assoc.
Qed.
End outer.
End refine.

(** ** The book after the loops *)

(** A node that stayed in place, possibly with a smaller quantity. *)
Definition same_node (n n' : node) : Prop :=
  loc_of n' = loc_of n ∧ id_ (elem n') = id_ (elem n).

Lemma same_node_refl l : Forall2 same_node l l.
Proof. induction l; by constructor. Qed.

Definition node_id (n : node) : Z := id_ (elem n).

(** [fill] consumes a prefix and keeps the nodes after it; the index loses
    exactly the ids of the prefix. *)
Lemma fill_split q (l : list node) fs r q' : 0 <= q → positive l → fill q l = (fs, r, q') →
  ∃ l1 k, l = l1 ++ k ∧ Forall2 same_node k r ∧
    ∀ idx i loc, del_ids fs idx !! i = Some loc ↔ idx !! i = Some loc ∧ i ∉ node_id <$> l1.
Proof.
  intros Hq Hp Hf.
  assert (∀ l1 idx i loc, del_ids (full_fills l1) idx !! i = Some loc ↔
    idx !! i = Some loc ∧ i ∉ node_id <$> l1) as Hdel.
  { induction l1 as [|n l1 IH]; intros idx i loc; csimpl.
    - set_solver.
    - rewrite Z.eqb_refl. fold (del_ids (full_fills l1) (delete (id_ (elem n)) idx)).
      rewrite IH, lookup_delete_Some. unfold node_id. set_solver. }
  destruct (fill_cases _ _ _ _ _ Hq Hp Hf) as
    [(l1 & -> & -> & _)|(l1 & x & l2 & p & -> & -> & -> & _ & _ & Hx)].
  - exists l1, r. split_and!; [done|apply same_node_refl|done].
  - exists l1, (x :: l2). split_and!; [done|constructor; [done|apply same_node_refl]|].
    intros idx i loc. rewrite del_ids_app. simpl.
    rewrite (proj2 (Z.eqb_neq _ _)) by (simpl in Hx; lia). apply Hdel.
Qed.

Lemma same_node_fwd k k' n : Forall2 same_node k k' → n ∈ k → ∃ n', n' ∈ k' ∧ same_node n n'.
Proof. induction 1; [by intros ?%elem_of_nil|]. intros [->|?]%elem_of_cons; set_solver. Qed.

Lemma same_node_bwd k k' n' : Forall2 same_node k k' → n' ∈ k' → ∃ n, n ∈ k ∧ same_node n n'.
Proof. induction 1; [by intros ?%elem_of_nil|]. intros [->|?]%elem_of_cons; set_solver. Qed.

Lemma same_node_addr k k' : Forall2 same_node k k' → addr <$> k' = addr <$> k.
Proof.
  induction 1 as [|n n' k k' [Hl _] _ IH]; [done|]. csimpl. rewrite IH. f_equal.
  by injection Hl.
Qed.

Section consume.
Context (b b' : OrderBook) (l1 k k' other : list node).
Hypothesis Hok : book_ok b.
Hypothesis Hold : all_nodes b ≡ₚ (l1 ++ k) ++ other.
Hypothesis Hnew : all_nodes b' ≡ₚ k' ++ other.
Hypothesis Hsame : Forall2 same_node k k'.
Hypothesis Hmap : ∀ i loc,
  order_map_ b' !! i = Some loc ↔ order_map_ b !! i = Some loc ∧ i ∉ node_id <$> l1.

(** Every node of the new book is a node of the old one that was not consumed. *)
Lemma consume_origin n' : n' ∈ all_nodes b' →
  ∃ n, n ∈ all_nodes b ∧ ¬ (n ∈ l1) ∧ same_node n n'.
Proof using Hok Hold Hnew Hsame.
  clear Hmap.
  pose proof (bo_nodup _ Hok) as Hnd. rewrite Hold in Hnd.
  rewrite !fmap_app, <- app_assoc in Hnd. apply NoDup_app in Hnd as (_ & Hdis & _).
  assert (∀ n, n ∈ k ++ other → n ∉ l1) as Hout.
  { intros n Hn Hl. apply (Hdis (addr n)); [by apply list_elem_of_fmap_2|].
    rewrite <- fmap_app. by apply list_elem_of_fmap_2. }
  rewrite Hnew. setoid_rewrite Hold. intros [Hn|Hn]%elem_of_app.
  - destruct (same_node_bwd _ _ _ Hsame Hn) as (n & ? & ?). exists n. set_solver.
  - exists n'. split_and!; [set_solver..|done].
Qed.

Lemma consume_survivor n : n ∈ all_nodes b → n ∉ l1 → ∃ n', n' ∈ all_nodes b' ∧ same_node n n'.
Proof using Hold Hnew Hsame.
  clear Hmap Hok. rewrite Hold. setoid_rewrite Hnew. intros Hn Hl.
  assert (n ∈ k ∨ n ∈ other) as [Hk|Ho] by set_solver.
  - destruct (same_node_fwd _ _ _ Hsame Hk) as (n' & ? & ?). exists n'. set_solver.
  - exists n. split; [set_solver|done].
Qed.

Lemma consume_ok : next_addr b' = next_addr b →
  side_ok price_greater BID (bids_ b') → side_ok price_less ASK (asks_ b') → book_ok b'.
Proof.
  intros Hnext Hb' Ha'. split; [done..| | |].
  - rewrite Hnew, fmap_app, (same_node_addr _ _ Hsame), <- fmap_app.
    pose proof (bo_nodup _ Hok) as Hnd. rewrite Hold, <- app_assoc, fmap_app in Hnd.
    by apply NoDup_app in Hnd as (_ & _ & ?).
  - intros n' (n & Hn & _ & [Hl _])%consume_origin. rewrite Hnext.
    apply (bo_fresh _ Hok) in Hn. by injection Hl as _ _ ->.
  - intros i loc [Hl Hi]%Hmap. destruct (bo_index _ Hok _ _ Hl) as (n & Hn & Hid & Hloc).
    destruct (consume_survivor n Hn) as (n' & Hn' & [Hs1 Hs2]).
    { intros Hl1. apply Hi. rewrite <- Hid. by apply (list_elem_of_fmap_2 node_id). }
    exists n'. split_and!; [done|congruence|congruence].
Qed.

Lemma consume_indexed : book_indexed b → book_indexed b'.
Proof.
  intros Hix n' (n & Hn & Hl1 & [Hs1 Hs2])%consume_origin.
  apply Hmap. rewrite Hs1, Hs2. split; [by apply Hix|].
  intros (x & Hid & Hx)%list_elem_of_fmap. apply Hl1.
  rewrite (indexed_id_inj b n x); try done. rewrite Hold. set_solver.
Qed.
End consume.

(** ** The whole call *)

Section call.
Context (clock : nat → Z).

Lemma resting_positive lt s m : side_ok lt s m → positive (flat m).
Proof.
  intros Hok. apply Forall_forall. intros n Hn.
  destruct (flat_resting _ _ _ _ Hok Hn) as (Hv & _). apply Hv.
Qed.

(** The outer loop run on a whole book. *)
Lemma match_loop_book acc s `{!SideAccess acc s} beyond mk order b q ts reads :
  (∀ p p', sa_lt acc p p' = true → beyond p = true → beyond p' = true) →
  book_ok b → is_u32 q →
  let '(a, z) := span (crossing beyond order) (flat (sa_get acc b)) in
  let '(fs, r, q') := fill q a in
  ∃ m' i', match_loop clock acc beyond mk order (mkMatchLoop b q ts reads) =
         Ok (mkMatchLoop (on_side acc m' i' b) q' (ts ++ spec_trades clock mk reads fs)
               (reads + length fs)) tt ∧
    flat m' = r ++ z ∧ 0 <= q' <= q ∧ book_ok (on_side acc m' i' b) ∧
    (book_indexed b → book_indexed (on_side acc m' i' b)) ∧
    (∀ i, spec_resting i (abs (on_side acc m' i' b)) → spec_resting i (abs b)).
Proof.
  intros Hmono Hok Hq. pose proof (sa_side_ok b Hok) as Hside.
  pose proof (match_loop_spec clock acc s beyond mk order Hmono b (sa_get acc b) Hside
    (S (length (sa_get acc b))) q (order_map_ b) ts reads (Nat.lt_succ_diag_r _) Hq) as Hloop.
  rewrite sa_on_eta in Hloop.
  destruct (span _ (flat (sa_get acc b))) as [a z] eqn:Hsp.
  pose proof (resting_positive _ _ _ Hside) as Hp.
  apply (span_app (crossing beyond order)) in Hsp. rewrite Hsp in Hp.
  apply positive_app in Hp as [Hp _].
  destruct (fill q a) as [[fs r] q'] eqn:Hf. destruct Hloop as (m' & Hrun & Hok' & Hflat).
  destruct (fill_split q a fs r q') as (l1 & k & Ha & Hsame & Hdel); [width|done..|].
  set (i' := del_ids fs (order_map_ b)). set (b' := on_side acc m' i' b).
  assert (all_nodes b ≡ₚ (l1 ++ k ++ z) ++ all_nodes (sa_set acc [] b)) as Hold.
  { rewrite <- (sa_on_eta (acc := acc) b) at 1. rewrite sa_nodes, Hsp, Ha. by rewrite <- !app_assoc. }
  assert (all_nodes b' ≡ₚ (r ++ z) ++ all_nodes (sa_set acc [] b)) as Hnew.
  { unfold b'. by rewrite sa_nodes, Hflat. }
  assert (Forall2 same_node (k ++ z) (r ++ z)) as Hsame'.
  { by apply Forall2_app, same_node_refl. }
  assert (∀ i loc, order_map_ b' !! i = Some loc ↔
    order_map_ b !! i = Some loc ∧ i ∉ node_id <$> l1) as Hmap.
  { intros i loc. unfold b'. rewrite sa_map_on. apply Hdel. }
  exists m', i'. split_and!; [done|done|by eapply (fill_bounds q a); [width|..]..| | |].
  - destruct (sa_sides_ok m' i' b Hok Hok').
    eapply (consume_ok b b' l1 (k ++ z) (r ++ z)); try done. apply sa_next.
  - by eapply (consume_indexed b b' l1 (k ++ z) (r ++ z)).
  - intros i. rewrite !spec_resting_node. intros (n' & Hn' & Hid).
    destruct (consume_origin b b' l1 (k ++ z) (r ++ z) _ Hok Hold Hnew Hsame' n' Hn')
      as (n & ? & _ & [_ Hs2]). exists n. split; [done|congruence].
Qed.

(** The remainder of a limit order. *)
Lemma rest_order_spec order b q ts reads : book_ok b → order_valid order →
  0 <= q <= quantity_ order → side_ order = BID ∨ side_ order = ASK →
  ∃ b', let '(sb, n) := spec_rest clock order q reads (abs b) in
    rest_order clock order (mkMatchLoop b q ts reads) = Ok (mkMatchLoop b' q ts n) tt ∧
    book_ok b' ∧ abs b' = sb ∧
    (book_indexed b → ¬ spec_resting (id_ order) (abs b) → book_indexed b').
Proof.
  intros Hok [Hr Hl Hm Hq0] Hq Hs. unfold rest_order, spec_rest, bind, get, put.
  cbn [ml_remaining ml_reads ml_book ml_trades].
  destruct (Z.ltb_spec 0 q) as [Hpos|]; [|by exists b].
  destruct (decide (orderType_ order = LIMIT)) as [Ht|Ht].
  2:{ rewrite bool_decide_eq_false_2 by done. by exists b. }
  rewrite bool_decide_eq_true_2, Ht, Order_ctor_limit by auto. cbn [andb or_throw ret].
  set (o := mkOrder _ _ _ _ _ _). assert (order_valid o) as Hv.
  { destruct Hr. split; simpl; [|by intros _; apply Hl|done..].
    split; simpl; [apply u64_is_u64|done|done|width|done|by rewrite <- Ht]. }
  assert (rests o) as Hrs by by split.
  destruct (add_order_added o b Hok Hv Hrs) as (b' & Hadd & Had & Hok' & Habs).
  exists b'. unfold zoom. cbn [ml_book]. rewrite Hadd. split_and!; try done.
  intros Hix Hid. eapply added_indexed; [done..|]. contradict Hid. unfold spec_resting.
  by rewrite spec_orders_abs.
Qed.

Lemma spec_fills_nodes order beyond m :
  (∀ p, crosses order p = negb (bool_decide (orderType_ order = LIMIT) && beyond p)) →
  spec_fills order (elem <$> flat m) =
    let '(a, z) := span (crossing beyond order) (flat m) in
    let '(fs, r, q) := fill (quantity_ order) a in (fs, elem <$> (r ++ z), q).
Proof.
  intros Hx. unfold spec_fills. rewrite span_elem.
  assert (span (λ n, crosses order (price_ (elem n))) (flat m) =
    span (crossing beyond order) (flat m)) as ->.
  { induction (flat m) as [|n l IH]; [done|]. simpl. unfold crossing at 1. by rewrite Hx, IH. }
  destruct (span _ _) as [a z]. rewrite fill_elem.
  destruct (fill _ a) as [[fs r] q]. by rewrite fmap_app.
Qed.
End call.
