(* ===== verification/MatchTheorems.v ===== *)
(** * Correctness of the matching engine

    The refinement theorem and what follows from it for the callers of
    [MatchingEngine::match]. *)

From S2P Require Import Prelude Outcome OrdMap Order OrderBook BookSpec MatchingEngine MatchSpec MatchProof.

(** ** Vocabulary *)

Definition opposite (s : Side) (sb : SpecBook) : list Order :=
  match s with BID => sb_asks sb | _ => sb_bids sb end.
Definition own (s : Side) (sb : SpecBook) : list Order :=
  match s with BID => sb_bids sb | _ => sb_asks sb end.

(** The resting party of a trade caused by an order on side [s], and the
    incoming one. *)
Definition maker_id (s : Side) (t : Trade) : Z :=
  match s with BID => seller_order_id t | _ => buyer_order_id t end.
Definition taker_id (s : Side) (t : Trade) : Z :=
  match s with BID => buyer_order_id t | _ => seller_order_id t end.

(** The trades a call appended to the caller's vector. *)
Definition new_trades (e e' : Engine) : list Trade := drop (length (eng_trades e)) (eng_trades e').

Definition total_resting (b : OrderBook) : Z := total (spec_orders (abs b)).

Definition traded (ts : list Trade) : Z := sum_Z (trade_quantity <$> ts).

Definition on_book_side (o : Order) : Prop := side_ o = BID ∨ side_ o = ASK.

(** The comparator of the side an order on side [s] trades against. *)
Definition opposite_lt (s : Side) : Z → Z → bool :=
  match s with BID => price_less | _ => price_greater end.

(** [t] is the trade of [o] with resting order [x] for quantity [f]. *)
Definition trade_of (o x : Order) (f : Z) (t : Trade) : Prop :=
  trade_price t = price_ x ∧ maker_id (side_ o) t = id_ x ∧ taker_id (side_ o) t = id_ o ∧
  trade_quantity t = f.

(** ** The result of a call *)

Lemma crosses_bid o p : side_ o = BID →
  crosses o p = negb (bool_decide (orderType_ o = LIMIT) && (price_ o <? p)).
Proof. unfold crosses. by intros ->. Qed.

Lemma crosses_ask o p : side_ o = ASK →
  crosses o p = negb (bool_decide (orderType_ o = LIMIT) && (p <? price_ o)).
Proof. unfold crosses. by intros ->. Qed.

Section results.
Context (clock : nat → Z).

(** One branch of the call, for either side of the book. *)
Lemma match_side_run acc s `{!SideAccess acc s} beyond mk (mid : list Order → SpecBook) o b ts reads :
  (∀ p p', sa_lt acc p p' = true → beyond p = true → beyond p' = true) →
  (∀ m i, abs (on_side acc m i b) = mid (elem <$> flat m)) →
  (∀ p, crosses o p = negb (bool_decide (orderType_ o = LIMIT) && beyond p)) →
  book_ok b → order_valid o → on_book_side o →
  let '(fs, r, q) := spec_fills o (elem <$> flat (sa_get acc b)) in
  let '(sb, n) := spec_rest clock o q (reads + length fs) (mid r) in
  0 <= q <= quantity_ o ∧
  ∃ b', (match_loop clock acc beyond mk o ;;; rest_order clock o)
          (mkMatchLoop b (quantity_ o) ts reads) =
        Ok (mkMatchLoop b' q (ts ++ spec_trades clock mk reads fs) n) tt ∧
    book_ok b' ∧ abs b' = sb ∧
    (book_indexed b → ¬ spec_resting (id_ o) (abs b) → book_indexed b').
Proof.
  intros Hmono Hmid Hx Hok Hv Hside. assert (is_u32 (quantity_ o)) as Hu by apply Hv.
  rewrite (spec_fills_nodes o beyond) by done.
  pose proof (match_loop_book clock acc s beyond mk o b (quantity_ o) ts reads Hmono Hok Hu) as Hloop.
  destruct (span _ _) as [a z]. destruct (fill _ a) as [[fs r] q].
  destruct Hloop as (m' & i' & Hrun & Hflat & Hq & Hok' & Hix & Hres).
  destruct (rest_order_spec clock o (on_side acc m' i' b) q
    (ts ++ spec_trades clock mk reads fs) (reads + length fs) Hok' Hv Hq Hside) as (b' & Hrest).
  rewrite Hmid, Hflat in Hrest. rewrite Hmid, Hflat in Hres.
  destruct (spec_rest _ _ _ _ _) as [sb n].
  destruct Hrest as (Hr & Hok2 & Habs2 & Hix2). split; [done|]. exists b'.
  split_and!; [by rewrite (bind_Ok _ _ _ _ _ Hrun)|done|done|].
  intros Hi Hid. apply Hix2; [by apply Hix|]. contradict Hid. by apply Hres.
Qed.

Definition trade_maker (o : Order) : Z → Order → Z → Z → Trade :=
  match side_ o with BID => bid_trade o | _ => ask_trade o end.

(** The specification's book once the other side is [r]. *)
Definition consumed (o : Order) (sb : SpecBook) (r : list Order) : SpecBook :=
  match side_ o with BID => mkSpec (sb_bids sb) r | _ => mkSpec r (sb_asks sb) end.

(** The call as a run of the specification's parts. *)
Lemma match_run o e : book_ok (eng_book e) → order_valid o → on_book_side o →
  let '(fs, r, q) := spec_fills o (opposite (side_ o) (abs (eng_book e))) in
  let '(sb, n) := spec_rest clock o q (eng_reads e + length fs) (consumed o (abs (eng_book e)) r) in
  0 <= q <= quantity_ o ∧
  ∃ b', match_ clock o e =
          Ok (mkEngine b' (eng_trades e ++ spec_trades clock (trade_maker o) (eng_reads e) fs) n) tt ∧
    book_ok b' ∧ abs b' = sb ∧
    (book_indexed (eng_book e) → ¬ spec_resting (id_ o) (abs (eng_book e)) → book_indexed b').
Proof.
  intros Hok Hv Hside. destruct e as [b ts reads]. cbn [eng_book eng_trades eng_reads] in *.
  unfold trade_maker, consumed, match_, zoom. cbn [eng_book eng_trades eng_reads].
  pose proof Hside as [Hs|Hs]; rewrite Hs; cbn [opposite].
  - pose proof (match_side_run asks_access ASK (λ p, price_ o <? p) (bid_trade o)
      (mkSpec (sb_bids (abs b))) o b ts reads) as Hrun.
    change (elem <$> flat (sa_get asks_access b)) with (sb_asks (abs b)) in Hrun.
    destruct (spec_fills _ _) as [[fs r] q]. destruct (spec_rest _ _ _ _ _) as [sb n].
    destruct Hrun as (Hq & b' & Hrun & Hrest); [|done|by intros; apply crosses_bid|done..|].
    { unfold sa_lt, asks_access, price_less. intros p p'. rewrite !Z.ltb_lt. lia. }
    split; [done|]. exists b'. rewrite bool_decide_eq_true_2, Hrun by done. done.
  - pose proof (match_side_run bids_access BID (λ p, p <? price_ o) (ask_trade o)
      (λ r, mkSpec r (sb_asks (abs b))) o b ts reads) as Hrun.
    change (elem <$> flat (sa_get bids_access b)) with (sb_bids (abs b)) in Hrun.
    destruct (spec_fills _ _) as [[fs r] q]. destruct (spec_rest _ _ _ _ _) as [sb n].
    destruct Hrun as (Hq & b' & Hrun & Hrest); [|done|by intros; apply crosses_ask|done..|].
    { unfold sa_lt, bids_access, price_greater. intros p p'. rewrite !Z.ltb_lt. lia. }
    split; [done|]. exists b'. rewrite bool_decide_eq_false_2, bool_decide_eq_true_2, Hrun by done. done.
Qed.

Lemma match_unnamed_side o e : ¬ on_book_side o → match_ clock o e = Ok e tt.
Proof.
  unfold on_book_side. intros H. unfold match_, zoom.
  rewrite !bool_decide_eq_false_2 by naive_solver. by destruct e.
Qed.
End results.

(** ** Consequences for fills and trades *)

Lemma opposite_ok o b : book_ok b → on_book_side o →
  positive (opposite (side_ o) (abs b)) ∧
  price_sorted (opposite_lt (side_ o)) (opposite (side_ o) (abs b)).
Proof.
  assert (∀ lt s m, side_ok lt s m → positive (elem <$> flat m)) as Hpos.
  { intros lt s m Hok%resting_positive. unfold positive in *. by rewrite Forall_fmap. }
  intros [Hb Ha _ _ _] [Hs|Hs]; rewrite Hs; simpl; split;
    eauto using flat_price_sorted, price_less_strict, price_greater_strict.
Qed.

(** Past the first price that does not cross, none does. *)
Lemma span_rest_not_crossing o l a z : on_book_side o →
  price_sorted (opposite_lt (side_ o)) l →
  span (λ x, crosses o (price_ x)) l = (a, z) → Forall (λ x, crosses o (price_ x) = false) z.
Proof.
  intros Hs Hl. revert a z. induction Hl as [|x l Hl IH Hx]; intros a z; simpl.
  { intros [= <- <-]. constructor. }
  destruct (crosses o (price_ x)) eqn:Hc.
  - destruct (span _ l) as [a' z'] eqn:Hsp. intros [= <- <-]. by eapply IH.
  - intros [= <- <-]. constructor; [done|]. eapply Forall_impl; [exact Hx|]. simpl.
    intros y Hy. unfold crosses, opposite_lt, price_less, price_greater in *.
    apply negb_false_iff, andb_true_iff in Hc as [Ht Hlt]. rewrite Ht.
    destruct Hs as [Hs|Hs]; rewrite Hs in Hlt, Hy |- *; simpl in *; bool_to_prop;
      simpl; apply negb_false_iff, Z.ltb_lt; lia.
Qed.

Section spec_fills.
Context (o : Order) (opp : list Order) (fs : list (Order * Z)) (r : list Order) (q : Z).
Hypothesis Hfills : spec_fills o opp = (fs, r, q).
Hypothesis Hpos : positive opp.
Hypothesis Hq : 0 <= quantity_ o.

Lemma spec_fills_split : ∃ a z, span (λ x, crosses o (price_ x)) opp = (a, z) ∧
  opp = a ++ z ∧ positive a ∧ ∃ r', fill (quantity_ o) a = (fs, r', q) ∧ r = r' ++ z.
Proof.
  unfold spec_fills in Hfills. destruct (span _ opp) as [a z] eqn:Hsp.
  destruct (fill _ a) as [[fs' r'] q'] eqn:Hf. simplify_eq.
  pose proof (span_app _ _ _ _ Hsp) as Heq. exists a, z. split_and!; [done|done| |by eauto].
  rewrite Heq in Hpos. by apply positive_app in Hpos as [? _].
Qed.

Lemma spec_fills_conserve : sum_Z fs.*2 + q = quantity_ o ∧ total opp = sum_Z fs.*2 + total r.
Proof.
  destruct spec_fills_split as (a & z & _ & -> & Hpa & r' & Hf & ->).
  pose proof (fill_conserve _ _ _ _ _ Hq Hpa Hf). rewrite !total_app. lia.
Qed.

Lemma spec_fills_sound :
  Forall (λ '(x, p), x ∈ opp ∧ 0 < p <= quantity_ x ∧ crosses o (price_ x) = true) fs.
Proof.
  destruct spec_fills_split as (a & z & Hsp & -> & Hpa & r' & Hf & _).
  apply span_prefix in Hsp. pose proof (fill_sound _ _ _ _ _ Hq Hpa Hf) as H.
  eapply Forall_impl; [exact H|]. intros [x p] [Hx Hp]. simpl in Hx.
  rewrite list_fmap_id in Hx. rewrite Forall_forall in Hsp. set_solver.
Qed.

Lemma spec_fills_priority : ∃ l1 l2, opp = l1 ++ l2 ∧
  (fs = full_fills l1 ∨
   ∃ x l3 p, l2 = x :: l3 ∧ fs = full_fills l1 ++ [(x, p)] ∧ 0 < p < quantity_ x).
Proof.
  destruct spec_fills_split as (a & z & _ & -> & Hpa & r' & Hf & _).
  destruct (fill_cases _ _ _ _ _ Hq Hpa Hf) as
    [(l1 & -> & -> & _)|(l1 & x & l2 & p & -> & -> & _ & _ & _ & Hp)].
  - exists l1, (r' ++ z). rewrite <- app_assoc. auto.
  - exists l1, ((x :: l2) ++ z). rewrite <- app_assoc. split; [done|]. right.
    by exists x, (l2 ++ z), p.
Qed.

Lemma spec_fills_exhaustive : on_book_side o → price_sorted (opposite_lt (side_ o)) opp →
  0 < q → Forall (λ x, crosses o (price_ x) = false) r.
Proof.
  intros Hs Hsort Hq'. destruct spec_fills_split as (a & z & Hsp & _ & Hpa & r' & Hf & ->).
  destruct r' as [|x r']; [by eapply span_rest_not_crossing|].
  assert (q = 0); [by apply (fill_rest_zero _ _ _ _ _ Hq Hpa Hf)|lia].
Qed.

(** What is left of the queue was in it, with the same price and id. *)
Lemma spec_fills_rest_from x : x ∈ r → ∃ y, y ∈ opp ∧ price_ y = price_ x ∧ id_ y = id_ x.
Proof.
  destruct spec_fills_split as (a & z & _ & -> & Hpa & r' & Hf & ->).
  intros [Hx|Hx]%elem_of_app; [|exists x; set_solver].
  destruct (fill_cases _ _ _ _ _ Hq Hpa Hf) as
    [(l1 & -> & _)|(l1 & y & l2 & p & -> & _ & -> & _)]; [exists x; set_solver|].
  apply elem_of_cons in Hx as [->|Hx]; [exists y|exists x]; set_solver.
Qed.

(** Every fill but the last removes a resting order. *)
Lemma spec_fills_count :
  (length fs + length r <= length opp + (if (0 <? q)%Z then 0 else 1))%nat.
Proof.
  destruct spec_fills_split as (a & z & _ & -> & Hpa & r' & Hf & ->).
  destruct (fill_cases _ _ _ _ _ Hq Hpa Hf) as
    [(l1 & -> & -> & _)|(l1 & x & l2 & p & -> & -> & -> & -> & _)];
    unfold full_fills; rewrite ?length_app, ?length_fmap; cbn [length Z.ltb Z.compare].
  all: cbn [length]; lia.
Qed.
End spec_fills.

Section outcome.
Context (clock : nat → Z).

Definition own_lt (s : Side) : Z → Z → bool :=
  match s with BID => price_greater | _ => price_less end.

(** What is left of [o] when quantity [q] finds no counterparty. *)
Definition remainder (o : Order) (q : Z) (reads : nat) : Order :=
  mkOrder (u64 (clock reads)) (id_ o) (price_ o) q (side_ o) LIMIT.

(** A call that turned [e] into [e'] with fills [fs], the other side left as
    [r] and quantity [q] unfilled. *)
Record match_result (o : Order) (e e' : Engine) (fs : list (Order * Z)) (r : list Order) (q : Z) :
    Prop := {
  mr_fills : spec_fills o (opposite (side_ o) (abs (eng_book e))) = (fs, r, q);
  mr_left : 0 <= q <= quantity_ o;
  mr_trades : new_trades e e' = spec_trades clock (trade_maker o) (eng_reads e) fs;
  mr_ok : book_ok (eng_book e');
  mr_opposite : opposite (side_ o) (abs (eng_book e')) = r;
  mr_own : own (side_ o) (abs (eng_book e')) =
    if (0 <? q) && bool_decide (orderType_ o = LIMIT) then
      insert_prio (own_lt (side_ o)) (remainder o q (eng_reads e + length fs))
        (own (side_ o) (abs (eng_book e)))
    else own (side_ o) (abs (eng_book e));
}.

Lemma match_result_intro o e : book_ok (eng_book e) → order_valid o → on_book_side o →
  ∃ e' fs r q, match_ clock o e = Ok e' tt ∧ match_result o e e' fs r q.
Proof.
  intros Hok Hv Hside. pose proof (match_run clock o e Hok Hv Hside) as Hrun.
  destruct (spec_fills _ _) as [[fs r] q] eqn:Hf. unfold spec_rest in Hrun.
  destruct ((0 <? q) && bool_decide (orderType_ o = LIMIT)) eqn:Hc;
    destruct Hrun as (Hq & b' & Hm & Hok' & Habs & _);
    eexists _, fs, r, q; (split; [exact Hm|]);
    split; cbn [eng_book]; rewrite ?Hc, ?Habs; try done;
    try (unfold new_trades; cbn [eng_trades]; by rewrite drop_app_length);
    unfold consumed, spec_add, remainder; cbn [orderType_ side_];
    destruct Hside as [Hs|Hs]; rewrite Hs; done.
Qed.

Lemma spec_trades_of o reads fs : on_book_side o →
  Forall2 (λ t '(x, f), trade_of o x f t) (spec_trades clock (trade_maker o) reads fs) fs.
Proof.
  intros Hs. revert reads. induction fs as [|[x f] fs IH]; intros reads; simpl; constructor; [|done].
  unfold trade_of, maker_id, taker_id, trade_maker. destruct Hs as [Hs|Hs]; by rewrite Hs.
Qed.

Lemma traded_spec_trades o reads fs :
  traded (spec_trades clock (trade_maker o) reads fs) = sum_Z fs.*2.
Proof.
  unfold traded. revert reads. induction fs as [|[x f] fs IH]; intros reads; csimpl; [done|].
  rewrite IH. f_equal. unfold trade_maker. by destruct (side_ o).
Qed.

Lemma total_perm (l k : list Order) : l ≡ₚ k → total l = total k.
Proof. induction 1; rewrite ?total_cons; lia. Qed.

Lemma spec_orders_sides s sb : total (spec_orders sb) = total (own s sb) + total (opposite s sb).
Proof. unfold spec_orders, own, opposite. rewrite total_app. destruct s; lia. Qed.

(** The call computes the specification, for every value of [Side]. *)
Lemma match_spec_match o e : book_ok (eng_book e) → order_valid o →
  let '(sb, ts, n) := spec_match clock o (eng_reads e) (abs (eng_book e)) in
  ∃ b', match_ clock o e = Ok (mkEngine b' (eng_trades e ++ ts) n) tt ∧
    book_ok b' ∧ abs b' = sb ∧
    (book_indexed (eng_book e) → ¬ spec_resting (id_ o) (abs (eng_book e)) → book_indexed b').
Proof.
  intros Hok Hv. unfold spec_match.
  destruct (side_ o) eqn:Hs.
  1,2: pose proof (match_run clock o e Hok Hv) as Hrun;
    unfold on_book_side, trade_maker, consumed in Hrun; rewrite Hs in Hrun; cbn [opposite] in Hrun;
    destruct (spec_fills _ _) as [[fs r] q]; destruct (spec_rest _ _ _ _ _) as [sb n];
    apply Hrun; auto.
  exists (eng_book e). rewrite match_unnamed_side by (unfold on_book_side; naive_solver congruence).
  rewrite app_nil_r. by destruct e.
Qed.

(** ** Main theorems *)

(** C1: on a well-formed book [match] terminates, never runs into undefined
    behaviour and never throws; the trades it appends, the book it leaves and
    the number of clock readings are those of the price-time priority
    specification, the representation invariant is preserved, and so is a
    complete index when the incoming id is not resting. *)
Theorem match_refines o e : book_ok (eng_book e) → order_valid o →
  let '(sb, ts, n) := spec_match clock o (eng_reads e) (abs (eng_book e)) in
  ∃ b', match_ clock o e = Ok (mkEngine b' (eng_trades e ++ ts) n) tt ∧
    book_ok b' ∧ abs b' = sb ∧
    (book_indexed (eng_book e) → ¬ spec_resting (id_ o) (abs (eng_book e)) → book_indexed b').
Proof. apply match_spec_match. Qed.

(** C3: no quantity is created or lost.  The new trades never exceed the
    incoming quantity, and the quantity resting in the book changes by minus
    what was traded plus, for a limit order only, what is left of the order. *)
Theorem match_conserves_quantity o e : book_ok (eng_book e) → order_valid o → on_book_side o →
  ∃ e', match_ clock o e = Ok e' tt ∧
    0 <= traded (new_trades e e') <= quantity_ o ∧
    total_resting (eng_book e') = total_resting (eng_book e) - traded (new_trades e e') +
      (if bool_decide (orderType_ o = LIMIT) then quantity_ o - traded (new_trades e e') else 0).
Proof.
  intros Hok Hv Hs. destruct (match_result_intro o e Hok Hv Hs) as (e' & fs & r & q & Hm & [Hf Hq Ht Hok' Hopp Hown]).
  exists e'. split; [done|]. destruct (opposite_ok o _ Hok Hs) as [Hpos _].
  destruct (spec_fills_conserve _ _ _ _ _ Hf Hpos) as [H1 H2]; [lia|].
  rewrite Ht, traded_spec_trades. split; [lia|]. unfold total_resting.
  rewrite !(spec_orders_sides (side_ o)), Hopp, Hown, H2.
  destruct (Z.ltb_spec 0 q); destruct (bool_decide (orderType_ o = LIMIT)); simpl; try lia.
  rewrite (total_perm _ _ (insert_prio_perm _ _ _)), total_cons. simpl. lia.
Qed.

(** C24: every new trade is with an order resting on the other side, at that
    order's price, for a positive quantity it had; the price is one the
    incoming order accepts, so a limit order never trades beyond its limit. *)
Theorem match_trades_sound o e : book_ok (eng_book e) → order_valid o → on_book_side o →
  ∃ e', match_ clock o e = Ok e' tt ∧
    Forall (λ t, ∃ x, x ∈ opposite (side_ o) (abs (eng_book e)) ∧
        trade_of o x (trade_quantity t) t ∧ 0 < trade_quantity t <= quantity_ x ∧
        crosses o (trade_price t) = true) (new_trades e e').
Proof.
  intros Hok Hv Hs. destruct (match_result_intro o e Hok Hv Hs) as (e' & fs & r & q & Hm & [Hf Hq Ht _ _ _]).
  exists e'. split; [done|]. destruct (opposite_ok o _ Hok Hs) as [Hpos _].
  pose proof (spec_fills_sound _ _ _ _ _ Hf Hpos ltac:(lia)) as Hsound.
  rewrite Ht. pose proof (spec_trades_of o (eng_reads e) fs Hs) as Htr.
  induction Htr as [|t [x f] ts fs' Hh _ IH] in Hsound |- *; [constructor|].
  apply Forall_cons in Hsound as [(Hx & Hf1 & Hc) Hrest].
  constructor; [|by apply IH]. exists x. destruct Hh as (Hp & Hmk & Htk & Hqt).
  rewrite Hqt, Hp. split_and!; [done|by split_and!|lia|lia|done].
Qed.

(** C2: price-time priority.  The new trades run through a prefix of the other
    side's queue in order, each for the full quantity of the resting order,
    except that the last one may be partial: an order trades only after every
    order ahead of it was filled completely. *)
Theorem match_price_time_priority o e :
  book_ok (eng_book e) → order_valid o → on_book_side o →
  ∃ e' l1 l2 tail, match_ clock o e = Ok e' tt ∧
    opposite (side_ o) (abs (eng_book e)) = l1 ++ l2 ∧
    (λ t, (trade_price t, maker_id (side_ o) t, trade_quantity t)) <$> new_trades e e' =
      ((λ x, (price_ x, id_ x, quantity_ x)) <$> l1) ++ tail ∧
    (tail = [] ∨ ∃ x l3 p, l2 = x :: l3 ∧ tail = [(price_ x, id_ x, p)] ∧ 0 < p < quantity_ x).
Proof.
  intros Hok Hv Hs. destruct (match_result_intro o e Hok Hv Hs) as (e' & fs & r & q & Hm & [Hf Hq Ht _ _ _]).
  destruct (opposite_ok o _ Hok Hs) as [Hpos _].
  assert ((λ t, (trade_price t, maker_id (side_ o) t, trade_quantity t)) <$> new_trades e e' =
    (λ '(x, f), (price_ x, id_ x, f)) <$> fs) as Htr.
  { rewrite Ht. pose proof (spec_trades_of o (eng_reads e) fs Hs) as Htr. revert Htr.
    generalize (spec_trades clock (trade_maker o) (eng_reads e) fs). clear. intros ts.
    induction 1 as [|t [x f] ts fs (Hp & Hmk & _ & Hqt) _ IH]; csimpl; [done|].
    by rewrite IH, Hp, Hmk, Hqt. }
  assert (∀ l, (λ '(x, f), (price_ x, id_ x, f)) <$> full_fills l =
    (λ x, (price_ x, id_ x, quantity_ x)) <$> l) as Hfull.
  { intros l. unfold full_fills. by rewrite <- list_fmap_compose. }
  destruct (spec_fills_priority _ _ _ _ _ Hf Hpos ltac:(lia)) as
    (l1 & l2 & Hopp & [->|(x & l3 & p & -> & -> & Hp)]).
  - exists e', l1, l2, []. rewrite Htr, Hfull, app_nil_r. auto.
  - exists e', l1, (x :: l3), [(price_ x, id_ x, p)]. rewrite Htr, fmap_app, Hfull.
    split_and!; try done. right. by exists x, l3, p.
Qed.

(** C25: execution is exhaustive.  When part of the incoming quantity is not
    traded, no order left on the other side has a price the order accepts. *)
Theorem match_exhaustive o e : book_ok (eng_book e) → order_valid o → on_book_side o →
  ∃ e', match_ clock o e = Ok e' tt ∧
    (traded (new_trades e e') < quantity_ o →
     ∀ x, x ∈ opposite (side_ o) (abs (eng_book e')) → crosses o (price_ x) = false).
Proof.
  intros Hok Hv Hs. destruct (match_result_intro o e Hok Hv Hs) as (e' & fs & r & q & Hm & [Hf Hq Ht _ Hopp _]).
  exists e'. split; [done|]. destruct (opposite_ok o _ Hok Hs) as [Hpos Hsort].
  destruct (spec_fills_conserve _ _ _ _ _ Hf Hpos) as [H1 _]; [lia|].
  rewrite Ht, traded_spec_trades, Hopp. intros Hlt. apply Forall_forall.
  apply (spec_fills_exhaustive _ _ _ _ _ Hf Hpos ltac:(lia) Hs Hsort). lia.
Qed.

(** The other side after the call holds no new prices. *)
Lemma match_opposite_prices o e e' fs r q : book_ok (eng_book e) → order_valid o → on_book_side o →
  match_result o e e' fs r q → ∀ x, x ∈ r → ∃ y, y ∈ opposite (side_ o) (abs (eng_book e)) ∧ price_ y = price_ x.
Proof.
  intros Hok Hv Hs [Hf Hq _ _ _ _] x Hx. destruct (opposite_ok o _ Hok Hs) as [Hpos _].
  destruct (spec_fills_rest_from _ _ _ _ _ Hf Hpos ltac:(lia) x Hx) as (y & ? & ? & _). eauto.
Qed.

(** Resting the remainder keeps the book uncrossed: what is left on the other
    side does not cross it. *)
Lemma match_result_uncrossed o e e' fs r q : book_ok (eng_book e) → order_valid o → on_book_side o →
  match_result o e e' fs r q → uncrossed (abs (eng_book e)) → uncrossed (abs (eng_book e')).
Proof.
  intros Hok Hv Hs Hres Hun. pose proof (match_opposite_prices _ _ _ _ _ _ Hok Hv Hs Hres) as Hprices.
  destruct Hres as [Hf Hq _ _ Hopp Hown]. destruct (opposite_ok o _ Hok Hs) as [Hpos Hsort].
  pose proof (spec_fills_exhaustive _ _ _ _ _ Hf Hpos ltac:(lia) Hs Hsort) as Hex.
  assert (∀ z, z ∈ own (side_ o) (abs (eng_book e')) →
    z ∈ own (side_ o) (abs (eng_book e)) ∨
    (0 < q ∧ orderType_ o = LIMIT ∧ price_ z = price_ o)) as Hz.
  { rewrite Hown. intros z. destruct (Z.ltb_spec 0 q); [|by left].
    case_bool_decide; simpl; [|by left]. rewrite (insert_prio_perm _ _ _), elem_of_cons.
    intros [->|]; [right|left]; done. }
  unfold uncrossed, crosses in *. intros x y Hx Hy.
  destruct Hs as [Hs|Hs]; rewrite Hs in *; simpl in Hopp, Hz, Hprices; subst r.
  - destruct (Hz x Hx) as [Hx'|(Hq' & Ht & ->)].
    + destruct (Hprices y Hy) as (y' & Hy' & <-). by apply Hun.
    + specialize (Hex Hq'). rewrite Forall_forall in Hex. specialize (Hex y Hy). simpl in Hex.
      rewrite bool_decide_eq_true_2 in Hex by done. bool_to_prop. lia.
  - destruct (Hz y Hy) as [Hy'|(Hq' & Ht & ->)].
    + destruct (Hprices x Hx) as (x' & Hx' & <-). by apply Hun.
    + specialize (Hex Hq'). rewrite Forall_forall in Hex. specialize (Hex x Hx). simpl in Hex.
      rewrite bool_decide_eq_true_2 in Hex by done. bool_to_prop. lia.
Qed.

(** An order that is not a limit order never rests: its own side of the
    book is unchanged by the call. *)
Lemma match_only_limit_rests o e : book_ok (eng_book e) → order_valid o → on_book_side o →
  orderType_ o ≠ LIMIT →
  ∃ e', match_ clock o e = Ok e' tt ∧
    own (side_ o) (abs (eng_book e')) = own (side_ o) (abs (eng_book e)).
Proof.
  intros Hok Hv Hs Ht. destruct (match_result_intro o e Hok Hv Hs) as (e' & fs & r & q & Hm & Hres).
  exists e'. split; [done|]. rewrite (mr_own _ _ _ _ _ _ Hres).
  by rewrite bool_decide_eq_false_2, andb_false_r.
Qed.

(** ** Reachable books *)

(** The two ways the program changes the book: a call of [match] with a
    constructed order, or a call of [cancel_order] that returns. *)
Inductive book_step : Engine → Engine → Prop :=
  | step_match o e e' : order_valid o → match_ clock o e = Ok e' tt → book_step e e'
  | step_cancel id b ts n b' : cancel_order id b = Ok b' tt →
      book_step (mkEngine b ts n) (mkEngine b' ts n).

Definition book_inv (b : OrderBook) : Prop := book_ok b ∧ uncrossed (abs b).

Lemma removed_uncrossed n b b' : removed n b b' → uncrossed (abs b) → uncrossed (abs b').
Proof.
  intros [Hb Ha _ _] Hun x y. unfold abs. simpl. rewrite Hb, Ha.
  intros (x' & -> & Hx)%list_elem_of_fmap (y' & -> & Hy)%list_elem_of_fmap.
  apply drop_addr_elem in Hx as [_ Hx]. apply drop_addr_elem in Hy as [_ Hy].
  apply Hun; by apply list_elem_of_fmap_2.
Qed.

Lemma book_step_inv e e' : book_step e e' → book_inv (eng_book e) → book_inv (eng_book e').
Proof.
  intros [o e0 e1 Hv Hm|id b ts n b' Hc] [Hok Hun].
  - destruct (decide (side_ o = BID ∨ side_ o = ASK)) as [Hs|Hs].
    + destruct (match_result_intro o e0 Hok Hv Hs) as (e2 & fs & r & q & Hm' & Hres).
      assert (e1 = e2) as -> by congruence. split; [apply Hres|].
      by eapply match_result_uncrossed.
    + rewrite match_unnamed_side in Hm by done. by simplify_eq.
  - simpl in *. destruct (order_map_ b !! id) as [loc|] eqn:Hl.
    + destruct (cancel_order_removed id loc b Hok Hl) as (x & b2 & Hc' & _ & _ & _ & Hrm & Hok').
      assert (b' = b2) as -> by congruence. split; [done|]. by eapply removed_uncrossed.
    + by rewrite cancel_order_missing in Hc.
Qed.

(** C4: whatever orders arrive and are cancelled, in any order and with any
    ids, every book reached from the empty one satisfies the representation
    invariant and is never crossed: its best bid is below its best ask. *)
Theorem reachable_books_uncrossed ts n e : rtc book_step (mkEngine empty_book ts n) e →
  book_ok (eng_book e) ∧ uncrossed (abs (eng_book e)) ∧
  ∀ p q, best_bid (eng_book e) = Some p → best_ask (eng_book e) = Some q → p < q.
Proof.
  intros Hsteps. assert (book_inv (eng_book e)) as [Hok Hun].
  { remember (mkEngine empty_book ts n) as e0 eqn:He0.
    assert (book_inv (eng_book e0)) as H0.
    { rewrite He0. split; [apply empty_book_ok|]. intros x y ?%elem_of_nil. done. }
    clear He0. induction Hsteps; eauto using book_step_inv. }
  split_and!; [done..|]. intros p q Hp Hq.
  destruct (best_quotes_attained _ Hok) as [Hb Ha].
  destruct (Hb p Hp) as (x & Hx & <-). destruct (Ha q Hq) as (y & Hy & <-). by apply Hun.
Qed.
End outcome.
