(* ===== verification/MatchFacts.v ===== *)
(** * Sizes, prices and ids across a match

    What the order processor needs to know of a call to [match]: how many
    trades there can be, that the book stays uncrossed, which ids are resting
    afterwards and that the makers were resting before. *)

From S2P Require Import Prelude Outcome OrdMap Order OrderBook BookSpec MatchingEngine MatchSpec MatchTheorems.

Section facts.
Context (clock : nat → Z).

(** The number of resting orders. *)
Definition book_size (b : OrderBook) : nat := length (all_nodes b).

Lemma book_size_abs b : book_size b = length (spec_orders (abs b)).
Proof. unfold book_size. by rewrite spec_orders_abs, length_fmap. Qed.

Lemma spec_trades_length mk reads fs : length (spec_trades clock mk reads fs) = length fs.
Proof.
  revert reads. induction fs as [|[x f] fs IH]; intros reads; cbn [spec_trades length]; [done|].
  by rewrite IH.
Qed.

Lemma spec_rest_size o q n sb : (length (spec_orders (spec_rest clock o q n sb).1) <=
  length (spec_orders sb) + (if (0 <? q)%Z then 1 else 0))%nat.
Proof.
  unfold spec_rest. destruct (0 <? q); cbn [andb fst]; [|lia]. case_bool_decide; cbn [fst]; [|lia].
  unfold spec_add, spec_orders. cbn [orderType_ side_].
  destruct (side_ o); cbn [sb_bids sb_asks]; rewrite ?length_app;
    try rewrite (Permutation_length (insert_prio_perm _ _ _)); cbn [length]; lia.
Qed.

(** Trades are paid for by resting orders: each but one removes one. *)
Lemma spec_match_size o reads b sb ts n : book_ok b → order_valid o →
  spec_match clock o reads (abs b) = (sb, ts, n) →
  (length ts + length (spec_orders sb) <= S (book_size b))%nat.
Proof.
  intros Hok Hv. pose proof (opposite_ok o b Hok) as Hopp.
  assert (0 <= quantity_ o) as Hq by (pose proof (ov_quantity _ Hv); lia).
  unfold spec_match, on_book_side in *. rewrite book_size_abs.
  destruct (side_ o); cbn [opposite] in Hopp.
  1,2: destruct Hopp as [Hpos _]; [auto|]; destruct (spec_fills _ _) as [[fs r] q] eqn:Hf;
    pose proof (spec_fills_count _ _ _ _ _ Hf Hpos Hq) as Hc;
    match goal with |- context [spec_rest ?c ?x ?y ?m ?s] =>
      pose proof (spec_rest_size x y m s) as Hr; destruct (spec_rest c x y m s) as [sb' n'] end;
    intros [= <- <- <-]; rewrite spec_trades_length; unfold spec_orders in *;
    cbn [fst sb_bids sb_asks] in Hr; rewrite !length_app in *;
    destruct (0 <? q); lia.
  intros [= <- <- <-]. cbn [length]. lia.
Qed.

Lemma spec_match_uncrossed o reads b sb ts n : book_ok b → order_valid o → uncrossed (abs b) →
  spec_match clock o reads (abs b) = (sb, ts, n) → uncrossed sb.
Proof.
  intros Hok Hv Hun Hsp. pose proof (match_spec_match clock o (mkEngine b [] reads) Hok Hv) as Hm.
  cbn [eng_book eng_trades eng_reads] in Hm. rewrite Hsp in Hm. destruct Hm as (b' & Hm & _ & <- & _).
  pose proof (step_match clock _ _ _ Hv Hm) as Hstep.
  by destruct (book_step_inv clock _ _ Hstep (conj Hok Hun)).
Qed.

(** The ids in the book after a match were in it or are the incoming one, and
    the makers of the trades were in it. *)
Lemma spec_match_ids o reads b sb ts n : book_ok b → order_valid o →
  spec_match clock o reads (abs b) = (sb, ts, n) →
  (∀ id, spec_resting id sb → spec_resting id (abs b) ∨ id = id_ o) ∧
  (∀ t, t ∈ ts → spec_resting (maker_id (side_ o) t) (abs b)).
Proof.
  intros Hok Hv Hsp. destruct (decide (side_ o = BID ∨ side_ o = ASK)) as [Hs|Hs].
  2: { unfold spec_match in Hsp. destruct (side_ o); [naive_solver..|]. simplify_eq.
       split; [by left|]. by intros t ?%elem_of_nil. }
  destruct (match_result_intro clock o (mkEngine b [] reads) Hok Hv Hs)
    as (e' & fs & r & q & Hm & [Hf Hq Ht _ Hopp Hown]).
  pose proof (match_spec_match clock o (mkEngine b [] reads) Hok Hv) as Hm'.
  cbn [eng_book eng_trades eng_reads app] in *. rewrite Hsp in Hm'.
  destruct Hm' as (b' & Hm' & _ & <- & _). rewrite Hm' in Hm. injection Hm as <-.
  cbn [eng_book] in *. change (ts = spec_trades clock (trade_maker o) reads fs) in Ht. subst ts.
  destruct (opposite_ok o b Hok Hs) as [Hpos _].
  assert (∀ c id, spec_resting id (abs c) ↔
    ∃ x, id = id_ x ∧ (x ∈ own (side_ o) (abs c) ∨ x ∈ opposite (side_ o) (abs c))) as Hrest.
  { intros c id. unfold spec_resting, spec_orders. rewrite list_elem_of_fmap.
    setoid_rewrite elem_of_app. destruct Hs as [Hs|Hs]; rewrite Hs; cbn [own opposite]; naive_solver. }
  split.
  - intros id. rewrite !Hrest. intros (x & -> & [Hx|Hx]).
    + rewrite Hown in Hx. destruct (_ && _); [|naive_solver].
      rewrite (insert_prio_perm _ _ _), elem_of_cons in Hx. destruct Hx as [->|Hx]; [by right|naive_solver].
    + rewrite Hopp in Hx.
      destruct (spec_fills_rest_from _ _ _ _ _ Hf Hpos ltac:(lia) x Hx) as (y & Hy & _ & <-). naive_solver.
  - intros t Hin. pose proof (spec_fills_sound _ _ _ _ _ Hf Hpos ltac:(lia)) as Hsound.
    apply list_elem_of_lookup in Hin as [j Hj].
    destruct (Forall2_lookup_l _ _ _ _ _ (spec_trades_of clock o reads fs Hs) Hj) as ([x f] & Hxf & Htr).
    rewrite Forall_forall in Hsound. specialize (Hsound _ (list_elem_of_lookup_2 _ _ _ Hxf)).
    destruct Htr as (_ & -> & _). apply Hrest. naive_solver.
Qed.

Lemma removed_size n b b' : book_ok b → n ∈ all_nodes b → removed n b b' →
  (S (book_size b') = book_size b)%nat.
Proof.
  intros Hok Hn Hrm. unfold book_size. rewrite (removed_nodes _ _ _ Hrm).
  pose proof (bo_nodup _ Hok) as Hnd.
  apply list_elem_of_split in Hn as (l1 & l2 & Heq). rewrite Heq in Hnd |- *.
  rewrite drop_addr_middle by done. rewrite !length_app. cbn [length]. lia.
Qed.
End facts.
