(* ===== verification/Bytes.v ===== *)
(** * Object representation of integers, [std::memcpy] and byte vectors

    [std::vector<uint8_t>] is a list of bytes (integers in [0, 256)).  The
    program copies integers to and from buffers with [memcpy], so the bytes
    depend on the host's byte order, which is a parameter here.  A copy that
    leaves the bounds of a buffer is undefined behaviour. *)

From S2P Require Import Prelude Outcome.

Inductive endian := LittleEndian | BigEndian.

Fixpoint le_bytes (n : nat) (z : Z) : list Z :=
  match n with
  | O => []
  | S n' => z `mod` 256 :: le_bytes n' (z `div` 256)
  end.

Fixpoint le_value (l : list Z) : Z :=
  match l with [] => 0 | b :: l' => b + 256 * le_value l' end.

(** The [n] bytes of an unsigned integer in memory, and the integer they hold. *)
Definition store (e : endian) (n : nat) (z : Z) : list Z :=
  match e with LittleEndian => le_bytes n z | BigEndian => rev (le_bytes n z) end.

Definition load (e : endian) (l : list Z) : Z :=
  match e with LittleEndian => le_value l | BigEndian => le_value (rev l) end.

(** [htonl] and [ntohl]: reinterpret between host and network byte order. *)
Definition htonl (e : endian) (z : Z) : Z := load e (store BigEndian 4 z).
Definition ntohl (e : endian) (z : Z) : Z := load BigEndian (store e 4 z).

(** [v.resize(n)]: new elements are zero. *)
Definition resize (n : nat) (v : list Z) : list Z := take n v ++ replicate (n - length v) 0.

(** [memcpy(buf.data() + off, src, |src|)] *)
Definition memcpy_out (off : nat) (src : list Z) : M (list Z) unit := λ buf,
  if decide (off + length src <= length buf)%nat then
    Ok (take off buf ++ src ++ drop (off + length src) buf) tt
  else UB.

(** [memcpy(&x, buf.data() + off, n)] *)
Definition memcpy_in (off n : nat) (buf : list Z) : option (list Z) :=
  if decide (off + n <= length buf)%nat then Some (take n (drop off buf)) else None.

(** Read an [n]-byte unsigned integer at an offset. *)
Definition read_uint {S} (e : endian) (off n : nat) (buf : list Z) : M S Z :=
  or_ub (load e <$> memcpy_in off n buf).

(** [memcpy(data + offset, &field, sizeof field); offset += sizeof field;] for
    each field in turn. *)
Fixpoint write_fields (offset : nat) (fields : list (list Z)) : M (list Z) unit :=
  match fields with
  | [] => ret tt
  | f :: fields' => memcpy_out offset f ;;; write_fields (offset + length f) fields'
  end.

(** [std::string] contents as bytes. *)
Fixpoint bytes_of_string (s : string) : list Z :=
  match s with
  | EmptyString => []
  | String c s' => Z.of_N (Ascii.N_of_ascii c) :: bytes_of_string s'
  end.

Fixpoint string_of_bytes (l : list Z) : string :=
  match l with
  | [] => EmptyString
  | b :: l' => String (Ascii.ascii_of_N (Z.to_N b)) (string_of_bytes l')
  end.

Definition bytes_wf (l : list Z) : Prop := Forall is_u8 l.

(** ** Lemmas *)

Lemma length_le_bytes n z : length (le_bytes n z) = n.
Proof. revert z. induction n as [|n IH]; intros z; simpl; [done|]. by rewrite IH. Qed.

Lemma length_store e n z : length (store e n z) = n.
Proof. destruct e; simpl; by rewrite ?length_rev, length_le_bytes. Qed.

Lemma le_bytes_wf n z : bytes_wf (le_bytes n z).
Proof.
  revert z. induction n as [|n IH]; intros z; simpl; constructor; [|apply IH].
  apply Z.mod_pos_bound. lia.
Qed.

Lemma store_wf e n z : bytes_wf (store e n z).
Proof.
  destruct e; simpl; [apply le_bytes_wf|]. apply Forall_rev, le_bytes_wf.
Qed.

Lemma le_value_bytes n z : 0 <= z < 256 ^ Z.of_nat n → le_value (le_bytes n z) = z.
Proof.
  revert z. induction n as [|n IH]; intros z Hz; simpl; [simpl in Hz; lia|].
  rewrite Nat2Z.inj_succ, Z.pow_succ_r in Hz by lia.
  rewrite IH.
  - pose proof (Z.div_mod z 256). lia.
  - split; [apply Z.div_pos; lia|]. apply Z.div_lt_upper_bound; lia.
Qed.

Lemma le_bytes_value l : bytes_wf l → le_bytes (length l) (le_value l) = l.
Proof.
  induction 1 as [|b l Hb Hl IH]; simpl; [done|].
  assert (0 <= b < 256) as Hb' by width.
  rewrite Z.mul_comm, Z.mod_add, Z.div_add, (Z.div_small b), (Z.mod_small b) by lia.
  by rewrite Z.add_0_l, IH.
Qed.

Lemma load_store e n z : 0 <= z < 256 ^ Z.of_nat n → load e (store e n z) = z.
Proof. intros Hz. destruct e; simpl; rewrite ?rev_involutive; by apply le_value_bytes. Qed.

Lemma store_load e l : bytes_wf l → store e (length l) (load e l) = l.
Proof.
  intros Hl. destruct e; simpl; [by apply le_bytes_value|].
  rewrite <- (length_rev l), le_bytes_value, rev_involutive; [done|by apply Forall_rev].
Qed.

Lemma load_store_u64 e z : is_u64 z → load e (store e 8 z) = z.
Proof. intros ?. apply load_store. change (256 ^ Z.of_nat 8) with (2 ^ 64). done. Qed.

Lemma load_store_u32 e z : is_u32 z → load e (store e 4 z) = z.
Proof. intros ?. apply load_store. change (256 ^ Z.of_nat 4) with (2 ^ 32). done. Qed.

Lemma load_store_u8 e z : is_u8 z → load e (store e 1 z) = z.
Proof. intros ?. apply load_store. change (256 ^ Z.of_nat 1) with (2 ^ 8). done. Qed.

Lemma store_htonl e z : store e 4 (htonl e z) = store BigEndian 4 z.
Proof.
  unfold htonl. rewrite <- (length_store BigEndian 4 z) at 1. apply store_load, store_wf.
Qed.

Lemma ntohl_load e l : bytes_wf l → length l = 4%nat → ntohl e (load e l) = load BigEndian l.
Proof. intros Hw Hl. unfold ntohl. rewrite <- Hl at 1. by rewrite store_load. Qed.

Lemma memcpy_out_next pre src k :
  memcpy_out (length pre) src (pre ++ replicate (length src + k) 0) =
    Ok ((pre ++ src) ++ replicate k 0) tt.
Proof.
  unfold memcpy_out. rewrite decide_True by (rewrite length_app, length_replicate; lia).
  rewrite take_app_length, <- drop_drop, drop_app_length, drop_replicate.
  rewrite <- app_assoc. do 3 f_equal. f_equal. lia.
Qed.

Lemma write_fields_next fields pre k :
  write_fields (length pre) fields (pre ++ replicate (length (concat fields) + k) 0) =
    Ok ((pre ++ concat fields) ++ replicate k 0) tt.
Proof.
  revert pre. induction fields as [|f fs IH]; intros pre; simpl.
  { by rewrite app_nil_r. }
  rewrite length_app, <- Nat.add_assoc.
  rewrite (bind_Ok _ _ _ _ _ (memcpy_out_next pre f _)).
  rewrite <- length_app, IH. by rewrite <- !app_assoc.
Qed.

(** Growing a buffer by the size of the fields and writing them at the old end
    appends them. *)
Lemma append_fields fields (buf : list Z) n : n = length (concat fields) →
  write_fields (length buf) fields (resize (length buf + n) buf) = Ok (buf ++ concat fields) tt.
Proof.
  intros ->. unfold resize. rewrite take_ge by lia.
  replace (length buf + length (concat fields) - length buf)%nat
    with (length (concat fields) + 0)%nat by lia.
  rewrite write_fields_next. simpl. by rewrite app_nil_r.
Qed.

Lemma memcpy_in_at pre x post :
  memcpy_in (length pre) (length x) (pre ++ x ++ post) = Some x.
Proof.
  unfold memcpy_in. rewrite decide_True by (rewrite !length_app; lia).
  by rewrite drop_app_length, take_app_length.
Qed.

Lemma memcpy_in_short off n buf : (length buf < off + n)%nat → memcpy_in off n buf = None.
Proof. intros ?. unfold memcpy_in. by rewrite decide_False by lia. Qed.

Lemma read_uint_at {S} e off n pre x post (s : S) : off = length pre → n = length x →
  read_uint e off n (pre ++ x ++ post) s = Ok s (load e x).
Proof. intros -> ->. unfold read_uint. by rewrite memcpy_in_at. Qed.

Lemma read_uint_short {S} e off n buf (s : S) : (length buf < off + n)%nat →
  read_uint e off n buf s = UB.
Proof. intros ?. unfold read_uint. by rewrite memcpy_in_short. Qed.

Lemma string_of_bytes_of_string s : string_of_bytes (bytes_of_string s) = s.
Proof.
  induction s as [|c s IH]; simpl; [done|]. by rewrite N2Z.id, Ascii.ascii_N_embedding, IH.
Qed.

Lemma bytes_of_string_wf s : bytes_wf (bytes_of_string s).
Proof.
  induction s as [|c s IH]; simpl; constructor; [|done].
  pose proof (Ascii.N_ascii_bounded c). width.
Qed.

Lemma length_bytes_of_string s : length (bytes_of_string s) = String.length s.
Proof. induction s; simpl; congruence. Qed.
