(* ===== verification/Serializer.v ===== *)
(** * Messages and the [Serializer] interface

    [include/message.hpp], [include/inbound_message.hpp],
    [include/outbound_message.hpp] and the abstract class of
    [include/serializer.hpp].  The virtual functions are the operations of a
    type class; a second class states what the order processor relies on: each
    [serialize_*] call appends exactly one wire frame, and decoding the payload
    of an order or cancel frame gives the value back. *)

From S2P Require Import Prelude Outcome Order Bytes.

Inductive MessageType :=
  | NEW_ORDER | CANCEL_ORDER | ORDER_ACK | REJECT | TRADE | CANCEL_ACK
  | MessageType_unnamed (b : Z).

#[export] Instance MessageType_eq_dec : EqDecision MessageType.
Proof. solve_decision. Defined.

Definition MessageType_to_byte (t : MessageType) : Z :=
  match t with
  | NEW_ORDER => 1 | CANCEL_ORDER => 2 | ORDER_ACK => 3 | REJECT => 4 | TRADE => 5
  | CANCEL_ACK => 6 | MessageType_unnamed b => b
  end.

(** [static_cast<MessageType>(byte)] *)
Definition MessageType_of_byte (b : Z) : MessageType :=
  if b =? 1 then NEW_ORDER else if b =? 2 then CANCEL_ORDER else if b =? 3 then ORDER_ACK
  else if b =? 4 then REJECT else if b =? 5 then TRADE else if b =? 6 then CANCEL_ACK
  else MessageType_unnamed b.

Record Message := mkMessage { msg_type : MessageType; payload : list Z }.

Record InboundMessage := mkInbound {
  in_fd : Z;
  in_type : MessageType;
  in_payload : list Z;
}.

Record OutboundMessage := mkOutbound {
  out_fd : Z;
  out_payload : list Z;
}.

#[export] Instance OutboundMessage_eq_dec : EqDecision OutboundMessage.
Proof. solve_decision. Defined.
#[export] Instance InboundMessage_eq_dec : EqDecision InboundMessage.
Proof. solve_decision. Defined.

(** The wire format: type byte, payload length in network order, payload. *)
Definition frame (t : MessageType) (p : list Z) : list Z :=
  MessageType_to_byte t :: store BigEndian 4 (u32 (Z.of_nat (length p))) ++ p.

(** [class Serializer].  The [deserialize_*] functions are [const] in every
    state they run in; [deserialize_order] constructs an [Order] and so takes
    the clock reading. *)
Class Serializer := {
  serialize_order : Order → M (list Z) unit;
  deserialize_order {S} : Z → Message → M S Order;
  serialize_cancel : Z → M (list Z) unit;
  deserialize_cancel {S} : Message → M S Z;
  serialize_acknowledgement : Acknowledgement → M (list Z) unit;
  deserialize_acknowledgement {S} : Message → M S Acknowledgement;
  serialize_rejection : Rejection → M (list Z) unit;
  deserialize_rejection {S} : Message → M S Rejection;
  serialize_trade : Trade → M (list Z) unit;
  deserialize_trade {S} : Message → M S Trade;
  serialize_cancel_ack : Acknowledgement → M (list Z) unit;
  deserialize_cancel_ack {S} : Message → M S Acknowledgement;
}.

(** An order as the receiver sees it: stamped on arrival. *)
Definition restamp (now : Z) (o : Order) : Order :=
  mkOrder (u64 now) (id_ o) (price_ o) (quantity_ o) (side_ o) (orderType_ o).

(** What a serializer promises.  [min_payload] is the number of bytes
    [deserialize_order] reads. *)
Class SerializerLaws (z : Serializer) := {
  order_payload : Order → list Z;
  id_payload : Z → list Z;
  rejection_payload : Rejection → list Z;
  trade_payload : Trade → list Z;
  serialize_order_eq o buf :
    serialize_order o buf = Ok (buf ++ frame NEW_ORDER (order_payload o)) tt;
  serialize_cancel_eq i buf :
    serialize_cancel i buf = Ok (buf ++ frame CANCEL_ORDER (id_payload i)) tt;
  serialize_acknowledgement_eq a buf :
    serialize_acknowledgement a buf = Ok (buf ++ frame ORDER_ACK (id_payload (ack_id a))) tt;
  serialize_cancel_ack_eq a buf :
    serialize_cancel_ack a buf = Ok (buf ++ frame CANCEL_ACK (id_payload (ack_id a))) tt;
  serialize_rejection_eq r buf :
    serialize_rejection r buf = Ok (buf ++ frame REJECT (rejection_payload r)) tt;
  serialize_trade_eq t buf :
    serialize_trade t buf = Ok (buf ++ frame TRADE (trade_payload t)) tt;
  deserialize_order_eq {S} now t o (s : S) : order_valid o →
    deserialize_order now (mkMessage t (order_payload o)) s = Ok s (restamp now o);
  deserialize_cancel_eq {S} t i (s : S) : is_u64 i →
    deserialize_cancel (mkMessage t (id_payload i)) s = Ok s i;
  min_payload : nat;
  min_payload_id : (8 <= min_payload)%nat;
  order_payload_length o : (min_payload <= length (order_payload o))%nat;
  id_payload_length i : (8 <= length (id_payload i))%nat;
  deserialize_order_total now t p : bytes_wf p → (min_payload <= length p)%nat →
    (∃ o, order_valid o ∧ ∀ S (s : S), deserialize_order now (mkMessage t p) s = Ok s o) ∨
    (∃ w, ∀ S (s : S), deserialize_order now (mkMessage t p) s = Throw s (invalid_argument w));
  deserialize_cancel_total t p : bytes_wf p → (8 <= length p)%nat →
    ∃ i, (∀ S (s : S), deserialize_cancel (mkMessage t p) s = Ok s i) ∧ is_u64 i;
}.

Lemma restamp_valid now o : order_valid o → order_valid (restamp now o).
Proof.
  intros [[] ? ? ?]. split; simpl; try done. split; simpl; try done. apply u64_is_u64.
Qed.

Lemma MessageType_byte b : is_u8 b → MessageType_to_byte (MessageType_of_byte b) = b.
Proof.
  intros Hb. unfold MessageType_of_byte, MessageType_to_byte.
  repeat case_match; bool_to_prop; simplify_eq; done.
Qed.
