(* ===== verification/BinarySerializer.v ===== *)
(** * The binary wire encoding: [src/binary_serializer.cpp]

    Every [serialize_*] function grows the buffer by the header and payload
    size and copies the fields one after the other at the old end.  The header
    length is in network byte order, the payload fields are in host order. *)

From S2P Require Import Prelude Outcome Order Bytes Serializer.

Module Binary.

(** The two header fields, copied at the start of every frame. *)
Definition header (e : endian) (t : MessageType) (payload_size : Z) : list (list Z) :=
  [store e 1 (MessageType_to_byte t); store e 4 (htonl e (u32 payload_size))].

Definition serialize_order (e : endian) (order : Order) : M (list Z) unit :=
  let PAYLOAD_SIZE := (8 + 8 + 4 + 1 + 1)%nat in
  offset <- gets length ;;
  modify (resize (offset + (5 + PAYLOAD_SIZE))) ;;;
  write_fields offset (header e NEW_ORDER (Z.of_nat PAYLOAD_SIZE) ++
    [store e 8 (id_ order); store e 8 (price_ order); store e 4 (quantity_ order);
     store e 1 (Side_to_byte (side_ order)); store e 1 (OrderType_to_byte (orderType_ order))]).

Definition deserialize_order {S} (e : endian) (now : Z) (m : Message) : M S Order :=
  id <- read_uint e 0 8 (payload m) ;;
  price <- read_uint e 8 8 (payload m) ;;
  quantity <- read_uint e 16 4 (payload m) ;;
  side <- read_uint e 20 1 (payload m) ;;
  orderType <- read_uint e 21 1 (payload m) ;;
  or_throw (Order_ctor now id price quantity (Side_of_byte side) (OrderType_of_byte orderType)).

(** The frames whose payload is an order id. *)
Definition serialize_id (e : endian) (t : MessageType) (id : Z) : M (list Z) unit :=
  let PAYLOAD_SIZE := 8%nat in
  offset <- gets length ;;
  modify (resize (offset + (5 + PAYLOAD_SIZE))) ;;;
  write_fields offset (header e t (Z.of_nat PAYLOAD_SIZE) ++ [store e 8 id]).

Definition serialize_cancel (e : endian) (id : Z) : M (list Z) unit :=
  serialize_id e CANCEL_ORDER id.

Definition deserialize_cancel {S} (e : endian) (m : Message) : M S Z :=
  read_uint e 0 8 (payload m).

Definition serialize_acknowledgement (e : endian) (a : Acknowledgement) : M (list Z) unit :=
  serialize_id e ORDER_ACK (ack_id a).

Definition deserialize_acknowledgement {S} (e : endian) (m : Message) : M S Acknowledgement :=
  id <- read_uint e 0 8 (payload m) ;;
  ret (mkAck id).

(** [reason_length] is a [size_t] of which the first four bytes are copied. *)
Definition serialize_rejection (e : endian) (r : Rejection) : M (list Z) unit :=
  let reason_length := length (bytes_of_string (reason r)) in
  let PAYLOAD_SIZE := (8 + 4 + reason_length)%nat in
  offset <- gets length ;;
  modify (resize (offset + (5 + PAYLOAD_SIZE))) ;;;
  write_fields offset (header e REJECT (Z.of_nat PAYLOAD_SIZE) ++
    [store e 8 (rejection_id r); take 4 (store e 8 (Z.of_nat reason_length));
     bytes_of_string (reason r)]).

Definition deserialize_rejection {S} (e : endian) (m : Message) : M S Rejection :=
  id <- read_uint e 0 8 (payload m) ;;
  reason_length <- read_uint e 8 4 (payload m) ;;
  chars <- or_ub (memcpy_in 12 (Z.to_nat reason_length) (payload m)) ;;
  ret (mkRejection id (string_of_bytes chars)).

Definition serialize_trade (e : endian) (t : Trade) : M (list Z) unit :=
  let PAYLOAD_SIZE := (8 + 8 + 8 + 4 + 8)%nat in
  offset <- gets length ;;
  modify (resize (offset + (5 + PAYLOAD_SIZE))) ;;;
  write_fields offset (header e TRADE (Z.of_nat PAYLOAD_SIZE) ++
    [store e 8 (trade_price t); store e 8 (buyer_order_id t); store e 8 (seller_order_id t);
     store e 4 (trade_quantity t); store e 8 (trade_timestamp t)]).

Definition deserialize_trade {S} (e : endian) (m : Message) : M S Trade :=
  price <- read_uint e 0 8 (payload m) ;;
  buyer <- read_uint e 8 8 (payload m) ;;
  seller <- read_uint e 16 8 (payload m) ;;
  quantity <- read_uint e 24 4 (payload m) ;;
  timestamp <- read_uint e 28 8 (payload m) ;;
  ret (mkTrade price buyer seller quantity timestamp).

Definition serialize_cancel_ack (e : endian) (a : Acknowledgement) : M (list Z) unit :=
  serialize_id e CANCEL_ACK (ack_id a).

Definition deserialize_cancel_ack {S} (e : endian) (m : Message) : M S Acknowledgement :=
  id <- read_uint e 0 8 (payload m) ;;
  ret (mkAck id).

(** *** Payloads as byte strings *)

Definition order_bytes (e : endian) (o : Order) : list Z :=
  concat [store e 8 (id_ o); store e 8 (price_ o); store e 4 (quantity_ o);
    store e 1 (Side_to_byte (side_ o)); store e 1 (OrderType_to_byte (orderType_ o))].

Definition trade_bytes (e : endian) (t : Trade) : list Z :=
  concat [store e 8 (trade_price t); store e 8 (buyer_order_id t); store e 8 (seller_order_id t);
    store e 4 (trade_quantity t); store e 8 (trade_timestamp t)].

Definition rejection_bytes (e : endian) (r : Rejection) : list Z :=
  let chars := bytes_of_string (reason r) in
  concat [store e 8 (rejection_id r); take 4 (store e 8 (Z.of_nat (length chars))); chars].

(** The range of the fields of a [Trade]. *)
Record trade_in_range (t : Trade) : Prop := {
  tir_price : is_u64 (trade_price t);
  tir_buyer : is_u64 (buyer_order_id t);
  tir_seller : is_u64 (seller_order_id t);
  tir_quantity : is_u32 (trade_quantity t);
  tir_timestamp : is_u64 (trade_timestamp t);
}.

(** ** Encoding *)

Lemma store_type e t : is_u8 (MessageType_to_byte t) →
  store e 1 (MessageType_to_byte t) = [MessageType_to_byte t].
Proof. intros Hb. destruct e; simpl; by rewrite Z.mod_small by width. Qed.

Lemma concat_header e t n fields : is_u8 (MessageType_to_byte t) →
  n = Z.of_nat (length (concat fields)) →
  concat (header e t n ++ fields) = frame t (concat fields).
Proof.
  intros Ht ->. unfold header, frame. simpl. rewrite store_type, store_htonl by done. done.
Qed.

Lemma length_frame t p : length (frame t p) = (5 + length p)%nat.
Proof. unfold frame. cbn [length]. by rewrite length_app, length_store. Qed.

(** The common shape of the encoders. *)
Lemma append_frame e t n fields buf : is_u8 (MessageType_to_byte t) →
  n = length (concat fields) →
  (offset <- gets length ;; modify (resize (offset + (5 + n))) ;;;
   write_fields offset (header e t (Z.of_nat n) ++ fields)) buf =
  Ok (buf ++ frame t (concat fields)) tt.
Proof.
  intros Ht ->. unfold bind, gets, modify.
  rewrite append_fields; rewrite concat_header by done; [done|]. by rewrite length_frame.
Qed.

(** Lengths of concatenations of fields. *)
Lemma length_reason_field e n : length (take 4 (store e 8 n)) = 4%nat.
Proof. by rewrite length_take, length_store. Qed.

Ltac field_lengths :=
  cbn [concat take]; rewrite ?app_nil_r, ?length_app, ?length_reason_field, ?length_store;
  cbn [length]; lia.

Lemma serialize_order_frame e o buf :
  serialize_order e o buf = Ok (buf ++ frame NEW_ORDER (order_bytes e o)) tt.
Proof. unfold serialize_order. apply append_frame; [split; simpl; lia|field_lengths]. Qed.

Lemma serialize_id_frame e t i buf : is_u8 (MessageType_to_byte t) →
  serialize_id e t i buf = Ok (buf ++ frame t (concat [store e 8 i])) tt.
Proof. intros Ht. unfold serialize_id. apply append_frame; [done|field_lengths]. Qed.

Lemma serialize_trade_frame e t buf :
  serialize_trade e t buf = Ok (buf ++ frame TRADE (trade_bytes e t)) tt.
Proof. unfold serialize_trade. apply append_frame; [split; simpl; lia|field_lengths]. Qed.

Lemma serialize_rejection_frame e r buf :
  serialize_rejection e r buf = Ok (buf ++ frame REJECT (rejection_bytes e r)) tt.
Proof. unfold serialize_rejection. apply append_frame; [split; simpl; lia|field_lengths]. Qed.

(** ** Decoding *)

(** Reading back the [i]-th field of a payload. *)
Lemma memcpy_in_field fields i x off n : fields !! i = Some x →
  off = length (concat (take i fields)) → n = length x → memcpy_in off n (concat fields) = Some x.
Proof.
  intros Hi -> ->. rewrite <- (take_drop_middle fields i x Hi) at 2.
  rewrite concat_app. simpl. apply memcpy_in_at.
Qed.

Lemma read_field {S} e fields i x off n (s : S) : fields !! i = Some x →
  off = length (concat (take i fields)) → n = length x →
  read_uint e off n (concat fields) s = Ok s (load e x).
Proof. intros. unfold read_uint. by rewrite (memcpy_in_field fields i x). Qed.

(** Step over one read of a known field. *)
Ltac read_step i :=
  erewrite bind_Ok; [|eapply (read_field _ _ i); [reflexivity|field_lengths|field_lengths]];
  cbv beta.

Lemma deserialize_order_bytes {S} e now t o (s : S) : order_valid o →
  deserialize_order e now (mkMessage t (order_bytes e o)) s = Ok s (restamp now o).
Proof.
  intros Hv. pose proof Hv as [[Ht Hi Hp Hq [Hs Hsb] [Hot Hob]] _ _ _].
  unfold deserialize_order, order_bytes. cbn [payload].
  read_step 0%nat. read_step 1%nat. read_step 2%nat. read_step 3%nat. read_step 4%nat.
  rewrite !load_store_u64, load_store_u32, !load_store_u8, Hs, Hot by done.
  by rewrite Order_ctor_complete.
Qed.

Lemma deserialize_trade_bytes {S} e ty t (s : S) : trade_in_range t →
  deserialize_trade e (mkMessage ty (trade_bytes e t)) s = Ok s t.
Proof.
  intros [Hp Hb Hs Hq Ht]. unfold deserialize_trade, trade_bytes. cbn [payload].
  read_step 0%nat. read_step 1%nat. read_step 2%nat. read_step 3%nat. read_step 4%nat.
  rewrite !load_store_u64, load_store_u32 by done. by destruct t.
Qed.

Lemma read_id {S} e i (s : S) : is_u64 i →
  read_uint e 0 8 (concat [store e 8 i]) s = Ok s i.
Proof.
  intros Hi. rewrite (read_field e _ 0 (store e 8 i)); [|reflexivity|field_lengths..].
  by rewrite load_store_u64.
Qed.

(** The copied half of [reason_length]: the low bytes on a little-endian host,
    the high bytes on a big-endian one. *)
Lemma reason_field_little n : is_u32 n → load LittleEndian (take 4 (store LittleEndian 8 n)) = n.
Proof.
  intros Hn. change (take 4 (store LittleEndian 8 n)) with (store LittleEndian 4 n).
  by apply load_store_u32.
Qed.

Lemma reason_field_big n : is_u32 n → load BigEndian (take 4 (store BigEndian 8 n)) = 0.
Proof.
  intros Hn. cbn [store le_bytes rev app take load le_value].
  rewrite !Z.div_div by lia. rewrite !(Z.div_small n) by width. done.
Qed.

(** ** Robustness of decoding *)

Lemma load_bound e l : bytes_wf l → 0 <= load e l < 256 ^ Z.of_nat (length l).
Proof.
  assert (∀ k, bytes_wf k → 0 <= le_value k < 256 ^ Z.of_nat (length k)) as H.
  { induction 1 as [|b k Hb _ IH]; cbn [le_value length]; [lia|].
    rewrite Nat2Z.inj_succ, Z.pow_succ_r by lia. width. }
  intros Hl. destruct e; simpl; [by apply H|]. rewrite <- (length_rev l). by apply H, Forall_rev.
Qed.

Lemma read_uint_in_bounds e off n p : bytes_wf p → (off + n <= length p)%nat →
  ∃ z, (∀ S (s : S), read_uint e off n p s = Ok s z) ∧ 0 <= z < 256 ^ Z.of_nat n.
Proof.
  intros Hp Hle. exists (load e (take n (drop off p))). split.
  { intros S s. unfold read_uint, memcpy_in. by rewrite decide_True. }
  assert (length (take n (drop off p)) = n) as Hlen by (rewrite length_take, length_drop; lia).
  rewrite <- Hlen at 3. apply load_bound. by apply Forall_take, Forall_drop.
Qed.

Lemma deserialize_order_in_bounds e now t p : bytes_wf p → (22 <= length p)%nat →
  (∃ o, order_valid o ∧ ∀ S (s : S), deserialize_order e now (mkMessage t p) s = Ok s o) ∨
  (∃ w, ∀ S (s : S), deserialize_order e now (mkMessage t p) s = Throw s (invalid_argument w)).
Proof.
  intros Hp Hlen.
  destruct (read_uint_in_bounds e 0 8 p Hp) as (i & Hi & Hib); [lia|].
  destruct (read_uint_in_bounds e 8 8 p Hp) as (pr & Hpr & Hprb); [lia|].
  destruct (read_uint_in_bounds e 16 4 p Hp) as (q & Hq & Hqb); [lia|].
  destruct (read_uint_in_bounds e 20 1 p Hp) as (sd & Hsd & Hsdb); [lia|].
  destruct (read_uint_in_bounds e 21 1 p Hp) as (ty & Hty & Htyb); [lia|].
  assert (∀ S (s : S), deserialize_order e now (mkMessage t p) s =
    or_throw (Order_ctor now i pr q (Side_of_byte sd) (OrderType_of_byte ty)) s) as Hdes.
  { intros S s. unfold deserialize_order. cbn [payload].
    by rewrite (bind_Ok _ _ _ _ _ (Hi S s)), (bind_Ok _ _ _ _ _ (Hpr S s)),
      (bind_Ok _ _ _ _ _ (Hq S s)), (bind_Ok _ _ _ _ _ (Hsd S s)), (bind_Ok _ _ _ _ _ (Hty S s)). }
  destruct (Order_ctor now i pr q (Side_of_byte sd) (OrderType_of_byte ty)) as [ex|o] eqn:Hc.
  - right. unfold Order_ctor in Hc. repeat case_match; simplify_eq; eauto.
  - left. exists o. split; [|exact Hdes]. eapply Order_ctor_valid; [..|exact Hc].
    1-3: by unfold is_u64, is_u32; split; lia.
    + by apply Side_byte_wf.
    + by apply OrderType_byte_wf.
Qed.

Lemma order_bytes_wf e o : bytes_wf (order_bytes e o).
Proof.
  unfold bytes_wf, order_bytes. cbn [concat]. rewrite !Forall_app.
  split_and!; try apply store_wf. constructor.
Qed.

(** ** The instance of the interface *)

#[export] Instance BinarySerializer (e : endian) : Serializer := {
  serialize_order := serialize_order e;
  deserialize_order S := deserialize_order e;
  serialize_cancel := serialize_cancel e;
  deserialize_cancel S := deserialize_cancel e;
  serialize_acknowledgement := serialize_acknowledgement e;
  deserialize_acknowledgement S := deserialize_acknowledgement e;
  serialize_rejection := serialize_rejection e;
  deserialize_rejection S := deserialize_rejection e;
  serialize_trade := serialize_trade e;
  deserialize_trade S := deserialize_trade e;
  serialize_cancel_ack := serialize_cancel_ack e;
  deserialize_cancel_ack S := deserialize_cancel_ack e;
}.

#[export] Instance BinarySerializer_laws e : SerializerLaws (BinarySerializer e).
Proof.
  refine {| order_payload := order_bytes e; id_payload i := concat [store e 8 i];
            rejection_payload := rejection_bytes e; trade_payload := trade_bytes e;
            min_payload := 22%nat |}; intros.
  - apply serialize_order_frame.
  - apply serialize_id_frame. split; simpl; lia.
  - apply serialize_id_frame. split; simpl; lia.
  - apply serialize_id_frame. split; simpl; lia.
  - apply serialize_rejection_frame.
  - apply serialize_trade_frame.
  - by apply deserialize_order_bytes.
  - by apply read_id.
  - lia.
  - unfold order_bytes. field_lengths.
  - field_lengths.
  - by apply deserialize_order_in_bounds.
  - destruct (read_uint_in_bounds e 0 8 p H H0) as (i & Hi & Hb). by exists i.
Defined.

(** ** Main theorems *)

(** C20: an order survives the wire on a host of either byte order.  Encoding
    appends to the buffer, without touching what is in it, one frame with a
    22-byte payload, and decoding that payload gives the same order with the
    receiver's time stamp. *)
Theorem order_roundtrip {S} e now o buf (s : S) : order_valid o →
  ∃ p, serialize_order e o buf = Ok (buf ++ frame NEW_ORDER p) tt ∧ length p = 22%nat ∧
    deserialize_order e now (mkMessage NEW_ORDER p) s = Ok s (restamp now o).
Proof.
  intros Hv. exists (order_bytes e o). split_and!.
  - apply serialize_order_frame.
  - unfold order_bytes. field_lengths.
  - by apply deserialize_order_bytes.
Qed.

(** A trade report survives the wire unchanged. *)
Lemma trade_roundtrip {S} e t buf (s : S) : trade_in_range t →
  ∃ p, serialize_trade e t buf = Ok (buf ++ frame TRADE p) tt ∧ length p = 36%nat ∧
    deserialize_trade e (mkMessage TRADE p) s = Ok s t.
Proof.
  intros Hv. exists (trade_bytes e t). split_and!.
  - apply serialize_trade_frame.
  - unfold trade_bytes. field_lengths.
  - by apply deserialize_trade_bytes.
Qed.

(** Cancel requests and both kinds of acknowledgement survive the wire, and
    the three differ on the wire by their type byte only. *)
Lemma id_messages_roundtrip {S} e i buf (s : S) : is_u64 i →
  ∃ p, length p = 8%nat ∧
    serialize_cancel e i buf = Ok (buf ++ frame CANCEL_ORDER p) tt ∧
    serialize_acknowledgement e (mkAck i) buf = Ok (buf ++ frame ORDER_ACK p) tt ∧
    serialize_cancel_ack e (mkAck i) buf = Ok (buf ++ frame CANCEL_ACK p) tt ∧
    deserialize_cancel e (mkMessage CANCEL_ORDER p) s = Ok s i ∧
    deserialize_acknowledgement e (mkMessage ORDER_ACK p) s = Ok s (mkAck i) ∧
    deserialize_cancel_ack e (mkMessage CANCEL_ACK p) s = Ok s (mkAck i).
Proof.
  intros Hi. exists (concat [store e 8 i]). split; [field_lengths|].
  unfold deserialize_cancel, deserialize_acknowledgement, deserialize_cancel_ack. cbn [payload].
  rewrite (read_id e i s Hi), !(bind_Ok _ _ _ _ _ (read_id e i s Hi)).
  split_and!; try done; apply serialize_id_frame; split; simpl; lia.
Qed.

(** A rejection survives the wire on a little-endian host when its reason
    is shorter than 4 GiB. *)
Lemma rejection_roundtrip {S} r buf (s : S) :
  is_u64 (rejection_id r) → is_u32 (Z.of_nat (String.length (reason r))) →
  ∃ p, serialize_rejection LittleEndian r buf = Ok (buf ++ frame REJECT p) tt ∧
    deserialize_rejection LittleEndian (mkMessage REJECT p) s = Ok s r.
Proof.
  intros Hi Hl. exists (rejection_bytes LittleEndian r). split; [apply serialize_rejection_frame|].
  unfold deserialize_rejection, rejection_bytes. cbn [payload].
  rewrite <- length_bytes_of_string in Hl.
  read_step 0%nat. read_step 1%nat. rewrite load_store_u64, reason_field_little by done.
  rewrite Nat2Z.id, (memcpy_in_field _ 2 (bytes_of_string (reason r)));
    [|reflexivity|field_lengths|done].
  unfold or_ub, bind, ret. rewrite string_of_bytes_of_string. by destruct r.
Qed.

(** C33: everything else that crosses the wire survives it: trade reports, cancel
    requests and both kinds of acknowledgement on either byte order, and
    rejections on a little-endian host when the reason is shorter than 4 GiB;
    messages that carry an id only differ on the wire by their type byte. *)
Theorem messages_roundtrip {S} e t i r buf (s : S) : trade_in_range t → is_u64 i →
  is_u64 (rejection_id r) → is_u32 (Z.of_nat (String.length (reason r))) →
  (∃ p, serialize_trade e t buf = Ok (buf ++ frame TRADE p) tt ∧
     deserialize_trade e (mkMessage TRADE p) s = Ok s t) ∧
  (∃ p, serialize_cancel e i buf = Ok (buf ++ frame CANCEL_ORDER p) tt ∧
     serialize_acknowledgement e (mkAck i) buf = Ok (buf ++ frame ORDER_ACK p) tt ∧
     serialize_cancel_ack e (mkAck i) buf = Ok (buf ++ frame CANCEL_ACK p) tt ∧
     deserialize_cancel e (mkMessage CANCEL_ORDER p) s = Ok s i ∧
     deserialize_acknowledgement e (mkMessage ORDER_ACK p) s = Ok s (mkAck i) ∧
     deserialize_cancel_ack e (mkMessage CANCEL_ACK p) s = Ok s (mkAck i)) ∧
  (∃ p, serialize_rejection LittleEndian r buf = Ok (buf ++ frame REJECT p) tt ∧
     deserialize_rejection LittleEndian (mkMessage REJECT p) s = Ok s r).
Proof.
  intros Ht Hi Hr Hl. destruct (trade_roundtrip e t buf s Ht) as (p & ? & _ & ?).
  destruct (id_messages_roundtrip e i buf s Hi) as (q & _ & ?).
  split; [by exists p|]. split; [by exists q|]. by apply rejection_roundtrip.
Qed.

(** On a big-endian host the same code loses the reason: the four bytes
    copied from the 64-bit [reason_length] are its high half, so the length
    field is zero and the decoder returns an empty reason. *)
Lemma rejection_big_endian_loses_reason {S} r buf (s : S) :
  is_u64 (rejection_id r) → is_u32 (Z.of_nat (String.length (reason r))) →
  ∃ p, serialize_rejection BigEndian r buf = Ok (buf ++ frame REJECT p) tt ∧
    deserialize_rejection BigEndian (mkMessage REJECT p) s = Ok s (mkRejection (rejection_id r) "").
Proof.
  intros Hi Hl. exists (rejection_bytes BigEndian r). split; [apply serialize_rejection_frame|].
  unfold deserialize_rejection, rejection_bytes. cbn [payload].
  rewrite <- length_bytes_of_string in Hl.
  read_step 0%nat. read_step 1%nat. rewrite load_store_u64, reason_field_big by done.
  unfold memcpy_in. rewrite decide_True; [done|]. field_lengths.
Qed.

(** C38: [deserialize_order] is memory safe exactly on payloads of at least 22
    bytes: on those it returns a valid order or throws [invalid_argument],
    whatever the bytes are; on a shorter payload it reads past the end, which
    no check in the code prevents. *)
Theorem deserialize_order_memory_safe_iff {S} e now t p (s : S) : bytes_wf p →
  ((22 <= length p)%nat →
    (∃ o, deserialize_order e now (mkMessage t p) s = Ok s o ∧ order_valid o) ∨
    (∃ w, deserialize_order e now (mkMessage t p) s = Throw s (invalid_argument w))) ∧
  ((length p < 22)%nat → deserialize_order e now (mkMessage t p) s = UB).
Proof.
  intros Hp. split.
  { intros Hl. destruct (deserialize_order_in_bounds e now t p Hp Hl) as [(o & ? & ?)|(w & ?)]; eauto. }
  intros Hlen.
  unfold deserialize_order. cbn [payload].
  repeat match goal with
  | |- bind (read_uint e ?off ?n p) _ _ = _ =>
      destruct (decide (off + n <= length p)%nat) as [?|?];
      [destruct (read_uint_in_bounds e off n p Hp ltac:(assumption)) as (? & Hr & _);
       rewrite (bind_Ok _ _ _ _ _ (Hr _ _)); clear Hr
      |unfold bind at 1; rewrite read_uint_short by lia; done]
  end.
  lia.
Qed.
End Binary.
