(* ===== verification/RingBuffer.v ===== *)
(** * The ring buffer: [include/spsc_ring_buffer.hpp], run by one thread at a time

    The indices are [size_t] counters that only grow, modulo 2^64, and a slot
    is selected with a mask.  [BoundedQueue] is the interface the two threads
    use; the theorems of this file show that the ring buffer with a
    power-of-two capacity implements a bounded FIFO queue, including when the
    counters wrap around.  Concurrent use is the subject of [SpscConcurrent]. *)

From S2P Require Import Prelude Outcome.

(** ** Interface *)

Class BoundedQueue (Q T : Type) := {
  q_try_push : T → M Q bool;
  q_try_pop : M Q (option T);
}.

(** [q_rep q l]: the queue holds the items [l], oldest first. *)
Class BoundedQueueLaws (Q T : Type) `{!BoundedQueue Q T} := {
  q_capacity : nat;
  q_rep : Q → list T → Prop;
  q_rep_bound q l : q_rep q l → (length l <= q_capacity)%nat;
  q_push_room q l x : q_rep q l → (length l < q_capacity)%nat →
    ∃ q', q_try_push x q = Ok q' true ∧ q_rep q' (l ++ [x]);
  q_push_full q l x : q_rep q l → length l = q_capacity → q_try_push x q = Ok q false;
  q_pop_empty q : q_rep q [] → q_try_pop q = Ok q None;
  q_pop_first q x l : q_rep q (x :: l) → ∃ q', q_try_pop q = Ok q' (Some x) ∧ q_rep q' l;
}.

(** ** [class SPSCRingBuffer] *)

Record Ring (T : Type) := mkRing { buffer_ : list T; head_ : Z; tail_ : Z }.
Arguments mkRing {T}.
Arguments buffer_ {T}.
Arguments head_ {T}.
Arguments tail_ {T}.

(** Default-constructed array elements and counters at zero. *)
Definition empty_ring {T} (d : T) (Capacity : Z) : Ring T :=
  mkRing (replicate (Z.to_nat Capacity) d) 0 0.

Section ring.
Context {T : Type} (Capacity : Z).

(** What a moved-from element holds is up to its type. *)
Context (moved : T → T).

Definition slot_index (counter : Z) : nat := Z.to_nat (Z.land counter (Capacity - 1)).

Definition slot_write (i : nat) (x : T) : M (Ring T) unit := λ r,
  if decide (i < length (buffer_ r))%nat then
    Ok (mkRing (<[i := x]> (buffer_ r)) (head_ r) (tail_ r)) tt
  else UB.

Definition slot_take (i : nat) : M (Ring T) T := λ r,
  match buffer_ r !! i with
  | Some x => Ok (mkRing (<[i := moved x]> (buffer_ r)) (head_ r) (tail_ r)) x
  | None => UB
  end.

Definition try_push (item : T) : M (Ring T) bool :=
  head <- gets head_ ;;
  tail <- gets tail_ ;;
  if u64 (head - tail) =? Capacity then ret false
  else
    slot_write (slot_index head) item ;;;
    modify (λ r, mkRing (buffer_ r) (u64 (head + 1)) (tail_ r)) ;;;
    ret true.

Definition try_pop : M (Ring T) (option T) :=
  tail <- gets tail_ ;;
  head <- gets head_ ;;
  if tail =? head then ret None
  else
    item <- slot_take (slot_index tail) ;;
    modify (λ r, mkRing (buffer_ r) (head_ r) (u64 (tail + 1))) ;;;
    ret (Some item).

(** The items between the counters. *)
Record ring_rep (r : Ring T) (l : list T) : Prop := {
  rr_length : Z.of_nat (length (buffer_ r)) = Capacity;
  rr_head : is_u64 (head_ r);
  rr_tail : is_u64 (tail_ r);
  rr_count : u64 (head_ r - tail_ r) = Z.of_nat (length l);
  rr_bound : Z.of_nat (length l) <= Capacity;
  rr_items i x : l !! i = Some x → buffer_ r !! slot_index (tail_ r + Z.of_nat i) = Some x;
}.
End ring.

(** ** Arithmetic of the counters *)

Definition power_of_two (c : Z) : Prop := ∃ k, 0 <= k <= 63 ∧ c = 2 ^ k.

Lemma power_of_two_pos c : power_of_two c → 0 < c <= 2 ^ 63.
Proof.
  intros (k & Hk & ->). split; [lia|]. apply Z.pow_le_mono_r; lia.
Qed.

Lemma mask_mod c a : power_of_two c → Z.land a (c - 1) = a `mod` c.
Proof.
  intros (k & Hk & ->). rewrite <- Z.land_ones by lia. f_equal. rewrite Z.ones_equiv. lia.
Qed.

Lemma u64_mod c a : power_of_two c → u64 a `mod` c = a `mod` c.
Proof.
  intros (k & Hk & ->). unfold u64.
  apply Z.mod_mod_divide. exists (2 ^ (64 - k)). rewrite <- Z.pow_add_r by lia. f_equal. lia.
Qed.

(** Counters less than a capacity apart select different slots. *)
Lemma mod_ne c a i j : 0 < c → 0 <= i < j → j - i < c → (a + i) `mod` c ≠ (a + j) `mod` c.
Proof.
  intros Hc Hij Hd Heq.
  assert ((j - i) `mod` c = 0) as H0.
  { replace (j - i) with ((a + j) - (a + i)) by lia.
    rewrite Zminus_mod, Heq, Z.sub_diag. by apply Z.mod_0_l; lia. }
  rewrite Z.mod_small in H0 by lia. lia.
Qed.

Lemma slot_index_lt c a : power_of_two c → (slot_index c a < Z.to_nat c)%nat.
Proof.
  intros Hc. unfold slot_index. rewrite mask_mod by done.
  pose proof (power_of_two_pos _ Hc). pose proof (Z.mod_pos_bound a c). lia.
Qed.

Lemma slot_index_u64 c a b : power_of_two c → slot_index c (u64 a + b) = slot_index c (a + b).
Proof.
  intros Hc. unfold slot_index. rewrite !mask_mod by done.
  rewrite (Zplus_mod (u64 a)), u64_mod, <- Zplus_mod by done. done.
Qed.

Lemma slot_index_congr c a b : power_of_two c → u64 a = u64 b → slot_index c a = slot_index c b.
Proof.
  intros Hc Heq. unfold slot_index. rewrite !mask_mod by done.
  by rewrite <- (u64_mod c a), Heq, u64_mod.
Qed.

Lemma slot_index_ne c a i j : power_of_two c → 0 <= i < j → j - i < c →
  slot_index c (a + i) ≠ slot_index c (a + j).
Proof.
  intros Hc Hij Hd. pose proof (power_of_two_pos _ Hc). unfold slot_index. rewrite !mask_mod by done.
  pose proof (Z.mod_pos_bound (a + i) c). pose proof (Z.mod_pos_bound (a + j) c).
  intros Heq%Z2Nat.inj; [|lia..]. by eapply mod_ne in Heq; [|lia..].
Qed.

Lemma u64_sub_u64 a b : u64 (u64 a - b) = u64 (a - b).
Proof. unfold u64. apply Zminus_mod_idemp_l. Qed.

Lemma u64_sub_u64_r a b : u64 (a - u64 b) = u64 (a - b).
Proof. unfold u64. apply Zminus_mod_idemp_r. Qed.

(** A wrapped difference that is known determines its neighbours. *)
Lemma u64_shift d n k : u64 d = n → is_u64 (n + k) → u64 (d + k) = n + k.
Proof.
  intros <- Hk. rewrite <- (u64_id (u64 d + k) Hk). unfold u64. by rewrite Zplus_mod_idemp_l.
Qed.

(** ** Lemmas on the representation *)

Section rep.
Context {T : Type} (Capacity : Z) (moved : T → T).
Hypothesis Hcap : power_of_two Capacity.
Implicit Types (r : Ring T) (l : list T) (x : T).

Lemma empty_ring_rep (d : T) : ring_rep Capacity (empty_ring d Capacity) [].
Proof.
  pose proof (power_of_two_pos _ Hcap). split; simpl; try done; try width.
  rewrite length_replicate. lia.
Qed.

(** The head counter is the tail plus the number of items, modulo 2^64. *)
Lemma rep_head_slot r l : ring_rep Capacity r l →
  slot_index Capacity (head_ r) = slot_index Capacity (tail_ r + Z.of_nat (length l)).
Proof.
  intros [_ Hh _ Hc _ _]. apply slot_index_congr; [done|]. rewrite <- Hc.
  unfold u64. rewrite Zplus_mod_idemp_r. f_equal. lia.
Qed.

Lemma rep_full r l : ring_rep Capacity r l →
  (u64 (head_ r - tail_ r) =? Capacity) = bool_decide (Z.of_nat (length l) = Capacity).
Proof.
  intros [_ _ _ -> _ _]. case_bool_decide; [by apply Z.eqb_eq|by apply Z.eqb_neq].
Qed.

Lemma rep_empty r l : ring_rep Capacity r l → (tail_ r =? head_ r) = bool_decide (l = []).
Proof.
  intros [_ Hh Ht Hc _ _]. destruct l as [|x l]; simpl in Hc.
  - rewrite bool_decide_eq_true_2 by done. apply Z.eqb_eq.
    unfold u64 in Hc. apply Z.mod_divide in Hc as [z Hz]; [|lia]. width.
  - rewrite bool_decide_eq_false_2 by done. apply Z.eqb_neq. intros Heq.
    rewrite Heq, Z.sub_diag in Hc. unfold u64 in Hc. rewrite Z.mod_0_l in Hc; lia.
Qed.

Lemma try_push_room r l x : ring_rep Capacity r l → Z.of_nat (length l) < Capacity →
  ∃ r', try_push Capacity x r = Ok r' true ∧ ring_rep Capacity r' (l ++ [x]).
Proof.
  intros Hr Hroom. pose proof (rep_head_slot _ _ Hr) as Hslot.
  pose proof (power_of_two_pos _ Hcap) as Hp. pose proof (slot_index_lt Capacity (head_ r) Hcap) as Hlt.
  pose proof (rep_full _ _ Hr) as Hfull. rewrite bool_decide_eq_false_2 in Hfull by lia.
  destruct Hr as [Hlen Hh Ht Hc Hb Hit]. unfold try_push, bind, gets. rewrite Hfull.
  unfold slot_write. rewrite decide_True by lia. simpl. eexists. split; [done|].
  split; simpl; [by rewrite length_insert|apply u64_is_u64|done| | |].
  - rewrite u64_sub_u64, length_app, Nat2Z.inj_add. simpl.
    replace (head_ r + 1 - tail_ r) with (head_ r - tail_ r + 1) by lia.
    apply u64_shift; [done|]. width.
  - rewrite length_app, Nat2Z.inj_add. simpl. lia.
  - intros i y [Hi|(Hge & Hy)]%lookup_app_Some.
    + pose proof (lookup_lt_Some _ _ _ Hi). rewrite list_lookup_insert_ne; [by apply Hit|].
      rewrite Hslot. intros Heq. symmetry in Heq. by apply slot_index_ne in Heq; [|done|lia..].
    + apply list_lookup_singleton_Some in Hy as [Hi ->].
      replace i with (length l) by lia. rewrite Hslot. apply list_lookup_insert_eq. lia.
Qed.

Lemma try_push_at_capacity r l x : ring_rep Capacity r l → Z.of_nat (length l) = Capacity →
  try_push Capacity x r = Ok r false.
Proof.
  intros Hr Hl. pose proof (rep_full _ _ Hr) as Hfull. rewrite bool_decide_eq_true_2 in Hfull by done.
  unfold try_push, bind, gets. by rewrite Hfull.
Qed.

Lemma try_pop_nil r : ring_rep Capacity r [] → try_pop Capacity moved r = Ok r None.
Proof. intros Hr. unfold try_pop, bind, gets. by rewrite (rep_empty _ _ Hr). Qed.

Lemma try_pop_cons r x l : ring_rep Capacity r (x :: l) →
  ∃ r', try_pop Capacity moved r = Ok r' (Some x) ∧ ring_rep Capacity r' l.
Proof.
  intros Hr. pose proof (rep_empty _ _ Hr) as He. rewrite bool_decide_eq_false_2 in He by done.
  pose proof (power_of_two_pos _ Hcap) as Hp.
  destruct Hr as [Hlen Hh Ht Hc Hb Hit]. unfold try_pop, bind, gets. rewrite He.
  pose proof (Hit 0%nat x eq_refl) as Hx. rewrite Z.add_0_r in Hx.
  unfold slot_take. rewrite Hx. simpl. eexists. split; [done|]. simpl in Hc, Hb.
  split; simpl; [by rewrite length_insert|done|apply u64_is_u64| |lia|].
  - rewrite u64_sub_u64_r. replace (head_ r - (tail_ r + 1)) with (head_ r - tail_ r + -1) by lia.
    erewrite u64_shift; [|exact Hc|]; [lia|width].
  - intros i y Hi. pose proof (lookup_lt_Some _ _ _ Hi).
    rewrite slot_index_u64, <- Z.add_assoc by done. 
    rewrite list_lookup_insert_ne.
    + specialize (Hit (S i) y Hi). replace (1 + Z.of_nat i) with (Z.of_nat (S i)) by lia. done.
    + intros Heq. rewrite <- (Z.add_0_r (tail_ r)) in Heq at 1.
      by apply slot_index_ne in Heq; [|done|lia..].
Qed.
End rep.

(** ** The ring buffer as a [BoundedQueue] *)

#[export] Instance ring_queue {T} (Capacity : Z) (moved : T → T) : BoundedQueue (Ring T) T := {
  q_try_push := try_push Capacity;
  q_try_pop := try_pop Capacity moved;
}.

#[export] Instance ring_queue_laws {T} (Capacity : Z) (moved : T → T)
  (Hcap : power_of_two Capacity) :
  @BoundedQueueLaws (Ring T) T (ring_queue Capacity moved).
Proof.
  pose proof (power_of_two_pos _ Hcap) as Hp.
  refine {| q_capacity := Z.to_nat Capacity; q_rep := ring_rep Capacity |}.
  - intros q l Hr. pose proof (rr_bound _ _ _ Hr). lia.
  - intros q l x Hr Hl. apply try_push_room; [done..|lia].
  - intros q l x Hr Hl. apply (try_push_at_capacity _ q l); [done|lia].
  - intros q Hr. by apply try_pop_nil.
  - intros q x l Hr. by apply try_pop_cons.
Defined.

(** The capacity the program uses: [include/types.hpp]. *)
Definition DEFAULT_RING_CAPACITY : Z := 8192.

Lemma default_capacity_power : power_of_two DEFAULT_RING_CAPACITY.
Proof. by exists 13. Qed.

(** ** Main theorems *)

(** Histories of calls, and the bounded FIFO they are compared with. *)
Inductive queue_op (T : Type) := OpPush (x : T) | OpPop.
Arguments OpPush {T} x.
Arguments OpPop {T}.

Inductive queue_res (T : Type) := ResPush (ok : bool) | ResPop (x : option T).
Arguments ResPush {T} ok.
Arguments ResPop {T} x.

Fixpoint run_ring {T} (Capacity : Z) (moved : T → T) (ops : list (queue_op T)) :
    M (Ring T) (list (queue_res T)) :=
  match ops with
  | [] => ret []
  | OpPush x :: ops' =>
      ok <- try_push Capacity x ;; rs <- run_ring Capacity moved ops' ;; ret (ResPush ok :: rs)
  | OpPop :: ops' =>
      o <- try_pop Capacity moved ;; rs <- run_ring Capacity moved ops' ;; ret (ResPop o :: rs)
  end.

Fixpoint run_fifo {T} (cap : nat) (ops : list (queue_op T)) (l : list T) :
    list (queue_res T) * list T :=
  match ops with
  | [] => ([], l)
  | OpPush x :: ops' =>
      let ok := bool_decide (length l < cap)%nat in
      let '(rs, l') := run_fifo cap ops' (if ok then l ++ [x] else l) in (ResPush ok :: rs, l')
  | OpPop :: ops' =>
      let '(rs, l') := run_fifo cap ops' (tail l) in (ResPop (head l) :: rs, l')
  end.

(** C19: with a power-of-two capacity the ring buffer behaves like a bounded
    FIFO queue for every sequence of pushes and pops, from any state it can be
    in (counters about to wrap included): same results, same contents, and no
    access outside the array. *)
Theorem ring_refines_fifo {T} Capacity (moved : T → T) ops r l :
  power_of_two Capacity → ring_rep Capacity r l →
  let '(rs, l') := run_fifo (Z.to_nat Capacity) ops l in
  ∃ r', run_ring Capacity moved ops r = Ok r' rs ∧ ring_rep Capacity r' l'.
Proof.
  intros Hcap. revert r l. induction ops as [|[x|] ops IH]; intros r l Hr; simpl; [by eauto|..].
  - pose proof (rr_bound _ _ _ Hr). case_bool_decide as Hroom.
    + destruct (try_push_room Capacity Hcap r l x Hr) as (r1 & Hp & Hr1); [lia|].
      specialize (IH r1 _ Hr1). destruct (run_fifo _ ops _) as [rs l']. destruct IH as (r' & Hrun & Hr').
      exists r'. by rewrite (bind_Ok _ _ _ _ _ Hp), (bind_Ok _ _ _ _ _ Hrun).
    + specialize (IH r l Hr). destruct (run_fifo _ ops _) as [rs l']. destruct IH as (r' & Hrun & Hr').
      exists r'. rewrite (bind_Ok _ _ _ _ _ (try_push_at_capacity Capacity r l x Hr ltac:(lia))).
      by rewrite (bind_Ok _ _ _ _ _ Hrun).
  - destruct l as [|x l]; simpl.
    + specialize (IH r [] Hr). destruct (run_fifo _ ops _) as [rs l']. destruct IH as (r' & Hrun & Hr').
      exists r'. rewrite (bind_Ok _ _ _ _ _ (try_pop_nil Capacity moved r Hr)).
      by rewrite (bind_Ok _ _ _ _ _ Hrun).
    + destruct (try_pop_cons Capacity moved Hcap r x l Hr) as (r1 & Hp & Hr1).
      specialize (IH r1 _ Hr1). destruct (run_fifo _ ops _) as [rs l']. destruct IH as (r' & Hrun & Hr').
      exists r'. by rewrite (bind_Ok _ _ _ _ _ Hp), (bind_Ok _ _ _ _ _ Hrun).
Qed.
