(* ===== verification/SpscConcurrent.v ===== *)
(** * The ring buffer with a producer and a consumer thread

    [include/spsc_ring_buffer.hpp] under the C++ memory model.  Each call is
    cut into its memory accesses and the two threads interleave freely.  An
    atomic index is the history of the values stored to it; an acquire load by
    the other thread may return any value not older than the last one it saw
    (its view).  Array slots are plain memory: every cell records which index
    store publishes its last write and its last read, and an access is a data
    race when the thread has not acquired that store.  The theorems show that
    races are unreachable and that items come out in the order they went in,
    none lost and none duplicated. *)

From S2P Require Import Prelude Outcome RingBuffer.

Section spsc.
Context {T : Type} (Capacity : Z) (moved : T → T).

(** ** State *)

(** [c_wr]: index in [head_]'s history of the store after the last write;
    [c_rd]: index in [tail_]'s history of the store after the last read. *)
Record cell := mkCell { c_val : T; c_wr : nat; c_rd : nat }.

(** Where [try_push(x)] is: after loading [head_], after loading [tail_], after
    writing the slot. *)
Inductive producer :=
  | P_idle
  | P_head (x : T) (h : Z)
  | P_tail (x : T) (h t : Z)
  | P_written (x : T) (h : Z).

(** Where [try_pop()] is. *)
Inductive consumer :=
  | C_idle
  | C_tail (t : Z)
  | C_head (t h : Z)
  | C_taken (t : Z) (x : T).

Record spsc := mkSpsc {
  cells : list cell;
  heads : list Z;
  tails : list Z;
  prod : producer;
  pview : nat;
  cons_ : consumer;
  cview : nat;
  pushed : list T;
  popped : list T;
}.

Definition spsc_init (d : T) : spsc :=
  mkSpsc (replicate (Z.to_nat Capacity) (mkCell d 0 0)) [0] [0] P_idle 0 C_idle 0 [] [].

(** ** Steps *)

Inductive producer_step : spsc → spsc → Prop :=
  | p_load_head x h s :
      prod s = P_idle → last (heads s) = Some h →
      producer_step s (mkSpsc (cells s) (heads s) (tails s) (P_head x h) (pview s)
                         (cons_ s) (cview s) (pushed s) (popped s))
  | p_load_tail x h i t s :
      prod s = P_head x h → (pview s <= i)%nat → tails s !! i = Some t →
      producer_step s (mkSpsc (cells s) (heads s) (tails s) (P_tail x h t) i
                         (cons_ s) (cview s) (pushed s) (popped s))
  | p_full x h t s :
      prod s = P_tail x h t → u64 (h - t) = Capacity →
      producer_step s (mkSpsc (cells s) (heads s) (tails s) P_idle (pview s)
                         (cons_ s) (cview s) (pushed s) (popped s))
  | p_write x h t c s :
      prod s = P_tail x h t → u64 (h - t) ≠ Capacity →
      cells s !! slot_index Capacity h = Some c →
      producer_step s (mkSpsc (<[slot_index Capacity h := mkCell x (length (heads s)) (c_rd c)]> (cells s))
                         (heads s) (tails s) (P_written x h) (pview s)
                         (cons_ s) (cview s) (pushed s) (popped s))
  | p_publish x h s :
      prod s = P_written x h →
      producer_step s (mkSpsc (cells s) (heads s ++ [u64 (h + 1)]) (tails s) P_idle (pview s)
                         (cons_ s) (cview s) (pushed s ++ [x]) (popped s)).

Inductive consumer_step : spsc → spsc → Prop :=
  | c_load_tail t s :
      cons_ s = C_idle → last (tails s) = Some t →
      consumer_step s (mkSpsc (cells s) (heads s) (tails s) (prod s) (pview s)
                         (C_tail t) (cview s) (pushed s) (popped s))
  | c_load_head t i h s :
      cons_ s = C_tail t → (cview s <= i)%nat → heads s !! i = Some h →
      consumer_step s (mkSpsc (cells s) (heads s) (tails s) (prod s) (pview s)
                         (C_head t h) i (pushed s) (popped s))
  | c_empty t h s :
      cons_ s = C_head t h → t = h →
      consumer_step s (mkSpsc (cells s) (heads s) (tails s) (prod s) (pview s)
                         C_idle (cview s) (pushed s) (popped s))
  | c_take t h c s :
      cons_ s = C_head t h → t ≠ h → cells s !! slot_index Capacity t = Some c →
      consumer_step s (mkSpsc (<[slot_index Capacity t := mkCell (moved (c_val c)) (c_wr c) (length (tails s))]> (cells s))
                         (heads s) (tails s) (prod s) (pview s)
                         (C_taken t (c_val c)) (cview s) (pushed s) (popped s))
  | c_publish t x s :
      cons_ s = C_taken t x →
      consumer_step s (mkSpsc (cells s) (heads s) (tails s ++ [u64 (t + 1)]) (prod s) (pview s)
                         C_idle (cview s) (pushed s) (popped s ++ [x])).

Definition spsc_step (s s' : spsc) : Prop := producer_step s s' ∨ consumer_step s s'.

(** A thread is about to touch a slot that the other thread's last access to
    it does not happen before. *)
Definition producer_race (s : spsc) : Prop :=
  ∃ x h t c, prod s = P_tail x h t ∧ u64 (h - t) ≠ Capacity ∧
    cells s !! slot_index Capacity h = Some c ∧ (pview s < c_rd c)%nat.

Definition consumer_race (s : spsc) : Prop :=
  ∃ t h c, cons_ s = C_head t h ∧ t ≠ h ∧
    cells s !! slot_index Capacity t = Some c ∧ (cview s < c_wr c)%nat.

(** ** Invariant *)

(** The values of an index that was incremented [n] times from zero. *)
Definition history (n : nat) : list Z := (λ i, u64 (Z.of_nat i)) <$> seq 0 (S n).

Abbreviation slot k := (slot_index Capacity (Z.of_nat k)).

Definition nH (s : spsc) : nat := length (pushed s).
Definition nT (s : spsc) : nat := length (popped s).

Definition taken (s : spsc) : bool := match cons_ s with C_taken _ _ => true | _ => false end.

Definition producer_ok (s : spsc) : Prop :=
  match prod s with
  | P_idle => True
  | P_head x h => h = u64 (Z.of_nat (nH s))
  | P_tail x h t => h = u64 (Z.of_nat (nH s)) ∧ t = u64 (Z.of_nat (pview s))
  | P_written x h => h = u64 (Z.of_nat (nH s)) ∧ Z.of_nat (nH s) < Z.of_nat (pview s) + Capacity ∧
      ∃ c, cells s !! slot (nH s) = Some c ∧ c_val c = x ∧ c_wr c = S (nH s)
  end.

Definition consumer_ok (s : spsc) : Prop :=
  match cons_ s with
  | C_idle => True
  | C_tail t => t = u64 (Z.of_nat (nT s))
  | C_head t h => t = u64 (Z.of_nat (nT s)) ∧ h = u64 (Z.of_nat (cview s))
  | C_taken t x => t = u64 (Z.of_nat (nT s)) ∧ (nT s < cview s)%nat ∧ pushed s !! nT s = Some x
  end.

Record spsc_inv (s : spsc) : Prop := {
  si_heads : heads s = history (nH s);
  si_tails : tails s = history (nT s);
  si_fifo : popped s = take (nT s) (pushed s);
  si_cview : (nT s <= cview s <= nH s)%nat;
  si_pview : (pview s <= nT s)%nat;
  si_room : Z.of_nat (nH s) <= Z.of_nat (pview s) + Capacity;
  si_prod : producer_ok s;
  si_cons : consumer_ok s;
  si_cells : Z.of_nat (length (cells s)) = Capacity;
  si_items k : (nT s <= k < nH s)%nat → taken s = false ∨ k ≠ nT s →
    ∃ c, cells s !! slot k = Some c ∧ pushed s !! k = Some (c_val c) ∧ c_wr c = S k;
  si_reads j c : cells s !! j = Some c → c_rd c = 0%nat ∨
    ∃ k, slot k = j ∧ c_rd c = S k ∧ ((k < nT s)%nat ∨ (taken s = true ∧ k = nT s));
}.

(** ** Arithmetic of the counters *)

Hypothesis Hcap : power_of_two Capacity.

Lemma history_lookup n i v : history n !! i = Some v ↔ (i <= n)%nat ∧ v = u64 (Z.of_nat i).
Proof.
  unfold history. rewrite list_lookup_fmap_Some. setoid_rewrite lookup_seq.
  split; [intros (? & -> & -> & ?); split; [lia|done]|intros [? ->]; eexists; split; [done|lia]].
Qed.

Lemma length_history n : length (history n) = S n.
Proof. unfold history. by rewrite length_fmap, length_seq. Qed.

Lemma history_last n : last (history n) = Some (u64 (Z.of_nat n)).
Proof.
  rewrite last_lookup, length_history. simpl. apply history_lookup. split; [lia|done].
Qed.

Lemma history_snoc n : history n ++ [u64 (u64 (Z.of_nat n) + 1)] = history (S n).
Proof.
  unfold history. rewrite (seq_S (S n)), fmap_app. simpl. do 2 f_equal.
  unfold u64. rewrite Zplus_mod_idemp_l. f_equal. lia.
Qed.

Lemma slot_u64 k : slot_index Capacity (u64 (Z.of_nat k)) = slot k.
Proof. rewrite <- (Z.add_0_r (u64 _)), slot_index_u64, Z.add_0_r by done. done. Qed.

(** Two counters on the same slot are at least a capacity apart. *)
Lemma slot_far k n : slot k = slot n → (k < n)%nat → Z.of_nat k + Capacity <= Z.of_nat n.
Proof.
  intros Heq Hlt. destruct (decide (Z.of_nat n - Z.of_nat k < Capacity)); [|lia].
  by destruct (slot_index_ne Capacity 0 (Z.of_nat k) (Z.of_nat n) Hcap); [lia|lia|].
Qed.

Lemma full_iff (n p : nat) : (p <= n)%nat → Z.of_nat n <= Z.of_nat p + Capacity →
  u64 (u64 (Z.of_nat n) - u64 (Z.of_nat p)) = Capacity ↔ Z.of_nat n = Z.of_nat p + Capacity.
Proof.
  intros Hle Hroom. pose proof (power_of_two_pos _ Hcap).
  rewrite u64_sub_u64, u64_sub_u64_r, u64_id by width. lia.
Qed.

Lemma u64_eq_iff (n p : nat) : (n <= p)%nat → Z.of_nat p <= Z.of_nat n + Capacity →
  u64 (Z.of_nat n) = u64 (Z.of_nat p) ↔ n = p.
Proof.
  intros Hle Hroom. pose proof (power_of_two_pos _ Hcap). split; [|by intros ->]. intros Heq.
  assert (u64 (Z.of_nat p - Z.of_nat n) = 0) as H0.
  { rewrite <- u64_sub_u64, <- u64_sub_u64_r, Heq, Z.sub_diag. done. }
  rewrite u64_id in H0 by width. lia.
Qed.

(** ** Every step keeps the invariant *)

Lemma spsc_init_inv d : spsc_inv (spsc_init d).
Proof.
  pose proof (power_of_two_pos _ Hcap). split; try done; simpl.
  - unfold nH. simpl. lia.
  - rewrite length_replicate. lia.
  - intros k Hk. unfold nH, nT in Hk. simpl in Hk. lia.
  - intros j c [-> _]%lookup_replicate. by left.
Qed.

Lemma p_load_head_inv x h s : spsc_inv s → prod s = P_idle → last (heads s) = Some h →
  spsc_inv (mkSpsc (cells s) (heads s) (tails s) (P_head x h) (pview s)
              (cons_ s) (cview s) (pushed s) (popped s)).
Proof.
  intros [] Hp Hh. split; try done. unfold producer_ok. simpl.
  rewrite si_heads0, history_last in Hh. by simplify_eq.
Qed.

Lemma p_load_tail_inv x h i t s : spsc_inv s → prod s = P_head x h → (pview s <= i)%nat →
  tails s !! i = Some t →
  spsc_inv (mkSpsc (cells s) (heads s) (tails s) (P_tail x h t) i
              (cons_ s) (cview s) (pushed s) (popped s)).
Proof.
  intros [] Hp Hi Ht. rewrite si_tails0, history_lookup in Ht. destruct Ht as [Hle ->].
  split; try done; simpl; unfold nH in *; simpl; [lia|].
  unfold producer_ok in *. rewrite Hp in si_prod0. done.
Qed.

Lemma p_full_inv s : spsc_inv s →
  spsc_inv (mkSpsc (cells s) (heads s) (tails s) P_idle (pview s)
              (cons_ s) (cview s) (pushed s) (popped s)).
Proof. intros []. by split. Qed.

(** The slot a producer may write is not one that holds a pending item. *)
Lemma producer_room x h t s : spsc_inv s → prod s = P_tail x h t → u64 (h - t) ≠ Capacity →
  h = u64 (Z.of_nat (nH s)) ∧ Z.of_nat (nH s) < Z.of_nat (pview s) + Capacity.
Proof.
  intros [] Hp Hne. unfold producer_ok in si_prod0. rewrite Hp in si_prod0.
  destruct si_prod0 as [-> ->]. split; [done|]. rewrite full_iff in Hne by lia. lia.
Qed.

Lemma p_write_inv x h t c s : spsc_inv s → prod s = P_tail x h t → u64 (h - t) ≠ Capacity →
  cells s !! slot_index Capacity h = Some c →
  spsc_inv (mkSpsc (<[slot_index Capacity h := mkCell x (length (heads s)) (c_rd c)]> (cells s))
              (heads s) (tails s) (P_written x h) (pview s)
              (cons_ s) (cview s) (pushed s) (popped s)).
Proof.
  intros Hinv Hp Hne Hc. destruct (producer_room _ _ _ _ Hinv Hp Hne) as [-> Hroom].
  rewrite slot_u64 in Hc |- *. destruct Hinv. pose proof (lookup_lt_Some _ _ _ Hc).
  split; try done; simpl.
  - unfold producer_ok. simpl. split_and!; [done..|]. eexists. split; [by apply list_lookup_insert_eq|].
    rewrite si_heads0, length_history. done.
  - by rewrite length_insert.
  - intros k Hk Htk. rewrite list_lookup_insert_ne; [by apply si_items0|].
    intros Heq. symmetry in Heq. apply slot_far in Heq; unfold nH, nT in *; simpl in *; lia.
  - intros j c' [(<- & <- & _)|[? ?]]%list_lookup_insert_Some; [|by apply si_reads0]. simpl.
    by apply si_reads0.
Qed.

Lemma p_publish_inv x h s : spsc_inv s → prod s = P_written x h →
  spsc_inv (mkSpsc (cells s) (heads s ++ [u64 (h + 1)]) (tails s) P_idle (pview s)
              (cons_ s) (cview s) (pushed s ++ [x]) (popped s)).
Proof.
  intros [] Hp. unfold producer_ok in si_prod0. rewrite Hp in si_prod0.
  destruct si_prod0 as (-> & Hroom & c & Hc & Hx & Hwr).
  assert (∀ y, nH (mkSpsc (cells s) y (tails s) P_idle (pview s) (cons_ s) (cview s)
    (pushed s ++ [x]) (popped s)) = S (nH s)) as HnH.
  { intros y. unfold nH. simpl. rewrite length_app. simpl. lia. }
  split; try done; rewrite ?HnH; simpl.
  - by rewrite si_heads0, history_snoc.
  - rewrite take_app_le by (unfold nH, nT in *; simpl; lia). done.
  - unfold nT in *. simpl. lia.
  - lia.
  - unfold consumer_ok in *. simpl. destruct (cons_ s); try done.
    destruct si_cons0 as (? & ? & Hl). split_and!; [done..|]. by apply lookup_app_l_Some.
  - intros k Hk Htk. destruct (decide (k = nH s)) as [->|Hne].
    + exists c. split_and!; [done| |done]. rewrite Hx. apply list_lookup_middle. done.
    + destruct (si_items0 k) as (c' & ? & Hl & ?); [unfold nT in *; simpl in *; lia|done|].
      exists c'. split_and!; [done| |done]. by apply lookup_app_l_Some.
Qed.

Lemma c_load_tail_inv t s : spsc_inv s → cons_ s = C_idle → last (tails s) = Some t →
  spsc_inv (mkSpsc (cells s) (heads s) (tails s) (prod s) (pview s)
              (C_tail t) (cview s) (pushed s) (popped s)).
Proof.
  intros [] Hc Ht. unfold taken in *. rewrite Hc in *. split; try done. unfold consumer_ok. simpl.
  rewrite si_tails0, history_last in Ht. by simplify_eq.
Qed.

Lemma c_load_head_inv t i h s : spsc_inv s → cons_ s = C_tail t → (cview s <= i)%nat →
  heads s !! i = Some h →
  spsc_inv (mkSpsc (cells s) (heads s) (tails s) (prod s) (pview s)
              (C_head t h) i (pushed s) (popped s)).
Proof.
  intros [] Hc Hi Hh. rewrite si_heads0, history_lookup in Hh. destruct Hh as [Hle ->].
  unfold taken, consumer_ok in *. rewrite Hc in *.
  split; try done; simpl; unfold nH, nT in *; simpl; lia.
Qed.

Lemma c_empty_inv t h s : spsc_inv s → cons_ s = C_head t h →
  spsc_inv (mkSpsc (cells s) (heads s) (tails s) (prod s) (pview s)
              C_idle (cview s) (pushed s) (popped s)).
Proof. intros [] Hc. unfold taken in *. rewrite Hc in *. by split. Qed.

(** A consumer that found the buffer not empty has acquired the item. *)
Lemma consumer_item t h s : spsc_inv s → cons_ s = C_head t h → t ≠ h →
  t = u64 (Z.of_nat (nT s)) ∧ (nT s < cview s)%nat ∧
  ∃ c, cells s !! slot (nT s) = Some c ∧ pushed s !! nT s = Some (c_val c) ∧ c_wr c = S (nT s).
Proof.
  intros [] Hc Hne. unfold consumer_ok in si_cons0. rewrite Hc in si_cons0.
  destruct si_cons0 as [-> ->]. rewrite u64_eq_iff in Hne by lia.
  split_and!; [done|lia|]. apply si_items0; [lia|]. left. unfold taken. by rewrite Hc.
Qed.

Lemma c_take_inv t h c s : spsc_inv s → cons_ s = C_head t h → t ≠ h →
  cells s !! slot_index Capacity t = Some c →
  spsc_inv (mkSpsc (<[slot_index Capacity t := mkCell (moved (c_val c)) (c_wr c) (length (tails s))]> (cells s))
              (heads s) (tails s) (prod s) (pview s)
              (C_taken t (c_val c)) (cview s) (pushed s) (popped s)).
Proof.
  intros Hinv Hc Hne Hcell. destruct (consumer_item _ _ _ Hinv Hc Hne) as (-> & Hlt & c' & Hc' & Hv & _).
  rewrite slot_u64 in Hcell |- *. simplify_eq. destruct Hinv.
  unfold taken in *. rewrite Hc in *. pose proof (lookup_lt_Some _ _ _ Hcell).
  split; try done; simpl.
  - unfold producer_ok in *. simpl. destruct (prod s); try done.
    destruct si_prod0 as (? & Hroom & cw & Hcw & ?). split_and!; [done..|]. exists cw.
    rewrite list_lookup_insert_ne; [done|].
    intros Heq. apply slot_far in Heq; unfold nH, nT in *; simpl in *; lia.
  - by rewrite length_insert.
  - intros k Hk [?|Hk']; [done|]. rewrite list_lookup_insert_ne; [by apply si_items0; auto|].
    intros Heq. apply slot_far in Heq; unfold nH, nT in *; simpl in *; lia.
  - intros j cj [(<- & <- & _)|[? Hj]]%list_lookup_insert_Some; simpl.
    + right. exists (nT s). rewrite si_tails0, length_history. auto.
    + destruct (si_reads0 _ _ Hj) as [?|(k & ? & ? & [?|[? ?]])]; [by left| |done].
      right. exists k. auto.
Qed.

Lemma c_publish_inv t x s : spsc_inv s → cons_ s = C_taken t x →
  spsc_inv (mkSpsc (cells s) (heads s) (tails s ++ [u64 (t + 1)]) (prod s) (pview s)
              C_idle (cview s) (pushed s) (popped s ++ [x])).
Proof.
  intros [] Hc. unfold consumer_ok, taken in *. rewrite Hc in *.
  destruct si_cons0 as (-> & Hlt & Hx).
  assert (∀ y, nT (mkSpsc (cells s) (heads s) y (prod s) (pview s) C_idle (cview s)
    (pushed s) (popped s ++ [x])) = S (nT s)) as HnT.
  { intros y. unfold nT. simpl. rewrite length_app. simpl. lia. }
  split; try done; rewrite ?HnT; simpl.
  - by rewrite si_tails0, history_snoc.
  - rewrite (take_S_r _ _ x) by done. by rewrite <- si_fifo0.
  - unfold nH in *. simpl. lia.
  - lia.
  - intros k Hk _. apply si_items0; [unfold nH in *; simpl in *; lia|right; lia].
  - intros j c Hj. destruct (si_reads0 _ _ Hj) as [?|(k & ? & ? & Hk)]; [by left|].
    right. exists k. split_and!; [done..|]. left. destruct Hk as [?|[_ ->]]; lia.
Qed.

Lemma spsc_step_inv s s' : spsc_step s s' → spsc_inv s → spsc_inv s'.
Proof.
  intros [[]|[]] Hinv; eauto using p_load_head_inv, p_load_tail_inv, p_full_inv, p_write_inv,
    p_publish_inv, c_load_tail_inv, c_load_head_inv, c_empty_inv, c_take_inv, c_publish_inv.
Qed.

Lemma spsc_reachable_inv d s : rtc spsc_step (spsc_init d) s → spsc_inv s.
Proof.
  intros Hs. pose proof (spsc_init_inv d) as Hinv. revert Hinv.
  induction Hs; eauto using spsc_step_inv.
Qed.

(** ** Main theorems *)

(** C17: no data race is reachable.  Whenever the producer is about to write a
    slot, it has acquired the index store after the consumer's last read of it,
    and whenever the consumer is about to read a slot, it has acquired the
    store after the producer's last write of it. *)
Theorem spsc_race_free d s : rtc spsc_step (spsc_init d) s →
  ¬ producer_race s ∧ ¬ consumer_race s.
Proof using Hcap.
  intros Hinv%spsc_reachable_inv. split.
  - intros (x & h & t & c & Hp & Hne & Hc & Hlt).
    destruct (producer_room _ _ _ _ Hinv Hp Hne) as [-> Hroom]. rewrite slot_u64 in Hc.
    destruct (si_reads _ Hinv _ _ Hc) as [?|(k & Hk & Hrd & Hlow)]; [lia|].
    apply slot_far in Hk; [lia|]. destruct Hlow as [?|[Htk ->]].
    + pose proof (si_cview _ Hinv). lia.
    + pose proof (si_cview _ Hinv). pose proof (si_cons _ Hinv) as Hco.
      unfold taken, consumer_ok in *. destruct (cons_ s); try done. lia.
  - intros (t & h & c & Hc & Hne & Hcell & Hlt).
    destruct (consumer_item _ _ _ Hinv Hc Hne) as (-> & ? & c' & Hc' & _ & Hwr).
    rewrite slot_u64 in Hcell. simplify_eq. lia.
Qed.

(** C18: under every interleaving and every choice of stale index values, the
    items popped so far are a prefix of the items pushed so far, in order,
    none lost and none duplicated, and at most [Capacity] are in flight. *)
Theorem spsc_fifo d s : rtc spsc_step (spsc_init d) s →
  popped s `prefix_of` pushed s ∧
  Z.of_nat (length (pushed s)) - Z.of_nat (length (popped s)) <= Capacity.
Proof using Hcap.
  intros Hinv%spsc_reachable_inv. split.
  - rewrite (si_fifo _ Hinv). apply prefix_take.
  - pose proof (si_room _ Hinv). pose proof (si_pview _ Hinv). unfold nH, nT in *. lia.
Qed.

(** Neither thread ever waits for the other: in every reachable state each
    of them has a step to take (in particular every slot it indexes exists). *)
Lemma spsc_nonblocking d s : rtc spsc_step (spsc_init d) s →
  (∃ s', producer_step s s') ∧ (∃ s', consumer_step s s').
Proof using Hcap.
  intros Hinv%spsc_reachable_inv.
  assert (∀ a, ∃ c, cells s !! slot_index Capacity a = Some c) as Hslot.
  { intros a. apply lookup_lt_is_Some. pose proof (slot_index_lt Capacity a Hcap).
    pose proof (si_cells _ Hinv). lia. }
  pose proof (si_heads _ Hinv) as Hh. pose proof (si_tails _ Hinv) as Ht. split.
  - destruct (prod s) as [|x h|x h t|x h] eqn:Hp.
    + eexists. eapply (p_load_head d); [done|]. rewrite Hh. apply history_last.
    + eexists. eapply (p_load_tail x h (pview s)); [done..|].
      rewrite Ht, history_lookup. pose proof (si_pview _ Hinv). split; [lia|done].
    + destruct (decide (u64 (h - t) = Capacity)); [eexists; by eapply p_full|].
      destruct (Hslot h) as [c Hc]. eexists. by eapply p_write.
    + eexists. by eapply p_publish.
  - destruct (cons_ s) as [|t|t h|t x] eqn:Hc.
    + eexists. eapply c_load_tail; [done|]. rewrite Ht. apply history_last.
    + eexists. eapply (c_load_head t (cview s)); [done..|].
      rewrite Hh, history_lookup. pose proof (si_cview _ Hinv). split; [lia|done].
    + destruct (decide (t = h)); [eexists; by eapply c_empty|].
      destruct (Hslot t) as [c Hcell]. eexists. by eapply c_take.
    + eexists. by eapply c_publish.
Qed.
End spsc.
