(* ===== verification/SharedQueue.v ===== *)
(** * A bounded queue shared with a thread at its other end

    One thread pushes, another one pops concurrently.  A schedule says how many
    items the popping thread takes before each attempt to push, so that both a
    single [try_push] and the loop [while (!try_push(m)) yield()] are modelled
    with the progress of the other thread.  Where the schedule ends the popping
    thread has stopped: the loop gets through if there is room, and spins for
    ever if there is none. *)

From S2P Require Import Prelude Outcome RingBuffer.

(** [sq_taken]: the items the popping thread has taken so far. *)
Record SharedQueue (Q T : Type) := mkShared {
  sq_queue : Q;
  sq_taken : list T;
  sq_sched : list nat;
}.
Arguments mkShared {Q T}.
Arguments sq_queue {Q T}.
Arguments sq_taken {Q T}.
Arguments sq_sched {Q T}.

Section shared.
Context {Q T : Type} `{!BoundedQueue Q T}.

Definition on_queue {A} (m : M Q A) : M (SharedQueue Q T) A :=
  zoom sq_queue (λ q o, mkShared q (sq_taken o) (sq_sched o)) m.

(** The other thread pops up to [k] items. *)
Fixpoint drain (k : nat) : M (SharedQueue Q T) unit :=
  match k with
  | O => ret tt
  | S k' =>
      r <- on_queue q_try_pop ;;
      match r with
      | Some m => modify (λ o, mkShared (sq_queue o) (sq_taken o ++ [m]) (sq_sched o)) ;;; drain k'
      | None => ret tt
      end
  end.

(** One call to [try_push]; an exhausted schedule means no more pops. *)
Definition push_once (m : T) : M (SharedQueue Q T) bool :=
  sched <- gets sq_sched ;;
  modify (λ o, mkShared (sq_queue o) (sq_taken o) (tail sched)) ;;;
  drain (default 0%nat (head sched)) ;;;
  on_queue (q_try_push m).

(** [while (!queue.try_push(m)) std::this_thread::yield();] *)
Fixpoint spin_push (m : T) (sched : list nat) : M (SharedQueue Q T) unit :=
  match sched with
  | [] => ok <- on_queue (q_try_push m) ;; if (ok : bool) then ret tt else λ _, Diverge
  | k :: sched' =>
      modify (λ o, mkShared (sq_queue o) (sq_taken o) sched') ;;;
      drain k ;;;
      ok <- on_queue (q_try_push m) ;;
      if (ok : bool) then ret tt else spin_push m sched'
  end.

Definition push_spinning (m : T) : M (SharedQueue Q T) unit :=
  sched <- gets sq_sched ;; spin_push m sched.
End shared.

(** Schedule entries at which the other thread pops something. *)
Definition positives (sched : list nat) : nat := length (filter (λ k, k ≠ 0%nat) sched).

Section laws.
Context {Q T : Type} `{!BoundedQueue Q T, !BoundedQueueLaws Q T}.
Implicit Types (o : SharedQueue Q T) (m : T) (ms : list T).

(** [ms] are all the items pushed so far, in order, taken already or not. *)
Definition shared_rep o ms : Prop := ∃ l, q_rep (sq_queue o) l ∧ ms = sq_taken o ++ l.

(** Moreover the next [k] messages get through: the other thread will take
    something at least [k] more times, or there is room for them already. *)
Definition shared_ok o ms (k : nat) : Prop := ∃ l,
  q_rep (sq_queue o) l ∧ ms = sq_taken o ++ l ∧
  ((k <= positives (sq_sched o))%nat ∨ (length l + k <= q_capacity)%nat).

Lemma shared_ok_rep o ms k : shared_ok o ms k → shared_rep o ms.
Proof. intros (l & Hq & Hms & _). by exists l. Qed.

Lemma shared_ok_le o ms j k : shared_ok o ms k → (j <= k)%nat → shared_ok o ms j.
Proof. intros (l & Hq & Hms & H) Hle. exists l. split; [done|]. split; [done|]. lia. Qed.

Lemma drain_spec k o l : q_rep (sq_queue o) l →
  ∃ o', drain k o = Ok o' tt ∧ sq_sched o' = sq_sched o ∧
    q_rep (sq_queue o') (drop k l) ∧ sq_taken o' = sq_taken o ++ take k l.
Proof.
  revert o l. induction k as [|k IH]; intros o l Hr.
  { exists o. by rewrite drop_0, take_0, app_nil_r. }
  cbn [drain]. unfold bind, on_queue, zoom. destruct l as [|x l].
  - rewrite (q_pop_empty _ Hr). exists o. rewrite app_nil_r. by destruct o.
  - destruct (q_pop_first _ _ _ Hr) as (q' & -> & Hr'). cbn [modify].
    destruct (IH (mkShared q' (sq_taken o ++ [x]) (sq_sched o)) l Hr') as (o' & Hd & Hsc & Hq & Hs).
    exists o'. split_and!; [exact Hd|done|done|]. rewrite Hs. cbn [sq_taken take].
    by rewrite <- app_assoc.
Qed.

Definition shared_full o : Prop := ∃ l, q_rep (sq_queue o) l ∧ length l = q_capacity.

(** An attempt to push returns: either the item is in, or the queue is full and
    the sequence is what it was. *)
Lemma push_once_spec m o ms : shared_rep o ms →
  ∃ o' (ok : bool), push_once m o = Ok o' ok ∧
    if ok then shared_rep o' (ms ++ [m]) else shared_rep o' ms ∧ shared_full o'.
Proof.
  intros (l & Hr & ->). unfold push_once, gets. unfold bind at 1 2, modify.
  set (k := default 0%nat _).
  destruct (drain_spec k (mkShared (sq_queue o) (sq_taken o) (tail (sq_sched o))) l Hr)
    as (o1 & Hd & _ & Hq & Hs). rewrite (bind_Ok _ _ _ _ _ Hd). cbn [sq_taken] in Hs.
  assert (sq_taken o1 ++ drop k l = sq_taken o ++ l) as Heq.
  { by rewrite Hs, <- app_assoc, take_drop. }
  unfold on_queue, zoom. pose proof (q_rep_bound _ _ Hq) as Hb.
  destruct (decide (length (drop k l) < q_capacity)%nat) as [Hlt|Hge].
  - destruct (q_push_room _ _ m Hq Hlt) as (q' & -> & Hq'). eexists _, true. split; [done|].
    exists (drop k l ++ [m]). cbn. by rewrite <- Heq, app_assoc.
  - rewrite (q_push_full _ _ m Hq) by lia. eexists _, false. split; [done|].
    split; exists (drop k l); [by rewrite <- Heq|]. split; [done|lia].
Qed.

Hypothesis Hcap : (0 < q_capacity)%nat.

(** The spinning loop gets through when there is room, or when the other thread
    takes something once more. *)
Lemma spin_push_spec m sched o ms l k :
  q_rep (sq_queue o) l → ms = sq_taken o ++ l → sq_sched o = sched →
  (S k <= positives sched)%nat ∨ (length l + S k <= q_capacity)%nat →
  ∃ o', spin_push m sched o = Ok o' tt ∧ shared_ok o' (ms ++ [m]) k.
Proof.
  revert o ms l. induction sched as [|j sched IH]; intros o ms l Hr -> Hsched Hk.
  { destruct Hk as [Hk|Hk]; [cbn in Hk; lia|]. cbn [spin_push]. unfold bind, on_queue, zoom.
    destruct (q_push_room _ _ m Hr) as (q' & -> & Hq'); [lia|]. eexists. split; [done|].
    exists (l ++ [m]). cbn. rewrite app_assoc, length_app. cbn. split_and!; [done|done|right; lia]. }
  cbn [spin_push]. unfold bind at 1, modify.
  destruct (drain_spec j (mkShared (sq_queue o) (sq_taken o) sched) l Hr)
    as (o1 & Hd & Hsc & Hq & Hs). rewrite (bind_Ok _ _ _ _ _ Hd).
  cbn [sq_taken sq_sched] in Hsc, Hs. unfold bind, on_queue, zoom.
  assert (sq_taken o1 ++ drop j l = sq_taken o ++ l) as Heq.
  { by rewrite Hs, <- app_assoc, take_drop. }
  pose proof (q_rep_bound _ _ Hq) as Hb. pose proof (q_rep_bound _ _ Hr) as Hbr.
  assert (positives (j :: sched) = (if decide (j = 0)%nat then 0 else 1) + positives sched)%nat as Hpos.
  { unfold positives. rewrite filter_cons. destruct (decide (j ≠ 0%nat)), (decide (j = 0%nat)); done. }
  rewrite Hpos in Hk. rewrite length_drop in Hb.
  destruct (decide (length (drop j l) < q_capacity)%nat) as [Hlt|Hge].
  - destruct (q_push_room _ _ m Hq Hlt) as (q' & -> & Hq'). cbn [ret]. eexists. split; [done|].
    exists (drop j l ++ [m]). cbn -[positives]. rewrite <- Heq, app_assoc, length_app, length_drop, Hsc.
    cbn -[positives].
    split_and!; [done|done|]. destruct (decide (j = 0%nat)); lia.
  - rewrite length_drop in Hge. rewrite (q_push_full _ _ m Hq) by (rewrite length_drop; lia).
    apply (IH _ _ (drop j l)); [done|done|done|]. rewrite length_drop. destruct (decide (j = 0%nat)); lia.
Qed.

Lemma push_spinning_spec m o ms k : shared_ok o ms (S k) →
  ∃ o', push_spinning m o = Ok o' tt ∧ shared_ok o' (ms ++ [m]) k.
Proof. intros (l & Hr & Hms & Hk). by apply (spin_push_spec m _ _ ms l). Qed.
End laws.
