(* ===== verification/ThreadSafeQueue.v ===== *)
(** * The mutex queue: [include/thread_safe_queue.hpp]

    The queue that the ring buffer replaced.  Any number of threads run [push]
    and [try_pop]; each call is cut into its accesses to shared memory.  The
    deque is only accessed with the mutex held.  [size_] is an atomic that is
    also read without the mutex, so its modification order is kept: a load may
    return any value that is not older than what the thread has seen, a
    read-modify-write takes the last one. *)

From S2P Require Import Prelude.

(** Where a thread is in [push] or [try_pop]. *)
Inductive tpc (T : Type) :=
  | Idle
  | PushWait (x : T) | PushHeld (x : T) | PushedHeld
  | PopWait | PopHeld | PoppedHeld
  | Leaving.
Arguments Idle {T}.
Arguments PushWait {T}.
Arguments PushHeld {T}.
Arguments PushedHeld {T}.
Arguments PopWait {T}.
Arguments PopHeld {T}.
Arguments PoppedHeld {T}.
Arguments Leaving {T}.

(** [ts_sizes] is the modification order of [size_], [ts_view] how much of it a
    thread has seen; [ts_pushed] and [ts_popped] are histories, and
    [ts_undefined] records [front()] on an empty deque. *)
Record TSQueue (T : Type) := mkTSQueue {
  ts_queue : list T;
  ts_owner : option nat;
  ts_sizes : list Z;
  ts_view : nat → nat;
  ts_pc : nat → tpc T;
  ts_pushed : list T;
  ts_popped : list T;
  ts_undefined : bool;
}.
Arguments mkTSQueue {T}.
Arguments ts_queue {T}.
Arguments ts_owner {T}.
Arguments ts_sizes {T}.
Arguments ts_view {T}.
Arguments ts_pc {T}.
Arguments ts_pushed {T}.
Arguments ts_popped {T}.
Arguments ts_undefined {T}.

(** A step: the thread, and what it does when there is a choice. *)
Inductive taction (T : Type) := CallPush (x : T) | CallPop (seen : nat) | Continue.
Arguments CallPush {T}.
Arguments CallPop {T}.
Arguments Continue {T}.

Section queue.
Context {T : Type}.

Definition upd {A} (t : nat) (a : A) (f : nat → A) : nat → A := λ t', if decide (t' = t) then a else f t'.

Definition tsq_init : TSQueue T := mkTSQueue [] None [0] (λ _, 0%nat) (λ _, Idle) [] [] false.

Definition goto (t : nat) (p : tpc T) (s : TSQueue T) : TSQueue T :=
  mkTSQueue (ts_queue s) (ts_owner s) (ts_sizes s) (ts_view s) (upd t p (ts_pc s)) (ts_pushed s)
    (ts_popped s) (ts_undefined s).

Definition set_owner (o : option nat) (s : TSQueue T) : TSQueue T :=
  mkTSQueue (ts_queue s) o (ts_sizes s) (ts_view s) (ts_pc s) (ts_pushed s) (ts_popped s)
    (ts_undefined s).

Definition see (t n : nat) (s : TSQueue T) : TSQueue T :=
  mkTSQueue (ts_queue s) (ts_owner s) (ts_sizes s) (upd t n (ts_view s)) (ts_pc s) (ts_pushed s)
    (ts_popped s) (ts_undefined s).

Definition set_queue (q pushed popped : list T) (s : TSQueue T) : TSQueue T :=
  mkTSQueue q (ts_owner s) (ts_sizes s) (ts_view s) (ts_pc s) pushed popped (ts_undefined s).

Definition current_size (s : TSQueue T) : Z := default 0 (last (ts_sizes s)).

(** [size_.fetch_add(d)] *)
Definition fetch_add (t : nat) (d : Z) (s : TSQueue T) : TSQueue T :=
  mkTSQueue (ts_queue s) (ts_owner s) (ts_sizes s ++ [u64 (current_size s + d)])
    (upd t (length (ts_sizes s)) (ts_view s)) (ts_pc s) (ts_pushed s) (ts_popped s) (ts_undefined s).

(** [std::lock_guard]: enabled when the mutex is free. *)
Definition lock (t : nat) (p : tpc T) (s : TSQueue T) : option (TSQueue T) :=
  match ts_owner s with None => Some (goto t p (set_owner (Some t) s)) | Some _ => None end.

(** [push]: the body under the lock.  A deque cannot hold [2^63] elements. *)
Definition push_step (t : nat) (s : TSQueue T) : option (TSQueue T) :=
  match ts_pc s t with
  | PushWait x => lock t (PushHeld x) s
  | PushHeld x =>
      if decide (Z.of_nat (length (ts_queue s)) < 2 ^ 63) then
        Some (goto t PushedHeld (set_queue (ts_queue s ++ [x]) (ts_pushed s ++ [x]) (ts_popped s) s))
      else None
  | PushedHeld => Some (goto t Leaving (fetch_add t 1 s))
  | _ => None
  end.

(** [try_pop]: the size check without the lock, reading entry [i] of the
    modification order; zero returns [nullopt]. *)
Definition pop_check (t i : nat) (s : TSQueue T) : option (TSQueue T) :=
  if decide (ts_view s t <= i)%nat then
    match ts_sizes s !! i with
    | Some n => Some (goto t (if n =? 0 then Idle else PopWait) (see t i s))
    | None => None
    end
  else None.

(** [try_pop]: the rest, under the lock. *)
Definition pop_step (t : nat) (s : TSQueue T) : option (TSQueue T) :=
  match ts_pc s t with
  | PopWait => lock t PopHeld s
  | PopHeld =>
      match ts_queue s with
      | x :: q => Some (goto t PoppedHeld (set_queue q (ts_pushed s) (ts_popped s ++ [x]) s))
      | [] => Some (mkTSQueue [] (ts_owner s) (ts_sizes s) (ts_view s) (ts_pc s) (ts_pushed s)
                      (ts_popped s) true)
      end
  | PoppedHeld => Some (goto t Leaving (fetch_add t (-1) s))
  | _ => None
  end.

Definition tsq_step (t : nat) (a : taction T) (s : TSQueue T) : option (TSQueue T) :=
  match a with
  | CallPush x => match ts_pc s t with Idle => Some (goto t (PushWait x) s) | _ => None end
  | CallPop i => match ts_pc s t with Idle => pop_check t i s | _ => None end
  | Continue =>
      match ts_pc s t with
      | Leaving => Some (goto t Idle (set_owner None s))
      | PushWait _ | PushHeld _ | PushedHeld => push_step t s
      | PopWait | PopHeld | PoppedHeld => pop_step t s
      | Idle => None
      end
  end.

Fixpoint tsq_run (trace : list (nat * taction T)) (s : TSQueue T) : option (TSQueue T) :=
  match trace with
  | [] => Some s
  | (t, a) :: trace' => s' ← tsq_step t a s; tsq_run trace' s'
  end.
End queue.

(** Two threads that both see one item and both pop. *)
Definition two_pops : list (nat * taction Z) :=
  [(0%nat, CallPush 5); (0%nat, Continue); (0%nat, Continue); (0%nat, Continue); (0%nat, Continue);
   (1%nat, CallPop 1); (2%nat, CallPop 1);
   (1%nat, Continue); (1%nat, Continue); (1%nat, Continue); (1%nat, Continue);
   (2%nat, Continue); (2%nat, Continue)].

Section invariant.
Context {T : Type} (c : nat).
Implicit Types (s : TSQueue T).

(** A thread that holds the mutex. *)
Definition holding (p : tpc T) : bool :=
  match p with PushHeld _ | PushedHeld | PopHeld | PoppedHeld | Leaving => true | _ => false end.

Definition popping (p : tpc T) : bool :=
  match p with PopWait | PopHeld | PoppedHeld => true | _ => false end.

(** How far [size_] is behind the deque while a thread is inside. *)
Definition lag (p : tpc T) : Z := match p with PushedHeld => 1 | PoppedHeld => -1 | _ => 0 end.

Record tsq_inv s : Prop := {
  ti_defined : ts_undefined s = false;
  ti_fifo : ts_pushed s = ts_popped s ++ ts_queue s;
  ti_owner t : holding (ts_pc s t) = true ↔ ts_owner s = Some t;
  ti_consumer t : popping (ts_pc s t) = true → t = c;
  ti_size : Z.of_nat (length (ts_queue s)) =
    current_size s + match ts_owner s with Some t => lag (ts_pc s t) | None => 0 end;
  ti_bound : Z.of_nat (length (ts_queue s)) <= 2 ^ 63;
  ti_nonempty : ts_sizes s ≠ [];
  ti_sizes : Forall (λ n, 0 <= n <= 2 ^ 63) (ts_sizes s);
  ti_seen i n : (ts_view s c <= i)%nat → ts_sizes s !! i = Some n →
    n <= Z.of_nat (length (ts_queue s)) + match ts_pc s c with PoppedHeld => 1 | _ => 0 end;
  ti_item : ts_pc s c = PopWait ∨ ts_pc s c = PopHeld → ts_queue s ≠ [];
}.

Lemma upd_eq {A} t (a : A) f : upd t a f t = a.
Proof. unfold upd. by rewrite decide_True. Qed.

Lemma upd_ne {A} t t' (a : A) f : t' ≠ t → upd t a f t' = f t'.
Proof. intros. unfold upd. by rewrite decide_False. Qed.

Lemma tsq_init_inv : tsq_inv tsq_init.
Proof.
  split; cbn; try done; try lia.
  - apply Forall_singleton. lia.
  - intros i n _ Hi. destruct i; cbn in Hi; [injection Hi as <-; lia|done].
  - by intros [?|?].
Qed.

(** Outside the mutex, a thread may go anywhere outside it; to pop it has to be
    the consumer and there has to be an item. *)
Lemma inv_outside t p s : tsq_inv s → holding (ts_pc s t) = false → holding p = false →
  (popping p = true → t = c ∧ ts_queue s ≠ []) → tsq_inv (goto t p s).
Proof.
  intros [Hd Hf Ho Hc Hs Hb Hn Hz Hv Hi] Hh Hp Hpop.
  assert (lag p = 0 ∧ lag (ts_pc s t) = 0) as [Hl Hl'] by (split; [by destruct p|by destruct (ts_pc s t)]).
  split; cbn; try done.
  - intros t'. unfold upd. case_decide as Ht; [subst t'|by apply Ho]. rewrite Hp, <- Ho, Hh. done.
  - intros t'. unfold upd. case_decide as Ht; [subst t'; naive_solver|by apply Hc].
  - rewrite Hs. f_equal. destruct (ts_owner s) as [t'|]; [|done]. unfold upd. by case_decide; subst; rewrite ?Hl, ?Hl'.
  - intros i n Hle Hn'. specialize (Hv i n Hle Hn'). unfold upd. case_decide as Ht; [|done]. subst t.
    destruct (ts_pc s c); try done; by destruct p.
  - unfold upd. case_decide as Ht; [|done]. intros [-> | ->]; by apply Hpop.
Qed.

Lemma inv_see t i s : tsq_inv s → (ts_view s t <= i)%nat → tsq_inv (see t i s).
Proof.
  intros [Hd Hf Ho Hc Hs Hb Hn Hz Hv Hi] Hle. split; cbn; try done.
  intros j n Hj. apply Hv. unfold upd in Hj. case_decide; [subst; lia|done].
Qed.

Lemma inv_lock t p s : tsq_inv s → ts_owner s = None →
  (∃ x, ts_pc s t = PushWait x ∧ p = PushHeld x) ∨ (ts_pc s t = PopWait ∧ p = PopHeld) →
  tsq_inv (goto t p (set_owner (Some t) s)).
Proof.
  intros [Hd Hf Ho Hc Hs Hb Hn Hz Hv Hi] Hnone Hp.
  assert (holding p = true ∧ lag p = 0 ∧ (popping p = true → popping (ts_pc s t) = true))
    as (Hh & Hl & Hpop) by (destruct Hp as [(x & H & ->)|[H ->]]; by rewrite H).
  split; cbn; try done.
  - intros t'. unfold upd. case_decide as Ht; [by subst|]. rewrite Ho, Hnone. split; congruence.
  - intros t'. unfold upd. case_decide as Ht; [subst t'; auto|by apply Hc].
  - by rewrite upd_eq, Hl, Hs, Hnone.
  - intros i n Hle Hn'. specialize (Hv i n Hle Hn'). unfold upd. case_decide as Ht; [|done]. subst t.
    destruct Hp as [(x & H & ->)|[H ->]]; by rewrite H in Hv.
  - unfold upd. case_decide as Ht; [|done]. subst t. intros [-> | ->]; [naive_solver|]. apply Hi. naive_solver.
Qed.

Lemma inv_owner t t' s : tsq_inv s → holding (ts_pc s t) = true → holding (ts_pc s t') = true → t' = t.
Proof. intros Hinv H H'. apply (ti_owner _ Hinv) in H, H'. congruence. Qed.

Lemma inv_unlock t s : tsq_inv s → ts_pc s t = Leaving → tsq_inv (goto t Idle (set_owner None s)).
Proof.
  intros Hinv Ht. pose proof Hinv as [Hd Hf Ho Hc Hs Hb Hn Hz Hv Hi].
  assert (ts_owner s = Some t) as Hown by (apply Ho; by rewrite Ht). split; cbn; try done.
  - intros t'. unfold upd. case_decide as Hne; [by subst|]. split; [|done]. intros Hh.
    apply Ho in Hh. congruence.
  - intros t'. unfold upd. case_decide; [done|by apply Hc].
  - by rewrite Hs, Hown, Ht.
  - intros i n Hle Hn'. specialize (Hv i n Hle Hn'). unfold upd. case_decide; [|done]. subst t. by rewrite Ht in Hv.
  - unfold upd. case_decide; [naive_solver|done].
Qed.

(** The steps of the thread inside the mutex: the owner stays. *)
Lemma inv_inside_owner t p s : tsq_inv s → holding (ts_pc s t) = true → holding p = true →
  ∀ t', holding (upd t p (ts_pc s) t') = true ↔ ts_owner s = Some t'.
Proof.
  intros Hinv Ht Hp t'. rewrite <- (ti_owner _ Hinv). unfold upd. case_decide; [|done]. subst. by rewrite Ht, Hp.
Qed.

Lemma inv_push t x s : tsq_inv s → ts_pc s t = PushHeld x → Z.of_nat (length (ts_queue s)) < 2 ^ 63 →
  tsq_inv (goto t PushedHeld (set_queue (ts_queue s ++ [x]) (ts_pushed s ++ [x]) (ts_popped s) s)).
Proof.
  intros Hinv Ht Hlt. pose proof Hinv as [Hd Hf Ho Hc Hs Hb Hn Hz Hv Hi].
  assert (ts_owner s = Some t) as Hown by (apply Ho; by rewrite Ht). split; cbn; try done.
  - by rewrite Hf, app_assoc.
  - apply inv_inside_owner; [done|by rewrite Ht|done].
  - intros t'. unfold upd. case_decide; [done|by apply Hc].
  - rewrite Hown, upd_eq, length_app. rewrite Hown, Ht in Hs.
    unfold current_size in *. cbn in Hs |- *. lia.
  - rewrite length_app. cbn. lia.
  - intros i n Hle Hn'. specialize (Hv i n Hle Hn'). rewrite length_app. unfold upd.
    case_decide; [subst t; rewrite Ht in Hv|]; cbn; lia.
  - intros _ Hnil. by apply app_nil in Hnil as [_ ?].
Qed.

Lemma inv_take t x q s : tsq_inv s → ts_pc s t = PopHeld → ts_queue s = x :: q →
  tsq_inv (goto t PoppedHeld (set_queue q (ts_pushed s) (ts_popped s ++ [x]) s)).
Proof.
  intros Hinv Ht Hq. pose proof Hinv as [Hd Hf Ho Hc Hs Hb Hn Hz Hv Hi].
  assert (ts_owner s = Some t) as Hown by (apply Ho; by rewrite Ht).
  assert (t = c) as -> by (apply Hc; by rewrite Ht). rewrite Hq in Hf, Hs, Hb, Hv. split; cbn; try done.
  - by rewrite Hf, <- app_assoc.
  - apply inv_inside_owner; [done|by rewrite Ht|done].
  - intros t'. unfold upd. case_decide; [done|by apply Hc].
  - rewrite Hown, upd_eq. rewrite Hown, Ht in Hs.
    unfold current_size in *. cbn in Hs |- *. lia.
  - cbn in Hb. lia.
  - intros i n Hle Hn'. specialize (Hv i n Hle Hn'). rewrite upd_eq. rewrite Ht in Hv. cbn in Hv. lia.
  - rewrite upd_eq. naive_solver.
Qed.

(** Updating [size_] catches up with the deque. *)
Lemma inv_fetch_add t d s : tsq_inv s → ts_pc s t = PushedHeld ∧ d = 1 ∨ ts_pc s t = PoppedHeld ∧ d = -1 →
  tsq_inv (goto t Leaving (fetch_add t d s)).
Proof.
  intros Hinv Hp. pose proof Hinv as [Hd Hf Ho Hc Hs Hb Hn Hz Hv Hi].
  assert (holding (ts_pc s t) = true ∧ lag (ts_pc s t) = d) as [Hh Hl].
  { by destruct Hp as [[-> ->]|[-> ->]]. }
  assert (ts_owner s = Some t) as Hown by by apply Ho. rewrite Hown, Hl in Hs.
  assert (u64 (current_size s + d) = Z.of_nat (length (ts_queue s))) as Hu.
  { rewrite <- Hs. apply u64_id. width. }
  split; cbn; try done.
  - by apply inv_inside_owner.
  - intros t'. unfold upd. case_decide; [done|by apply Hc].
  - unfold current_size at 1. cbn [ts_sizes goto fetch_add]. rewrite last_snoc, Hown, upd_eq.
    cbn [default lag from_option id]. fold (current_size s). rewrite Hu. lia.
  - intros Hnil. by apply app_nil in Hnil as [_ ?].
  - apply Forall_app. split; [done|]. apply Forall_singleton. rewrite Hu. lia.
  - intros i n Hle Hi'. rewrite Hu in Hi'.
    assert (n <= Z.of_nat (length (ts_queue s)) + match ts_pc s c with PoppedHeld => 1 | _ => 0 end ∧ t ≠ c ∨
      n = Z.of_nat (length (ts_queue s))) as Hor.
    { destruct (decide (i = length (ts_sizes s))) as [->|Hne].
      - right. rewrite lookup_app_r, Nat.sub_diag in Hi' by lia. cbn in Hi'. congruence.
      - left. pose proof (lookup_lt_Some _ _ _ Hi') as Hlt. rewrite length_app in Hlt. cbn in Hlt.
        rewrite lookup_app_l in Hi' by lia. unfold upd in Hle. case_decide as Htc; [lia|].
        split; [by apply (Hv i)|congruence]. }
    unfold upd. case_decide as Htc; [destruct Hor as [[_ ?]| ->]; [congruence|lia]|].
    destruct Hor as [[? _]| ->]; [done|]. destruct (ts_pc s c); lia.
  - unfold upd. case_decide; [naive_solver|done].
Qed.

(** Only the consumer pops. *)
Definition pops_from (l : nat * taction T) : Prop := match l.2 with CallPop _ => l.1 = c | _ => True end.

Lemma tsq_step_inv t a s s' : tsq_inv s → pops_from (t, a) → tsq_step t a s = Some s' → tsq_inv s'.
Proof.
  intros Hinv Hpop Hst. unfold tsq_step in Hst. destruct a as [x|i|].
  - destruct (ts_pc s t) eqn:Ht; simplify_eq. apply inv_outside; try done. by rewrite Ht.
  - destruct (ts_pc s t) eqn:Ht; try done. unfold pop_check in Hst. cbn in Hpop. subst t.
    case_decide as Hle; [|done]. destruct (ts_sizes s !! i) as [n|] eqn:Hn; [|done]. injection Hst as <-.
    apply inv_outside; [by apply inv_see|cbn; by rewrite Ht|by case_match|].
    destruct (Z.eqb_spec n 0); [done|]. intros _. split; [done|]. cbn. intros Hnil.
    pose proof (ti_seen _ Hinv i n Hle Hn) as Hv. rewrite Ht, Hnil in Hv.
    pose proof (ti_sizes _ Hinv) as Hz. rewrite Forall_lookup in Hz. specialize (Hz _ _ Hn). cbn in Hv, Hz. lia.
  - unfold push_step, pop_step, lock in Hst. destruct (ts_pc s t) eqn:Ht; try done.
    + destruct (ts_owner s) eqn:Ho; simplify_eq. apply inv_lock; naive_solver.
    + case_decide; simplify_eq. by apply inv_push.
    + simplify_eq. apply inv_fetch_add; auto.
    + destruct (ts_owner s) eqn:Ho; simplify_eq. apply inv_lock; naive_solver.
    + destruct (ts_queue s) as [|x q] eqn:Hq; simplify_eq; [|by apply inv_take].
      assert (t = c) as -> by (apply (ti_consumer _ Hinv); by rewrite Ht).
      destruct (ti_item _ Hinv); auto.
    + simplify_eq. apply inv_fetch_add; auto.
    + simplify_eq. by apply inv_unlock.
Qed.

Lemma tsq_run_inv trace s s' : tsq_inv s → Forall pops_from trace → tsq_run trace s = Some s' → tsq_inv s'.
Proof.
  revert s. induction trace as [|[t a] trace IH]; intros s Hinv Hall Hr; cbn in Hr; [by simplify_eq|].
  apply Forall_cons in Hall as [Ha Hall]. apply bind_Some in Hr as (s1 & H1 & Hr).
  apply (IH s1); [|done..]. by eapply tsq_step_inv.
Qed.

(** ** Main theorems *)

(** C28: with one consumer the mutex queue is a FIFO queue.  In every interleaving
    of any number of pushing threads and one popping thread, with loads of
    [size_] that may be stale, [front] is never called on an empty deque, at
    most one thread is inside the mutex, and the items popped so far followed by
    the items in the deque are the items pushed, in order. *)
Theorem tsq_single_consumer trace s : Forall pops_from trace → tsq_run trace tsq_init = Some s →
  ts_undefined s = false ∧ ts_pushed s = ts_popped s ++ ts_queue s ∧
  ∀ t t', holding (ts_pc s t) = true → holding (ts_pc s t') = true → t = t'.
Proof.
  intros Hall Hr. pose proof (tsq_run_inv _ _ _ tsq_init_inv Hall Hr) as Hinv.
  split; [apply Hinv|]. split; [apply Hinv|]. intros t t' H H'. by apply (inv_owner t' t s).
Qed.
End invariant.

(** With two consumers it is not safe: both can see the size 1 before either
    takes the lock, and the second one calls [front] on an empty deque. *)
Lemma tsq_two_consumers_undefined : ∃ s, tsq_run two_pops tsq_init = Some s ∧
  ts_queue s = [] ∧ ts_undefined s = true.
Proof. eexists. split; [vm_compute; reflexivity|done]. Qed.
