(* ===== verification/OrderProcessor.v ===== *)
(** * The order processor: [src/order_processor.cpp]

    [OrderProcessor] takes a message off the inbound queue, runs it against the
    book and pushes the encoded responses on the outbound queue.  It is written
    against the [Serializer] and [BoundedQueue] interfaces; the I/O thread that
    empties the outbound queue meanwhile is the schedule of [SharedQueue]. *)

From S2P Require Import Prelude Outcome OrdMap Order OrderBook MatchingEngine Bytes Serializer RingBuffer SharedQueue.

(** ** [class OrderProcessor] *)

(** [pr_buffer] is the local [buffer] of the call in progress. *)
Record Proc (Q : Type) := mkProc {
  pr_book : OrderBook;
  pr_reads : nat;
  pr_fds : gmap Z Z;
  pr_buffer : list Z;
  pr_outbox : SharedQueue Q OutboundMessage;
}.
Arguments mkProc {Q}.
Arguments pr_book {Q}.
Arguments pr_reads {Q}.
Arguments pr_fds {Q}.
Arguments pr_buffer {Q}.
Arguments pr_outbox {Q}.

Section processor.
Context {Q : Type} `{!BoundedQueue Q OutboundMessage} {z : Serializer}.
Context (host : endian) (clock : nat → Z).

Definition on_buffer (m : M (list Z) unit) : M (Proc Q) unit :=
  zoom pr_buffer (λ b p, mkProc (pr_book p) (pr_reads p) (pr_fds p) b (pr_outbox p)) m.

Definition on_book {A} (m : M OrderBook A) : M (Proc Q) A :=
  zoom pr_book (λ b p, mkProc b (pr_reads p) (pr_fds p) (pr_buffer p) (pr_outbox p)) m.

Definition on_outbox {A} (m : M (SharedQueue Q OutboundMessage) A) : M (Proc Q) A :=
  zoom pr_outbox (λ o p, mkProc (pr_book p) (pr_reads p) (pr_fds p) (pr_buffer p) o) m.

Definition set_fds (f : gmap Z Z → gmap Z Z) : M (Proc Q) unit :=
  modify (λ p, mkProc (pr_book p) (pr_reads p) (f (pr_fds p)) (pr_buffer p) (pr_outbox p)).

(** A reading of the clock. *)
Definition read_clock : M (Proc Q) Z := λ p,
  Ok (mkProc (pr_book p) (S (pr_reads p)) (pr_fds p) (pr_buffer p) (pr_outbox p))
    (clock (pr_reads p)).

(** [order_to_client_fd_[id]]: a missing entry is created with value 0. *)
Definition fd_of (id : Z) : M (Proc Q) Z :=
  p <- get ;;
  match pr_fds p !! id with
  | Some fd => ret fd
  | None => set_fds <[id := 0]> ;;; ret 0
  end.

(** [matching_engine_.match(order, trades)] with a fresh [trades] vector. *)
Definition run_match (order : Order) : M (Proc Q) (list Trade) := λ p,
  match match_ clock order (mkEngine (pr_book p) [] (pr_reads p)) with
  | Ok e _ => Ok (mkProc (eng_book e) (eng_reads e) (pr_fds p) (pr_buffer p) (pr_outbox p)) (eng_trades e)
  | Throw e x => Throw (mkProc (eng_book e) (eng_reads e) (pr_fds p) (pr_buffer p) (pr_outbox p)) x
  | UB => UB
  | Diverge => Diverge
  | Killed e => Killed (mkProc (eng_book e) (eng_reads e) (pr_fds p) (pr_buffer p) (pr_outbox p))
  end.

(** The body of [for (const Trade& trade : trades)]. *)
Definition report_trade (order : Order) (trade : Trade) : M (Proc Q) unit :=
  on_buffer (serialize_trade trade) ;;;
  cp_buffer <- or_ub (match serialize_trade trade [] with Ok b _ => Some b | _ => None end) ;;
  fd <- fd_of (if bool_decide (side_ order = ASK) then buyer_order_id trade
               else seller_order_id trade) ;;
  on_outbox (push_spinning (mkOutbound fd cp_buffer)).

Definition reject (raw_id : Z) (e : exn) : M (Proc Q) unit :=
  on_buffer (serialize_rejection (mkRejection raw_id (exn_what e))).

Definition new_order (i_message : InboundMessage) : M (Proc Q) unit :=
  raw_id <- read_uint host 0 8 (in_payload i_message) ;;
  try_catch
    (now <- read_clock ;;
     order <- deserialize_order now (mkMessage NEW_ORDER (in_payload i_message)) ;;
     trades <- run_match order ;;
     set_fds <[id_ order := in_fd i_message]> ;;;
     for_each trades (report_trade order) ;;;
     on_buffer (serialize_acknowledgement (mkAck (id_ order))))
    (reject raw_id).

Definition cancel (i_message : InboundMessage) : M (Proc Q) unit :=
  raw_id <- read_uint host 0 8 (in_payload i_message) ;;
  try_catch
    (id <- deserialize_cancel (mkMessage CANCEL_ORDER (in_payload i_message)) ;;
     on_buffer (serialize_cancel_ack (mkAck id)) ;;;
     on_book (cancel_order id) ;;;
     set_fds (delete id))
    (reject raw_id).

Definition process (i_message : InboundMessage) : M (Proc Q) unit :=
  on_buffer (put []) ;;;
  (match in_type i_message with
   | NEW_ORDER => new_order i_message
   | CANCEL_ORDER => cancel i_message
   | _ => throw (runtime_error "unknown message type")
   end) ;;;
  buffer <- gets pr_buffer ;;
  on_outbox (push_spinning (mkOutbound (in_fd i_message) buffer)).

(** [OrderProcessor::run]: the state adds the inbound queue, and [run n] is the
    first [n] iterations of its endless loop. *)
Context {Qin : Type} `{!BoundedQueue Qin InboundMessage}.

Definition run_iteration : M (Qin * Proc Q) unit :=
  result <- zoom fst (λ q s, (q, s.2)) q_try_pop ;;
  match result with
  | Some message => zoom snd (λ p s, (s.1, p)) (process message)
  | None => ret tt
  end.

Fixpoint run (n : nat) : M (Qin * Proc Q) unit :=
  match n with
  | O => ret tt
  | S n' => run_iteration ;;; run n'
  end.
End processor.
