(* ===== verification/ProcessorProof.v ===== *)
(** * The order processor: vocabulary and lemmas

    The behaviour of the handlers of [OrderProcessor], against the [Serializer]
    and [BoundedQueue] interfaces: pushing to the outbound queue while it is
    drained, reporting trades, each branch of [process], and the invariant that
    links the book and the routing table. *)

From S2P Require Import Prelude Outcome OrdMap Order OrderBook BookSpec MatchingEngine MatchSpec MatchTheorems MatchFacts Bytes Serializer RingBuffer SharedQueue OrderProcessor.

(** ** What a request should produce *)

(** The connection an order id is routed to. *)
Definition fd_at (fds : gmap Z Z) (id : Z) : Z := default 0 (fds !! id).

(** [fds'] routes like [fds] and has all of its entries. *)
Definition same_routes (fds fds' : gmap Z Z) : Prop :=
  fds ⊆ fds' ∧ ∀ id, fd_at fds' id = fd_at fds id.

#[export] Instance same_routes_preorder : PreOrder same_routes.
Proof.
  split; [by split|]. intros f g h [H1 H2] [H3 H4]. split; [by etrans|]. intros id. by rewrite H4.
Qed.

(** Looking up a connection with [operator[]] creates a missing entry. *)
Definition touch (id : Z) (fds : gmap Z Z) : gmap Z Z :=
  match fds !! id with Some _ => fds | None => <[id := 0]> fds end.

Lemma touch_same id fds : same_routes fds (touch id fds).
Proof.
  unfold touch. destruct (fds !! id) as [fd|] eqn:Hl; [done|]. split; [by apply insert_subseteq|].
  intros id'. unfold fd_at. destruct (decide (id = id')) as [<-|Hne].
  - by rewrite lookup_insert_eq, Hl.
  - by rewrite lookup_insert_ne.
Qed.

(** The routing table after the owners of the resting orders of [ts] were
    looked up. *)
Definition touch_makers (s : Side) (ts : list Trade) (fds : gmap Z Z) : gmap Z Z :=
  foldl (λ f t, touch (maker_id s t) f) fds ts.

Lemma touch_makers_same s ts fds : same_routes fds (touch_makers s ts fds).
Proof.
  revert fds. induction ts as [|t ts IH]; intros fds; [done|]. cbn. etrans; [apply touch_same|apply IH].
Qed.

(** Every connection of the table satisfies [K]. *)
Definition routes_in (K : Z → Prop) (fds : gmap Z Z) : Prop := map_Forall (λ _, K) fds.

Lemma routes_in_at K fds id : K 0 → routes_in K fds → K (fd_at fds id).
Proof. intros H0 H. unfold fd_at. destruct (fds !! id) as [fd|] eqn:Hl; [by eapply H|done]. Qed.

Lemma same_routes_in K fds fds' : K 0 → same_routes fds fds' → routes_in K fds → routes_in K fds'.
Proof.
  intros H0 [_ Hat] H id fd Hfd. specialize (Hat id). unfold fd_at at 1 in Hat. rewrite Hfd in Hat.
  cbn in Hat. rewrite Hat. by apply routes_in_at.
Qed.

Section spec.
Context `{!SerializerLaws z}.

Definition trade_frame (t : Trade) : list Z := frame TRADE (trade_payload t).

(** The report to the owner of the resting order. *)
Definition maker_report (fds : gmap Z Z) (s : Side) (t : Trade) : OutboundMessage :=
  mkOutbound (fd_at fds (maker_id s t)) (trade_frame t).

(** The batched response to the sender: its trades, then the acknowledgement. *)
Definition taker_response (fd id : Z) (ts : list Trade) : OutboundMessage :=
  mkOutbound fd ((ts ≫= trade_frame) ++ frame ORDER_ACK (id_payload id)).

Definition rejection_response (fd id : Z) (why : string) : OutboundMessage :=
  mkOutbound fd (frame REJECT (rejection_payload (mkRejection id why))).
End spec.

(** ** One request *)

Section process.
Context {Q : Type} `{!BoundedQueue Q OutboundMessage, !BoundedQueueLaws Q OutboundMessage}.
Context (z : Serializer) `{!SerializerLaws z} (host : endian) (clock : nat → Z).
Hypothesis Hcap : (0 < q_capacity)%nat.
Implicit Types (p : Proc Q) (i : InboundMessage) (ms : list OutboundMessage).

Lemma on_buffer_Ok (m : M (list Z) unit) p b : m (pr_buffer p) = Ok b tt →
  on_buffer m p = Ok (mkProc (pr_book p) (pr_reads p) (pr_fds p) b (pr_outbox p)) tt.
Proof. unfold on_buffer, zoom. by intros ->. Qed.

Lemma on_outbox_push m p ms k : shared_ok (pr_outbox p) ms (S k) →
  ∃ o', on_outbox (push_spinning m) p =
      Ok (mkProc (pr_book p) (pr_reads p) (pr_fds p) (pr_buffer p) o') tt ∧
    shared_ok o' (ms ++ [m]) k.
Proof.
  intros Ho. destruct (push_spinning_spec Hcap m _ _ _ Ho) as (o' & He & Ho').
  exists o'. unfold on_outbox, zoom. by rewrite He.
Qed.

Lemma fd_of_spec id p :
  fd_of id p = Ok (mkProc (pr_book p) (pr_reads p) (touch id (pr_fds p)) (pr_buffer p) (pr_outbox p))
    (fd_at (pr_fds p) id).
Proof.
  unfold fd_of, bind, get, fd_at, touch. destruct (pr_fds p !! id) as [fd|] eqn:Hl; [by destruct p|done].
Qed.

(** The id the code looks up is the maker's. *)
Lemma counterparty_maker order t : on_book_side order →
  (if bool_decide (side_ order = ASK) then buyer_order_id t else seller_order_id t) =
    maker_id (side_ order) t.
Proof. by intros [Hs|Hs]; rewrite Hs. Qed.

Lemma report_trade_spec order t p ms k : on_book_side order →
  shared_ok (pr_outbox p) ms (S k) →
  ∃ o', report_trade order t p =
      Ok (mkProc (pr_book p) (pr_reads p) (touch (maker_id (side_ order) t) (pr_fds p))
            (pr_buffer p ++ trade_frame t) o') tt ∧
    shared_ok o' (ms ++ [maker_report (pr_fds p) (side_ order) t]) k.
Proof.
  intros Hs Ho. unfold report_trade.
  rewrite (bind_Ok _ _ _ _ _ (on_buffer_Ok _ _ _ (serialize_trade_eq t _))).
  rewrite (serialize_trade_eq t []), counterparty_maker by done. cbn [app or_ub]. rewrite bind_ret.
  set (p1 := mkProc _ _ _ _ _).
  rewrite (bind_Ok _ _ _ _ _ (fd_of_spec (maker_id (side_ order) t) p1)). set (p2 := mkProc _ _ (touch _ _) _ _).
  destruct (on_outbox_push (maker_report (pr_fds p) (side_ order) t) p2 ms k Ho) as (o' & He & Ho').
  by exists o'.
Qed.

Lemma report_trades_spec order ts p ms k : on_book_side order ∨ ts = [] →
  shared_ok (pr_outbox p) ms (length ts + k) →
  ∃ o', for_each ts (report_trade order) p =
      Ok (mkProc (pr_book p) (pr_reads p) (touch_makers (side_ order) ts (pr_fds p))
            (pr_buffer p ++ (ts ≫= trade_frame)) o') tt ∧
    shared_ok o' (ms ++ (maker_report (pr_fds p) (side_ order) <$> ts)) k.
Proof.
  intros Hts. revert p ms Hts. induction ts as [|t ts IH]; intros p ms Hts Ho; csimpl.
  { exists (pr_outbox p). rewrite !app_nil_r. by destruct p. }
  destruct Hts as [Hs|]; [|done].
  destruct (report_trade_spec order t p ms (length ts + k) Hs Ho) as (o1 & Ht & Ho1).
  rewrite (bind_Ok _ _ _ _ _ Ht).
  set (fds1 := touch _ _).
  destruct (IH (mkProc (pr_book p) (pr_reads p) fds1 (pr_buffer p ++ trade_frame t) o1) _
    (or_introl Hs) Ho1) as (o2 & Hts & Ho2).
  cbn [pr_book pr_reads pr_fds pr_buffer pr_outbox] in *. exists o2.
  rewrite Hts, <- app_assoc. split; [done|].
  rewrite <- app_assoc in Ho2. cbn [app] in Ho2.
  replace (maker_report (pr_fds p) (side_ order) <$> ts)
    with (maker_report fds1 (side_ order) <$> ts); [done|].
  apply list_fmap_ext. intros ? t' _. unfold maker_report, fds1. by rewrite (proj2 (touch_same _ _)).
Qed.

(** The engine run by the processor. *)
Lemma run_match_spec order p sb ts n : book_ok (pr_book p) → order_valid order →
  spec_match clock order (pr_reads p) (abs (pr_book p)) = (sb, ts, n) →
  (on_book_side order ∨ ts = []) ∧
  ∃ b', run_match clock order p = Ok (mkProc b' n (pr_fds p) (pr_buffer p) (pr_outbox p)) ts ∧
    match_ clock order (mkEngine (pr_book p) [] (pr_reads p)) = Ok (mkEngine b' ts n) tt ∧
    book_ok b' ∧ abs b' = sb ∧
    (book_indexed (pr_book p) → ¬ spec_resting (id_ order) (abs (pr_book p)) → book_indexed b').
Proof.
  intros Hok Hv Hsp. split.
  { unfold spec_match in Hsp. unfold on_book_side. destruct (side_ order); [by left; left|by left; right|].
    right. congruence. }
  pose proof (match_spec_match clock order (mkEngine (pr_book p) [] (pr_reads p)) Hok Hv) as Hm.
  cbn [eng_book eng_trades eng_reads] in Hm. rewrite Hsp in Hm. destruct Hm as (b' & Hm & Hrest).
  exists b'. unfold run_match. by rewrite Hm.
Qed.

(** The common frame of [process]: clear the local buffer, run a handler, push
    what it left in the buffer. *)
Lemma process_finish (handler : M (Proc Q) unit) i p p1 ms k :
  handler (mkProc (pr_book p) (pr_reads p) (pr_fds p) [] (pr_outbox p)) = Ok p1 tt →
  shared_ok (pr_outbox p1) ms (S k) →
  ∃ o', (on_buffer (put []) ;;; handler ;;; buffer <- gets pr_buffer ;;
         on_outbox (push_spinning (mkOutbound (in_fd i) buffer))) p =
      Ok (mkProc (pr_book p1) (pr_reads p1) (pr_fds p1) (pr_buffer p1) o') tt ∧
    shared_ok o' (ms ++ [mkOutbound (in_fd i) (pr_buffer p1)]) k.
Proof.
  intros Hh Ho. destruct (on_outbox_push (mkOutbound (in_fd i) (pr_buffer p1)) _ _ _ Ho) as (o' & He & Ho').
  exists o'. split; [|done]. rewrite (bind_Ok _ _ _ _ _ (on_buffer_Ok (put []) p [] eq_refl)).
  rewrite (bind_Ok _ _ _ _ _ Hh). exact He.
Qed.

Lemma read_raw_id {S} (l : list Z) (s : S) : (8 <= length l)%nat →
  read_uint host 0 8 l s = Ok s (load host (take 8 l)).
Proof. intros Hl. unfold read_uint, memcpy_in. by rewrite decide_True by lia. Qed.

(** What accepting [order] does to the processor. *)
Record accepted (i : InboundMessage) (order : Order) (p p' : Proc Q) (ts : list Trade) : Prop := {
  ac_spec : spec_match clock order (S (pr_reads p)) (abs (pr_book p)) =
    (abs (pr_book p'), ts, pr_reads p');
  ac_ok : book_ok (pr_book p');
  ac_indexed : book_indexed (pr_book p) → ¬ spec_resting (id_ order) (abs (pr_book p)) →
    book_indexed (pr_book p');
  ac_routes : pr_fds p' = touch_makers (side_ order) ts (<[id_ order := in_fd i]> (pr_fds p));
  ac_match : match_ clock order (mkEngine (pr_book p) [] (S (pr_reads p))) =
    Ok (mkEngine (pr_book p') ts (pr_reads p')) tt;
}.

Lemma accepted_same_routes i order p p' ts : accepted i order p p' ts →
  same_routes (<[id_ order := in_fd i]> (pr_fds p)) (pr_fds p').
Proof. intros H. rewrite (ac_routes _ _ _ _ _ H). apply touch_makers_same. Qed.

(** The messages of an accepted order, in the order they are pushed. *)
Definition accepted_messages i (order : Order) (fds : gmap Z Z) (ts : list Trade) :
    list OutboundMessage :=
  (maker_report (<[id_ order := in_fd i]> fds) (side_ order) <$> ts) ++
  [taker_response (in_fd i) (id_ order) ts].

Lemma process_accepts i p ms k order ts :
  in_type i = NEW_ORDER → (8 <= length (in_payload i))%nat →
  (∀ s : Proc Q, deserialize_order (clock (pr_reads p)) (mkMessage NEW_ORDER (in_payload i)) s =
     Ok s order) →
  book_ok (pr_book p) → order_valid order →
  ts = (spec_match clock order (S (pr_reads p)) (abs (pr_book p))).1.2 →
  shared_ok (pr_outbox p) ms (S (length ts + k)) →
  ∃ p', process host clock i p = Ok p' tt ∧ accepted i order p p' ts ∧
    shared_ok (pr_outbox p') (ms ++ accepted_messages i order (pr_fds p) ts) k.
Proof.
  intros Ht Hlen Hdes Hok Hv -> Ho. destruct (spec_match _ _ _ _) as [[sb ts] n] eqn:Hsp.
  cbn [fst snd] in *. rewrite <- Nat.add_succ_r in Ho.
  destruct (run_match_spec order (mkProc (pr_book p) (S (pr_reads p)) (pr_fds p) [] (pr_outbox p))
    sb ts n Hok Hv Hsp) as (Hts & b' & Hm & Hmatch & Hok' & Habs & Hix).
  destruct (report_trades_spec order ts
    (mkProc b' n (<[id_ order := in_fd i]> (pr_fds p)) [] (pr_outbox p)) ms (S k) Hts Ho)
    as (o1 & Hrep & Ho1).
  set (fds' := touch_makers _ _ _) in Hrep.
  cbn [pr_book pr_reads pr_fds pr_buffer pr_outbox app] in *.
  set (p1 := mkProc b' n fds' ((ts ≫= trade_frame) ++ frame ORDER_ACK (id_payload (id_ order))) o1).
  assert (new_order host clock i (mkProc (pr_book p) (pr_reads p) (pr_fds p) [] (pr_outbox p)) =
    Ok p1 tt) as Hh.
  { unfold new_order. rewrite (bind_Ok _ _ _ _ _ (read_raw_id _ _ Hlen)).
    unfold try_catch, read_clock. unfold bind at 1. cbn [pr_book pr_reads pr_fds pr_buffer pr_outbox].
    rewrite (bind_Ok _ _ _ _ _ (Hdes _)), (bind_Ok _ _ _ _ _ Hm).
    unfold set_fds, bind at 1, modify. cbn [pr_book pr_reads pr_fds pr_buffer pr_outbox].
    rewrite (bind_Ok _ _ _ _ _ Hrep).
    by rewrite (on_buffer_Ok _ _ _ (serialize_acknowledgement_eq (mkAck (id_ order)) _)). }
  destruct (process_finish _ i p p1 _ _ Hh Ho1) as (o2 & He & Ho2).
  eexists. split; [unfold process; rewrite Ht; exact He|]. subst sb. split; [by split|].
  unfold accepted_messages. by rewrite app_assoc.
Qed.

Lemma process_rejects i p ms k e :
  in_type i = NEW_ORDER → (8 <= length (in_payload i))%nat →
  (∀ s : Proc Q, deserialize_order (clock (pr_reads p)) (mkMessage NEW_ORDER (in_payload i)) s =
     Throw s e) →
  shared_ok (pr_outbox p) ms (S k) →
  ∃ p', process host clock i p = Ok p' tt ∧ pr_book p' = pr_book p ∧ pr_fds p' = pr_fds p ∧
    pr_reads p' = S (pr_reads p) ∧
    shared_ok (pr_outbox p')
      (ms ++ [rejection_response (in_fd i) (load host (take 8 (in_payload i))) (exn_what e)]) k.
Proof.
  intros Ht Hlen Hdes Ho. set (raw := load host (take 8 (in_payload i))).
  set (p1 := mkProc (pr_book p) (S (pr_reads p)) (pr_fds p)
    (frame REJECT (rejection_payload (mkRejection raw (exn_what e)))) (pr_outbox p)).
  assert (new_order host clock i (mkProc (pr_book p) (pr_reads p) (pr_fds p) [] (pr_outbox p)) =
    Ok p1 tt) as Hh.
  { unfold new_order. rewrite (bind_Ok _ _ _ _ _ (read_raw_id _ _ Hlen)).
    unfold try_catch, read_clock. unfold bind at 1. cbn [pr_book pr_reads pr_fds pr_buffer pr_outbox].
    rewrite (bind_Throw _ _ _ _ _ (Hdes _)). unfold reject.
    by rewrite (on_buffer_Ok _ _ _ (serialize_rejection_eq (mkRejection raw (exn_what e)) _)). }
  destruct (process_finish _ i p p1 _ _ Hh Ho) as (o2 & He & Ho2).
  eexists. split; [unfold process; rewrite Ht; exact He|]. done.
Qed.

(** The [cancel] handler in terms of [cancel_order]. *)
Lemma cancel_run i p id :
  (8 <= length (in_payload i))%nat →
  (∀ s : Proc Q, deserialize_cancel (mkMessage CANCEL_ORDER (in_payload i)) s = Ok s id) →
  cancel host i (mkProc (pr_book p) (pr_reads p) (pr_fds p) [] (pr_outbox p)) =
    match cancel_order id (pr_book p) with
    | Ok b' _ => Ok (mkProc b' (pr_reads p) (delete id (pr_fds p))
                      (frame CANCEL_ACK (id_payload id)) (pr_outbox p)) tt
    | Throw b' e =>
        Ok (mkProc b' (pr_reads p) (pr_fds p)
             (frame CANCEL_ACK (id_payload id) ++
              frame REJECT (rejection_payload
                (mkRejection (load host (take 8 (in_payload i))) (exn_what e)))) (pr_outbox p)) tt
    | UB => UB
    | Diverge => Diverge
    | Killed b' => Killed (mkProc b' (pr_reads p) (pr_fds p) (frame CANCEL_ACK (id_payload id)) (pr_outbox p))
    end.
Proof.
  intros Hlen Hdes. unfold cancel. rewrite (bind_Ok _ _ _ _ _ (read_raw_id _ _ Hlen)).
  unfold try_catch. rewrite (bind_Ok _ _ _ _ _ (Hdes _)).
  rewrite (bind_Ok _ _ _ _ _ (on_buffer_Ok _ _ _ (serialize_cancel_ack_eq (mkAck id) _))).
  unfold bind, on_book, zoom, set_fds, modify. cbn [pr_book pr_reads pr_fds pr_buffer pr_outbox app].
  destruct (cancel_order id (pr_book p)) as [b' []|b' e| | |b']; try done.
  unfold reject. by rewrite (on_buffer_Ok _ _ _ (serialize_rejection_eq _ _)).
Qed.

Lemma process_cancels i p ms k id loc :
  in_type i = CANCEL_ORDER → (8 <= length (in_payload i))%nat →
  (∀ s : Proc Q, deserialize_cancel (mkMessage CANCEL_ORDER (in_payload i)) s = Ok s id) →
  book_ok (pr_book p) → order_map_ (pr_book p) !! id = Some loc →
  shared_ok (pr_outbox p) ms (S k) →
  ∃ n p', process host clock i p = Ok p' tt ∧ n ∈ all_nodes (pr_book p) ∧ id_ (elem n) = id ∧
    removed n (pr_book p) (pr_book p') ∧ book_ok (pr_book p') ∧
    cancel_order id (pr_book p) = Ok (pr_book p') tt ∧ pr_fds p' = delete id (pr_fds p) ∧ pr_reads p' = pr_reads p ∧
    shared_ok (pr_outbox p') (ms ++ [mkOutbound (in_fd i) (frame CANCEL_ACK (id_payload id))]) k.
Proof.
  intros Ht Hlen Hdes Hok Hloc Ho. pose proof (cancel_run i p id Hlen Hdes) as Hh.
  destruct (cancel_order_removed id loc _ Hok Hloc) as (n & b' & Hc & Hn & Hid & _ & Hrm & Hok').
  rewrite Hc in Hh. destruct (process_finish _ i p _ _ _ Hh Ho) as (o2 & He & Ho2).
  exists n. eexists. split; [unfold process; rewrite Ht; exact He|]. done.
Qed.

Lemma process_cancel_unknown i p ms k id :
  in_type i = CANCEL_ORDER → (8 <= length (in_payload i))%nat →
  (∀ s : Proc Q, deserialize_cancel (mkMessage CANCEL_ORDER (in_payload i)) s = Ok s id) →
  order_map_ (pr_book p) !! id = None → shared_ok (pr_outbox p) ms (S k) →
  ∃ p', process host clock i p = Ok p' tt ∧ pr_book p' = pr_book p ∧ pr_fds p' = pr_fds p ∧
    pr_reads p' = pr_reads p ∧
    shared_ok (pr_outbox p') (ms ++ [mkOutbound (in_fd i)
      (frame CANCEL_ACK (id_payload id) ++
       frame REJECT (rejection_payload (mkRejection (load host (take 8 (in_payload i)))
         "order id not found in the book")))]) k.
Proof.
  intros Ht Hlen Hdes Hnone Ho. pose proof (cancel_run i p id Hlen Hdes) as Hh.
  rewrite cancel_order_missing in Hh by done.
  destruct (process_finish _ i p _ _ _ Hh Ho) as (o2 & He & Ho2).
  eexists. split; [unfold process; rewrite Ht; exact He|]. done.
Qed.

(** ** The invariant of the processor *)

Definition routed p : Prop :=
  ∀ id, spec_resting id (abs (pr_book p)) → is_Some (pr_fds p !! id).

(** A request with a payload of the size its type needs. *)
Definition request_ok i : Prop :=
  bytes_wf (in_payload i) ∧
  ((in_type i = NEW_ORDER ∧ (min_payload <= length (in_payload i))%nat) ∨
   (in_type i = CANCEL_ORDER ∧ (8 <= length (in_payload i))%nat)).

(** Every well-formed request is processed to the end, keeps the book
    well-formed and uncrossed, and its last message answers the sender. *)
Lemma process_total K i p ms k : request_ok i → book_inv (pr_book p) →
  K 0 → K (in_fd i) → routes_in K (pr_fds p) →
  shared_ok (pr_outbox p) ms (book_size (pr_book p) + 2 + k) →
  ∃ p' reports resp, process host clock i p = Ok p' tt ∧ book_inv (pr_book p') ∧
    routes_in K (pr_fds p') ∧ Forall (λ m, K (out_fd m)) reports ∧
    shared_ok (pr_outbox p') (ms ++ reports ++ [mkOutbound (in_fd i) resp])
      (book_size (pr_book p') + k).
Proof.
  intros [Hwf [[Ht Hlen]|[Ht Hlen]]] [Hok Hun] HK0 HKi HK Ho.
  - pose proof min_payload_id.
    destruct (deserialize_order_total (clock (pr_reads p)) NEW_ORDER (in_payload i) Hwf Hlen)
      as [(order & Hv & Hdes)|(w & Hdes)].
    + destruct (spec_match clock order (S (pr_reads p)) (abs (pr_book p))) as [[sb ts] n] eqn:Hsp.
      pose proof (spec_match_size clock _ _ _ _ _ _ Hok Hv Hsp) as Hsize.
      destruct (process_accepts i p ms (length (spec_orders sb) + k) order ts)
        as (p' & He & Hacc & Ho'); [done|lia|done..|by rewrite Hsp| |].
      { eapply shared_ok_le; [exact Ho|]. lia. }
      pose proof Hacc as [Hsp' Hok' _ _ _].
      assert (routes_in K (<[id_ order := in_fd i]> (pr_fds p))) as HKn by by apply map_Forall_insert_2.
      assert (abs (pr_book p') = sb) as Habs by congruence.
      exists p', (maker_report (<[id_ order := in_fd i]> (pr_fds p)) (side_ order) <$> ts). eexists.
      split; [exact He|]. split; [split; [done|]|split; [|split]].
      * rewrite Habs. exact (spec_match_uncrossed clock _ _ _ _ _ _ Hok Hv Hun Hsp).
      * exact (same_routes_in K _ _ HK0 (accepted_same_routes _ _ _ _ _ Hacc) HKn).
      * apply Forall_fmap, Forall_true. intros t. by apply (routes_in_at K).
      * rewrite book_size_abs, Habs. exact Ho'.
    + destruct (process_rejects i p ms (book_size (pr_book p) + 1 + k) (invalid_argument w))
        as (p' & He & Hb & Hf & _ & Ho'); [done|lia|done| |].
      { eapply shared_ok_le; [exact Ho|]. lia. }
      exists p', []. eexists. rewrite Hf. split; [exact He|]. split; [by rewrite Hb|]. split; [done|]. split; [done|].
      eapply shared_ok_le; [exact Ho'|]. rewrite Hb. lia.
  - destruct (deserialize_cancel_total CANCEL_ORDER (in_payload i) Hwf Hlen) as (id & Hdes & _).
    destruct (order_map_ (pr_book p) !! id) as [loc|] eqn:Hl.
    + destruct (process_cancels i p ms (book_size (pr_book p) + 1 + k) id loc)
        as (n & p' & He & Hn & Hid & Hrm & Hok' & _ & Hf & _ & Ho'); [done..| |].
      { eapply shared_ok_le; [exact Ho|]. lia. }
      exists p', []. eexists. split; [exact He|]. split; [split; [done|by eapply removed_uncrossed]|].
      split; [rewrite Hf; by apply map_Forall_delete|]. split; [done|].
      eapply shared_ok_le; [exact Ho'|]. pose proof (removed_size _ _ _ Hok Hn Hrm). lia.
    + destruct (process_cancel_unknown i p ms (book_size (pr_book p) + 1 + k) id)
        as (p' & He & Hb & Hf & _ & Ho'); [done..| |].
      { eapply shared_ok_le; [exact Ho|]. lia. }
      exists p', []. eexists. rewrite Hf. split; [exact He|]. split; [by rewrite Hb|]. split; [done|]. split; [done|].
      eapply shared_ok_le; [exact Ho'|]. rewrite Hb. lia.
Qed.

(** What holds between two requests when clients do not reuse resting ids. *)
Definition proc_inv p : Prop :=
  book_inv (pr_book p) ∧ book_indexed (pr_book p) ∧ routed p.

(** A new order does not carry the id of a resting one. *)
Definition fresh_id i p : Prop := in_type i = NEW_ORDER → ∀ o,
  deserialize_order (clock (pr_reads p)) (mkMessage NEW_ORDER (in_payload i)) p = Ok p o →
  ¬ spec_resting (id_ o) (abs (pr_book p)).

Lemma accepted_routed i order p p' ts : book_ok (pr_book p) → order_valid order →
  accepted i order p p' ts → routed p → routed p'.
Proof.
  intros Hok Hv Hacc Hr id Hid. pose proof (ac_spec _ _ _ _ _ Hacc) as Hsp.
  destruct (accepted_same_routes _ _ _ _ _ Hacc) as [Hsub _].
  destruct (spec_match_ids clock _ _ _ _ _ _ Hok Hv Hsp) as [Hids _].
  assert (is_Some (<[id_ order := in_fd i]> (pr_fds p) !! id)) as [fd Hfd].
  { apply lookup_insert_is_Some'. destruct (Hids id Hid) as [?|?]; [right; by apply Hr|by left]. }
  exists fd. by eapply lookup_weaken.
Qed.

Lemma cancelled_routed n p p' : book_ok (pr_book p) → book_indexed (pr_book p) →
  n ∈ all_nodes (pr_book p) → removed n (pr_book p) (pr_book p') →
  pr_fds p' = delete (id_ (elem n)) (pr_fds p) → routed p → routed p'.
Proof.
  intros Hok Hix Hn Hrm Hfds Hr id. rewrite (removed_abs n (pr_book p)) by done.
  unfold spec_resting, spec_orders, spec_cancel, drop_id. cbn [sb_bids sb_asks].
  rewrite <- filter_app. intros (x & -> & [Hne Hx]%list_elem_of_filter)%list_elem_of_fmap.
  rewrite Hfds, lookup_delete_ne by done. apply Hr. unfold spec_resting, spec_orders.
  by apply list_elem_of_fmap_2.
Qed.
End process.
