(* ===== verification/ExchangeSpec.v ===== *)
(** * The sequential exchange

    What the exchange promises to its clients, without queues, threads and
    pointers: a pure function from the requests, in the order they are taken, to
    the messages that go out.  The processing thread refines it as long
    as its pushes on the outbound queue get through. *)

From S2P Require Import Prelude Outcome OrdMap Order OrderBook BookSpec MatchingEngine MatchSpec MatchTheorems MatchFacts Bytes Serializer RingBuffer SharedQueue OrderProcessor ProcessorProof.

(** ** The specification *)

(** The resting orders, the readings of the clock so far, and the connection of
    each order. *)
Record SpecState := mkSpecState {
  sp_book : SpecBook;
  sp_reads : nat;
  sp_routes : gmap Z Z;
}.

Definition spec_initial : SpecState := mkSpecState (mkSpec [] []) 0 ∅.

#[export] Instance spec_resting_dec id sb : Decision (spec_resting id sb).
Proof. unfold spec_resting. apply _. Defined.

Section spec.
Context (z : Serializer) `{!SerializerLaws z} (host : endian) (clock : nat → Z).

Definition answer_order (i : InboundMessage) (order : Order) (st : SpecState) :
    SpecState * list OutboundMessage :=
  let '(sb, ts, n) := spec_match clock order (S (sp_reads st)) (sp_book st) in
  (mkSpecState sb n (<[id_ order := in_fd i]> (sp_routes st)),
   accepted_messages z i order (sp_routes st) ts).

Definition answer_invalid (i : InboundMessage) (e : exn) (st : SpecState) :
    SpecState * list OutboundMessage :=
  (mkSpecState (sp_book st) (S (sp_reads st)) (sp_routes st),
   [rejection_response (in_fd i) (load host (take 8 (in_payload i))) (exn_what e)]).

Definition answer_cancel (i : InboundMessage) (id : Z) (st : SpecState) :
    SpecState * list OutboundMessage :=
  if decide (spec_resting id (sp_book st)) then
    (mkSpecState (spec_cancel id (sp_book st)) (sp_reads st) (delete id (sp_routes st)),
     [mkOutbound (in_fd i) (frame CANCEL_ACK (id_payload id))])
  else
    (st, [mkOutbound (in_fd i) (frame CANCEL_ACK (id_payload id) ++
            frame REJECT (rejection_payload (mkRejection (load host (take 8 (in_payload i)))
              "order id not found in the book")))]).

(** The answer to one request; [None] when the client broke its side of the
    contract: a request of another type, one that cannot be decoded, or a new
    order with the id of a resting one. *)
Definition answer (i : InboundMessage) (st : SpecState) : option (SpecState * list OutboundMessage) :=
  match in_type i with
  | NEW_ORDER =>
      match deserialize_order (clock (sp_reads st)) (mkMessage NEW_ORDER (in_payload i)) tt with
      | Ok _ order =>
          if decide (spec_resting (id_ order) (sp_book st)) then None
          else Some (answer_order i order st)
      | Throw _ e => Some (answer_invalid i e st)
      | _ => None
      end
  | CANCEL_ORDER =>
      match deserialize_cancel (mkMessage CANCEL_ORDER (in_payload i)) tt with
      | Ok _ id => Some (answer_cancel i id st)
      | _ => None
      end
  | _ => None
  end.

Fixpoint answers (l : list InboundMessage) (st : SpecState) :
    option (SpecState * list OutboundMessage) :=
  match l with
  | [] => Some (st, [])
  | i :: l' =>
      '(st1, new) ← answer i st;
      '(st2, more) ← answers l' st1;
      Some (st2, new ++ more)
  end.

Lemma answers_app l1 l2 st : answers (l1 ++ l2) st =
  ('(st1, new) ← answers l1 st; '(st2, more) ← answers l2 st1; Some (st2, new ++ more)).
Proof.
  revert st. induction l1 as [|i l1 IH]; intros st; cbn.
  { by destruct (answers l2 st) as [[??]|]. }
  destruct (answer i st) as [[st1 new]|]; cbn; [|done]. rewrite IH.
  destruct (answers l1 st1) as [[st2 n2]|]; cbn; [|done].
  destruct (answers l2 st2) as [[st3 n3]|]; cbn; [|done]. by rewrite app_assoc.
Qed.

Lemma answers_snoc l i st st1 new st2 more : answers l st = Some (st1, new) →
  answer i st1 = Some (st2, more) → answers (l ++ [i]) st = Some (st2, new ++ more).
Proof. intros H1 H2. rewrite answers_app, H1. cbn. rewrite H2. cbn. by rewrite app_nil_r. Qed.
End spec.

(** ** The refinement *)

Section refine.
Context {Q : Type} `{!BoundedQueue Q OutboundMessage, !BoundedQueueLaws Q OutboundMessage}.
Context (z : Serializer) `{!SerializerLaws z} (host : endian) (clock : nat → Z).
Hypothesis Hcap : (0 < q_capacity (Q := Q))%nat.
Implicit Types (p : Proc Q) (st : SpecState) (i : InboundMessage).

(** The processor [p] is in the abstract state [st]. *)
Record refines p st : Prop := {
  rf_inv : proc_inv p;
  rf_book : abs (pr_book p) = sp_book st;
  rf_reads : pr_reads p = sp_reads st;
  rf_routes id : fd_at (pr_fds p) id = fd_at (sp_routes st) id;
}.

Lemma fd_at_insert fds id fd id' :
  fd_at (<[id := fd]> fds) id' = if decide (id = id') then fd else fd_at fds id'.
Proof.
  unfold fd_at. case_decide as H; [by rewrite H, lookup_insert_eq|by rewrite lookup_insert_ne].
Qed.

Lemma fd_at_delete fds id id' :
  fd_at (delete id fds) id' = if decide (id = id') then 0 else fd_at fds id'.
Proof.
  unfold fd_at. case_decide as H; [by rewrite H, lookup_delete_eq|by rewrite lookup_delete_ne].
Qed.

(** The messages depend on the routes only. *)
Lemma accepted_messages_routes i order fds fds' ts : (∀ id, fd_at fds id = fd_at fds' id) →
  accepted_messages z i order fds ts = accepted_messages z i order fds' ts.
Proof.
  intros H. unfold accepted_messages. f_equal. apply list_fmap_ext. intros ? t _.
  unfold maker_report. by rewrite !fd_at_insert, H.
Qed.

Lemma refines_order i order p st st' new ms k :
  in_type i = NEW_ORDER → (8 <= length (in_payload i))%nat → order_valid order →
  (∀ s : Proc Q, deserialize_order (clock (pr_reads p)) (mkMessage NEW_ORDER (in_payload i)) s =
     Ok s order) →
  refines p st → ¬ spec_resting (id_ order) (sp_book st) →
  answer_order z clock i order st = (st', new) →
  shared_ok (pr_outbox p) ms (length new + k) →
  ∃ p', process host clock i p = Ok p' tt ∧ refines p' st' ∧ shared_ok (pr_outbox p') (ms ++ new) k.
Proof.
  intros Ht Hlen Hv Hdes [([Hok Hun] & Hix & Hr) Hb Hn Hrt] Hfresh Hans Ho. unfold answer_order in Hans.
  rewrite <- Hb, <- Hn in *. destruct (spec_match _ _ _ _) as [[sb ts] n] eqn:Hsp. injection Hans as <- <-.
  rewrite <- (accepted_messages_routes i order (pr_fds p)) in Ho |- * by done.
  destruct (process_accepts z host clock Hcap i p ms k order ts) as (p' & He & Hacc & Ho');
    [done|lia|done|done|done|by rewrite Hsp| |].
  { unfold accepted_messages in Ho. rewrite length_app, length_fmap in Ho. cbn [length] in Ho.
    by rewrite Nat.add_1_r in Ho. }
  exists p'. split; [done|]. split; [|done]. pose proof Hacc as [Hsp' Hok' Hix' _ _].
  destruct (accepted_same_routes _ _ _ _ _ _ Hacc) as [_ Hroutes].
  assert (abs (pr_book p') = sb ∧ pr_reads p' = n) as [Habs Hreads] by (split; congruence).
  split; [|done|done|].
  - split; [split; [done|]|split; [by apply Hix'|exact (accepted_routed clock _ _ _ _ _ Hok Hv Hacc Hr)]].
    rewrite Habs. exact (spec_match_uncrossed clock _ _ _ _ _ _ Hok Hv Hun Hsp).
  - intros id. cbn. by rewrite Hroutes, !fd_at_insert, Hrt.
Qed.

Lemma refines_cancel i id p st st' new ms k :
  in_type i = CANCEL_ORDER → (8 <= length (in_payload i))%nat →
  (∀ s : Proc Q, deserialize_cancel (mkMessage CANCEL_ORDER (in_payload i)) s = Ok s id) →
  refines p st → answer_cancel z host i id st = (st', new) →
  shared_ok (pr_outbox p) ms (length new + k) →
  ∃ p', process host clock i p = Ok p' tt ∧ refines p' st' ∧ shared_ok (pr_outbox p') (ms ++ new) k.
Proof.
  intros Ht Hlen Hdes Hrf Hans Ho. pose proof Hrf as [([Hok Hun] & Hix & Hr) Hb Hn Hrt].
  pose proof (indexed_lookup id _ Hok Hix) as Hlk. rewrite Hb in Hlk. unfold answer_cancel in Hans.
  case_decide as Hrest; injection Hans as <- <-.
  - destruct (proj2 Hlk Hrest) as [loc Hloc].
    destruct (process_cancels z host clock Hcap i p ms k id loc)
      as (n & p' & He & Hin & <- & Hrm & Hok' & _ & Hfds & Hreads & Ho'); [done..|].
    exists p'. split; [done|]. split; [|done]. split.
    + split; [split; [done|exact (removed_uncrossed _ _ _ Hrm Hun)]|].
      split; [exact (removed_indexed _ _ _ Hok Hix Hin Hrm)|].
      exact (cancelled_routed _ _ _ Hok Hix Hin Hrm Hfds Hr).
    + cbn. rewrite <- Hb. by apply removed_abs.
    + by rewrite Hreads.
    + intros id. cbn. by rewrite Hfds, !fd_at_delete, Hrt.
  - destruct (order_map_ (pr_book p) !! id) as [loc|] eqn:Hl; [destruct Hrest; apply Hlk; by eexists|].
    destruct (process_cancel_unknown z host clock Hcap i p ms k id) as (p' & He & Hb' & Hf & Hreads & Ho'); [done..|].
    exists p'. split; [done|]. split; [|done]. split; [|by rewrite Hb'|by rewrite Hreads|by rewrite Hf].
    unfold proc_inv, routed. by rewrite Hb', Hf.
Qed.

(** One request. *)
Lemma process_refines i p st st' new ms k : request_ok z i → refines p st →
  answer z host clock i st = Some (st', new) → shared_ok (pr_outbox p) ms (length new + k) →
  ∃ p', process host clock i p = Ok p' tt ∧ refines p' st' ∧ shared_ok (pr_outbox p') (ms ++ new) k.
Proof.
  intros [Hwf Hreq] Hrf Hans Ho. unfold answer in Hans. pose proof min_payload_id.
  destruct Hreq as [[Ht Hlen]|[Ht Hlen]]; rewrite Ht in Hans.
  - rewrite <- (rf_reads _ _ Hrf) in Hans.
    destruct (deserialize_order_total (clock (pr_reads p)) NEW_ORDER (in_payload i) Hwf Hlen)
      as [(order & Hv & Hdes)|(w & Hdes)]; rewrite Hdes in Hans.
    + case_decide; [done|]. injection Hans as Hans.
      apply (refines_order i order p st); [done|lia|done..].
    + injection Hans as <- <-.
      destruct (process_rejects z host clock Hcap i p ms k (invalid_argument w))
        as (p' & He & Hb & Hf & Hreads & Ho'); [done|lia|done..|].
      exists p'. split; [done|]. split; [|done]. destruct Hrf as [Hinv Hb0 Hn Hrt].
      split; [|by rewrite Hb|by rewrite Hreads, Hn|by rewrite Hf]. unfold proc_inv, routed. by rewrite Hb, Hf.
  - destruct (deserialize_cancel_total CANCEL_ORDER (in_payload i) Hwf Hlen) as (id & Hdes & _).
    rewrite Hdes in Hans. injection Hans as Hans. by apply (refines_cancel i id p st).
Qed.

(** At most one message per resting order, and one more. *)
Lemma answer_length i p st st' new : request_ok z i → refines p st →
  answer z host clock i st = Some (st', new) → (length new <= book_size (pr_book p) + 2)%nat.
Proof.
  intros [Hwf Hreq] [([Hok _] & _) Hb Hn _] Hans. unfold answer in Hans.
  destruct Hreq as [[Ht Hlen]|[Ht Hlen]]; rewrite Ht in Hans.
  - destruct (deserialize_order_total (clock (sp_reads st)) NEW_ORDER (in_payload i) Hwf Hlen)
      as [(order & Hv & Hdes)|(w & Hdes)]; rewrite Hdes in Hans.
    + case_decide; [done|]. unfold answer_order in Hans. rewrite <- Hb in Hans.
      destruct (spec_match _ _ _ _) as [[sb ts] n] eqn:Hsp. injection Hans as <- <-.
      pose proof (spec_match_size clock _ _ _ _ _ _ Hok Hv Hsp).
      unfold accepted_messages. rewrite length_app, length_fmap. cbn. lia.
    + injection Hans as <- <-. cbn. lia.
  - destruct (deserialize_cancel_total CANCEL_ORDER (in_payload i) Hwf Hlen) as (id & Hdes & _).
    rewrite Hdes in Hans. unfold answer_cancel in Hans. case_decide; injection Hans as <- <-; cbn; lia.
Qed.

(** Every resting order is routed to a connection that satisfies [K]. *)
Definition routes_to (K : Z → Prop) st : Prop :=
  ∀ id, spec_resting id (sp_book st) → K (fd_at (sp_routes st) id).

(** A request is answered to its sender and to the owners of resting orders. *)
Lemma answer_addressees K i p st st' new : request_ok z i → refines p st → K (in_fd i) → routes_to K st →
  answer z host clock i st = Some (st', new) → Forall (λ m, K (out_fd m)) new ∧ routes_to K st'.
Proof.
  intros [Hwf Hreq] [([Hok _] & _) Hb Hn _] HK HR Hans. unfold answer in Hans.
  destruct Hreq as [[Ht Hlen]|[Ht Hlen]]; rewrite Ht in Hans.
  - destruct (deserialize_order_total (clock (sp_reads st)) NEW_ORDER (in_payload i) Hwf Hlen)
      as [(order & Hv & Hdes)|(w & Hdes)]; rewrite Hdes in Hans.
    2: { injection Hans as <- <-. split; [by apply Forall_singleton|exact HR]. }
    case_decide; [done|]. unfold answer_order in Hans.
    destruct (spec_match _ _ _ _) as [[sb ts] n] eqn:Hsp. injection Hans as <- <-. rewrite <- Hb in Hsp.
    destruct (spec_match_ids clock _ _ _ _ _ _ Hok Hv Hsp) as [Hids Hmk]. rewrite Hb in Hids, Hmk.
    split.
    + apply Forall_app. split; [|by apply Forall_singleton]. apply Forall_fmap, Forall_forall. intros t Hin.
      cbn. rewrite fd_at_insert. case_decide; [done|]. by apply HR, Hmk.
    + intros id Hid. cbn in Hid |- *. rewrite fd_at_insert. case_decide; [done|].
      destruct (Hids id Hid); [by apply HR|congruence].
  - destruct (deserialize_cancel_total CANCEL_ORDER (in_payload i) Hwf Hlen) as (id & Hdes & _).
    rewrite Hdes in Hans. unfold answer_cancel in Hans.
    case_decide; injection Hans as <- <-; (split; [by apply Forall_singleton|]); [|exact HR].
    intros id' (x & -> & Hx)%list_elem_of_fmap. cbn in Hx |- *.
    unfold spec_orders, spec_cancel, drop_id in Hx. cbn [sb_bids sb_asks] in Hx. rewrite <- filter_app in Hx.
    apply list_elem_of_filter in Hx as [Hne Hx]. rewrite fd_at_delete, decide_False by done.
    apply HR. by apply list_elem_of_fmap_2.
Qed.

Lemma empty_refines o : refines (mkProc empty_book 0 ∅ [] o) spec_initial.
Proof.
  split; try done. split; [|split; [apply empty_book_indexed|]].
  - split; [apply empty_book_ok|]. by intros x y ?%elem_of_nil.
  - by intros id ?%elem_of_nil.
Qed.
End refine.
