(* ===== verification/ProcessorTheorems.v ===== *)
(** * Correctness of the order processor

    Proved against the [Serializer] and [BoundedQueue] interfaces, hence for
    the binary serializer and the ring buffer that implement them. *)

From S2P Require Import Prelude Outcome OrdMap Order OrderBook BookSpec MatchingEngine MatchSpec MatchTheorems MatchFacts Bytes Serializer RingBuffer SharedQueue OrderProcessor ProcessorProof ExchangeSpec.

(** ** Main theorems on one request *)

Section process.
Context {Q : Type} `{!BoundedQueue Q OutboundMessage, !BoundedQueueLaws Q OutboundMessage}.
Context (z : Serializer) `{!SerializerLaws z} (host : endian) (clock : nat → Z).
Hypothesis Hcap : (0 < q_capacity)%nat.
Implicit Types (p : Proc Q) (i : InboundMessage) (ms : list OutboundMessage).

(** C10: a valid order that arrives on the wire is decoded, stamped and matched
    by the price-time specification.  The owner of each resting order it
    traded with gets one TRADE frame, in the order of the trades; then the
    sender gets a single message with all its TRADE frames followed by the
    acknowledgement.  When every resting order has a connection, no report
    falls back on descriptor 0.  The pushes get through when the outbound queue
    has room for these messages, or the I/O thread takes something once per
    message. *)
Theorem process_new_order i p ms k o :
  in_type i = NEW_ORDER → in_payload i = order_payload o → order_valid o →
  book_ok (pr_book p) →
  let order := restamp (clock (pr_reads p)) o in
  let '(sb, ts, n) := spec_match clock order (S (pr_reads p)) (abs (pr_book p)) in
  shared_ok (pr_outbox p) ms (S (length ts + k)) →
  ∃ p', process host clock i p = Ok p' tt ∧
    book_ok (pr_book p') ∧ abs (pr_book p') = sb ∧ pr_reads p' = n ∧
    same_routes (<[id_ o := in_fd i]> (pr_fds p)) (pr_fds p') ∧
    (routed p → ∀ t, t ∈ ts → is_Some (pr_fds p !! maker_id (side_ o) t)) ∧
    shared_ok (pr_outbox p')
      (ms ++ (maker_report (<[id_ o := in_fd i]> (pr_fds p)) (side_ o) <$> ts) ++
       [taker_response (in_fd i) (id_ o) ts]) k.
Proof.
  intros Ht Hp Hv Hok order. destruct (spec_match _ _ _ _) as [[sb ts] n] eqn:Hsp. intros Ho.
  assert (order_valid order) as Hv' by by apply restamp_valid.
  destruct (process_accepts z host clock Hcap i p ms k order ts) as (p' & He & Hacc & Ho');
    [done| | |done|done|by rewrite Hsp|done|].
  { rewrite Hp. pose proof min_payload_id. pose proof (order_payload_length o). lia. }
  { intros s. rewrite Hp. by apply deserialize_order_eq. }
  pose proof Hacc as [Hsp' Hok' _ _ _]. pose proof (accepted_same_routes _ _ _ _ _ _ Hacc).
  exists p'. split_and!; [done|done|congruence|congruence|done| |done].
  intros Hr t Hin. apply Hr. by apply (spec_match_ids clock _ _ _ _ _ _ Hok Hv' Hsp).
Qed.

(** C34: an order that fails validation changes neither the book nor the routing
    table, and the sender gets exactly one REJECT frame with the id read from
    the payload and the reason the constructor gave. *)
Theorem process_invalid_order i p ms k w :
  in_type i = NEW_ORDER → (min_payload <= length (in_payload i))%nat →
  (∀ s : Proc Q, deserialize_order (clock (pr_reads p)) (mkMessage NEW_ORDER (in_payload i)) s =
     Throw s (invalid_argument w)) →
  shared_ok (pr_outbox p) ms (S k) →
  ∃ p', process host clock i p = Ok p' tt ∧ pr_book p' = pr_book p ∧ pr_fds p' = pr_fds p ∧
    shared_ok (pr_outbox p')
      (ms ++ [rejection_response (in_fd i) (load host (take 8 (in_payload i))) w]) k.
Proof.
  intros Ht Hlen Hdes Ho. pose proof min_payload_id.
  destruct (process_rejects z host clock Hcap i p ms k (invalid_argument w))
    as (p' & He & Hb & Hf & _ & Ho'); [done|lia|done..|]. by exists p'.
Qed.

(** A cancel request for a resting id removes that order and nothing else,
    forgets its connection, keeps the invariant of the processor and answers
    the sender with one CANCEL_ACK frame. *)
Lemma process_cancel_resting i p ms k id :
  in_type i = CANCEL_ORDER → in_payload i = id_payload id → is_u64 id →
  proc_inv p → spec_resting id (abs (pr_book p)) → shared_ok (pr_outbox p) ms (S k) →
  ∃ p', process host clock i p = Ok p' tt ∧ abs (pr_book p') = spec_cancel id (abs (pr_book p)) ∧
    proc_inv p' ∧ pr_fds p' = delete id (pr_fds p) ∧
    shared_ok (pr_outbox p') (ms ++ [mkOutbound (in_fd i) (frame CANCEL_ACK (id_payload id))]) k.
Proof.
  intros Ht Hp Hid ([Hok Hun] & Hix & Hr) Hrest Ho.
  destruct (proj2 (indexed_lookup id _ Hok Hix) Hrest) as [loc Hl].
  destruct (process_cancels z host clock Hcap i p ms k id loc) as (n & p' & He & Hn & <- & Hrm & Hok' & _ & Hfds & _ & Ho');
    [done| | |done..|].
  { rewrite Hp. apply id_payload_length. }
  { intros s. rewrite Hp. by apply deserialize_cancel_eq. }
  exists p'. split; [done|]. split; [by apply removed_abs|]. split; [|done].
  split; [split; [done|exact (removed_uncrossed _ _ _ Hrm Hun)]|].
  split; [exact (removed_indexed _ _ _ Hok Hix Hn Hrm)|].
  exact (cancelled_routed _ _ _ Hok Hix Hn Hrm Hfds Hr).
Qed.

(** C35: the acknowledgement of a cancel is encoded before the order is looked
    up and is not taken back: for an id that is not in the book the sender
    gets one message with a CANCEL_ACK frame and a REJECT frame for the same
    request. *)
Theorem process_cancel_unknown_acks i p ms k id :
  in_type i = CANCEL_ORDER → in_payload i = id_payload id → is_u64 id →
  order_map_ (pr_book p) !! id = None → shared_ok (pr_outbox p) ms (S k) →
  ∃ p' raw_id, process host clock i p = Ok p' tt ∧ pr_book p' = pr_book p ∧
    shared_ok (pr_outbox p') (ms ++ [mkOutbound (in_fd i)
      (frame CANCEL_ACK (id_payload id) ++
       frame REJECT (rejection_payload (mkRejection raw_id "order id not found in the book")))]) k.
Proof.
  intros Ht Hp Hid Hnone Ho.
  destruct (process_cancel_unknown z host clock Hcap i p ms k id) as (p' & He & Hb & _ & _ & Ho'); [done| | |done..|].
  { rewrite Hp. apply id_payload_length. }
  { intros s. rewrite Hp. by apply deserialize_cancel_eq. }
  by eexists p', _.
Qed.

(** The side byte of an order is not validated.  An order whose side is
    neither BID nor ASK is acknowledged although it trades with nothing and is
    never added to the book. *)
Lemma process_unnamed_side_acknowledged i p ms k o b :
  in_type i = NEW_ORDER → in_payload i = order_payload o → order_valid o →
  side_ o = Side_unnamed b → book_ok (pr_book p) → shared_ok (pr_outbox p) ms (S k) →
  ∃ p', process host clock i p = Ok p' tt ∧ abs (pr_book p') = abs (pr_book p) ∧
    shared_ok (pr_outbox p')
      (ms ++ [mkOutbound (in_fd i) (frame ORDER_ACK (id_payload (id_ o)))]) k.
Proof.
  intros Ht Hp Hv Hs Hok Ho. set (order := restamp (clock (pr_reads p)) o).
  assert (spec_match clock order (S (pr_reads p)) (abs (pr_book p)) =
    (abs (pr_book p), [], S (pr_reads p))) as Hsp.
  { unfold spec_match, order, restamp. cbn [side_]. by rewrite Hs. }
  destruct (process_accepts z host clock Hcap i p ms k order []) as (p' & He & [Hsp' _ _ _ _] & Ho');
    [done| | |done|by apply restamp_valid|by rewrite Hsp|done|].
  { rewrite Hp. pose proof min_payload_id. pose proof (order_payload_length o). lia. }
  { intros s. rewrite Hp. by apply deserialize_order_eq. }
  exists p'. split_and!; [done|congruence|exact Ho'].
Qed.

(** The length of a payload is not checked before the id is copied out of
    it: a NEW_ORDER or CANCEL_ORDER message with fewer than 8 bytes makes the
    processor read past the end of the vector. *)
Lemma process_short_payload_undefined i p :
  in_type i = NEW_ORDER ∨ in_type i = CANCEL_ORDER → (length (in_payload i) < 8)%nat →
  process host clock i p = UB.
Proof.
  intros Ht Hlen. unfold process.
  rewrite (bind_Ok _ _ _ _ _ (on_buffer_Ok (put []) p [] eq_refl)).
  destruct Ht as [-> | ->]; unfold new_order, cancel, bind; by rewrite read_uint_short.
Qed.

(** C21: with distinct resting ids the routing table stays complete.  A request
    whose payload is long enough and whose new id is not resting is processed to
    the end when its pushes get through, and afterwards the book is well-formed, uncrossed and
    fully indexed and every resting order still has a connection. *)
Theorem process_keeps_invariant i p ms k : request_ok z i → fresh_id z clock i p → proc_inv p →
  shared_ok (pr_outbox p) ms (book_size (pr_book p) + 2 + k) →
  ∃ p', process host clock i p = Ok p' tt ∧ proc_inv p'.
Proof.
  intros Hreq Hfresh ([Hok Hun] & Hix & Hr) Ho.
  destruct (process_total z host clock Hcap (λ _, True) i p ms k Hreq (conj Hok Hun)) as (p' & _ & _ & He & Hinv & _);
    [done..|].
  exists p'. split; [done|]. split; [done|]. pose proof min_payload_id.
  assert (∀ j, (j <= book_size (pr_book p) + 2)%nat → shared_ok (pr_outbox p) ms j) as Hj.
  { intros j Hj. eapply shared_ok_le; [exact Ho|lia]. }
  destruct Hreq as [Hwf [[Ht Hlen]|[Ht Hlen]]].
  - destruct (deserialize_order_total (clock (pr_reads p)) NEW_ORDER (in_payload i) Hwf Hlen)
      as [(order & Hv & Hdes)|(w & Hdes)].
    + destruct (spec_match clock order (S (pr_reads p)) (abs (pr_book p))) as [[sb ts] n] eqn:Hsp.
      pose proof (spec_match_size clock _ _ _ _ _ _ Hok Hv Hsp).
      destruct (process_accepts z host clock Hcap i p ms 0 order ts) as (p2 & He2 & Hacc & _);
        [done|lia|done|done|done|by rewrite Hsp|apply Hj; lia|].
      assert (p2 = p') as -> by congruence. split; [|exact (accepted_routed clock _ _ _ _ _ Hok Hv Hacc Hr)].
      apply (ac_indexed _ _ _ _ _ _ Hacc Hix). apply (Hfresh Ht). apply Hdes.
    + destruct (process_rejects z host clock Hcap i p ms 0 (invalid_argument w)) as (p2 & He2 & Hb & Hf & _);
        [done|lia|done|apply Hj; lia|].
      assert (p2 = p') as -> by congruence. unfold routed. by rewrite Hb, Hf.
  - destruct (deserialize_cancel_total CANCEL_ORDER (in_payload i) Hwf Hlen) as (id & Hdes & _).
    destruct (order_map_ (pr_book p) !! id) as [loc|] eqn:Hl.
    + destruct (process_cancels z host clock Hcap i p ms 0 id loc) as (n & p2 & He2 & Hn & <- & Hrm & _ & _ & Hf & _);
        [done..|apply Hj; lia|].
      assert (p2 = p') as -> by congruence.
      split; [exact (removed_indexed _ _ _ Hok Hix Hn Hrm)|].
      exact (cancelled_routed _ _ _ Hok Hix Hn Hrm Hf Hr).
    + destruct (process_cancel_unknown z host clock Hcap i p ms 0 id) as (p2 & He2 & Hb & Hf & _); [done..|apply Hj; lia|].
      assert (p2 = p') as -> by congruence. unfold routed. by rewrite Hb, Hf.
Qed.
End process.

(** ** Independence of the queue and of the schedule *)

Section independent.
Context (z : Serializer) `{!SerializerLaws z} (host : endian) (clock : nat → Z).

(** Everything but the outbound queue and the local buffer. *)
Definition core {Q} (p : Proc Q) : OrderBook * nat * gmap Z Z := (pr_book p, pr_reads p, pr_fds p).

(** What a request does to the core and which messages it pushes can be said
    before the outbound queue is known. *)
Definition core_step i (c c' : OrderBook * nat * gmap Z Z) (new : list OutboundMessage) : Prop :=
  ∀ Q `(BoundedQueueLaws Q OutboundMessage) (p : Proc Q) ms, (0 < q_capacity (Q := Q))%nat →
    core p = c → shared_ok (pr_outbox p) ms (book_size c.1.1 + 2) →
    ∃ p', process host clock i p = Ok p' tt ∧ core p' = c' ∧ shared_rep (pr_outbox p') (ms ++ new).

Lemma core_step_order i b n fds : in_type i = NEW_ORDER → bytes_wf (in_payload i) →
  (min_payload <= length (in_payload i))%nat → book_inv b →
  ∃ c' new, core_step i (b, n, fds) c' new.
Proof.
  intros Ht Hwf Hlen [Hok _]. pose proof min_payload_id.
  destruct (deserialize_order_total (clock n) NEW_ORDER (in_payload i) Hwf Hlen)
    as [(order & Hv & Hdes)|(w & Hdes)].
  - destruct (spec_match clock order (S n) (abs b)) as [[sb ts] n'] eqn:Hsp.
    pose proof (spec_match_size clock _ _ _ _ _ _ Hok Hv Hsp).
    pose proof (match_spec_match clock order (mkEngine b [] (S n)) Hok Hv) as Hm.
    cbn [eng_book eng_trades eng_reads] in Hm. rewrite Hsp in Hm. destruct Hm as (b' & Hm & _).
    eexists (b', n', touch_makers (side_ order) ts (<[id_ order := in_fd i]> fds)),
      (accepted_messages z i order fds ts).
    intros Q ?? p ms Hcap [= <- <- <-] Ho.
    destruct (process_accepts z host clock Hcap i p ms 0 order ts) as (p' & He & A & R%shared_ok_rep);
      [done|lia|done|done|done|by rewrite Hsp|eapply shared_ok_le; [exact Ho|cbn; lia]|].
    exists p'. split; [done|]. split; [|exact R]. pose proof (ac_match _ _ _ _ _ _ A) as M1. rewrite Hm in M1.
    unfold core. rewrite (ac_routes _ _ _ _ _ _ A). congruence.
  - eexists (b, S n, fds), _. intros Q ?? p ms Hcap [= <- <- <-] Ho.
    destruct (process_rejects z host clock Hcap i p ms 0 (invalid_argument w)) as (p' & He & B & F & N & R%shared_ok_rep);
      [done|lia|done|eapply shared_ok_le; [exact Ho|lia]|].
    exists p'. split; [done|]. split; [|exact R]. unfold core. congruence.
Qed.

Lemma core_step_cancel i b n fds : in_type i = CANCEL_ORDER → bytes_wf (in_payload i) →
  (8 <= length (in_payload i))%nat → book_inv b →
  ∃ c' new, core_step i (b, n, fds) c' new.
Proof.
  intros Ht Hwf Hlen [Hok _].
  destruct (deserialize_cancel_total CANCEL_ORDER (in_payload i) Hwf Hlen) as (id & Hdes & _).
  destruct (order_map_ b !! id) as [loc|] eqn:Hl.
  - destruct (cancel_order_removed id loc _ Hok Hl) as (_ & b' & Hc & _).
    eexists (b', n, delete id fds), _. intros Q ?? p ms Hcap [= <- <- <-] Ho.
    destruct (process_cancels z host clock Hcap i p ms 0 id loc)
      as (_ & p' & He & _ & _ & _ & _ & C & F & N & R%shared_ok_rep); [done..|eapply shared_ok_le; [exact Ho|lia]|].
    exists p'. split; [done|]. split; [|exact R]. unfold core. congruence.
  - eexists (b, n, fds), _. intros Q ?? p ms Hcap [= <- <- <-] Ho.
    destruct (process_cancel_unknown z host clock Hcap i p ms 0 id) as (p' & He & B & F & N & R%shared_ok_rep);
      [done..|eapply shared_ok_le; [exact Ho|lia]|].
    exists p'. split; [done|]. split; [|exact R]. unfold core. congruence.
Qed.

(** C22: what a request does is independent of the outbound queue: two processors
    that differ only in the implementation, the content and the schedule of
    their outbound queue, and whose pushes get through, end with the same book, routing table and readings of
    the clock, and push the same messages in the same order. *)
Theorem process_queue_independent {Q1 Q2} `{BoundedQueueLaws Q1 OutboundMessage}
    `{BoundedQueueLaws Q2 OutboundMessage} i (p1 : Proc Q1) (p2 : Proc Q2) ms1 ms2 :
  (0 < q_capacity (Q := Q1))%nat → (0 < q_capacity (Q := Q2))%nat →
  request_ok z i → book_inv (pr_book p1) → core p1 = core p2 →
  shared_ok (pr_outbox p1) ms1 (book_size (pr_book p1) + 2) →
  shared_ok (pr_outbox p2) ms2 (book_size (pr_book p1) + 2) →
  ∃ p1' p2' new, process host clock i p1 = Ok p1' tt ∧ process host clock i p2 = Ok p2' tt ∧
    core p1' = core p2' ∧ shared_rep (pr_outbox p1') (ms1 ++ new) ∧
    shared_rep (pr_outbox p2') (ms2 ++ new).
Proof.
  intros Hc1 Hc2 [Hwf Hreq] Hinv Hcore Ho1 Ho2.
  assert (∃ c' new, core_step i (core p1) c' new) as (c' & new & Hstep).
  { destruct Hreq as [[? ?]|[? ?]]; [by apply core_step_order|by apply core_step_cancel]. }
  destruct (Hstep Q1 _ _ p1 ms1 Hc1 eq_refl Ho1) as (p1' & He1 & C1 & R1).
  destruct (Hstep Q2 _ _ p2 ms2 Hc2 (eq_sym Hcore) Ho2) as (p2' & He2 & C2 & R2).
  exists p1', p2', new. split; [done|]. split; [done|]. split; [congruence|done].
Qed.
End independent.

(** ** The thread *)

Section run.
Context {Q : Type} `{!BoundedQueue Q OutboundMessage, !BoundedQueueLaws Q OutboundMessage}.
Context {Qin : Type} `{!BoundedQueue Qin InboundMessage, !BoundedQueueLaws Qin InboundMessage}.
Context (z : Serializer) `{!SerializerLaws z} (host : endian) (clock : nat → Z).
Hypothesis Hcap : (0 < q_capacity (Q := Q))%nat.
Implicit Types (p : Proc Q) (q : Qin).

Lemma run_iteration_pop q i l p : q_rep q (i :: l) →
  ∃ q', q_rep q' l ∧ run_iteration host clock (q, p) =
    zoom snd (λ p' s, (s.1, p')) (process host clock i) (q', p).
Proof.
  intros Hq. destruct (q_pop_first _ _ _ Hq) as (q' & Hp & Hq'). exists q'. split; [done|].
  unfold run_iteration, bind, zoom at 1. cbn [fst snd]. by rewrite Hp.
Qed.

(** C11: the processing thread answers every request.  When the inbound queue
    holds well-formed requests and the I/O thread takes something off the
    outbound queue often enough (two times per request plus once per resting
    order is enough, however full the queue is), or the queue has room for as
    many messages, that many iterations of the loop process them all, first come
    first served: the book stays well-formed and uncrossed, and the senders are
    answered in the order of their requests. *)
Theorem run_answers_all l rest q p ms : q_rep q (l ++ rest) → Forall (request_ok z) l →
  book_inv (pr_book p) → shared_ok (pr_outbox p) ms (book_size (pr_book p) + 2 * length l) →
  ∃ q' p' new, run host clock (length l) (q, p) = Ok (q', p') tt ∧ q_rep q' rest ∧
    book_inv (pr_book p') ∧ shared_ok (pr_outbox p') (ms ++ new) (book_size (pr_book p')) ∧
    (in_fd <$> l) `sublist_of` (out_fd <$> new).
Proof.
  revert q p ms. induction l as [|i l IH]; intros q p ms Hq Hreq Hinv Ho.
  { exists q, p, []. rewrite app_nil_r. cbn [length] in Ho. rewrite Nat.add_0_r in Ho. done. }
  apply Forall_cons in Hreq as [Hi Hreq].
  destruct (run_iteration_pop q i _ p Hq) as (q1 & Hq1 & Hit).
  replace (book_size (pr_book p) + 2 * length (i :: l))%nat
    with (book_size (pr_book p) + 2 + 2 * length l)%nat in Ho by (cbn [length]; lia).
  destruct (process_total z host clock Hcap (λ _, True) i p ms (2 * length l) Hi Hinv)
    as (p1 & reports & resp & Hproc & Hinv1 & _ & _ & Ho1); [done..|].
  destruct (IH q1 p1 _ Hq1 Hreq Hinv1 Ho1) as (q' & p' & new & Hrun & Hq' & Hinv' & Ho' & Hsub).
  exists q', p', ((reports ++ [mkOutbound (in_fd i) resp]) ++ new).
  split_and!; [|done|apply Hinv'..|by rewrite app_assoc|].
  - cbn [length run]. unfold bind. rewrite Hit. unfold zoom. cbn [fst snd]. by rewrite Hproc.
  - rewrite !fmap_app. cbn [fmap list_fmap out_fd]. rewrite <- app_assoc. cbn [app].
    apply sublist_inserts_l. by apply sublist_skip.
Qed.

(** C7: the processing thread refines the sequential exchange.  When the outbound
    queue has room for the responses, or the I/O thread takes something once per
    response, whenever that happens, the loop answers the requests of the inbound
    queue with exactly the messages the specification gives, in that order, and
    ends in the state the specification ends in. *)
Theorem run_refines_exchange l rest q p st st' new ms k : q_rep q (l ++ rest) →
  Forall (request_ok z) l → refines p st → answers z host clock l st = Some (st', new) →
  shared_ok (pr_outbox p) ms (length new + k) →
  ∃ q' p', run host clock (length l) (q, p) = Ok (q', p') tt ∧ q_rep q' rest ∧
    refines p' st' ∧ shared_ok (pr_outbox p') (ms ++ new) k.
Proof.
  revert q p st new ms. induction l as [|i l IH]; intros q p st new ms Hq Hreq Hrf Hans Ho; cbn in Hans.
  { injection Hans as <- <-. exists q, p. by rewrite app_nil_r. }
  destruct (answer z host clock i st) as [[st1 n1]|] eqn:H1; [|done]. cbn in Hans.
  destruct (answers z host clock l st1) as [[st2 n2]|] eqn:H2; [|done]. injection Hans as <- <-.
  apply Forall_cons in Hreq as [Hi Hreq]. rewrite length_app, <- Nat.add_assoc in Ho.
  destruct (run_iteration_pop q i _ p Hq) as (q1 & Hq1 & Hit).
  destruct (process_refines z host clock Hcap i p st st1 n1 ms _ Hi Hrf H1 Ho) as (p1 & Hproc & Hrf1 & Ho1).
  destruct (IH q1 p1 st1 n2 _ Hq1 Hreq Hrf1 H2 Ho1) as (q' & p' & Hrun & Hq' & Hrf' & Ho').
  exists q', p'. rewrite <- app_assoc in Ho'. split; [|done].
  cbn [length run]. unfold bind. rewrite Hit. unfold zoom. cbn [fst snd]. by rewrite Hproc.
Qed.

(** C39: a message of any other type ends the thread.  The exception [process]
    throws for it is not caught in [run]: whatever is queued behind it is never
    processed. *)
Theorem run_unknown_type_terminates n i l q p : q_rep q (i :: l) →
  in_type i ≠ NEW_ORDER → in_type i ≠ CANCEL_ORDER →
  ∃ q' p', run host clock (S n) (q, p) = Throw (q', p') (runtime_error "unknown message type") ∧
    q_rep q' l.
Proof.
  intros Hq Hn Hc. destruct (run_iteration_pop q i l p Hq) as (q1 & Hq1 & Hit).
  exists q1, (mkProc (pr_book p) (pr_reads p) (pr_fds p) [] (pr_outbox p)). split; [|done].
  cbn [run]. unfold bind at 1. rewrite Hit. unfold zoom. cbn [fst snd]. unfold process.
  rewrite (bind_Ok _ _ _ _ _ (on_buffer_Ok (put []) p [] eq_refl)).
  by destruct (in_type i).
Qed.
End run.
