(* ===== verification/Sockets.v ===== *)
(** * The socket interface the server uses

    The operating system is not part of the program: its calls are the
    operations of a class over an abstract state, and a second class states the
    documented behaviour the server relies on.  Nothing is said about how a
    stream is cut into pieces or when a call would block, fails or reports the
    end of a connection.  The program calls [send] without [MSG_NOSIGNAL] and
    does not touch the disposition of [SIGPIPE], so that a [send] to a peer that
    is gone either reports the failure or ends the process. *)

From S2P Require Import Prelude Outcome Bytes.

(** Results of the non-blocking calls; [WouldBlock] is -1 with [EAGAIN] or
    [EWOULDBLOCK] and [Failed] is -1 with another [errno]. *)
Inductive recv_result := Received (bytes : list Z) | Closed | RecvWouldBlock | RecvFailed.
Inductive send_result := Sent (n : nat) | SendWouldBlock | SendFailed.
Inductive accept_result := Accepted (fd : Z) | AcceptWouldBlock | AcceptFailed.
Inductive sockopt := SO_REUSEADDR | TCP_NODELAY.

(** A ready event: descriptor, [EPOLLIN], [EPOLLOUT]. *)
Record epoll_event := mkEvent { ev_fd : Z; ev_in : bool; ev_out : bool }.

Class Sockets (W : Type) := {
  sys_socket : M W (option Z);
  sys_setsockopt : Z → sockopt → M W unit;
  sys_bind : Z → Z → M W bool;
  sys_listen : Z → Z → M W bool;
  sys_set_nonblocking : Z → M W bool;
  sys_accept : Z → M W accept_result;
  sys_connect : Z → string → Z → M W bool;
  sys_recv : Z → Z → M W recv_result;
  sys_send : Z → list Z → M W send_result;
  sys_close : Z → M W unit;
  sys_epoll_create : M W (option Z);
  sys_epoll_add : Z → Z → M W bool;
  sys_epoll_mod : Z → Z → bool → M W unit;
  sys_epoll_del : Z → Z → M W unit;
  sys_epoll_wait : Z → Z → M W (list epoll_event);
}.

(** What can be said of a connection in a state of the system: the bytes its
    peer sends that are not read yet, the bytes sent, whether writable events
    are registered, whether the last [recv] returned less than was asked for,
    whether the last [send] or [accept] would have blocked, whether the last
    attempt to change its registration failed, and whether a call has reported
    the end or the failure of the connection.  Of an epoll instance, the
    descriptors it watches; of a listening socket, the connections that will be
    accepted, each with its descriptor and the bytes its peer will send. *)
Class SocketView (W : Type) := {
  rx : W → Z → list Z;
  tx : W → Z → list Z;
  epoll_out : W → Z → bool;
  short_read : W → Z → bool;
  blocked : W → Z → bool;
  epoll_failed : W → Z → bool;
  dead : W → Z → bool;
  watched : W → Z → gset Z;
  backlog : W → Z → list (Z * list Z);
}.

Section views.
Context {W : Type} `{!SocketView W}.
Implicit Types w : W.

(** Connection [fd] is in the same condition in both states. *)
Definition same_view (fd : Z) w w' : Prop :=
  rx w' fd = rx w fd ∧ tx w' fd = tx w fd ∧ epoll_out w' fd = epoll_out w fd ∧
  short_read w' fd = short_read w fd ∧ blocked w' fd = blocked w fd ∧
  epoll_failed w' fd = epoll_failed w fd.

(** Reports are not taken back, nothing new is watched and no connection is
    accepted. *)
Definition kept w w' : Prop :=
  (∀ fd, dead w fd = true → dead w' fd = true) ∧
  (∀ ep, watched w' ep ⊆ watched w ep) ∧
  (∀ sfd, backlog w' sfd = backlog w sfd).

(** A call on [fd] says nothing about other connections. *)
Definition others (fd : Z) w w' : Prop := (∀ fd', fd' ≠ fd → same_view fd' w w') ∧ kept w w'.

(** A call that says nothing about any connection. *)
Definition quiet w w' : Prop := ∀ fd, others fd w w'.

(** A call that may concern the watched descriptors but no connection. *)
Definition calm w w' : Prop :=
  (∀ fd, same_view fd w w') ∧ (∀ sfd, backlog w' sfd = backlog w sfd).

#[export] Instance same_view_preorder fd : PreOrder (same_view fd).
Proof. split; [intros w; by split_and!|]. intros w1 w2 w3 H1 H2. unfold same_view in *. naive_solver congruence. Qed.

#[export] Instance kept_preorder : PreOrder kept.
Proof.
  split; [intros w; by split_and!|]. intros w1 w2 w3 (D1 & W1 & B1) (D2 & W2 & B2). split_and!.
  - intros fd Hd. by apply D2, D1.
  - intros ep. by transitivity (watched w2 ep).
  - intros sfd. by rewrite B2.
Qed.

#[export] Instance others_preorder fd : PreOrder (others fd).
Proof.
  split; [by split|]. intros w1 w2 w3 [H1 K1] [H2 K2]. split; [|by transitivity w2].
  intros fd' Hne. by etrans; [apply H1|apply H2].
Qed.

#[export] Instance quiet_preorder : PreOrder quiet.
Proof. split; [by intros w fd|]. intros w1 w2 w3 H1 H2 fd. by etrans; [apply H1|apply H2]. Qed.

#[export] Instance calm_preorder : PreOrder calm.
Proof.
  split; [by split|]. intros w1 w2 w3 [V1 B1] [V2 B2]. split; [|intros sfd; by rewrite B2].
  intros fd. by transitivity w2.
Qed.

(** [SIGPIPE]: the process was ended by a [send] on [fd], whose peer is gone. *)
Definition broken_pipe {S A} (system : S → W) (fd : Z) (o : outcome S A) : Prop :=
  ∃ s, o = Killed s ∧ dead (system s) fd = true.

Lemma broken_pipe_bind {S A B} (system : S → W) fd (m : M S A) (k : A → M S B) s :
  broken_pipe system fd (m s) → broken_pipe system fd (bind m k s).
Proof. intros (s' & He & Hd). exists s'. by rewrite (bind_Killed _ _ _ _ He). Qed.

Lemma quiet_view w w' fd : quiet w w' → same_view fd w w'.
Proof. intros H. destruct (H (fd + 1)) as [Hv _]. apply Hv. lia. Qed.

Lemma quiet_calm w w' : quiet w w' → calm w w'.
Proof. intros H. split; [intros fd; by apply quiet_view|apply (H 0)]. Qed.
End views.

Class SocketLaws (W : Type) `{!Sockets W, !SocketView W} := {
  (** [recv] of at least one byte takes a non-empty prefix of the stream. *)
  recv_spec fd len w : 0 < len →
    ∃ w' r, sys_recv fd len w = Ok w' r ∧ others fd w w' ∧
      tx w' fd = tx w fd ∧ epoll_out w' fd = epoll_out w fd ∧ blocked w' fd = blocked w fd ∧
      match r with
      | Received l => l ≠ [] ∧ Z.of_nat (length l) <= len ∧ rx w fd = l ++ rx w' fd ∧
          short_read w' fd = bool_decide (Z.of_nat (length l) < len)
      | RecvWouldBlock => rx w' fd = rx w fd ∧ short_read w' fd = true
      | Closed | RecvFailed => rx w' fd = rx w fd ∧ dead w' fd = true
      end;
  (** [send] takes a prefix of what it is given, at least one byte of a
      non-empty buffer; or the peer is gone and the signal ends the process. *)
  send_spec fd data w :
    (∃ w' r, sys_send fd data w = Ok w' r ∧ others fd w w' ∧
      rx w' fd = rx w fd ∧ epoll_out w' fd = epoll_out w fd ∧ short_read w' fd = short_read w fd ∧
      match r with
      | Sent n => (n <= length data)%nat ∧ (data ≠ [] → n ≠ 0%nat) ∧
          tx w' fd = tx w fd ++ take n data
      | SendWouldBlock => tx w' fd = tx w fd ∧ blocked w' fd = true
      | SendFailed => tx w' fd = tx w fd ∧ dead w' fd = true
      end) ∨
    broken_pipe id fd (sys_send fd data w);
  (** [EPOLL_CTL_MOD] sets the registration, or fails and leaves it. *)
  epoll_mod_spec ep fd b w :
    ∃ w', sys_epoll_mod ep fd b w = Ok w' tt ∧ others fd w w' ∧
      rx w' fd = rx w fd ∧ tx w' fd = tx w fd ∧ short_read w' fd = short_read w fd ∧
      blocked w' fd = blocked w fd ∧
      (epoll_out w' fd = b ∨ epoll_out w' fd = epoll_out w fd ∧ epoll_failed w' fd = true);
  epoll_del_spec ep fd w : ∃ w', sys_epoll_del ep fd w = Ok w' tt ∧ others fd w w';
  close_spec fd w : ∃ w', sys_close fd w = Ok w' tt ∧ others fd w w';
  (** [accept] takes the next connection, which starts afresh; descriptors are
      below [INT_MAX]. *)
  accept_spec sfd w :
    ∃ w' r, sys_accept sfd w = Ok w' r ∧
      match r with
      | Accepted fd => ∃ data, backlog w sfd = (fd, data) :: backlog w' sfd ∧ 0 <= fd < 2 ^ 31 - 1 ∧
          rx w' fd = data ∧ tx w' fd = [] ∧ epoll_out w' fd = false ∧ dead w' fd = false ∧
          (∀ fd', fd' ≠ fd → same_view fd' w w') ∧ (∀ ep, watched w' ep ⊆ watched w ep)
      | AcceptWouldBlock => others sfd w w' ∧ rx w' sfd = rx w sfd ∧ tx w' sfd = tx w sfd ∧
          blocked w' sfd = true
      | AcceptFailed => quiet w w'
      end;
  set_nonblocking_spec fd w : ∃ w' ok, sys_set_nonblocking fd w = Ok w' ok ∧ quiet w w';
  setsockopt_spec fd opt w : ∃ w', sys_setsockopt fd opt w = Ok w' tt ∧ quiet w w';
  (** A new descriptor is watched from now on. *)
  epoll_add_spec ep fd w : ∃ w' ok, sys_epoll_add ep fd w = Ok w' ok ∧ calm w w' ∧
    watched w' ep ⊆ {[fd]} ∪ watched w ep;
  socket_spec w : ∃ w' r, sys_socket w = Ok w' r ∧ quiet w w';
  bind_spec fd port w : ∃ w' ok, sys_bind fd port w = Ok w' ok ∧ quiet w w';
  listen_spec fd n w : ∃ w' ok, sys_listen fd n w = Ok w' ok ∧ quiet w w';
  (** A new epoll instance watches nothing. *)
  epoll_create_spec w : ∃ w' r, sys_epoll_create w = Ok w' r ∧ calm w w' ∧
    ∀ ep, r = Some ep → watched w' ep = ∅;
  (** Events are reported for watched descriptors only. *)
  epoll_wait_spec ep n w : ∃ w' es, sys_epoll_wait ep n w = Ok w' es ∧ quiet w w' ∧
    Forall (λ e, ev_fd e ∈ watched w ep) es;
}.
