(* ===== verification/ExchangeServer.v ===== *)
(** * The I/O thread: [include/client_state.hpp], [src/exchange_server.cpp]

    One [ClientState] per descriptor, a read state machine that cuts the byte
    stream of each client into messages for the inbound queue, and a write
    buffer per client that is filled from the outbound queue and sent as far as
    the socket takes it.  Written against the [Sockets] and [BoundedQueue]
    interfaces; the processor thread pops the inbound queue meanwhile, as the
    schedule of [SharedQueue] says. *)

From S2P Require Import Prelude Outcome Order Bytes Serializer RingBuffer SharedQueue Sockets.

(** ** [struct ClientState] *)

Inductive ReadPhase := HEADER | PAYLOAD.

#[export] Instance ReadPhase_eq_dec : EqDecision ReadPhase.
Proof. solve_decision. Defined.

Record ClientState := mkClient {
  read_phase : ReadPhase;
  message_type : MessageType;
  header_buffer : list Z;
  read_buffer : list Z;
  write_buffer : list Z;
  payload_length : Z;
  bytes_read : Z;
  bytes_sent : Z;
  send_size : Z;
  active : bool;
}.

(** [ClientState{}]: members without an initializer are zero. *)
Definition fresh_client : ClientState :=
  mkClient HEADER (MessageType_of_byte 0) (replicate 5 0) [] [] 0 0 0 0 false.

Definition set_active (c : ClientState) : ClientState :=
  mkClient (read_phase c) (message_type c) (header_buffer c) (read_buffer c) (write_buffer c)
    (payload_length c) (bytes_read c) (bytes_sent c) (send_size c) true.

(** The members the read path writes, and those the write path writes. *)
Definition set_read (ph : ReadPhase) (t : MessageType) (hb rb : list Z) (len n : Z)
    (c : ClientState) : ClientState :=
  mkClient ph t hb rb (write_buffer c) len n (bytes_sent c) (send_size c) (active c).
Definition set_write (wb : list Z) (n : Z) (c : ClientState) : ClientState :=
  mkClient (read_phase c) (message_type c) (header_buffer c) (read_buffer c) wb
    (payload_length c) (bytes_read c) n (send_size c) (active c).

(** ** [class ExchangeServer] *)

Record Server (Qin Qout W : Type) := mkServer {
  clients_ : list ClientState;
  pending_writes_ : list Z;
  server_fd_ : Z;
  epoll_fd_ : Z;
  inbound_queue_ : SharedQueue Qin InboundMessage;
  outbound_queue_ : Qout;
  world : W;
}.
Arguments mkServer {Qin Qout W}.
Arguments clients_ {Qin Qout W}.
Arguments pending_writes_ {Qin Qout W}.
Arguments server_fd_ {Qin Qout W}.
Arguments epoll_fd_ {Qin Qout W}.
Arguments inbound_queue_ {Qin Qout W}.
Arguments outbound_queue_ {Qin Qout W}.
Arguments world {Qin Qout W}.

Section server.
Context {Qin Qout W : Type}.
Context `{!BoundedQueue Qin InboundMessage, !BoundedQueue Qout OutboundMessage, !Sockets W}.
Context (host : endian).

Abbreviation MS := (M (Server Qin Qout W)).

Definition set_clients (cs : list ClientState) (s : Server Qin Qout W) : Server Qin Qout W :=
  mkServer cs (pending_writes_ s) (server_fd_ s) (epoll_fd_ s) (inbound_queue_ s)
    (outbound_queue_ s) (world s).
Definition set_pending (l : list Z) (s : Server Qin Qout W) : Server Qin Qout W :=
  mkServer (clients_ s) l (server_fd_ s) (epoll_fd_ s) (inbound_queue_ s) (outbound_queue_ s)
    (world s).

Definition sys {A} (m : M W A) : MS A :=
  zoom world (λ w s, mkServer (clients_ s) (pending_writes_ s) (server_fd_ s) (epoll_fd_ s)
                       (inbound_queue_ s) (outbound_queue_ s) w) m.
Definition on_inbound {A} (m : M (SharedQueue Qin InboundMessage) A) : MS A :=
  zoom inbound_queue_ (λ q s, mkServer (clients_ s) (pending_writes_ s) (server_fd_ s) (epoll_fd_ s)
                                q (outbound_queue_ s) (world s)) m.
Definition on_outbound {A} (m : M Qout A) : MS A :=
  zoom outbound_queue_ (λ q s, mkServer (clients_ s) (pending_writes_ s) (server_fd_ s) (epoll_fd_ s)
                                 (inbound_queue_ s) q (world s)) m.

(** [clients_[fd]], unchecked: outside the vector it is undefined behaviour. *)
Definition in_clients (fd : Z) (cs : list ClientState) : Prop :=
  0 <= fd < Z.of_nat (length cs).
#[export] Instance in_clients_dec fd cs : Decision (in_clients fd cs).
Proof. unfold in_clients. apply _. Defined.

Definition client (fd : Z) : MS ClientState := λ s,
  if decide (in_clients fd (clients_ s)) then
    or_ub (clients_ s !! Z.to_nat fd) s
  else UB.

Definition update_client (fd : Z) (f : ClientState → ClientState) : MS unit :=
  c <- client fd ;; modify (λ s, set_clients (<[Z.to_nat fd := f c]> (clients_ s)) s).

(** ** Connections *)

Definition disconnect_client (fd : Z) : MS unit :=
  ep <- gets epoll_fd_ ;;
  sys (sys_epoll_del ep fd) ;;;
  sys (sys_close fd) ;;;
  update_client fd (λ _, fresh_client).

Definition set_epoll_write (fd : Z) (enable : bool) : MS unit :=
  ep <- gets epoll_fd_ ;; sys (sys_epoll_mod ep fd enable).

Definition check (ok : bool) (what : string) : MS unit :=
  if ok then ret tt else throw (runtime_error what).

(** One turn of the loop of [accept_client]. *)
Definition accept_body : MS ctl :=
  sfd <- gets server_fd_ ;;
  r <- sys (sys_accept sfd) ;;
  match r with
  | AcceptWouldBlock => ret Break
  | AcceptFailed => throw (runtime_error "accept failed")
  | Accepted client_fd =>
      ok <- sys (sys_set_nonblocking client_fd) ;;
      check ok "failed to set socket to non blocking" ;;;
      ep <- gets epoll_fd_ ;;
      ok2 <- sys (sys_epoll_add ep client_fd) ;;
      check ok2 "failed to register client with epoll" ;;;
      sys (sys_setsockopt client_fd TCP_NODELAY) ;;;
      modify (λ s,
        let cs := clients_ s in
        if Z.of_nat (length cs) <=? u64 client_fd then
          let newSize := Z.max (u64 (Z.of_nat (length cs) * 2)) (u64 (client_fd + 1)) in
          set_clients (take (Z.to_nat newSize) cs ++
                       replicate (Z.to_nat newSize - length cs) fresh_client) s
        else s) ;;;
      update_client client_fd (λ _, fresh_client) ;;;
      update_client client_fd set_active ;;;
      ret Next
  end.

Definition accept_client (fuel : nat) : MS unit := while_brk fuel (λ _, true) accept_body.

(** ** Reading *)

(** Store received bytes in a buffer at [bytes_read]. *)
Definition store_at (off : Z) (l buf : list Z) : option (list Z) :=
  match memcpy_out (Z.to_nat off) l buf with Ok b _ => Some b | _ => None end.

(** What both [recv] calls do with a result that carries no data. *)
Definition recv_stopped (fd : Z) (r : recv_result) : MS ctl :=
  match r with
  | RecvWouldBlock => ret Break
  | _ => disconnect_client fd ;;; ret Break
  end.

(** The [ReadPhase::HEADER] block. *)
Definition read_header (fd : Z) : MS ctl :=
  c <- client fd ;;
  r <- sys (sys_recv fd (u64 (5 - bytes_read c))) ;;
  match r with
  | Received l =>
      hb <- or_ub (store_at (bytes_read c) l (header_buffer c)) ;;
      let n := u64 (bytes_read c + Z.of_nat (length l)) in
      update_client fd (set_read (read_phase c) (message_type c) hb (read_buffer c)
                          (payload_length c) n) ;;;
      if n <? 5 then ret Break
      else
        let type := MessageType_of_byte (nth 0 hb 0) in
        raw <- read_uint host 1 4 hb ;;
        let len := ntohl host raw in
        update_client fd
          (set_read (if negb (len =? 0) then PAYLOAD else HEADER) type hb
             (resize (Z.to_nat len) (read_buffer c)) len 0) ;;;
        ret Next
  | r => recv_stopped fd r
  end.

(** The [ReadPhase::PAYLOAD] block: receive the rest of the payload ... *)
Definition fill_payload (fd : Z) (c : ClientState) : MS ctl :=
  if bytes_read c <? payload_length c then
    r <- sys (sys_recv fd (u64 (payload_length c - bytes_read c))) ;;
    match r with
    | Received l =>
        rb <- or_ub (store_at (bytes_read c) l (read_buffer c)) ;;
        let n := u64 (bytes_read c + Z.of_nat (length l)) in
        update_client fd (set_read (read_phase c) (message_type c) (header_buffer c) rb
                            (payload_length c) n) ;;;
        ret (if n <? payload_length c then Break else Next)
    | r => recv_stopped fd r
    end
  else ret Next.

(** ... and push the message; when the queue is full the state is kept. *)
Definition read_payload (fd : Z) : MS ctl :=
  c <- client fd ;;
  more <- fill_payload fd c ;;
  match more with
  | Break => ret Break
  | Next =>
      c' <- client fd ;;
      ok <- on_inbound (push_once (mkInbound fd (message_type c') (read_buffer c'))) ;;
      if (ok : bool) then
        update_client fd (set_read HEADER (message_type c') (header_buffer c') (read_buffer c')
                            (payload_length c') 0) ;;;
        ret Next
      else ret Break
  end.

(** One turn of the loop of [handle_read]; every [return] of the source breaks. *)
Definition read_body (fd : Z) : MS ctl :=
  c <- client fd ;;
  more <- (if decide (read_phase c = HEADER) then read_header fd else ret Next) ;;
  match more with
  | Break => ret Break
  | Next =>
      c' <- client fd ;;
      if decide (read_phase c' = PAYLOAD) then read_payload fd else ret Next
  end.

Definition handle_read (fuel : nat) (fd : Z) : MS unit :=
  c <- client fd ;;
  if negb (active c) then ret tt else while_brk fuel (λ _, true) (read_body fd).

(** ** Writing *)

(** Append a message to its client's buffer, if there is such a client. *)
Definition deliver (message : OutboundMessage) : MS unit :=
  cs <- gets clients_ ;;
  if Z.of_nat (length cs) <=? u64 (out_fd message) then ret tt
  else
    c <- client (out_fd message) ;;
    if negb (active c) then ret tt
    else
      update_client (out_fd message)
        (set_write (write_buffer c ++ out_payload message) (bytes_sent c)) ;;;
      modify (λ s, set_pending (pending_writes_ s ++ [out_fd message]) s).

Fixpoint drain_outbound_queue (fuel : nat) : MS unit :=
  match fuel with
  | O => λ _, Diverge
  | S fuel' =>
      result <- on_outbound q_try_pop ;;
      match result with
      | Some message => deliver message ;;; drain_outbound_queue fuel'
      | None => ret tt
      end
  end.

(** The data a [send] call is given: [write_buffer] from [bytes_sent] on. *)
Definition unsent (c : ClientState) : list Z := drop (Z.to_nat (bytes_sent c)) (write_buffer c).

Definition try_send (fd : Z) : MS unit :=
  c <- client fd ;;
  if negb (active c) then ret tt
  else if bool_decide (write_buffer c = []) then ret tt
  else
    r <- sys (sys_send fd (unsent c)) ;;
    match r with
    | Sent O => disconnect_client fd
    | Sent n =>
        let sent := u64 (bytes_sent c + Z.of_nat n) in
        update_client fd (set_write (write_buffer c) sent) ;;;
        if sent =? Z.of_nat (length (write_buffer c)) then update_client fd (set_write [] 0)
        else set_epoll_write fd true
    | SendWouldBlock => ret tt
    | SendFailed => disconnect_client fd
    end.

Definition handle_write (fd : Z) : MS unit :=
  c <- client fd ;;
  if negb (active c) then ret tt
  else
    r <- sys (sys_send fd (unsent c)) ;;
    match r with
    | Sent O => disconnect_client fd
    | Sent n =>
        let sent := u64 (bytes_sent c + Z.of_nat n) in
        update_client fd (set_write (write_buffer c) sent) ;;;
        if sent <? Z.of_nat (length (write_buffer c)) then ret tt
        else
          update_client fd (set_write [] 0) ;;;
          set_epoll_write fd false
    | SendWouldBlock => ret tt
    | SendFailed => disconnect_client fd
    end.

Definition flush_pending_writes : MS unit :=
  fds <- gets pending_writes_ ;;
  for_each fds try_send ;;;
  modify (set_pending []).

(** ** Set-up and the event loop *)

(** The constructor; the descriptors have no initial value, [sfd0] and [efd0],
    and the port is passed to [start]. *)
Definition ExchangeServer_ctor (sfd0 efd0 : Z) (iq : SharedQueue Qin InboundMessage) (oq : Qout)
    (w : W) : Server Qin Qout W :=
  mkServer [] [] sfd0 efd0 iq oq w.

Definition start (port : Z) : MS unit :=
  r <- sys sys_socket ;;
  let server_fd := default (-1) r in
  modify (λ s, mkServer (clients_ s) (pending_writes_ s) server_fd (epoll_fd_ s)
                 (inbound_queue_ s) (outbound_queue_ s) (world s)) ;;;
  sys (sys_setsockopt server_fd SO_REUSEADDR) ;;;
  check (negb (server_fd =? -1)) "socket creation failed" ;;;
  ok <- sys (sys_bind server_fd port) ;;
  check ok "bind failed" ;;;
  ok <- sys (sys_listen server_fd 5) ;;
  check ok "listen failed" ;;;
  ok <- sys (sys_set_nonblocking server_fd) ;;
  check ok "failed to set socket to non blocking" ;;;
  e <- sys sys_epoll_create ;;
  let epoll_fd := default (-1) e in
  modify (λ s, mkServer (clients_ s) (pending_writes_ s) (server_fd_ s) epoll_fd
                 (inbound_queue_ s) (outbound_queue_ s) (world s)) ;;;
  check (negb (epoll_fd =? -1)) "epoll creation failed" ;;;
  ok <- sys (sys_epoll_add epoll_fd server_fd) ;;
  check ok "failed to register server with epoll" ;;;
  sys (sys_setsockopt server_fd TCP_NODELAY) ;;;
  modify (λ s, set_clients (take 1024 (clients_ s) ++
                            replicate (1024 - length (clients_ s)) fresh_client) s).

Definition dispatch (fuel : nat) (e : epoll_event) : MS unit :=
  sfd <- gets server_fd_ ;;
  if ev_fd e =? sfd then accept_client fuel
  else
    (if ev_in e then handle_read fuel (ev_fd e) else ret tt) ;;;
    (if ev_out e then handle_write (ev_fd e) else ret tt).

(** One turn of the loop of [ExchangeServer::run]. *)
Definition event_loop_turn (fuel : nat) : MS unit :=
  drain_outbound_queue fuel ;;;
  flush_pending_writes ;;;
  ep <- gets epoll_fd_ ;;
  events <- sys (sys_epoll_wait ep 64) ;;
  for_each events (dispatch fuel).
End server.
