(* ===== verification/ServerRead.v ===== *)
(** * The read path of the server

    [handle_read] cuts the byte stream of a client into frames, whatever the
    sizes of the pieces in which the stream arrives. *)

From S2P Require Import Prelude Outcome Order Bytes Serializer RingBuffer SharedQueue Sockets ExchangeServer.

(** ** Vocabulary *)

(** A sequence of frames on the wire, and the messages it stands for: a frame
    without payload is a keep-alive and is ignored. *)
Definition wire_bytes (fs : list (MessageType * list Z)) : list Z :=
  fs ≫= λ '(t, p), frame t p.

Definition messages (fd : Z) (fs : list (MessageType * list Z)) : list InboundMessage :=
  fs ≫= λ '(t, p), match p with [] => [] | _ => [mkInbound fd t p] end.

(** A frame whose type is a value of the enumeration and whose length fits its
    field. *)
Definition frame_wf (f : MessageType * list Z) : Prop :=
  MessageType_of_byte (MessageType_to_byte f.1) = f.1 ∧ is_u32 (Z.of_nat (length f.2)).

(** The bytes of the unfinished frame that a client state holds. *)
Definition partial (c : ClientState) : list Z :=
  match read_phase c with
  | HEADER => take (Z.to_nat (bytes_read c)) (header_buffer c)
  | PAYLOAD => header_buffer c ++ take (Z.to_nat (bytes_read c)) (read_buffer c)
  end.

Definition header_type (hb : list Z) : MessageType := MessageType_of_byte (nth 0 hb 0).
Definition header_length (hb : list Z) : Z := load BigEndian (drop 1 hb).
Arguments header_length : simpl never.
Arguments header_type : simpl never.

Record client_ok (c : ClientState) : Prop := {
  co_header : length (header_buffer c) = 5%nat;
  co_bytes : bytes_wf (header_buffer c);
  co_phase : match read_phase c with
    | HEADER => 0 <= bytes_read c < 5
    | PAYLOAD => message_type c = header_type (header_buffer c) ∧
        payload_length c = header_length (header_buffer c) ∧
        0 < payload_length c ∧ Z.of_nat (length (read_buffer c)) = payload_length c ∧
        0 <= bytes_read c <= payload_length c
    end;
}.

(** The members that only the write path uses. *)
Definition write_state (c : ClientState) : list Z * Z * Z * bool :=
  (write_buffer c, bytes_sent c, send_size c, active c).

(** The members that only the read path uses. *)
Definition read_state (c : ClientState) : ReadPhase * MessageType * list Z * list Z * Z * Z :=
  (read_phase c, message_type c, header_buffer c, read_buffer c, payload_length c, bytes_read c).

(** ** Lemmas *)

(** The read path depends on its own members only. *)
Lemma read_state_partial c c' : read_state c' = read_state c → partial c' = partial c.
Proof. unfold read_state, partial. intros [= Hp _ Hh Hr _ Hb]. by rewrite Hp, Hh, Hr, Hb. Qed.

Lemma read_state_ok c c' : read_state c' = read_state c → client_ok c → client_ok c'.
Proof. unfold read_state. intros [= Hp Ht Hh Hr Hl Hb] []. split; rewrite ?Hp, ?Ht, ?Hh, ?Hr, ?Hl, ?Hb; done. Qed.

Lemma fresh_client_ok : client_ok fresh_client.
Proof. split; cbn; [done|repeat constructor; width|lia]. Qed.

Lemma wire_bytes_app fs gs : wire_bytes (fs ++ gs) = wire_bytes fs ++ wire_bytes gs.
Proof. apply bind_app. Qed.

Lemma messages_app fd fs gs : messages fd (fs ++ gs) = messages fd fs ++ messages fd gs.
Proof. apply bind_app. Qed.

Lemma header_length_range hb : bytes_wf hb → length hb = 5%nat → is_u32 (header_length hb).
Proof.
  intros Hw Hl. unfold header_length, load.
  assert (∀ l, bytes_wf l → 0 <= le_value l < 256 ^ Z.of_nat (length l)) as Hle.
  { induction 1 as [|b l Hb Hl' IH]; cbn [le_value length]; [done|].
    rewrite Nat2Z.inj_succ, Z.pow_succ_r by lia. width. }
  specialize (Hle (rev (drop 1 hb))). rewrite length_rev, length_drop, Hl in Hle.
  apply Hle. by apply Forall_rev, Forall_drop.
Qed.

(** A full header followed by its payload is a frame. *)
Lemma header_frame hb p : bytes_wf hb → length hb = 5%nat →
  Z.of_nat (length p) = header_length hb → hb ++ p = frame (header_type hb) p.
Proof.
  intros Hw Hl Hp. unfold frame. rewrite Hp.
  rewrite u32_id by by apply header_length_range.
  destruct hb as [|b hb]; [done|]. apply Forall_cons in Hw as [Hb Hw].
  unfold header_type, header_length. cbn [nth drop app].
  rewrite MessageType_byte by done. injection Hl as Hl. rewrite <- Hl. by rewrite store_load.
Qed.

Lemma cons_inj {A} (x y : A) l k : x :: l = y :: k → x = y ∧ l = k.
Proof. naive_solver. Qed.

Lemma header_type_wf hb : bytes_wf hb → length hb = 5%nat →
  MessageType_of_byte (MessageType_to_byte (header_type hb)) = header_type hb.
Proof.
  intros Hw Hl. destruct hb as [|b hb]; [done|]. apply Forall_cons in Hw as [Hb _].
  unfold header_type. cbn [nth]. by rewrite MessageType_byte.
Qed.

(** The length field and the type byte say where a frame ends: no frame is the
    beginning of another one. *)
Lemma frame_app_inj t p t' p' x y : frame_wf (t, p) → frame_wf (t', p') →
  frame t p ++ x = frame t' p' ++ y → t = t' ∧ p = p' ∧ x = y.
Proof.
  intros [Ht Hp] [Ht' Hp'] Heq. cbn in Ht, Ht', Hp, Hp'. unfold frame in Heq.
  rewrite <- !app_comm_cons, <- !app_assoc in Heq. apply cons_inj in Heq as [Hb Heq].
  apply app_inj_1 in Heq as [Hlen Heq]; [|by rewrite !length_store].
  apply (f_equal (load BigEndian)) in Hlen. rewrite !load_store_u32, !u32_id in Hlen by auto with width.
  split; [congruence|]. apply app_inj_1 in Heq; [done|lia].
Qed.

(** Hence a stream determines its frames. *)
Lemma wire_bytes_prefix fs gs : Forall frame_wf fs → Forall frame_wf gs →
  wire_bytes fs `prefix_of` wire_bytes gs → fs `prefix_of` gs.
Proof.
  intros Hfs. revert gs. induction Hfs as [|[t p] fs Hf Hfs IH]; intros gs Hgs Hpre; [apply prefix_nil|].
  change (wire_bytes ((t, p) :: fs)) with (frame t p ++ wire_bytes fs) in Hpre.
  destruct Hgs as [|[t' p'] gs Hg Hgs]; [destruct Hpre as [k Hk]; discriminate Hk|].
  change (wire_bytes ((t', p') :: gs)) with (frame t' p' ++ wire_bytes gs) in Hpre.
  destruct Hpre as [k Hk]. rewrite <- app_assoc in Hk.
  apply frame_app_inj in Hk as (-> & -> & Hk); [|done..]. apply prefix_cons, IH; [done|]. by exists k.
Qed.

Lemma store_at_next off l buf : 0 <= off → (Z.to_nat off + length l <= length buf)%nat →
  ∃ buf', store_at off l buf = Some buf' ∧ length buf' = length buf ∧
    take (Z.to_nat (off + Z.of_nat (length l))) buf' = take (Z.to_nat off) buf ++ l ∧
    (bytes_wf buf → bytes_wf l → bytes_wf buf').
Proof.
  intros Hoff Hle. unfold store_at, memcpy_out. rewrite decide_True by done.
  eexists. split; [done|]. split_and!.
  - rewrite !length_app, length_take, length_drop. lia.
  - replace (Z.to_nat (off + Z.of_nat (length l)))
      with (length (take (Z.to_nat off) buf ++ l)) by (rewrite length_app, length_take; lia).
    by rewrite app_assoc, take_app_length.
  - intros Hb Hl. unfold bytes_wf. rewrite !Forall_app. split_and!; [by apply Forall_take|done|by apply Forall_drop].
Qed.

Lemma read_length {S} host hb (s : S) : length hb = 5%nat → bytes_wf hb →
  ∃ raw, read_uint host 1 4 hb s = Ok s raw ∧ ntohl host raw = header_length hb.
Proof.
  intros Hl Hw. exists (load host (drop 1 hb)). split.
  - unfold read_uint, memcpy_in. rewrite decide_True by lia.
    by rewrite take_ge by (rewrite length_drop; lia).
  - apply ntohl_load; [by apply Forall_drop|]. rewrite length_drop. lia.
Qed.

Section read.
Context {Qin Qout W : Type}.
Context `{!BoundedQueue Qin InboundMessage, !BoundedQueueLaws Qin InboundMessage}.
Context `{!BoundedQueue Qout OutboundMessage, !Sockets W, !SocketView W, !SocketLaws W}.
Context (host : endian) (fd : Z).
Hypothesis Hfd : 0 <= fd.
Implicit Types (s : Server Qin Qout W) (c : ClientState).

Abbreviation at_fd s := (clients_ s !! Z.to_nat fd).

Lemma client_Ok s c : at_fd s = Some c → client fd s = Ok s c.
Proof.
  intros Hc. pose proof (lookup_lt_Some _ _ _ Hc). unfold client.
  rewrite decide_True by (unfold in_clients; lia). by rewrite Hc.
Qed.

Lemma update_client_Ok s c f : at_fd s = Some c →
  update_client fd f s = Ok (set_clients (<[Z.to_nat fd := f c]> (clients_ s)) s) tt.
Proof. intros Hc. unfold update_client. by rewrite (bind_Ok _ _ _ _ _ (client_Ok _ _ Hc)). Qed.

(** [s'] differs from [s] in the inbound queue, the world and the client [fd],
    which is now [c]. *)
Record moved_to s s' c : Prop := {
  mt_clients : clients_ s' = <[Z.to_nat fd := c]> (clients_ s);
  mt_pending : pending_writes_ s' = pending_writes_ s;
  mt_server : server_fd_ s' = server_fd_ s;
  mt_epoll : epoll_fd_ s' = epoll_fd_ s;
  mt_outbound : outbound_queue_ s' = outbound_queue_ s;
}.

(** The read path went on: the frames [fs] were completed and pushed, and the
    client state holds the beginning of the next one. *)
Record advanced s c (ms : list InboundMessage) s' c' fs : Prop := {
  ad_moved : moved_to s s' c';
  ad_ok : client_ok c';
  ad_write : write_state c' = write_state c;
  ad_others : others fd (world s) (world s');
  ad_tx : tx (world s') fd = tx (world s) fd;
  ad_wf : bytes_wf (rx (world s') fd);
  ad_rx : rx (world s') fd `suffix_of` rx (world s) fd;
  ad_frames : Forall frame_wf fs;
  ad_bytes : partial c ++ rx (world s) fd = wire_bytes fs ++ partial c' ++ rx (world s') fd;
  ad_queue : shared_rep (inbound_queue_ s') (ms ++ messages fd fs);
}.

(** The read path ended with the client gone, after pushing the frames [fs]. *)
Record gone s c (ms : list InboundMessage) s' fs : Prop := {
  gn_moved : moved_to s s' fresh_client;
  gn_others : others fd (world s) (world s');
  gn_dead : dead (world s') fd = true;
  gn_frames : Forall frame_wf fs;
  gn_bytes : wire_bytes fs `prefix_of` partial c ++ rx (world s) fd;
  gn_queue : shared_rep (inbound_queue_ s') (ms ++ messages fd fs);
}.

(** Why reading stops with the client still there: the socket gave less than
    the rest of the frame, or a complete message waits for room in the queue. *)
Definition unfinished c : Prop := read_phase c = PAYLOAD → bytes_read c < payload_length c.

Definition stopped s c : Prop :=
  (unfinished c ∧ short_read (world s) fd = true) ∨
  (read_phase c = PAYLOAD ∧ bytes_read c = payload_length c ∧ shared_full (inbound_queue_ s)).

Definition read_done s c ms s' : Prop :=
  (∃ c' fs, advanced s c ms s' c' fs ∧ stopped s' c') ∨ (∃ fs, gone s c ms s' fs).

Lemma moved_to_trans s s1 s2 c1 c2 : moved_to s s1 c1 → moved_to s1 s2 c2 → moved_to s s2 c2.
Proof.
  intros [Hc1 ????] [Hc2 ????]. split; try congruence. rewrite Hc2, Hc1. by rewrite list_insert_insert_eq.
Qed.

Lemma advanced_refl s c ms : at_fd s = Some c → client_ok c → bytes_wf (rx (world s) fd) →
  shared_rep (inbound_queue_ s) ms → advanced s c ms s c [].
Proof.
  intros Hc Hok Hwf Hq. split; try done; [|by rewrite app_nil_r].
  split; try done. by rewrite list_insert_id.
Qed.

Lemma advanced_trans s c ms s1 c1 fs1 s2 c2 fs2 :
  advanced s c ms s1 c1 fs1 → advanced s1 c1 (ms ++ messages fd fs1) s2 c2 fs2 →
  advanced s c ms s2 c2 (fs1 ++ fs2).
Proof.
  intros [Hm Hok Hw Ho Ht Hwf Hx Hf Hb Hq] [Hm2 Hok2 Hw2 Ho2 Ht2 Hwf2 Hx2 Hf2 Hb2 Hq2].
  split; try congruence; [by eapply moved_to_trans|by etrans|by etrans|by apply Forall_app|..].
  - rewrite Hb, Hb2, wire_bytes_app. by rewrite <- !app_assoc.
  - rewrite messages_app. by rewrite <- app_assoc in Hq2.
Qed.

Lemma advanced_done s c ms s1 c1 fs1 s2 : advanced s c ms s1 c1 fs1 →
  read_done s1 c1 (ms ++ messages fd fs1) s2 → read_done s c ms s2.
Proof.
  intros Ha [(c2 & fs2 & Hd & Hs)|(fs2 & [Hm2 Ho2 Hd2 Hf2 Hb2 Hq2])].
  - left. exists c2, (fs1 ++ fs2). split; [by eapply advanced_trans|done].
  - right. exists (fs1 ++ fs2). destruct Ha as [Hm Hok Hw Ho Ht Hwf _ Hf Hb Hq].
    split; [by eapply moved_to_trans|by etrans|done|by apply Forall_app|..].
    + rewrite Hb, wire_bytes_app. by apply prefix_app.
    + rewrite messages_app. by rewrite <- app_assoc in Hq2.
Qed.

Lemma advanced_at s c ms s' c' fs : at_fd s = Some c → advanced s c ms s' c' fs → at_fd s' = Some c'.
Proof.
  intros Hc Ha. rewrite (mt_clients _ _ _ (ad_moved _ _ _ _ _ _ Ha)).
  apply list_lookup_insert_eq. by eapply lookup_lt_Some.
Qed.

Lemma disconnect_Ok s c : at_fd s = Some c → ∃ s', disconnect_client fd s = Ok s' tt ∧
  moved_to s s' fresh_client ∧ inbound_queue_ s' = inbound_queue_ s ∧
  others fd (world s) (world s').
Proof.
  intros Hc. unfold disconnect_client, gets. unfold bind at 1.
  destruct (epoll_del_spec (epoll_fd_ s) fd (world s)) as (w1 & H1 & Ho1).
  destruct (close_spec fd w1) as (w2 & H2 & Ho2).
  unfold bind at 1, sys at 1, zoom at 1. rewrite H1.
  unfold bind at 1, sys at 1, zoom at 1. cbn [world]. rewrite H2.
  rewrite (update_client_Ok _ c) by done. eexists. split; [done|].
  split; [done|]. split; [done|]. cbn. by etrans.
Qed.

(** A [recv] without data leaves the client as it was or disconnects it. *)
Lemma recv_stopped_spec s s1 c ms r : at_fd s = Some c → client_ok c → unfinished c →
  bytes_wf (rx (world s) fd) → shared_rep (inbound_queue_ s) ms →
  moved_to s s1 c → inbound_queue_ s1 = inbound_queue_ s → others fd (world s) (world s1) →
  tx (world s1) fd = tx (world s) fd → rx (world s1) fd = rx (world s) fd →
  match r with RecvWouldBlock => short_read (world s1) fd = true | _ => dead (world s1) fd = true end →
  ∃ s', recv_stopped fd r s1 = Ok s' Break ∧ read_done s c ms s'.
Proof.
  intros Hc Hok Hun Hwf Hq Hm Hin Ho Htx Hrx Hr.
  assert (at_fd s1 = Some c) as Hc1.
  { rewrite (mt_clients _ _ _ Hm). apply list_lookup_insert_eq. by eapply lookup_lt_Some. }
  assert (advanced s c ms s1 c []) as Hadv.
  { split; try done; rewrite ?Hrx, ?Hin; try done; by rewrite app_nil_r. }
  destruct (disconnect_Ok s1 c Hc1) as (s' & Hd & Hm' & Hin' & Ho').
  assert (dead (world s1) fd = true → read_done s c ms s') as Hgone.
  { intros Hdead. right. exists []. split; [by eapply moved_to_trans|by etrans|by apply Ho'|apply Forall_nil_2| |].
    - apply prefix_nil.
    - by rewrite app_nil_r, Hin', Hin. }
  destruct r; cbn [recv_stopped].
  3: { exists s1. split; [done|]. left. exists c, []. split; [done|by left]. }
  all: exists s'; rewrite (bind_Ok _ _ _ _ _ Hd); by auto.
Qed.

(** ** The header *)

Definition with_world s w : Server Qin Qout W :=
  mkServer (clients_ s) (pending_writes_ s) (server_fd_ s) (epoll_fd_ s) (inbound_queue_ s)
    (outbound_queue_ s) w.

Lemma with_world_moved s c w : at_fd s = Some c → moved_to s (with_world s w) c.
Proof. intros Hc. split; try done. cbn. by rewrite list_insert_id. Qed.

(** The state a complete header leads to. *)
Definition after_header hb c : ClientState :=
  set_read (if negb (header_length hb =? 0) then PAYLOAD else HEADER) (header_type hb) hb
    (resize (Z.to_nat (header_length hb)) (read_buffer c)) (header_length hb) 0 c.

Lemma after_header_ok hb c : length hb = 5%nat → bytes_wf hb →
  client_ok (after_header hb c) ∧
  ∃ fs, Forall frame_wf fs ∧ messages fd fs = [] ∧ hb = wire_bytes fs ++ partial (after_header hb c).
Proof.
  intros Hl Hw. pose proof (header_length_range hb Hw Hl) as Hr.
  unfold after_header, set_read, partial. destruct (Z.eqb_spec (header_length hb) 0) as [H0|H0]; cbn.
  - split; [split; cbn; [done|done|lia]|]. exists [(header_type hb, [])].
    split; [apply Forall_singleton; split; [by apply header_type_wf|done]|]. split; [done|].
    change (wire_bytes [(header_type hb, [])]) with (frame (header_type hb) [] ++ []).
    rewrite <- header_frame by done. by rewrite !app_nil_r.
  - split; [|exists []; split_and!; [apply Forall_nil_2|done|by rewrite app_nil_r]].
    split; cbn; [done|done|]. split_and!; try done; try width.
    unfold resize. rewrite length_app, length_take, length_replicate. width.
Qed.

Lemma read_header_spec s c ms : at_fd s = Some c → client_ok c → read_phase c = HEADER →
  bytes_wf (rx (world s) fd) → shared_rep (inbound_queue_ s) ms →
  ∃ s' k, read_header host fd s = Ok s' k ∧
    match k with
    | Break => read_done s c ms s'
    | Next => ∃ c' fs, advanced s c ms s' c' fs ∧
        (length (rx (world s') fd) < length (rx (world s) fd))%nat
    end.
Proof.
  intros Hc Hok Hph Hwf Hq. pose proof Hok as [Hl Hb Hp]. rewrite Hph in Hp.
  unfold read_header. rewrite (bind_Ok _ _ _ _ _ (client_Ok _ _ Hc)).
  rewrite u64_id by width.
  destruct (recv_spec fd (5 - bytes_read c) (world s)) as (w & r & Hr & Ho & Htx & _ & _ & Hres); [lia|].
  unfold bind at 1, sys, zoom. rewrite Hr. fold (with_world s w).
  pose proof (with_world_moved s c w Hc) as Hm.
  destruct r as [l| | |].
  2-4: destruct Hres as [Hrx Hflag]; match goal with |- context [recv_stopped fd ?r] =>
    destruct (recv_stopped_spec s (with_world s w) c ms r) as (s' & He & Hd);
      try done; [by intros ?; congruence|by exists s', Break] end.
  destruct Hres as (Hne & Hlen & Hrx & Hshort).
  assert (rx w fd `suffix_of` rx (world s) fd) as Hsuf by by exists l.
  assert (bytes_wf l ∧ bytes_wf (rx w fd)) as [Hwl Hwr] by (rewrite Hrx in Hwf; by apply Forall_app in Hwf).
  destruct (store_at_next (bytes_read c) l (header_buffer c)) as (hb & Hst & Hhl & Hht & Hhw); [lia..|].
  rewrite Hst. cbn [or_ub]. rewrite bind_ret, u64_id by width.
  set (n := bytes_read c + Z.of_nat (length l)) in *.
  rewrite (bind_Ok _ _ _ _ _ (update_client_Ok (with_world s w) c _ Hc)).
  set (c1 := set_read _ _ hb _ _ _ c). set (s1 := set_clients _ _).
  assert (at_fd s1 = Some c1) as Hc1 by (apply list_lookup_insert_eq; by eapply lookup_lt_Some).
  specialize (Hhw Hb Hwl). rewrite Hl in Hhl.
  assert (partial c ++ rx (world s) fd = take (Z.to_nat n) hb ++ rx w fd) as Hpart.
  { unfold partial. by rewrite Hph, Hrx, Hht, <- app_assoc. }
  destruct (Z.ltb_spec n 5) as [Hn|Hn].
  - exists s1, Break. split; [done|]. left. exists c1, []. split.
    + split; try done; [split; cbn; [done|done|rewrite Hph; lia]| |by rewrite app_nil_r].
      unfold partial at 2. cbn. by rewrite Hph.
    + left. split; [intros Hph'; cbn in Hph'; congruence|]. cbn. rewrite Hshort.
      apply bool_decide_eq_true_2. lia.
  - destruct (read_length host hb s1 Hhl Hhw) as (raw & Hraw & Hlen').
    rewrite (bind_Ok _ _ _ _ _ Hraw), Hlen'.
    rewrite (bind_Ok _ _ _ _ _ (update_client_Ok _ c1 _ Hc1)). eexists _, Next. split; [done|].
    destruct (after_header_ok hb c1 Hhl Hhw) as (Hok1 & fs & Hwfs & Hfs & Hbytes).
    rewrite take_ge in Hpart by lia.
    exists (after_header hb c1), fs. split; [split; try done|].
    + split; try done. cbn. by rewrite list_insert_insert_eq.
    + cbn [world set_clients s1]. rewrite app_assoc, <- Hbytes. exact Hpart.
    + rewrite Hfs, app_nil_r. done.
    + cbn. rewrite Hrx, length_app. destruct l; [done|]. cbn. lia.
Qed.

(** ** The payload *)

Lemma fill_payload_spec s c ms : at_fd s = Some c → client_ok c → read_phase c = PAYLOAD →
  bytes_wf (rx (world s) fd) → shared_rep (inbound_queue_ s) ms →
  ∃ s' k, fill_payload fd c s = Ok s' k ∧
    match k with
    | Break => read_done s c ms s'
    | Next => ∃ c', advanced s c ms s' c' [] ∧ read_phase c' = PAYLOAD ∧
        bytes_read c' = payload_length c' ∧
        (length (rx (world s') fd) <= length (rx (world s) fd))%nat
    end.
Proof.
  intros Hc Hok Hph Hwf Hq. pose proof Hok as [Hl Hb Hp]. rewrite Hph in Hp.
  destruct Hp as (Ht & Hpl & Hpos & Hrl & Hbr).
  pose proof (header_length_range _ Hb Hl) as Hrange. rewrite <- Hpl in Hrange.
  unfold fill_payload. destruct (Z.ltb_spec (bytes_read c) (payload_length c)) as [Hlt|Hge].
  2: { exists s, Next. split; [done|]. exists c.
       split; [exact (advanced_refl s c ms Hc Hok Hwf Hq)|]. split_and!; [done|lia|lia]. }
  rewrite u64_id by width.
  destruct (recv_spec fd (payload_length c - bytes_read c) (world s))
    as (w & r & Hr & Ho & Htx & _ & _ & Hres); [lia|].
  unfold bind at 1, sys, zoom. rewrite Hr. fold (with_world s w).
  pose proof (with_world_moved s c w Hc) as Hm.
  destruct r as [l| | |].
  2-4: destruct Hres as [Hrx Hflag]; match goal with |- context [recv_stopped fd ?r] =>
    destruct (recv_stopped_spec s (with_world s w) c ms r) as (s' & He & Hd); try done; [by intros _|by exists s', Break] end.
  destruct Hres as (Hne & Hlen & Hrx & Hshort).
  assert (rx w fd `suffix_of` rx (world s) fd) as Hsuf by by exists l.
  assert (bytes_wf (rx w fd)) as Hwr by (rewrite Hrx in Hwf; by apply Forall_app in Hwf as [_ ?]).
  destruct (store_at_next (bytes_read c) l (read_buffer c)) as (rb & Hst & Hrbl & Hrbt & _); [lia..|].
  rewrite Hst. cbn [or_ub]. rewrite bind_ret, u64_id by width.
  set (n := bytes_read c + Z.of_nat (length l)) in *.
  rewrite (bind_Ok _ _ _ _ _ (update_client_Ok (with_world s w) c _ Hc)).
  set (c1 := set_read _ _ _ rb _ _ c). set (s1 := set_clients _ _).
  assert (advanced s c ms s1 c1 []) as Hadv.
  { split; try done; [|by unfold partial; cbn; rewrite Hph, Hrx, Hrbt, <- !app_assoc|by rewrite app_nil_r].
    split; cbn; [done|done|]. rewrite Hph. split_and!; try done; lia. }
  exists s1. destruct (Z.ltb_spec n (payload_length c)) as [Hn|Hn].
  - exists Break. split; [done|]. left. exists c1, []. split; [done|]. left. split; [by intros _|].
    cbn. rewrite Hshort. apply bool_decide_eq_true_2. lia.
  - exists Next. split; [done|]. exists c1. split; [done|]. split; [done|].
    split; [cbn; lia|]. cbn. rewrite Hrx, length_app. lia.
Qed.

(** A completed payload is pushed, or stays in place when the queue is full. *)
Lemma read_payload_spec s c ms : at_fd s = Some c → client_ok c → read_phase c = PAYLOAD →
  bytes_wf (rx (world s) fd) → shared_rep (inbound_queue_ s) ms →
  ∃ s' k, read_payload fd s = Ok s' k ∧
    match k with
    | Break => read_done s c ms s'
    | Next => ∃ c' fs, advanced s c ms s' c' fs ∧ read_phase c' = HEADER ∧
        (length (rx (world s') fd) <= length (rx (world s) fd))%nat
    end.
Proof.
  intros Hc Hok Hph Hwf Hq. unfold read_payload. rewrite (bind_Ok _ _ _ _ _ (client_Ok _ _ Hc)).
  destruct (fill_payload_spec s c ms Hc Hok Hph Hwf Hq) as (s1 & k & He & Hk).
  rewrite (bind_Ok _ _ _ _ _ He). destruct k; [|by exists s1, Break].
  destruct Hk as (c1 & Hadv & Hph1 & Hfull & Hle). pose proof (advanced_at _ _ _ _ _ _ Hc Hadv) as Hc1.
  rewrite (bind_Ok _ _ _ _ _ (client_Ok _ _ Hc1)).
  pose proof (ad_ok _ _ _ _ _ _ Hadv) as Hok1. destruct Hok1 as [Hl Hb Hp]. rewrite Hph1 in Hp.
  destruct Hp as (Ht & Hpl & Hpos & Hrl & Hbr).
  pose proof (ad_queue _ _ _ _ _ _ Hadv) as Hq1. rewrite app_nil_r in Hq1.
  destruct (push_once_spec (mkInbound fd (message_type c1) (read_buffer c1)) _ _ Hq1) as (q & ok & Hpush & Hq').
  unfold bind at 1, on_inbound, zoom. rewrite Hpush. set (s2 := mkServer _ _ _ _ _ _ _).
  destruct ok.
  - assert (at_fd s2 = Some c1) as Hc2 by done.
    rewrite (bind_Ok _ _ _ _ _ (update_client_Ok s2 c1 _ Hc2)). eexists _, Next. split; [done|].
    exists (set_read HEADER (message_type c1) (header_buffer c1) (read_buffer c1) (payload_length c1) 0 c1),
      ([] ++ [(message_type c1, read_buffer c1)]). split; [|by split].
    eapply advanced_trans; [exact Hadv|]. split; try done.
    + apply Hadv.
    + apply Forall_singleton. split; cbn; [rewrite Ht; by apply header_type_wf|].
      rewrite Hrl, Hpl. by apply header_length_range.
    + unfold partial. rewrite Hph1, Hfull. cbn [read_phase bytes_read set_read take app].
      rewrite take_ge by lia. rewrite (header_frame (header_buffer c1)) by (done || congruence).
      change (wire_bytes [(message_type c1, read_buffer c1)])
        with (frame (message_type c1) (read_buffer c1) ++ []). by rewrite app_nil_r, Ht.
    + rewrite app_nil_r. unfold messages. cbn. destruct (read_buffer c1); [cbn in Hrl; lia|exact Hq'].
  - destruct Hq' as [Hq' Hqfull]. exists s2, Break. split; [done|]. left. exists c1, [].
    destruct Hadv as [Hm ? ? ? ? ? ? ? ? _]. split; [|by right].
    split; try done; [by destruct Hm|]. by rewrite app_nil_r.
Qed.

(** ** The loop *)

(** Turns that do not leave the loop consume input, or push a message that a
    full queue had refused before. *)
Definition read_work s c : nat :=
  (length (rx (world s) fd) + match read_phase c with HEADER => 0 | PAYLOAD => 1 end)%nat.

Lemma read_body_spec s c ms : at_fd s = Some c → client_ok c →
  bytes_wf (rx (world s) fd) → shared_rep (inbound_queue_ s) ms →
  ∃ s' k, read_body host fd s = Ok s' k ∧
    match k with
    | Break => read_done s c ms s'
    | Next => ∃ c' fs, advanced s c ms s' c' fs ∧ (read_work s' c' < read_work s c)%nat
    end.
Proof.
  intros Hc Hok Hwf Hq. unfold read_body, read_work. rewrite (bind_Ok _ _ _ _ _ (client_Ok _ _ Hc)).
  destruct (decide (read_phase c = HEADER)) as [Hph|Hph].
  - destruct (read_header_spec s c ms Hc Hok Hph Hwf Hq) as (s1 & k & He & Hk).
    rewrite (bind_Ok _ _ _ _ _ He). destruct k; [|by exists s1, Break].
    destruct Hk as (c1 & fs1 & Hadv & Hlt). pose proof (advanced_at _ _ _ _ _ _ Hc Hadv) as Hc1.
    rewrite (bind_Ok _ _ _ _ _ (client_Ok _ _ Hc1)). rewrite Hph.
    destruct (decide (read_phase c1 = PAYLOAD)) as [Hph1|Hph1].
    + destruct (read_payload_spec s1 c1 _ Hc1 (ad_ok _ _ _ _ _ _ Hadv) Hph1 (ad_wf _ _ _ _ _ _ Hadv)
        (ad_queue _ _ _ _ _ _ Hadv)) as (s2 & k & He2 & Hk2). rewrite He2.
      exists s2, k. split; [done|]. destruct k; [|by eapply advanced_done].
      destruct Hk2 as (c2 & fs2 & Hadv2 & Hph2 & Hle). exists c2, (fs1 ++ fs2).
      split; [by eapply advanced_trans|]. rewrite Hph2. lia.
    + exists s1, Next. split; [done|]. exists c1, fs1. split; [done|].
      destruct (read_phase c1); [lia|done].
  - rewrite bind_ret, (bind_Ok _ _ _ _ _ (client_Ok _ _ Hc)).
    destruct (read_phase c) eqn:Hph'; [done|]. rewrite decide_True by done.
    destruct (read_payload_spec s c ms Hc Hok Hph' Hwf Hq) as (s1 & k & He & Hk). rewrite He.
    exists s1, k. split; [done|]. destruct k; [|done].
    destruct Hk as (c1 & fs1 & Hadv & Hph1 & Hle). exists c1, fs1. split; [done|]. rewrite Hph1. lia.
Qed.

Lemma read_loop_spec fuel s c ms : at_fd s = Some c → client_ok c →
  bytes_wf (rx (world s) fd) → shared_rep (inbound_queue_ s) ms → (read_work s c < fuel)%nat →
  ∃ s', while_brk fuel (λ _, true) (read_body host fd) s = Ok s' tt ∧ read_done s c ms s'.
Proof.
  revert s c ms. induction fuel as [|fuel IH]; intros s c ms Hc Hok Hwf Hq Hfuel; [lia|].
  cbn [while_brk]. destruct (read_body_spec s c ms Hc Hok Hwf Hq) as (s1 & k & He & Hk).
  rewrite (bind_Ok _ _ _ _ _ He). destruct k; [|by exists s1].
  destruct Hk as (c1 & fs1 & Hadv & Hlt). pose proof (advanced_at _ _ _ _ _ _ Hc Hadv) as Hc1.
  destruct (IH s1 c1 _ Hc1 (ad_ok _ _ _ _ _ _ Hadv) (ad_wf _ _ _ _ _ _ Hadv)
    (ad_queue _ _ _ _ _ _ Hadv)) as (s' & Hrun & Hd); [lia|].
  exists s'. split; [done|]. by eapply advanced_done.
Qed.

Lemma handle_read_done fuel s c ms : at_fd s = Some c → active c = true → client_ok c →
  bytes_wf (rx (world s) fd) → shared_rep (inbound_queue_ s) ms →
  (length (rx (world s) fd) + 2 <= fuel)%nat →
  ∃ s', handle_read host fuel fd s = Ok s' tt ∧ read_done s c ms s'.
Proof.
  intros Hc Hact Hok Hwf Hq Hfuel. unfold handle_read.
  rewrite (bind_Ok _ _ _ _ _ (client_Ok _ _ Hc)), Hact. cbn [negb].
  apply (read_loop_spec fuel s c ms Hc Hok Hwf Hq). unfold read_work. destruct (read_phase c); lia.
Qed.

(** ** Main theorem *)

(** The read path reassembles messages.  However the bytes of a client are
    cut into pieces by the network, [handle_read] returns, and what it pushed
    on the inbound queue is exactly the sequence of frames it completed, each
    with its type and payload, keep-alive frames aside.  Either it stopped
    because the socket gave less than was asked for or because a complete
    message found the queue full, and then the client state holds the bytes of
    the unfinished or waiting frame, which continue with the bytes still to
    come; or a call reported the end or a failure of the connection, and the
    client is reset.  The write side of the client and all other clients are
    untouched. *)
Lemma handle_read_reassembles fuel s c ms :
  at_fd s = Some c → active c = true → client_ok c → bytes_wf (rx (world s) fd) →
  shared_rep (inbound_queue_ s) ms → (length (rx (world s) fd) + 2 <= fuel)%nat →
  ∃ s' c' fs, handle_read host fuel fd s = Ok s' tt ∧
    clients_ s' = <[Z.to_nat fd := c']> (clients_ s) ∧ others fd (world s) (world s') ∧
    shared_rep (inbound_queue_ s') (ms ++ messages fd fs) ∧ client_ok c' ∧
    Forall frame_wf fs ∧
    ((partial c ++ rx (world s) fd = wire_bytes fs ++ partial c' ++ rx (world s') fd ∧
      stopped s' c' ∧ write_state c' = write_state c) ∨
     (wire_bytes fs `prefix_of` partial c ++ rx (world s) fd ∧
      dead (world s') fd = true ∧ c' = fresh_client)).
Proof.
  intros Hc Hact Hok Hwf Hq Hfuel.
  destruct (handle_read_done fuel s c ms Hc Hact Hok Hwf Hq Hfuel) as (s' & He & Hd).
  destruct Hd as [(c' & fs & [Hm Hok' Hw Ho _ _ _ Hf Hb Hq'] & Hs)|(fs & [Hm Ho Hdead Hf Hb Hq'])].
  - exists s', c', fs. split; [done|]. split; [apply Hm|]. split; [done|]. split; [done|].
    split; [done|]. split; [done|by left].
  - exists s', fresh_client, fs. split; [done|]. split; [apply Hm|]. split; [done|]. split; [done|].
    split; [apply fresh_client_ok|]. split; [done|by right].
Qed.

(** ** Streams of whole frames *)

(** Unless a message waits for room in the queue, the bytes a client state holds
    do not contain a complete frame. *)
Lemma partial_no_frame c f gs k : client_ok c → unfinished c → frame_wf f →
  partial c ≠ wire_bytes (f :: gs) ++ k.
Proof.
  intros [Hl Hb Hp] Hun Hf Heq. destruct f as [t p]. unfold partial in Heq.
  change (wire_bytes ((t, p) :: gs)) with (frame t p ++ wire_bytes gs) in Heq.
  destruct (read_phase c) eqn:Hph.
  - apply (f_equal length) in Heq. unfold frame in Heq.
    rewrite length_take, !length_app in Heq. cbn [length] in Heq. rewrite length_app, length_store in Heq. lia.
  - destruct Hp as (Ht & Hpl & Hpos & Hrl & Hbr). specialize (Hun Hph).
    assert (frame (header_type (header_buffer c)) (read_buffer c) ++ [] =
      frame t p ++ wire_bytes gs ++ k ++ drop (Z.to_nat (bytes_read c)) (read_buffer c)) as H.
    { rewrite app_nil_r, <- header_frame by (done || congruence).
      rewrite <- (take_drop (Z.to_nat (bytes_read c)) (read_buffer c)) at 1.
      by rewrite app_assoc, Heq, <- !app_assoc. }
    apply frame_app_inj in H as (_ & _ & H); [..|done].
    + apply (f_equal length) in H. rewrite !length_app, length_drop in H. cbn in H. lia.
    + split; cbn; [by apply header_type_wf|]. rewrite Hrl, Hpl. by apply header_length_range.
Qed.

(** A waiting message is one complete frame. *)
Lemma partial_complete c gs : client_ok c → read_phase c = PAYLOAD → bytes_read c = payload_length c →
  Forall frame_wf gs → partial c = wire_bytes gs → gs = [(message_type c, read_buffer c)].
Proof.
  intros [Hl Hb Hp] Hph Hfull Hgs Heq. unfold partial in Heq. rewrite Hph in Hp, Heq.
  destruct Hp as (Ht & Hpl & Hpos & Hrl & Hbr). rewrite take_ge in Heq by lia.
  rewrite header_frame in Heq by (done || congruence). rewrite <- (app_nil_r (frame _ _)) in Heq.
  destruct Hgs as [|[t p] gs Hf Hgs]; [discriminate Heq|].
  change (wire_bytes ((t, p) :: gs)) with (frame t p ++ wire_bytes gs) in Heq.
  apply frame_app_inj in Heq as (<- & <- & Hnil); [|split; cbn; [by apply header_type_wf|] |done].
  - rewrite Ht. destruct gs as [|[] gs]; [done|discriminate Hnil].
  - rewrite Hrl, Hpl. by apply header_length_range.
Qed.

(** C14: the messages do not depend on how the network cuts the stream.  When
    the peer sends whole frames, [handle_read] pushes the messages of an initial
    segment of them, in order, and what the client state and the network still
    hold is exactly the encoding of the rest.  Once all bytes have arrived, every
    frame was delivered, or the next one is complete and waits for room in the
    inbound queue. *)
Theorem handle_read_delivers_frames fuel s c ms gs :
  at_fd s = Some c → active c = true → client_ok c → bytes_wf (rx (world s) fd) →
  shared_rep (inbound_queue_ s) ms → (length (rx (world s) fd) + 2 <= fuel)%nat →
  Forall frame_wf gs → partial c ++ rx (world s) fd = wire_bytes gs →
  ∃ s' c' fs gs', handle_read host fuel fd s = Ok s' tt ∧ at_fd s' = Some c' ∧ gs = fs ++ gs' ∧
    shared_rep (inbound_queue_ s') (ms ++ messages fd fs) ∧
    ((c' = fresh_client ∧ dead (world s') fd = true) ∨
     (active c' = true ∧ partial c' ++ rx (world s') fd = wire_bytes gs' ∧
      (rx (world s') fd = [] → gs' = [] ∨
         gs' = [(message_type c', read_buffer c')] ∧ shared_full (inbound_queue_ s')))).
Proof.
  intros Hc Hact Hok Hwf Hq Hfuel Hgs Hbytes.
  destruct (handle_read_done fuel s c ms Hc Hact Hok Hwf Hq Hfuel) as (s' & He & Hd).
  destruct Hd as [(c' & fs & Hadv & Hs)|(fs & [Hm Ho Hdead Hf Hb Hq'])].
  - pose proof (advanced_at _ _ _ _ _ _ Hc Hadv) as Hc'.
    destruct Hadv as [Hm Hok' Hw Ho _ _ _ Hf Hb Hq']. rewrite Hbytes in Hb.
    destruct (wire_bytes_prefix fs gs Hf Hgs) as [gs' ->]; [by rewrite Hb; apply prefix_app_r|].
    rewrite wire_bytes_app in Hb. apply app_inv_head in Hb. apply Forall_app in Hgs as [_ Hgs].
    exists s', c', fs, gs'. do 4 (split; [done|]). right.
    split; [by change ((write_state c').2 = true); rewrite Hw|]. split; [done|].
    intros Hnil. rewrite Hnil, app_nil_r in Hb. destruct Hs as [[Hun _]|(Hph & Hfull & Hqf)].
    + left. destruct Hgs as [|f gs' Hfw Hgs]; [done|].
      destruct (partial_no_frame c' f gs' []); [done..|]. by rewrite app_nil_r.
    + right. split; [by apply partial_complete|done].
  - rewrite Hbytes in Hb. destruct (wire_bytes_prefix fs gs Hf Hgs Hb) as [gs' ->].
    exists s', fresh_client, fs, gs'. split; [done|].
    split; [rewrite (mt_clients _ _ _ Hm); apply list_lookup_insert_eq; by eapply lookup_lt_Some|].
    split; [done|]. split; [done|by left].
Qed.
End read.
