(* ===== verification/Framing.v ===== *)
(** * The frames of a byte stream

    The function the read state machine computes piece by piece: a stream of
    bytes is cut into the frames it starts with. *)

From S2P Require Import Prelude Outcome Order Bytes Serializer RingBuffer SharedQueue Sockets ExchangeServer ServerRead.

(** At most [n] frames. *)
Fixpoint cut (n : nat) (l : list Z) : list (MessageType * list Z) :=
  match n with
  | O => []
  | S n' =>
      let len := Z.to_nat (header_length (take 5 l)) in
      if decide (5 + len <= length l)%nat then
        (header_type l, take len (drop 5 l)) :: cut n' (drop (5 + len) l)
      else []
  end.

Definition frames_of (l : list Z) : list (MessageType * list Z) := cut (length l) l.

Lemma cut_enough n m l : (length l <= n)%nat → (length l <= m)%nat → cut n l = cut m l.
Proof.
  revert m l. induction n as [|n IH]; intros [|m] l Hn Hm; cbn [cut]; [done| | |].
  - rewrite decide_False by lia. done.
  - rewrite decide_False by lia. done.
  - case_decide; [|done]. f_equal. apply IH; rewrite length_drop; lia.
Qed.

Lemma frame_header t p : frame_wf (t, p) →
  header_type (frame t p) = t ∧ take 5 (frame t p) = MessageType_to_byte t :: store BigEndian 4 (Z.of_nat (length p)) ∧
  header_length (take 5 (frame t p)) = Z.of_nat (length p).
Proof.
  intros [Ht Hp]. cbn in Ht, Hp.
  assert (take 5 (frame t p) = MessageType_to_byte t :: store BigEndian 4 (Z.of_nat (length p))) as Htake.
  { unfold frame. rewrite u32_id by done. cbn [take]. done. }
  split; [done|]. split; [done|]. rewrite Htake. unfold header_length. cbn [drop].
  by apply load_store_u32.
Qed.

Lemma frames_of_step l len : len = Z.to_nat (header_length (take 5 l)) → (5 + len <= length l)%nat →
  frames_of l = (header_type l, take len (drop 5 l)) :: frames_of (drop (5 + len) l).
Proof.
  intros -> Hl. unfold frames_of at 1. remember (length l) as n eqn:Hn.
  destruct n as [|n]; [lia|]. cbn [cut]. rewrite decide_True by (rewrite <- Hn; done). f_equal.
  apply cut_enough; rewrite length_drop; lia.
Qed.

(** Cutting takes off exactly the frames a stream starts with. *)
Lemma frames_of_cons t p rest : frame_wf (t, p) →
  frames_of (frame t p ++ rest) = (t, p) :: frames_of rest.
Proof.
  intros Hwf. destruct (frame_header t p Hwf) as (Htype & Htake & Hlen).
  assert (length (frame t p) = 5 + length p)%nat as Hl by done.
  rewrite (frames_of_step _ (length p)).
  - rewrite <- Hl, drop_app_length. f_equal. f_equal; [exact Htype|].
    rewrite drop_app_le by lia. exact (take_app_length p rest).
  - by rewrite take_app_le, Hlen, Nat2Z.id by lia.
  - rewrite length_app. lia.
Qed.

Lemma frames_of_app fs rest : Forall frame_wf fs → frames_of (wire_bytes fs ++ rest) = fs ++ frames_of rest.
Proof.
  induction 1 as [|[t p] fs Hf Hfs IH]; [done|].
  change (wire_bytes ((t, p) :: fs)) with (frame t p ++ wire_bytes fs).
  rewrite <- app_assoc, frames_of_cons by done. cbn [app]. by rewrite IH.
Qed.

Lemma frames_of_short l : (length l < 5 + Z.to_nat (header_length (take 5 l)))%nat → frames_of l = [].
Proof.
  intros Hl. unfold frames_of. destruct (length l) as [|n] eqn:Hn; [done|]. cbn [cut].
  by rewrite decide_False by (rewrite Hn; lia).
Qed.

(** A stream that breaks off yields the frames that are complete. *)
Lemma frames_of_prefix gs l : Forall frame_wf gs → l `prefix_of` wire_bytes gs → frames_of l `prefix_of` gs.
Proof.
  intros Hgs. revert l. induction Hgs as [|[t p] gs Hf Hgs IH]; intros l Hpre.
  { apply prefix_nil_inv in Hpre as ->. done. }
  change (wire_bytes ((t, p) :: gs)) with (frame t p ++ wire_bytes gs) in Hpre.
  destruct (frame_header t p Hf) as (_ & _ & Hlen).
  assert (length (frame t p) = 5 + length p)%nat as Hl by done.
  destruct (decide (frame t p `prefix_of` l)) as [[l' ->]|Hno].
  { apply prefix_app_inv in Hpre. rewrite frames_of_cons by done. by apply prefix_cons, IH. }
  destruct (prefix_weak_total l (frame t p) _ Hpre (prefix_app_r _ _ _ (reflexivity _))) as [[m Hm]|?]; [|done].
  rewrite frames_of_short; [apply prefix_nil|].
  assert (m ≠ []) as Hne by (intros ->; apply Hno; rewrite Hm, app_nil_r; done).
  assert (length l + length m = 5 + length p)%nat as Hsum by by rewrite <- Hl, Hm, length_app.
  destruct m as [|b m]; [done|]. cbn [length] in Hsum.
  destruct (decide (5 <= length l)%nat) as [H5|]; [|lia].
  rewrite Hm, take_app_le in Hlen by done. rewrite Hlen, Nat2Z.id. lia.
Qed.

(** The part of a sequence of messages that came over [fd]. *)
Definition from (fd : Z) (ms : list InboundMessage) : list InboundMessage :=
  filter (λ m, in_fd m = fd) ms.

Lemma from_app fd ms ms' : from fd (ms ++ ms') = from fd ms ++ from fd ms'.
Proof. apply filter_app. Qed.

Lemma messages_fd fd fs m : m ∈ messages fd fs → in_fd m = fd.
Proof. intros ([t [|b p]] & Hm & _)%list_elem_of_bind; [by apply elem_of_nil in Hm|]. by apply list_elem_of_singleton in Hm as ->. Qed.

Lemma from_messages fd fd' fs : from fd (messages fd' fs) = if decide (fd' = fd) then messages fd' fs else [].
Proof.
  unfold from. case_decide as H.
  - apply filter_all. intros m Hm%messages_fd. congruence.
  - apply filter_none. intros m Hm%messages_fd ?. congruence.
Qed.
