(* ===== verification/ServerWrite.v ===== *)
(** * The write path of the server

    For each client, the bytes handed to the socket followed by the unsent part
    of its buffer are the payloads of its messages, in the order in which they
    were queued. *)

From S2P Require Import Prelude Outcome Order Bytes Serializer RingBuffer SharedQueue Sockets ExchangeServer ServerRead.

(** ** Vocabulary *)

(** [bytes_sent] stays within the buffer, the buffer within [size_t], and a
    buffer that is not empty has something left to send. *)
Definition write_ok (c : ClientState) : Prop :=
  0 <= bytes_sent c <= Z.of_nat (length (write_buffer c)) ∧
  is_u64 (Z.of_nat (length (write_buffer c))) ∧
  (write_buffer c ≠ [] → bytes_sent c < Z.of_nat (length (write_buffer c))).

(** What is addressed to a descriptor, in order. *)
Definition payloads_for (fd : Z) (ms : list OutboundMessage) : list Z :=
  ms ≫= λ m, if decide (out_fd m = fd) then out_payload m else [].

Lemma payloads_for_app fd ms ms' : payloads_for fd (ms ++ ms') = payloads_for fd ms ++ payloads_for fd ms'.
Proof. apply bind_app. Qed.

Lemma payloads_for_nil fd ms : Forall (λ m, out_fd m ≠ fd) ms → payloads_for fd ms = [].
Proof.
  induction 1 as [|m ms Hm _ IH]; [done|]. unfold payloads_for. cbn. by rewrite decide_False.
Qed.

Section write.
Context {Qin Qout W : Type}.
Context `{!BoundedQueue Qin InboundMessage}.
Context `{!BoundedQueue Qout OutboundMessage, !BoundedQueueLaws Qout OutboundMessage}.
Context `{!Sockets W, !SocketView W, !SocketLaws W}.
Implicit Types (s : Server Qin Qout W) (c : ClientState).

(** The bytes a client has been or will be sent. *)
Definition out_stream (fd : Z) s c : list Z := tx (world s) fd ++ unsent c.

(** Connection [fd] of [s] carries on in [s'] with [more] bytes queued, or a
    call reported its end and it was disconnected. *)
Definition carries_on (fd : Z) s c s' (more : list Z) : Prop :=
  ∃ c', clients_ s' !! Z.to_nat fd = Some c' ∧ write_ok c' ∧
    ((active c' = true ∧ out_stream fd s' c' = out_stream fd s c ++ more ∧
      read_state c' = read_state c ∧ rx (world s') fd = rx (world s) fd) ∨
     (c' = fresh_client ∧ dead (world s') fd = true)).

(** A step on behalf of [fd] does not touch the other connections. *)
Definition only_touches (fd : Z) s s' : Prop :=
  length (clients_ s') = length (clients_ s) ∧ others fd (world s) (world s') ∧
  ∀ fd', 0 <= fd' → fd' ≠ fd → clients_ s' !! Z.to_nat fd' = clients_ s !! Z.to_nat fd'.

(** Everything is sent, or a writable event will continue, or the socket
    refused to take more, or the attempt to register for writable events failed. *)
Definition settled (fd : Z) s : Prop := ∀ c,
  clients_ s !! Z.to_nat fd = Some c → active c = true →
  unsent c = [] ∨ epoll_out (world s) fd = true ∨ blocked (world s) fd = true ∨
  epoll_failed (world s) fd = true.

(** ** Lemmas *)

Lemma fresh_write_ok : write_ok fresh_client.
Proof. split_and!; cbn; try done; width. Qed.

(** The write path depends on its own members only. *)
Lemma write_state_ok c c' : write_state c' = write_state c → write_ok c → write_ok c'.
Proof. unfold write_state, write_ok. intros [= Hw Hb _ _]. by rewrite Hw, Hb. Qed.

Lemma write_state_unsent c c' : write_state c' = write_state c → unsent c' = unsent c.
Proof. unfold write_state, unsent. intros [= Hw Hb _ _]. by rewrite Hw, Hb. Qed.

Lemma unsent_nil c : write_ok c → write_buffer c ≠ [] → unsent c ≠ [].
Proof.
  intros (? & ? & H) Hne Heq. apply (f_equal length) in Heq. unfold unsent in Heq.
  rewrite length_drop in Heq. cbn in Heq. specialize (H Hne). lia.
Qed.

Lemma only_touches_update fd s c' w : 0 <= fd → others fd (world s) w →
  only_touches fd s (with_world (set_clients (<[Z.to_nat fd := c']> (clients_ s)) s) w).
Proof.
  intros Hfd Ho. split; [cbn; by rewrite length_insert|]. split; [done|]. intros fd' H0 Hne.
  cbn. apply list_lookup_insert_ne. lia.
Qed.

Lemma only_touches_settled fd fd' s s' : only_touches fd s s' → 0 <= fd' → fd' ≠ fd →
  settled fd' s → settled fd' s'.
Proof.
  intros (_ & [Ho _] & Hcl) H0 Hne Hs c Hc Hact. rewrite Hcl in Hc by done.
  destruct (Ho fd' Hne) as (_ & _ & He & _ & Hb & Hf). rewrite He, Hb, Hf. by apply Hs.
Qed.

Lemma unsent_advance c n : write_ok c → (n <= length (unsent c))%nat →
  u64 (bytes_sent c + Z.of_nat n) = bytes_sent c + Z.of_nat n ∧
  take n (unsent c) ++ drop (Z.to_nat (bytes_sent c + Z.of_nat n)) (write_buffer c) = unsent c.
Proof.
  intros (Hs & Hl & _) Hn. unfold unsent in *. rewrite length_drop in Hn. split; [apply u64_id; width|].
  rewrite <- (take_drop n (drop (Z.to_nat (bytes_sent c)) (write_buffer c))) at 2.
  rewrite drop_drop. do 2 f_equal. lia.
Qed.

Lemma set_epoll_write_Ok fd b s : ∃ w, set_epoll_write fd b s = Ok (with_world s w) tt ∧
  others fd (world s) w ∧ rx w fd = rx (world s) fd ∧ tx w fd = tx (world s) fd ∧
  (epoll_out w fd = b ∨ epoll_out w fd = epoll_out (world s) fd ∧ epoll_failed w fd = true).
Proof.
  destruct (epoll_mod_spec (epoll_fd_ s) fd b (world s)) as (w & He & Ho & Hrx & Htx & _ & _ & Hb).
  exists w. unfold set_epoll_write, bind, gets, sys, zoom. by rewrite He.
Qed.

(** The parts of the server that sending leaves alone. *)
Definition same_rest s s' : Prop :=
  inbound_queue_ s' = inbound_queue_ s ∧ outbound_queue_ s' = outbound_queue_ s ∧
  server_fd_ s' = server_fd_ s ∧ epoll_fd_ s' = epoll_fd_ s.

Definition same_queues s s' : Prop := pending_writes_ s' = pending_writes_ s ∧ same_rest s s'.

#[export] Instance same_rest_preorder : PreOrder same_rest.
Proof. split; [by intros s|]. unfold same_rest. intros s1 s2 s3. naive_solver congruence. Qed.

(** The client state after [n] more bytes were taken: the buffer is cleared
    when that was all of it. *)
Definition after_send (n : nat) c : ClientState :=
  if bytes_sent c + Z.of_nat n =? Z.of_nat (length (write_buffer c)) then set_write [] 0 c
  else set_write (write_buffer c) (bytes_sent c + Z.of_nat n) c.

Lemma after_send_ok n c : write_ok c → (n <= length (unsent c))%nat → write_ok (after_send n c).
Proof.
  intros (Hs & Hl & _) Hn. unfold unsent in Hn. rewrite length_drop in Hn. unfold after_send.
  destruct (Z.eqb_spec (bytes_sent c + Z.of_nat n) (Z.of_nat (length (write_buffer c)))).
  - apply fresh_write_ok.
  - split_and!; cbn; try width.
Qed.

(** What a send attempt may do. *)
Definition sent_some fd s c s' : Prop :=
  only_touches fd s s' ∧ same_queues s s' ∧ carries_on fd s c s' [].

Lemma sent_nothing fd s c w : clients_ s !! Z.to_nat fd = Some c → write_ok c → active c = true →
  others fd (world s) w → rx w fd = rx (world s) fd → tx w fd = tx (world s) fd →
  sent_some fd s c (with_world s w).
Proof.
  intros Hc Hok Hact Ho Hrx Htx. split; [by split_and!|split; [done|]].
  exists c. split; [done|]. split; [done|]. left. unfold out_stream. cbn. by rewrite Htx, app_nil_r.
Qed.

Lemma sent_disconnect fd s c w : 0 <= fd → clients_ s !! Z.to_nat fd = Some c →
  others fd (world s) w → dead w fd = true →
  ∃ s', disconnect_client fd (with_world s w) = Ok s' tt ∧ sent_some fd s c s' ∧
    clients_ s' !! Z.to_nat fd = Some fresh_client.
Proof.
  intros Hfd Hc Ho Hdead.
  destruct (disconnect_Ok fd Hfd (with_world s w) c Hc) as (s' & He & [Hcl Hp Hsf Hef Hq] & Hin & Ho').
  cbn in Hcl, Hp, Hsf, Hef, Hq, Hin, Ho'.
  assert (clients_ s' !! Z.to_nat fd = Some fresh_client) as Hc'.
  { rewrite Hcl. apply list_lookup_insert_eq. by eapply lookup_lt_Some. }
  exists s'. split; [done|]. split; [|done].
  split; [|split; [by split_and!|]].
  - split; [by rewrite Hcl, length_insert|]. split; [by etrans|]. intros fd' H0 Hne.
    rewrite Hcl. apply list_lookup_insert_ne. lia.
  - exists fresh_client. split; [done|]. split; [apply fresh_write_ok|]. right. split; [done|].
    by apply Ho'.
Qed.

(** The state after [n] bytes were taken and, maybe, registrations changed. *)
Lemma sent_bytes fd s c n w w2 : 0 <= fd → clients_ s !! Z.to_nat fd = Some c → write_ok c →
  active c = true → (n <= length (unsent c))%nat → tx w fd = tx (world s) fd ++ take n (unsent c) →
  others fd (world s) w → rx w fd = rx (world s) fd → others fd w w2 → rx w2 fd = rx w fd →
  tx w2 fd = tx w fd →
  sent_some fd s c
    (with_world (set_clients (<[Z.to_nat fd := after_send n c]> (clients_ s)) s) w2).
Proof.
  intros Hfd Hc Hok Hact Hn Htx Ho Hrx Ho2 Hrx2 Htx2. split; [|split; [done|]].
  { apply only_touches_update; [done|by etrans]. }
  exists (after_send n c). split; [apply list_lookup_insert_eq; by eapply lookup_lt_Some|].
  split; [by apply after_send_ok|]. left.
  destruct (unsent_advance c n Hok Hn) as [_ Hsplit]. destruct Hok as (Hs & Hl & _).
  unfold out_stream. cbn [world with_world]. rewrite Hrx2, Hrx, Htx2, Htx, <- app_assoc, app_nil_r. unfold after_send.
  destruct (Z.eqb_spec (bytes_sent c + Z.of_nat n) (Z.of_nat (length (write_buffer c)))) as [Heq|Hne].
  - split; [done|]. split; [|done]. f_equal. rewrite drop_ge in Hsplit by lia. exact Hsplit.
  - split; [done|]. split; [|done]. f_equal. exact Hsplit.
Qed.

Lemma sys_killed {A} fd (m : M W A) s : broken_pipe id fd (m (world s)) → broken_pipe world fd (sys m s).
Proof. intros (w & He & Hd). exists (with_world s w). unfold sys, zoom. by rewrite He. Qed.

Lemma try_send_spec fd s c : 0 <= fd → clients_ s !! Z.to_nat fd = Some c → write_ok c →
  (∃ s', try_send fd s = Ok s' tt ∧ settled fd s' ∧ if active c then sent_some fd s c s' else s' = s) ∨
  broken_pipe world fd (try_send fd s).
Proof.
  intros Hfd Hc Hok. unfold try_send. rewrite (bind_Ok _ _ _ _ _ (client_Ok fd Hfd _ _ Hc)).
  destruct (active c) eqn:Hact; cbn [negb].
  2: { left. exists s. split; [done|]. split; [|done]. intros c' Hc' Hact'. congruence. }
  case_bool_decide as Hne.
  { left. exists s. split; [done|]. split.
    - intros c' Hc' _. left. assert (c' = c) as -> by congruence. unfold unsent. rewrite Hne. apply drop_nil.
    - pose proof (sent_nothing fd s c (world s) Hc Hok Hact) as H. destruct s. by apply H. }
  pose proof (unsent_nil c Hok Hne) as Hun.
  destruct (send_spec fd (unsent c) (world s)) as [(w & r & Hr & Ho & Hrx & _ & _ & Hres)|Hkill];
    [left|right; by apply broken_pipe_bind, sys_killed].
  unfold bind at 1, sys, zoom. rewrite Hr. fold (with_world s w).
  destruct r as [[|n]| |].
  - destruct Hres as (_ & Hres & _). by destruct Hres.
  - destruct Hres as (Hn & _ & Htx). destruct (unsent_advance c (S n) Hok Hn) as [Hu _]. rewrite Hu.
    rewrite (bind_Ok _ _ _ _ _ (update_client_Ok fd Hfd (with_world s w) c _ Hc)).
    set (c1 := set_write _ _ c). set (s1 := set_clients _ _).
    assert (clients_ s1 !! Z.to_nat fd = Some c1) as Hc1.
    { apply list_lookup_insert_eq. by eapply lookup_lt_Some. }
    pose proof (λ w2, sent_bytes fd s c (S n) w w2 Hfd Hc Hok Hact Hn Htx Ho Hrx) as H. unfold after_send in H.
    destruct (Z.eqb_spec (bytes_sent c + Z.of_nat (S n)) (Z.of_nat (length (write_buffer c)))) as [Heq|Hneq].
    + rewrite (update_client_Ok fd Hfd s1 c1 _ Hc1). eexists. split; [done|].
      unfold s1. cbn [set_clients clients_]. rewrite list_insert_insert_eq. split; [|by apply (H w)].
      intros c' Hc' _. left. cbn in Hc'. rewrite list_lookup_insert_eq in Hc' by by eapply lookup_lt_Some.
      by injection Hc' as <-.
    + destruct (set_epoll_write_Ok fd true s1) as (w2 & He & Ho2 & Hrx2 & Htx2 & Hep). rewrite He.
      eexists. split; [done|]. split; [|by apply (H w2)]. intros c' _ _. cbn [world with_world].
      destruct Hep as [?|[_ ?]]; auto.
  - destruct Hres as [Htx Hbl]. exists (with_world s w). split; [done|].
    split; [intros c' _ _; by right; right; left|by apply sent_nothing].
  - destruct Hres as [_ Hdead]. destruct (sent_disconnect fd s c w Hfd Hc Ho Hdead) as (s' & He & H1 & H2).
    exists s'. split; [done|]. split; [|done]. intros c' Hc1 Hact'. by simplify_eq.
Qed.

(** What a writable event leaves to do for [c]. *)
Definition write_progress fd s c s' : Prop := ∀ c',
  clients_ s' !! Z.to_nat fd = Some c' → active c' = true →
  (unsent c' = [] ∧ (epoll_out (world s') fd = false ∨ epoll_failed (world s') fd = true)) ∨
  (epoll_out (world s') fd = epoll_out (world s) fd ∧
   ((length (unsent c') < length (unsent c))%nat ∨ blocked (world s') fd = true)).

Lemma handle_write_spec fd s c : 0 <= fd → clients_ s !! Z.to_nat fd = Some c → write_ok c →
  active c = true → write_buffer c ≠ [] →
  (∃ s', handle_write fd s = Ok s' tt ∧ sent_some fd s c s' ∧ write_progress fd s c s') ∨
  broken_pipe world fd (handle_write fd s).
Proof.
  intros Hfd Hc Hok Hact Hne. unfold handle_write.
  rewrite (bind_Ok _ _ _ _ _ (client_Ok fd Hfd _ _ Hc)), Hact. cbn [negb].
  pose proof (unsent_nil c Hok Hne) as Hun.
  destruct (send_spec fd (unsent c) (world s)) as [(w & r & Hr & Ho & Hrx & Hep & _ & Hres)|Hkill];
    [left|right; by apply broken_pipe_bind, sys_killed].
  unfold bind at 1, sys, zoom. rewrite Hr. fold (with_world s w).
  destruct r as [[|n]| |].
  - destruct Hres as (_ & Hres & _). by destruct Hres.
  - destruct Hres as (Hn & _ & Htx). destruct (unsent_advance c (S n) Hok Hn) as [Hu Hsp]. rewrite Hu.
    rewrite (bind_Ok _ _ _ _ _ (update_client_Ok fd Hfd (with_world s w) c _ Hc)).
    set (c1 := set_write _ _ c). set (s1 := set_clients _ _).
    assert (clients_ s1 !! Z.to_nat fd = Some c1) as Hc1.
    { apply list_lookup_insert_eq. by eapply lookup_lt_Some. }
    assert (bytes_sent c + Z.of_nat (S n) <= Z.of_nat (length (write_buffer c))) as Hle.
    { destruct Hok as (? & ? & _). unfold unsent in Hn. rewrite length_drop in Hn. lia. }
    pose proof (λ w2, sent_bytes fd s c (S n) w w2 Hfd Hc Hok Hact Hn Htx Ho Hrx) as H. unfold after_send in H.
    destruct (Z.ltb_spec (bytes_sent c + Z.of_nat (S n)) (Z.of_nat (length (write_buffer c)))) as [Hlt|Hge].
    + exists s1. split; [done|]. rewrite (proj2 (Z.eqb_neq _ _)) in H by lia. split; [by apply (H w)|].
      intros c' Hc' _. right. split; [done|]. left. assert (c' = c1) as -> by congruence.
      assert (unsent c1 = drop (Z.to_nat (bytes_sent c + Z.of_nat (S n))) (write_buffer c)) as -> by done.
      apply (f_equal length) in Hsp. rewrite length_app, length_take in Hsp. lia.
    + rewrite (proj2 (Z.eqb_eq _ _)) in H by lia.
      rewrite (bind_Ok _ _ _ _ _ (update_client_Ok fd Hfd s1 c1 _ Hc1)).
      match goal with |- context [set_epoll_write fd false ?s2] =>
        destruct (set_epoll_write_Ok fd false s2) as (w2 & He & Ho2 & Hrx2 & Htx2 & Hep2) end.
      rewrite He. eexists. split; [done|]. unfold s1. cbn [set_clients clients_].
      rewrite list_insert_insert_eq. split; [by apply (H w2)|]. intros c' Hc' _. left.
      split; [|cbn [world with_world]; destruct Hep2 as [?|[_ ?]]; auto].
      cbn in Hc'. rewrite list_lookup_insert_eq in Hc' by by eapply lookup_lt_Some. by injection Hc' as <-.
  - destruct Hres as [Htx Hbl]. exists (with_world s w). split; [done|].
    split; [by apply sent_nothing|]. intros c' _ _. right. split; [done|by right].
  - destruct Hres as [_ Hdead]. destruct (sent_disconnect fd s c w Hfd Hc Ho Hdead) as (s' & He & H1 & H2).
    exists s'. split; [done|]. split; [done|]. intros c' Hc' Hact'. by simplify_eq.
Qed.

(** What any writable event may do, also one that is reported for a client with
    nothing to send. *)
Definition touched fd s s' : Prop :=
  only_touches fd s s' ∧ same_queues s s' ∧
  ∀ c, clients_ s !! Z.to_nat fd = Some c →
    ∃ c', clients_ s' !! Z.to_nat fd = Some c' ∧ write_ok c' ∧
      ((active c' = active c ∧ read_state c' = read_state c ∧ rx (world s') fd = rx (world s) fd ∧
        out_stream fd s' c' = out_stream fd s c) ∨
       c' = fresh_client).

Lemma sent_some_touched fd s c s' : clients_ s !! Z.to_nat fd = Some c → active c = true →
  sent_some fd s c s' → touched fd s s'.
Proof.
  intros Hc Hact (Ht & Hq & c' & Hc' & Hok & H). split; [done|]. split; [done|]. intros c1 Hc1.
  exists c'. split; [done|]. split; [done|]. simplify_eq. destruct H as [(? & Hs & ? & ?)|[? _]]; [left|by right].
  rewrite app_nil_r in Hs. split; [congruence|done].
Qed.

Lemma handle_write_touched fd s c : 0 <= fd → clients_ s !! Z.to_nat fd = Some c → write_ok c →
  (∃ s', handle_write fd s = Ok s' tt ∧ touched fd s s') ∨ broken_pipe world fd (handle_write fd s).
Proof.
  intros Hfd Hc Hok. destruct (active c) eqn:Hact.
  2: { left. exists s. unfold handle_write. rewrite (bind_Ok _ _ _ _ _ (client_Ok fd Hfd _ _ Hc)), Hact.
       split; [done|]. split; [by split_and!|]. split; [done|]. intros c' Hc'. exists c'. simplify_eq.
       by split_and!; try left. }
  destruct (decide (write_buffer c = [])) as [Hnil|Hne].
  2: { destruct (handle_write_spec fd s c Hfd Hc Hok Hact Hne) as [(s' & He & Hs & _)|?]; [left|by right].
       exists s'. split; [done|by apply (sent_some_touched fd s c)]. }
  unfold handle_write. rewrite (bind_Ok _ _ _ _ _ (client_Ok fd Hfd _ _ Hc)), Hact. cbn [negb].
  assert (unsent c = []) as -> by (unfold unsent; rewrite Hnil; apply drop_nil).
  destruct (send_spec fd [] (world s)) as [(w & r & Hr & Ho & Hrx & _ & _ & Hres)|Hkill];
    [left|right; by apply broken_pipe_bind, sys_killed].
  unfold bind at 1, sys, zoom. rewrite Hr. fold (with_world s w).
  destruct (disconnect_Ok fd Hfd (with_world s w) c Hc) as (s' & He & Hm & Hin & Ho').
  assert (touched fd s s') as Hd.
  { destruct Hm as [Hcl Hp Hsf Hef Hq]. cbn in Hcl, Hp, Hsf, Hef, Hq, Hin, Ho'. split; [|split; [done|]].
    - split; [by rewrite Hcl, length_insert|]. split; [by etrans|]. intros fd' H0 Hne. rewrite Hcl.
      apply list_lookup_insert_ne. lia.
    - intros c' _. exists fresh_client. split; [|split; [apply fresh_write_ok|by right]].
      rewrite Hcl. apply list_lookup_insert_eq. by eapply lookup_lt_Some. }
  destruct r as [[|n]| |]; [by exists s'| | |by exists s'].
  - destruct Hres as [Hn _]. cbn in Hn. lia.
  - exists (with_world s w). split; [done|]. split; [by split_and!|]. split; [done|].
    intros c' Hc'. exists c'. cbn in Hc'. simplify_eq. split; [done|]. split; [done|]. left.
    split_and!; try done. unfold out_stream. cbn. by rewrite (proj1 Hres).
Qed.

(** ** From the outbound queue to the buffers *)

(** The client a message is for, if it is connected. *)
Definition reaches (cs : list ClientState) (m : OutboundMessage) : bool :=
  bool_decide (0 <= out_fd m) &&
  match cs !! Z.to_nat (out_fd m) with Some c => active c | None => false end.

Definition is_int (z : Z) : Prop := - 2 ^ 31 <= z < 2 ^ 31.

Definition buffered (l : list Z) c : ClientState := set_write (write_buffer c ++ l) (bytes_sent c) c.

(** The clients after a message was delivered. *)
Definition deliver_clients (cs : list ClientState) (m : OutboundMessage) : list ClientState :=
  if reaches cs m then alter (buffered (out_payload m)) (Z.to_nat (out_fd m)) cs else cs.

Definition deliver_pending (cs : list ClientState) (m : OutboundMessage) : list Z :=
  if reaches cs m then [out_fd m] else [].

Lemma deliver_spec m s : is_int (out_fd m) → Z.of_nat (length (clients_ s)) <= 2 ^ 63 →
  deliver m s =
    Ok (set_pending (pending_writes_ s ++ deliver_pending (clients_ s) m)
          (set_clients (deliver_clients (clients_ s) m) s)) tt.
Proof.
  intros Hint Hlen.
  assert (set_pending (pending_writes_ s ++ []) (set_clients (clients_ s) s) = s) as Hid.
  { rewrite app_nil_r. by destruct s. }
  unfold deliver, gets, deliver_clients, deliver_pending, reaches. unfold bind at 1.
  destruct (Z.leb_spec (Z.of_nat (length (clients_ s))) (u64 (out_fd m))) as [Hge|Hlt].
  - case_bool_decide as H0; cbn [andb]; [|by rewrite Hid]. rewrite u64_id in Hge by (unfold is_int in *; width).
    rewrite lookup_ge_None_2 by lia. by rewrite Hid.
  - assert (0 <= out_fd m) as H0.
    { destruct (decide (0 <= out_fd m)); [done|]. unfold is_int, u64 in *.
      rewrite <- (Z.mod_add (out_fd m) 1), Z.mod_small in Hlt by lia. lia. }
    rewrite u64_id in Hlt by (unfold is_int in *; width).
    rewrite bool_decide_eq_true_2 by done. cbn [andb].
    destruct (lookup_lt_is_Some_2 (clients_ s) (Z.to_nat (out_fd m))) as [c Hc]; [lia|]. rewrite Hc.
    rewrite (bind_Ok _ _ _ _ _ (client_Ok _ H0 _ _ Hc)). destruct (active c); cbn [negb]; [|by rewrite Hid].
    rewrite (bind_Ok _ _ _ _ _ (update_client_Ok _ H0 _ c _ Hc)).
    by rewrite (alter_insert _ _ _ _ Hc).
Qed.

Lemma deliver_clients_length cs m : length (deliver_clients cs m) = length cs.
Proof. unfold deliver_clients. destruct (reaches cs m); [apply length_alter|done]. Qed.

Lemma buffered_nil c : buffered [] c = c.
Proof. unfold buffered, set_write. rewrite app_nil_r. by destruct c. Qed.

Lemma buffered_app l k c : buffered k (buffered l c) = buffered (l ++ k) c.
Proof. unfold buffered, set_write. cbn. by rewrite <- app_assoc. Qed.

(** Delivering messages appends to each connected client's buffer what is
    addressed to it. *)
Lemma deliver_clients_lookup ms cs j c : cs !! j = Some c →
  foldl deliver_clients cs ms !! j =
    Some (if active c then buffered (payloads_for (Z.of_nat j) ms) c else c).
Proof.
  revert cs c. induction ms as [|m ms IH]; intros cs c Hc; cbn [foldl].
  { destruct (active c); [|done]. by rewrite buffered_nil. }
  assert (payloads_for (Z.of_nat j) (m :: ms) =
    (if decide (out_fd m = Z.of_nat j) then out_payload m else []) ++ payloads_for (Z.of_nat j) ms) as ->
    by done.
  assert (deliver_clients cs m !! j =
    Some (if active c then
            buffered (if decide (out_fd m = Z.of_nat j) then out_payload m else []) c else c)) as Hd.
  { unfold deliver_clients, reaches. destruct (decide (out_fd m = Z.of_nat j)) as [->|Hne].
    - rewrite bool_decide_eq_true_2, Nat2Z.id, Hc by lia. cbn [andb].
      destruct (active c); [|done]. by rewrite list_lookup_alter_eq, Hc.
    - rewrite buffered_nil. transitivity (cs !! j); [|rewrite Hc; by destruct (active c)].
      case_bool_decide; cbn [andb]; [|done]. repeat case_match; try done.
      apply list_lookup_alter_ne. lia. }
  rewrite (IH _ _ Hd). destruct (active c) eqn:Hact; [|by rewrite Hact].
  change (active (buffered _ c)) with (active c). by rewrite Hact, buffered_app.
Qed.

Lemma reaches_deliver cs m m' : reaches (deliver_clients cs m') m = reaches cs m.
Proof.
  unfold reaches. f_equal. destruct (cs !! Z.to_nat (out_fd m)) as [c|] eqn:Hc.
  - rewrite (deliver_clients_lookup [m'] cs _ _ Hc : deliver_clients cs m' !! _ = _). by destruct (active c) eqn:?.
  - rewrite lookup_ge_None_2; [done|]. rewrite deliver_clients_length. by apply lookup_ge_None_1.
Qed.

Lemma deliver_pending_in cs m : Forall (λ fd, in_clients fd cs) (deliver_pending cs m).
Proof.
  unfold deliver_pending, reaches. case_bool_decide as H0; cbn [andb]; [|constructor].
  destruct (cs !! Z.to_nat (out_fd m)) as [c|] eqn:Hl; [|constructor].
  destruct (active c); [|constructor]. apply Forall_singleton.
  pose proof (lookup_lt_Some _ _ _ Hl). unfold in_clients. lia.
Qed.

Lemma drain_outbound_spec fuel s ms : q_rep (outbound_queue_ s) ms → (length ms < fuel)%nat →
  Forall (λ m, is_int (out_fd m)) ms → Z.of_nat (length (clients_ s)) <= 2 ^ 63 →
  ∃ q fds, drain_outbound_queue fuel s =
      Ok (mkServer (foldl deliver_clients (clients_ s) ms) (pending_writes_ s ++ fds) (server_fd_ s)
            (epoll_fd_ s) (inbound_queue_ s) q (world s)) tt ∧
    q_rep q [] ∧ Forall (λ fd, in_clients fd (clients_ s)) fds ∧
    ∀ m, m ∈ ms → reaches (clients_ s) m = true → out_fd m ∈ fds.
Proof.
  revert s ms. induction fuel as [|fuel IH]; intros s ms Hq Hf Hint Hlen; [lia|].
  cbn [drain_outbound_queue]. unfold bind at 1, on_outbound, zoom. destruct ms as [|m ms].
  { rewrite (q_pop_empty _ Hq). exists (outbound_queue_ s), []. rewrite app_nil_r. destruct s.
    split_and!; try done. intros m Hm. by apply elem_of_nil in Hm. }
  apply Forall_cons in Hint as [Hm Hint].
  destruct (q_pop_first _ _ _ Hq) as (q1 & -> & Hq1).
  set (s1 := mkServer _ _ _ _ _ q1 _).
  rewrite (bind_Ok _ _ _ _ _ (deliver_spec m s1 Hm Hlen)).
  set (s2 := set_pending _ _). cbn [length] in Hf.
  destruct (IH s2 ms) as (q & fds & He & Hq' & Hfds & Hin); [done|lia|done| |].
  { cbn. by rewrite deliver_clients_length. }
  rewrite He. exists q, (deliver_pending (clients_ s) m ++ fds). split_and!; [|done|..].
  - cbn. by rewrite app_assoc.
  - apply Forall_app. split; [apply deliver_pending_in|].
    cbn in Hfds. unfold in_clients in *. by rewrite deliver_clients_length in Hfds.
  - intros m' Hm' Hr. apply elem_of_app. apply elem_of_cons in Hm' as [->|Hm'].
    + left. unfold deliver_pending. rewrite Hr. by apply list_elem_of_singleton.
    + right. apply Hin; [done|]. cbn. by rewrite reaches_deliver.
Qed.

(** ** Flushing *)

(** Every connected client of [s] carries on in [s'] and no other slot is used. *)
Definition all_carry_on s s' (more : Z → list Z) : Prop :=
  length (clients_ s') = length (clients_ s) ∧
  kept (world s) (world s') ∧
  ∀ fd c, 0 <= fd → clients_ s !! Z.to_nat fd = Some c →
    if active c then carries_on fd s c s' (more fd) else clients_ s' !! Z.to_nat fd = Some c.

Definition all_write_ok s : Prop := Forall write_ok (clients_ s).

Lemma all_carry_on_write_ok s s' more : all_write_ok s → all_carry_on s s' more → all_write_ok s'.
Proof.
  intros Hok (Hlen & _ & Hall). apply Forall_lookup. intros j c' Hc'.
  destruct (lookup_lt_is_Some_2 (clients_ s) j) as [c Hc].
  { pose proof (lookup_lt_Some _ _ _ Hc'). lia. }
  specialize (Hall (Z.of_nat j) c). rewrite Nat2Z.id in Hall. specialize (Hall ltac:(lia) Hc).
  unfold all_write_ok in Hok. rewrite Forall_lookup in Hok. destruct (active c).
  - destruct Hall as (c2 & Hc2 & Hw & _). rewrite Nat2Z.id in Hc2. congruence.
  - specialize (Hok j c Hc). congruence.
Qed.

Lemma all_carry_on_trans s s1 s2 m1 m2 : all_carry_on s s1 m1 → all_carry_on s1 s2 m2 →
  all_carry_on s s2 (λ fd, m1 fd ++ m2 fd).
Proof.
  intros (Hl1 & Hd1 & H1) (Hl2 & Hd2 & H2). split; [congruence|]. split; [by transitivity (world s1)|].
  intros fd c Hfd Hc. specialize (H1 fd c Hfd Hc).
  destruct (active c) eqn:Hact.
  - destruct H1 as (c1 & Hc1 & Hw1 & H1). specialize (H2 fd c1 Hfd Hc1).
    destruct H1 as [(Ha & Hs & Hr & Hx)|[-> Hd]].
    + rewrite Ha in H2. destruct H2 as (c2 & Hc2 & Hw2 & H2). exists c2. split; [done|]. split; [done|].
      destruct H2 as [(Ha2 & Hs2 & Hr2 & Hx2)|?]; [left|by right].
      split; [done|]. split; [by rewrite Hs2, Hs, app_assoc|split; congruence].
    + exists fresh_client. split; [done|]. split; [apply fresh_write_ok|right]. split; [done|by apply Hd2].
  - specialize (H2 fd c Hfd H1). by rewrite Hact in H2.
Qed.

(** The stream of a client that is connected afterwards. *)
Lemma carried_stream s s' more fd c' : all_carry_on s s' more → 0 <= fd →
  clients_ s' !! Z.to_nat fd = Some c' → active c' = true →
  ∃ c, clients_ s !! Z.to_nat fd = Some c ∧ active c = true ∧
    out_stream fd s' c' = out_stream fd s c ++ more fd.
Proof.
  intros (Hlen & _ & Hall) Hfd Hc' Hact.
  destruct (lookup_lt_is_Some_2 (clients_ s) (Z.to_nat fd)) as [c Hc].
  { rewrite <- Hlen. by eapply lookup_lt_Some. }
  exists c. split; [done|]. specialize (Hall fd c Hfd Hc). destruct (active c) eqn:Hact0; [|congruence].
  split; [done|]. destruct Hall as (c2 & Hc2 & _ & Hor). assert (c2 = c') as -> by congruence.
  destruct Hor as [(_ & ? & _)|[-> _]]; done.
Qed.

Lemma all_carry_on_refl s : all_write_ok s → all_carry_on s s (λ _, []).
Proof.
  intros Hok. split; [done|]. split; [done|]. intros fd c Hfd Hc. destruct (active c) eqn:Hact; [|done].
  exists c. split; [done|]. unfold all_write_ok in Hok. rewrite Forall_lookup in Hok.
  split; [by eapply Hok|]. left. by rewrite app_nil_r.
Qed.

Lemma sent_some_all fd s c s' : 0 <= fd → clients_ s !! Z.to_nat fd = Some c → active c = true →
  all_write_ok s → sent_some fd s c s' → all_carry_on s s' (λ _, []).
Proof.
  intros Hfd Hc Hact Hok ((Hlen & [Ho Hd] & Hoth) & _ & Hcarry). split; [done|]. split; [done|].
  intros fd' c' Hfd' Hc'. destruct (decide (fd' = fd)) as [->|Hne].
  { rewrite Hc in Hc'. injection Hc' as <-. by rewrite Hact. }
  specialize (Hoth fd' Hfd' Hne). destruct (Ho fd' Hne) as (Hrx & Htx & _).
  rewrite Hc' in Hoth. destruct (active c') eqn:Hact'; [|done]. exists c'. split; [done|].
  unfold all_write_ok in Hok. rewrite Forall_lookup in Hok.
  split; [by eapply Hok|]. left. unfold out_stream. by rewrite Htx, app_nil_r.
Qed.

Lemma flush_loop_spec fds s : all_write_ok s → Forall (λ fd, in_clients fd (clients_ s)) fds →
  (∃ s', for_each fds try_send s = Ok s' tt ∧ all_carry_on s s' (λ _, []) ∧
    same_rest s s' ∧ pending_writes_ s' = pending_writes_ s ∧
    ∀ fd, 0 <= fd → fd ∈ fds ∨ settled fd s → settled fd s') ∨
  ∃ fd, broken_pipe world fd (for_each fds try_send s).
Proof.
  revert s. induction fds as [|fd fds IH]; intros s Hok Hfds.
  { left. exists s. split; [done|]. split; [by apply all_carry_on_refl|]. split; [done|]. split; [done|].
    intros fd _ [Hin|?]; [by apply elem_of_nil in Hin|done]. }
  apply Forall_cons in Hfds as [[Hfd Hlt] Hfds].
  destruct (lookup_lt_is_Some_2 (clients_ s) (Z.to_nat fd)) as [c Hc]; [lia|].
  pose proof Hok as Hok'. unfold all_write_ok in Hok'. rewrite Forall_lookup in Hok'.
  destruct (try_send_spec fd s c Hfd Hc (Hok' _ _ Hc)) as [(s1 & He & Hset & H1)|Hkill].
  2: { right. exists fd. by apply broken_pipe_bind. }
  assert (all_carry_on s s1 (λ _, []) ∧ same_rest s s1 ∧ pending_writes_ s1 = pending_writes_ s ∧
    ∀ fd', 0 <= fd' → fd' ≠ fd → settled fd' s → settled fd' s1) as (Hcarry & Hrest & Hpend & Hkeep).
  { destruct (active c) eqn:Hact; [|subst s1; by split; [apply all_carry_on_refl|]].
    split; [by apply (sent_some_all fd s c)|]. destruct H1 as (Ht & [? ?] & _). split; [done|]. split; [done|].
    intros fd'. by apply only_touches_settled. }
  cbn [for_each]. rewrite (bind_Ok _ _ _ _ _ He).
  destruct (IH s1) as [(s2 & He2 & Hc2 & Hrest2 & Hpend2 & Hset2)|?]; [..|left|by right].
  { by eapply all_carry_on_write_ok. }
  { unfold in_clients in *. by rewrite (proj1 Hcarry). }
  exists s2. split; [done|].
  split; [exact (all_carry_on_trans _ _ _ _ _ Hcarry Hc2)|]. split; [by transitivity s1|]. split; [congruence|].
  intros fd' H0 Hor. apply Hset2; [done|]. destruct (decide (fd' = fd)) as [->|Hne]; [by right|].
  destruct Hor as [Hin|Hs]; [left|right; by apply Hkeep]. apply elem_of_cons in Hin as [?|?]; done.
Qed.

(** Room for the messages to come in every buffer. *)
Definition buffers_have_room s (ms : list OutboundMessage) : Prop := Forall (λ c,
  Z.of_nat (length (write_buffer c) + length (ms ≫= out_payload)) < 2 ^ 64) (clients_ s).

Lemma payloads_for_length fd ms : (length (payloads_for fd ms) <= length (ms ≫= out_payload))%nat.
Proof.
  induction ms as [|m ms IH]; cbn; [done|]. rewrite !length_app.
  change (ms ≫= _) with (payloads_for fd ms) at 1. case_decide; cbn; lia.
Qed.

Lemma deliver_all_length ms cs : length (foldl deliver_clients cs ms) = length cs.
Proof.
  revert cs. induction ms as [|m ms IH]; intros cs; cbn [foldl]; [done|].
  by rewrite IH, deliver_clients_length.
Qed.

Lemma drained_carry_on s s' ms : all_write_ok s → buffers_have_room s ms →
  clients_ s' = foldl deliver_clients (clients_ s) ms → world s' = world s →
  all_carry_on s s' (λ fd, payloads_for fd ms).
Proof.
  intros Hok Hroom Hcl Hw. unfold all_write_ok, buffers_have_room in *.
  rewrite Forall_lookup in Hok, Hroom. split; [by rewrite Hcl, deliver_all_length|]. split; [by rewrite Hw|].
  intros fd c Hfd Hc. pose proof (deliver_clients_lookup ms _ _ _ Hc) as Hl. rewrite <- Hcl in Hl.
  rewrite Z2Nat.id in Hl by done. destruct (active c) eqn:Hact; [|done].
  exists (buffered (payloads_for fd ms) c). split; [done|].
  destruct (Hok _ _ Hc) as (Hs & Hu & Hpos). specialize (Hroom _ _ Hc).
  pose proof (payloads_for_length fd ms) as Hlen. split.
  - split_and!; cbn; rewrite ?length_app; try width. intros Hne.
    destruct (payloads_for fd ms); [rewrite app_nil_r in Hne; specialize (Hpos Hne)|]; cbn; lia.
  - left. split; [done|]. split; [|split; [done|by rewrite Hw]]. unfold out_stream, unsent. rewrite Hw. cbn.
    rewrite drop_app_le by lia. by rewrite app_assoc.
Qed.

(** A client whose outgoing data was taken care of before the messages were
    drained, or that is in the list of descriptors to flush, or that gets a
    message and is therefore put in that list. *)
Lemma drained_settled fd s s' ms (fds : list Z) : 0 <= fd →
  clients_ s' = foldl deliver_clients (clients_ s) ms → world s' = world s →
  (∀ m, m ∈ ms → reaches (clients_ s) m = true → out_fd m ∈ fds) →
  settled fd s ∨ (∃ m, m ∈ ms ∧ out_fd m = fd) → fd ∈ fds ∨ settled fd s'.
Proof.
  intros Hfd Hcl Hw Hfds Hor.
  destruct (clients_ s !! Z.to_nat fd) as [c|] eqn:Hc.
  2: { right. intros c Hc'. rewrite Hcl in Hc'. apply lookup_lt_Some in Hc'.
       rewrite deliver_all_length in Hc'. apply lookup_ge_None_1 in Hc. lia. }
  pose proof (deliver_clients_lookup ms _ _ _ Hc) as Hl. rewrite Z2Nat.id in Hl by done.
  destruct (active c) eqn:Hact.
  2: { right. intros c' Hc' Hact'. rewrite Hcl, Hl in Hc'. congruence. }
  destruct (decide (Exists (λ m, out_fd m = fd) ms)) as [Hex|Hno].
  - apply Exists_exists in Hex as (m & Hm & <-). left. apply (Hfds m Hm). unfold reaches.
    by rewrite bool_decide_eq_true_2, Hc.
  - right. destruct Hor as [Hs|(m & Hm & <-)]; [|destruct Hno; apply Exists_exists; by exists m].
    assert (payloads_for fd ms = []) as Hnil by by apply payloads_for_nil, Forall_Exists_neg.
    rewrite Hnil, buffered_nil in Hl. intros c' Hc' _. rewrite Hcl, Hl in Hc'. injection Hc' as <-.
    rewrite Hw. by apply Hs.
Qed.

(** Draining and flushing. *)
Lemma drain_flush_spec fuel s ms : q_rep (outbound_queue_ s) ms → (length ms < fuel)%nat →
  Forall (λ m, is_int (out_fd m)) ms → Z.of_nat (length (clients_ s)) <= 2 ^ 63 →
  all_write_ok s → buffers_have_room s ms →
  Forall (λ fd, in_clients fd (clients_ s)) (pending_writes_ s) →
  (∃ s', (drain_outbound_queue fuel ;;; flush_pending_writes) s = Ok s' tt ∧
    q_rep (outbound_queue_ s') [] ∧ pending_writes_ s' = [] ∧ all_write_ok s' ∧
    all_carry_on s s' (λ fd, payloads_for fd ms) ∧
    (inbound_queue_ s' = inbound_queue_ s ∧ server_fd_ s' = server_fd_ s ∧ epoll_fd_ s' = epoll_fd_ s) ∧
    ∀ fd, 0 <= fd → fd ∈ pending_writes_ s ∨ settled fd s ∨ (∃ m, m ∈ ms ∧ out_fd m = fd) →
      settled fd s') ∨
  ∃ fd, broken_pipe world fd ((drain_outbound_queue fuel ;;; flush_pending_writes) s).
Proof.
  intros Hq Hf Hint Hlen Hok Hroom Hpend.
  destruct (drain_outbound_spec fuel s ms Hq Hf Hint Hlen) as (q & fds & He & Hq' & Hfds & Hin).
  rewrite (bind_Ok _ _ _ _ _ He). set (s1 := mkServer _ _ _ _ _ q _).
  assert (all_carry_on s s1 (λ fd, payloads_for fd ms)) as H1 by by apply drained_carry_on.
  pose proof (all_carry_on_write_ok _ _ _ Hok H1) as Hok1.
  unfold flush_pending_writes, gets. unfold bind at 1 3.
  destruct (flush_loop_spec (pending_writes_ s1) s1 Hok1)
    as [(s2 & He2 & H2 & (Hin2 & Hout & Hsf & Hef) & _ & Hset)|[fd Hkill]];
    [|left|right; exists fd; by apply broken_pipe_bind].
  { unfold in_clients. rewrite (proj1 H1). apply Forall_app. split; [exact Hpend|exact Hfds]. }
  rewrite (bind_Ok _ _ _ _ _ He2).
  exists (set_pending [] s2). split; [done|]. cbn. rewrite Hout. split; [done|]. split; [done|].
  split; [exact (all_carry_on_write_ok _ _ _ Hok1 H2)|]. split; [|split].
  - destruct (all_carry_on_trans _ _ _ _ _ H1 H2) as (Hl & Hd & H). split; [exact Hl|]. split; [exact Hd|].
    intros fd c Hfd Hc. specialize (H fd c Hfd Hc). rewrite app_nil_r in H. exact H.
  - split_and!; [exact Hin2|exact Hsf|exact Hef].
  - intros fd Hfd [Hp|Hor]; apply (Hset fd Hfd); cbn; rewrite elem_of_app; [by auto|].
    destruct (drained_settled fd s s1 ms fds Hfd eq_refl eq_refl Hin Hor); by auto.
Qed.

(** ** Main theorems *)

(** C16: nothing is lost, duplicated, reordered or left behind on the way out.
    Draining the outbound queue and flushing terminates, empties the queue and
    the list of pending writes, and for every connected client the bytes taken
    by the socket so far followed by the bytes still buffered grow by exactly
    the payloads addressed to it, in queue order; a client is disconnected only
    when a call reported its end, and nothing is written for unconnected slots.
    Afterwards each client that was sent a message, was waiting to be flushed or
    had been taken care of before has nothing unsent left, or waits for a writable
    event, or has a socket that would block, or could not be registered for
    writable events.  The one other way to end is [SIGPIPE]: a [send] to a peer
    that is gone ends the process. *)
Theorem flush_delivers fuel s ms : q_rep (outbound_queue_ s) ms → (length ms < fuel)%nat →
  Forall (λ m, is_int (out_fd m)) ms → Z.of_nat (length (clients_ s)) <= 2 ^ 63 →
  all_write_ok s → buffers_have_room s ms →
  Forall (λ fd, in_clients fd (clients_ s)) (pending_writes_ s) →
  (∃ s', (drain_outbound_queue fuel ;;; flush_pending_writes) s = Ok s' tt ∧
    q_rep (outbound_queue_ s') [] ∧ pending_writes_ s' = [] ∧ all_write_ok s' ∧
    all_carry_on s s' (λ fd, payloads_for fd ms) ∧
    ∀ fd, 0 <= fd → fd ∈ pending_writes_ s ∨ settled fd s ∨ (∃ m, m ∈ ms ∧ out_fd m = fd) →
      settled fd s') ∨
  ∃ fd, broken_pipe world fd ((drain_outbound_queue fuel ;;; flush_pending_writes) s).
Proof.
  intros Hq Hf Hint Hlen Hok Hroom Hpend.
  destruct (drain_flush_spec fuel s ms Hq Hf Hint Hlen Hok Hroom Hpend)
    as [(s' & He & Hq' & Hp & Hok' & Hall & _ & Hset)|?]; [left; by exists s'|by right].
Qed.

(** C32: for a client with buffered data, a writable event continues where the
    last attempt stopped: the client's outgoing stream is unchanged and other
    clients are not touched.  Either all of the buffer was taken, and writable
    events are switched off unless [epoll_ctl] fails, or they stay as they are
    and fewer bytes are left or the socket would block; the client is
    disconnected only when a call reported its end.  If its peer is gone, the
    [send] may also end the process. *)
Theorem handle_write_keeps_stream fd s c :
  0 <= fd → clients_ s !! Z.to_nat fd = Some c → active c = true → write_ok c →
  write_buffer c ≠ [] →
  (∃ s', handle_write fd s = Ok s' tt ∧ only_touches fd s s' ∧ carries_on fd s c s' [] ∧
    write_progress fd s c s') ∨
  broken_pipe world fd (handle_write fd s).
Proof.
  intros Hfd Hc Hact Hok Hne.
  destruct (handle_write_spec fd s c Hfd Hc Hok Hact Hne) as [(s' & He & (Ht & _ & H) & Hp)|?];
    [left; by exists s'|by right].
Qed.

(** C36: a client whose buffer was sent in full by [try_send] after a partial
    send is still registered for writable events; the next such event makes
    [handle_write] send zero bytes, take the result 0 for the end of the
    connection, and disconnect a healthy client. *)
Theorem stale_epollout_disconnects fd s c w1 w2 :
  0 <= fd → clients_ s !! Z.to_nat fd = Some c → active c = true → write_ok c →
  unsent c ≠ [] → epoll_out (world s) fd = true →
  sys_send fd (unsent c) (world s) = Ok w1 (Sent (length (unsent c))) →
  sys_send fd [] w1 = Ok w2 (Sent 0) →
  ∃ s1 s2, try_send fd s = Ok s1 tt ∧ epoll_out (world s1) fd = true ∧
    handle_write fd s1 = Ok s2 tt ∧ clients_ s2 !! Z.to_nat fd = Some fresh_client.
Proof.
  intros Hfd Hc Hact Hok Hne Hep Hs1 Hs2.
  destruct (send_spec fd (unsent c) (world s)) as [(w & r & Hr & _ & _ & Hep1 & _)|(w & Hr & _)];
    rewrite Hs1 in Hr; [|done].
  injection Hr as <- <-.
  destruct (unsent_advance c (length (unsent c)) Hok ltac:(lia)) as [Hu _].
  assert (bytes_sent c + Z.of_nat (length (unsent c)) = Z.of_nat (length (write_buffer c))) as Hfull.
  { destruct Hok as (? & _ & _). unfold unsent. rewrite length_drop. lia. }
  set (s1 := set_clients (<[Z.to_nat fd := set_write [] 0 c]> (clients_ s)) (with_world s w1)).
  assert (clients_ s1 !! Z.to_nat fd = Some (set_write [] 0 c)) as Hc1.
  { apply list_lookup_insert_eq. by eapply lookup_lt_Some. }
  assert (try_send fd s = Ok s1 tt) as Htry.
  { unfold try_send. rewrite (bind_Ok _ _ _ _ _ (client_Ok fd Hfd _ _ Hc)), Hact. cbn [negb].
    rewrite bool_decide_eq_false_2 by (intros H; apply Hne; unfold unsent; rewrite H; apply drop_nil).
    unfold bind at 1, sys, zoom. rewrite Hs1. fold (with_world s w1).
    destruct (length (unsent c)) as [|n] eqn:Hn; [by apply nil_length_inv in Hn|].
    rewrite Hu, (bind_Ok _ _ _ _ _ (update_client_Ok fd Hfd (with_world s w1) c _ Hc)).
    rewrite Hfull, Z.eqb_refl. erewrite update_client_Ok;
      [|done|apply list_lookup_insert_eq; by eapply lookup_lt_Some].
    cbn [set_clients clients_ with_world]. by rewrite list_insert_insert_eq. }
  destruct (disconnect_Ok fd Hfd (with_world s1 w2) (set_write [] 0 c) Hc1) as (s2 & Hd & Hm & _).
  exists s1, s2. split; [done|]. split; [cbn; by rewrite Hep1|]. split.
  - unfold handle_write. rewrite (bind_Ok _ _ _ _ _ (client_Ok fd Hfd _ _ Hc1)).
    cbn [active set_write]. rewrite Hact. cbn [negb]. unfold bind at 1, sys, zoom.
    change (unsent (set_write [] 0 c)) with (@nil Z). cbn [world s1 set_clients with_world].
    rewrite Hs2. exact Hd.
  - rewrite (mt_clients _ _ _ _ Hm).
    apply list_lookup_insert_eq. by eapply lookup_lt_Some.
Qed.

(** C37: when the socket takes nothing, [try_send] returns without registering
    for writable events: flushing then forgets the descriptor while the data
    stays in the buffer, with nothing left that would send it before another
    message for this client arrives. *)
Theorem flush_would_block_forgets fd s c w1 :
  0 <= fd → clients_ s !! Z.to_nat fd = Some c → active c = true → unsent c ≠ [] →
  pending_writes_ s = [fd] → epoll_out (world s) fd = false →
  sys_send fd (unsent c) (world s) = Ok w1 SendWouldBlock →
  ∃ s', flush_pending_writes s = Ok s' tt ∧ pending_writes_ s' = [] ∧
    clients_ s' !! Z.to_nat fd = Some c ∧ epoll_out (world s') fd = false.
Proof.
  intros Hfd Hc Hact Hne Hpend Hep Hs1.
  destruct (send_spec fd (unsent c) (world s)) as [(w & r & Hr & _ & _ & Hep1 & _)|(w & Hr & _)];
    rewrite Hs1 in Hr; [|done].
  injection Hr as <- <-. exists (set_pending [] (with_world s w1)).
  split; [|cbn; by rewrite Hep1]. unfold flush_pending_writes, gets. unfold bind at 1. rewrite Hpend.
  cbn [for_each]. unfold try_send. unfold bind at 1 2.
  rewrite (bind_Ok _ _ _ _ _ (client_Ok fd Hfd _ _ Hc)), Hact. cbn [negb].
  rewrite bool_decide_eq_false_2 by (intros H; apply Hne; unfold unsent; rewrite H; apply drop_nil).
  unfold bind at 1, sys, zoom. by rewrite Hs1.
Qed.
End write.
