(* ===== verification/ServerLoop.v ===== *)
(** * The event loop of the server

    [accept_client], the handling of one event, a turn of the loop and [start].
    The invariant [server_ok] says that every slot of [clients_] is consistent,
    that every descriptor epoll may report has a slot, and that the bytes each
    peer is going to send are as demanded. *)

From S2P Require Import Prelude Outcome Order Bytes Serializer RingBuffer SharedQueue Sockets ExchangeServer ServerRead Framing ServerWrite.

(** ** Failures *)

(** What [accept_client] and [start] throw when a call fails. *)
Definition accept_errors : list string :=
  ["accept failed"; "failed to set socket to non blocking"; "failed to register client with epoll"]%string.

Definition start_errors : list string :=
  ["socket creation failed"; "bind failed"; "listen failed"; "failed to set socket to non blocking";
   "epoll creation failed"; "failed to register server with epoll"]%string.

Definition fails {S A} (errors : list string) (o : outcome S A) : Prop :=
  ∃ s e, o = Throw s (runtime_error e) ∧ e ∈ errors.

Lemma fails_bind {S A B} errors (m : M S A) (k : A → M S B) s : fails errors (m s) → fails errors (bind m k s).
Proof. intros (s' & e & He & Hin). exists s', e. by rewrite (bind_Throw _ _ _ _ _ He). Qed.

Lemma fails_mono {S A} errors errors' (o : outcome S A) : (∀ e, e ∈ errors → e ∈ errors') →
  fails errors o → fails errors' o.
Proof. intros H (s & e & He & Hin). exists s, e. split; [done|by apply H]. Qed.

Ltac failed_with E := eexists _, _; split; [rewrite E; reflexivity|by apply list_elem_of_In; cbn; tauto].

Section loop.
Context {Qin Qout W : Type}.
Context `{!BoundedQueue Qin InboundMessage, !BoundedQueueLaws Qin InboundMessage}.
Context `{!BoundedQueue Qout OutboundMessage, !BoundedQueueLaws Qout OutboundMessage}.
Context `{!Sockets W, !SocketView W, !SocketLaws W}.
Context (host : endian) (fuel : nat).
Implicit Types (s : Server Qin Qout W) (c : ClientState).

(** ** The invariant *)

(** What is demanded of the bytes a peer sends, and what it implies for the
    messages that are read from them. *)
Context (R : list Z → Prop) (P : InboundMessage → Prop).
Hypothesis R_frames : ∀ fd fs rest, 0 <= fd < 2 ^ 31 → Forall frame_wf fs →
  R (wire_bytes fs ++ rest) → R rest ∧ Forall P (messages fd fs).

(** The bytes still to come on a connection. *)
Record bytes_ok (l : list Z) : Prop := {
  bo_bytes : bytes_wf l;
  bo_fuel : (length l + 2 <= fuel)%nat;
}.

Definition conn_ok s (fd : Z) c : Prop :=
  bytes_ok (rx (world s) fd) ∧ R (partial c ++ rx (world s) fd).

Record server_ok s : Prop := {
  sv_slots : Forall (λ c, client_ok c ∧ write_ok c) (clients_ s);
  sv_length : Z.of_nat (length (clients_ s)) <= 2 ^ 32;
  sv_conns fd c : 0 <= fd → clients_ s !! Z.to_nat fd = Some c → active c = true → conn_ok s fd c;
  sv_watched fd : fd ∈ watched (world s) (epoll_fd_ s) →
    fd = server_fd_ s ∨ in_clients fd (clients_ s) ∧ fd < 2 ^ 31;
  sv_backlog : Forall (λ a, bytes_ok a.2 ∧ R a.2) (backlog (world s) (server_fd_ s));
  sv_arrivals : (length (backlog (world s) (server_fd_ s)) < fuel)%nat;
  sv_pending : Forall (λ fd, in_clients fd (clients_ s)) (pending_writes_ s);
}.

(** The messages that are still to be read on a connection: the frames in the rest
    of its stream, and those of connections with the same descriptor that are
    waiting. *)
Definition slot_messages (w : W) (fd : Z) c : list InboundMessage :=
  if active c then messages fd (frames_of (partial c ++ rx w fd)) else [].

Definition slot_at (fd : Z) (cs : list ClientState) : option ClientState :=
  if decide (0 <= fd) then cs !! Z.to_nat fd else None.

Definition arrivals (w : W) (sfd : Z) : list InboundMessage :=
  backlog w sfd ≫= λ a, messages a.1 (frames_of a.2).

Definition unread (fd : Z) s : list InboundMessage :=
  from_option (slot_messages (world s) fd) [] (slot_at fd (clients_ s)) ++
  from fd (arrivals (world s) (server_fd_ s)).

(** The messages [new] were read between two states: on each connection they are
    the next ones, in order. *)
Definition reads s (new : list InboundMessage) s' : Prop :=
  ∀ fd, from fd new ++ unread fd s' `sublist_of` unread fd s.

(** The connections the listening socket has still to accept. *)
Definition waiting s : list (Z * list Z) := backlog (world s) (server_fd_ s).

(** What was sent or is buffered for a client does not change, and a client that
    was accepted meanwhile starts with nothing. *)
Definition keeps_streams s s' : Prop := ∀ fd c',
  0 <= fd → clients_ s' !! Z.to_nat fd = Some c' → active c' = true →
  (∃ c, clients_ s !! Z.to_nat fd = Some c ∧ active c = true ∧ out_stream fd s' c' = out_stream fd s c) ∨
  (fd ∈ fst <$> waiting s ∧ out_stream fd s' c' = []).

(** A step of the I/O thread other than delivering a message keeps the invariant,
    does not touch the outbound queue and the outgoing streams, and adds [new]
    good messages to the inbound queue, where [ms] were pushed before. *)
Record io_step s (ms : list InboundMessage) s' (new : list InboundMessage) : Prop := {
  io_ok : server_ok s';
  io_length : (length (clients_ s) <= length (clients_ s'))%nat;
  io_outbound : outbound_queue_ s' = outbound_queue_ s;
  io_server : server_fd_ s' = server_fd_ s;
  io_epoll : epoll_fd_ s' = epoll_fd_ s;
  io_inbound : shared_rep (inbound_queue_ s') (ms ++ new);
  io_good : Forall P new;
  io_reads : reads s new s';
  io_streams : keeps_streams s s';
  io_waiting : waiting s' `suffix_of` waiting s;
}.

(** A call failed and its exception leaves the loop, or [SIGPIPE] ended the
    process: a [send] on some connection whose peer is gone. *)
Definition ends_early {A} errors (o : outcome (Server Qin Qout W) A) : Prop :=
  fails errors o ∨ ∃ fd, broken_pipe world fd o.

Lemma ends_early_bind {A B} errors (m : M (Server Qin Qout W) A) (k : A → M (Server Qin Qout W) B) s :
  ends_early errors (m s) → ends_early errors (bind m k s).
Proof. intros [H|[fd H]]; [left; by apply fails_bind|right; exists fd; by apply broken_pipe_bind]. Qed.

Lemma reads_trans s n1 s1 n2 s2 : reads s n1 s1 → reads s1 n2 s2 → reads s (n1 ++ n2) s2.
Proof.
  intros H1 H2 fd. etrans; [|apply H1]. rewrite from_app, <- app_assoc. by apply sublist_app, H2.
Qed.

Lemma reads_refl s : reads s [] s.
Proof. by intros fd. Qed.

Lemma keeps_streams_refl s : keeps_streams s s.
Proof. intros fd c _ Hc Hact. left. by exists c. Qed.

Lemma keeps_streams_trans s s1 s2 : keeps_streams s s1 → waiting s1 `suffix_of` waiting s →
  keeps_streams s1 s2 → keeps_streams s s2.
Proof.
  intros H1 [k Hk] H2 fd c2 Hfd Hc2 Hact2.
  destruct (H2 fd c2 Hfd Hc2 Hact2) as [(c1 & Hc1 & Hact1 & E2)|[Hin E2]].
  - rewrite E2. by apply H1.
  - right. split; [|done]. rewrite Hk, fmap_app, elem_of_app. by right.
Qed.

(** Every client that is connected afterwards was so before, with the same stream. *)
Lemma keeps_streams_slots s s' : length (clients_ s') = length (clients_ s) →
  (∀ fd c c', 0 <= fd → clients_ s !! Z.to_nat fd = Some c → clients_ s' !! Z.to_nat fd = Some c' →
     active c' = true → active c = true ∧ out_stream fd s' c' = out_stream fd s c) →
  keeps_streams s s'.
Proof.
  intros Hlen H fd c' Hfd Hc' Hact. left.
  destruct (lookup_lt_is_Some_2 (clients_ s) (Z.to_nat fd)) as [c Hc].
  { rewrite <- Hlen. by eapply lookup_lt_Some. }
  destruct (H fd c c' Hfd Hc Hc' Hact) as [? ?]. by exists c.
Qed.

Lemma keeps_streams_touch fd s s' : 0 <= fd → only_touches fd s s' →
  (∀ c c', clients_ s !! Z.to_nat fd = Some c → clients_ s' !! Z.to_nat fd = Some c' →
     active c' = true → active c = true ∧ out_stream fd s' c' = out_stream fd s c) →
  keeps_streams s s'.
Proof.
  intros Hfd (Hlen & [Hv _] & Hcl) H. apply keeps_streams_slots; [done|].
  intros fd' c c' Hfd' Hc Hc' Hact. destruct (decide (fd' = fd)) as [->|Hne]; [by apply H|].
  rewrite Hcl, Hc in Hc' by done. injection Hc' as <-. split; [done|].
  unfold out_stream. by destruct (Hv fd' Hne) as (_ & -> & _).
Qed.

Lemma only_touches_waiting fd s s' : only_touches fd s s' → server_fd_ s' = server_fd_ s →
  waiting s' = waiting s.
Proof. intros (_ & [_ (_ & _ & Hb)] & _) Hs. unfold waiting. by rewrite Hs, Hb. Qed.

Lemma io_step_trans s ms s1 n1 s2 n2 : io_step s ms s1 n1 → io_step s1 (ms ++ n1) s2 n2 →
  io_step s ms s2 (n1 ++ n2).
Proof.
  intros [Ho Hl Hq Hs He Hi Hg Ha Hk Hw] [Ho2 Hl2 Hq2 Hs2 He2 Hi2 Hg2 Ha2 Hk2 Hw2].
  split; try congruence; [lia| |by apply Forall_app|..].
  - by rewrite app_assoc.
  - by eapply reads_trans.
  - by eapply keeps_streams_trans.
  - by etrans.
Qed.

Lemma io_step_same s ms s' : server_ok s' → (length (clients_ s) <= length (clients_ s'))%nat →
  same_rest s s' → shared_rep (inbound_queue_ s) ms → reads s [] s' →
  keeps_streams s s' → waiting s' `suffix_of` waiting s → io_step s ms s' [].
Proof.
  intros Hok Hl (Hi & Ho & Hs & He) Hq Ha Hk Hw. split; try done. by rewrite app_nil_r, Hi.
Qed.

Lemma io_step_refl s ms : server_ok s → shared_rep (inbound_queue_ s) ms → io_step s ms s [].
Proof.
  intros Hok Hq. apply io_step_same; try done; [apply reads_refl|apply keeps_streams_refl].
Qed.

(** It is enough to look at the slots when nobody is accepted. *)
Lemma reads_slots s new s' : length (clients_ s') = length (clients_ s) →
  backlog (world s') (server_fd_ s') = backlog (world s) (server_fd_ s) →
  Forall (λ m, in_clients (in_fd m) (clients_ s)) new →
  (∀ fd c c', 0 <= fd → clients_ s !! Z.to_nat fd = Some c → clients_ s' !! Z.to_nat fd = Some c' →
     from fd new ++ slot_messages (world s') fd c' `sublist_of` slot_messages (world s) fd c) →
  reads s new s'.
Proof.
  intros Hlen Hb Hnew Hslot fd. unfold unread, arrivals. rewrite Hb, app_assoc. apply sublist_app; [|done].
  unfold slot_at. case_decide as Hfd; [destruct (clients_ s !! Z.to_nat fd) as [c|] eqn:Hc|].
  - destruct (lookup_lt_is_Some_2 (clients_ s') (Z.to_nat fd)) as [c' Hc'].
    { rewrite Hlen. by eapply lookup_lt_Some. }
    rewrite Hc'. by apply Hslot.
  - rewrite (lookup_ge_None_2 (clients_ s')) by (rewrite Hlen; by apply lookup_ge_None_1).
    apply lookup_ge_None_1 in Hc. cbn. rewrite app_nil_r, sublist_nil_r. apply filter_none.
    intros m Hm <-. rewrite Forall_forall in Hnew. specialize (Hnew m Hm). unfold in_clients in Hnew. lia.
  - cbn. rewrite app_nil_r, sublist_nil_r. apply filter_none.
    intros m Hm <-. rewrite Forall_forall in Hnew. specialize (Hnew m Hm). unfold in_clients in Hnew. lia.
Qed.

(** A step for [fd], whose slot gave up [messages fd fs]. *)
Lemma reads_touch fd fs s s' : in_clients fd (clients_ s) → only_touches fd s s' →
  server_fd_ s' = server_fd_ s →
  (∀ c c', clients_ s !! Z.to_nat fd = Some c → clients_ s' !! Z.to_nat fd = Some c' →
     messages fd fs ++ slot_messages (world s') fd c' `sublist_of` slot_messages (world s) fd c) →
  reads s (messages fd fs) s'.
Proof.
  intros Hin (Hlen & [Hv (_ & _ & Hb)] & Hcl) Hs Hslot. apply reads_slots; [done|by rewrite Hs, Hb| |].
  { apply Forall_forall. by intros m ->%messages_fd. }
  intros fd' c c' Hfd' Hc Hc'. rewrite from_messages. case_decide as Heq; [subst fd'; by apply Hslot|].
  rewrite Hcl, Hc in Hc' by done. injection Hc' as <-.
  unfold slot_messages. by destruct (Hv fd') as (-> & _).
Qed.

(** ** Steps on behalf of one connection *)

Lemma slots_lookup s fd c : server_ok s → clients_ s !! Z.to_nat fd = Some c → client_ok c ∧ write_ok c.
Proof. intros Hok Hc. pose proof (sv_slots _ Hok) as H. rewrite Forall_lookup in H. by eapply H. Qed.

(** The invariant after a step that changed the client [fd] only. *)
Lemma server_ok_touch fd s s' : server_ok s → 0 <= fd → only_touches fd s s' →
  pending_writes_ s' = pending_writes_ s → server_fd_ s' = server_fd_ s → epoll_fd_ s' = epoll_fd_ s →
  (∀ c', clients_ s' !! Z.to_nat fd = Some c' →
    client_ok c' ∧ write_ok c' ∧ (active c' = true → conn_ok s' fd c')) →
  server_ok s'.
Proof.
  intros Hok Hfd (Hlen & [Hv (_ & Hw & Hb)] & Hcl) Hp Hs He Hc.
  pose proof Hok as [Hsl Hll Hco Hwa Hba Har Hpe].
  split; rewrite ?Hp, ?Hs, ?He, ?Hlen, ?Hb; unfold in_clients; rewrite ?Hlen; try done.
  - apply Forall_lookup. intros j c' Hj. destruct (decide (Z.of_nat j = fd)) as [<-|Hne].
    + destruct (Hc c') as (? & ? & _); [by rewrite Nat2Z.id|done].
    + rewrite <- (Nat2Z.id j), Hcl in Hj by lia. by eapply slots_lookup.
  - intros fd' c' H0 Hc' Hact. destruct (decide (fd' = fd)) as [->|Hne]; [by apply Hc|].
    rewrite Hcl in Hc' by done. destruct (Hco fd' c' H0 Hc' Hact) as [H1 H2].
    destruct (Hv fd' Hne) as (Hrx & _). unfold conn_ok. by rewrite Hrx.
  - intros fd' Hin. apply Hw in Hin. by apply Hwa.
Qed.

Lemma touched_step fd s ms s' : server_ok s → 0 <= fd → in_clients fd (clients_ s) → touched fd s s' →
  shared_rep (inbound_queue_ s) ms → io_step s ms s' [].
Proof.
  intros Hok Hfd Hin (Ht & [Hp Hrest] & Hc) Hq. pose proof Hrest as (_ & _ & Hs & He).
  apply io_step_same; [|by rewrite (proj1 Ht)|done|done|..|by rewrite (only_touches_waiting fd s)].
  2: { apply (reads_touch fd []); [done..|]. intros c c' Hlk Hc'.
       destruct (Hc c Hlk) as (c2 & Hc2 & _ & Hor). assert (c2 = c') as -> by congruence. cbn [app].
       destruct Hor as [(Ha & Hr & Hrx & _)| ->]; [|apply sublist_nil_l]. unfold slot_messages.
       by rewrite Ha, (read_state_partial _ _ Hr), Hrx. }
  2: { apply (keeps_streams_touch fd); [done..|]. intros c c' Hlk Hc' Hact.
       destruct (Hc c Hlk) as (c2 & Hc2 & _ & Hor). assert (c2 = c') as -> by congruence.
       destruct Hor as [(Ha & _ & _ & Hst)| ->]; [|done]. split; [congruence|done]. }
  apply (server_ok_touch fd s); try done. intros c' Hc'.
  destruct (lookup_lt_is_Some_2 (clients_ s) (Z.to_nat fd)) as [c Hlk]; [unfold in_clients in Hin; lia|].
  destruct (slots_lookup s fd c Hok Hlk) as [Hco _]. destruct (Hc c Hlk) as (c2 & Hc2 & Hw & Hor). simplify_eq.
  destruct Hor as [(Ha & Hr & Hrx & _)| ->].
  - split; [by eapply read_state_ok|]. split; [done|]. intros Hact. unfold conn_ok.
    rewrite Hrx, (read_state_partial _ _ Hr). apply (sv_conns _ Hok); [done..|congruence].
  - split; [apply fresh_client_ok|]. split; [apply fresh_write_ok|done].
Qed.

Lemma moved_touches fd s s' c c' : 0 <= fd → clients_ s !! Z.to_nat fd = Some c → moved_to fd s s' c' →
  others fd (world s) (world s') → only_touches fd s s'.
Proof.
  intros Hfd Hc [Hcl _ _ _ _] Ho. split; [by rewrite Hcl, length_insert|]. split; [done|].
  intros fd' H0 Hne. rewrite Hcl. apply list_lookup_insert_ne. lia.
Qed.

Lemma handle_read_step fd s ms : server_ok s → 0 <= fd < 2 ^ 31 → in_clients fd (clients_ s) →
  shared_rep (inbound_queue_ s) ms →
  ∃ s' new, handle_read host fuel fd s = Ok s' tt ∧ io_step s ms s' new.
Proof.
  intros Hok Hfd Hin Hq.
  destruct (lookup_lt_is_Some_2 (clients_ s) (Z.to_nat fd)) as [c Hc]; [unfold in_clients in Hin; lia|].
  destruct (slots_lookup s fd c Hok Hc) as [Hco Hwo]. destruct (active c) eqn:Hact.
  2: { exists s, []. split; [|by apply io_step_refl]. unfold handle_read.
       by rewrite (bind_Ok _ _ _ _ _ (client_Ok fd (proj1 Hfd) _ _ Hc)), Hact. }
  destruct (sv_conns _ Hok fd c (proj1 Hfd) Hc Hact) as [[Hwf Hfu] HR].
  destruct (handle_read_done host fd (proj1 Hfd) fuel s c ms Hc Hact Hco Hwf Hq Hfu) as (s' & He & Hd).
  assert (∀ c', moved_to fd s s' c' → clients_ s' !! Z.to_nat fd = Some c') as Hat.
  { intros c' Hm. rewrite (mt_clients _ _ _ _ Hm). apply list_lookup_insert_eq. by eapply lookup_lt_Some. }
  assert (∀ fs k, Forall frame_wf fs → partial c ++ rx (world s) fd = wire_bytes fs ++ k →
    slot_messages (world s) fd c = messages fd fs ++ messages fd (frames_of k)) as Hslot.
  { intros fs k Hf Hb. unfold slot_messages. by rewrite Hact, Hb, frames_of_app, messages_app. }
  destruct Hd as [(c' & fs & Hadv & Hs)|(fs & Hg)].
  - destruct Hadv as [Hm Hok' Hw Ho Htx Hwf' Hx Hf Hb Hq']. rewrite Hb in HR.
    destruct (R_frames fd fs _ Hfd Hf HR) as [HR' HP].
    pose proof (moved_touches fd s s' c c' (proj1 Hfd) Hc Hm Ho) as Ht. pose proof (Hat c' Hm) as Hc'. pose proof (write_state_ok _ _ Hw Hwo) as Hwo'.
    exists s', (messages fd fs). split; [done|]. destruct Hm as [_ Hp Hsf Hef Hout].
    split; try done; [|by rewrite (proj1 Ht)|..|by rewrite (only_touches_waiting fd s)].
    2: { apply reads_touch; [done..|]. intros c1 c2 Hc1 Hc2. simplify_eq.
         rewrite (Hslot fs _ Hf Hb). apply sublist_app; [done|]. unfold slot_messages.
         destruct (active c'); [done|apply sublist_nil_l]. }
    2: { apply (keeps_streams_touch fd); [lia|done|]. intros c1 c2 Hc1 Hc2 _.
         assert (c1 = c) as -> by congruence. assert (c2 = c') as -> by congruence. split; [done|].
         unfold out_stream. by rewrite Htx, (write_state_unsent _ _ Hw). }
    apply (server_ok_touch fd s); try done; [lia|]. intros c2 Hc2. simplify_eq.
    split; [done|]. split; [done|]. intros _. split; [split; [done|]|done].
    destruct Hx as [k Hk]. rewrite Hk, length_app in Hfu. lia.
  - destruct Hg as [Hm Ho _ Hf Hb Hq']. destruct Hb as [k Hk]. rewrite Hk in HR.
    destruct (R_frames fd fs _ Hfd Hf HR) as [_ HP].
    pose proof (moved_touches fd s s' c _ (proj1 Hfd) Hc Hm Ho) as Ht. pose proof (Hat _ Hm) as Hc'.
    exists s', (messages fd fs). split; [done|]. destruct Hm as [_ Hp Hsf Hef Hout].
    split; try done; [|by rewrite (proj1 Ht)|..|by rewrite (only_touches_waiting fd s)].
    2: { apply reads_touch; [done..|]. intros c1 c2 Hc1 Hc2. simplify_eq.
         rewrite (Hslot fs k Hf Hk). apply sublist_app; [done|apply sublist_nil_l]. }
    2: { apply (keeps_streams_touch fd); [lia|done|]. intros c1 c2 Hc1 Hc2 Hact2. by simplify_eq. }
    apply (server_ok_touch fd s); try done; [lia|]. intros c2 Hc2. simplify_eq.
    split; [apply fresh_client_ok|]. split; [apply fresh_write_ok|done].
Qed.

(** The invariant after a call that leaves the streams as they are. *)
Lemma server_ok_world s w : server_ok s → kept (world s) w →
  (∀ fd, rx w fd = rx (world s) fd) → server_ok (with_world s w).
Proof.
  intros [Hsl Hll Hco Hwa Hba Har Hpe] (_ & Hw & Hb) Hrx. split; cbn; rewrite ?Hb; try done.
  - intros fd c H0 Hc Hact. unfold conn_ok. cbn. rewrite Hrx. by apply Hco.
  - intros fd Hin. by apply Hw, Hwa in Hin.
Qed.

Lemma reads_world s w : kept (world s) w → (∀ fd, rx w fd = rx (world s) fd) → reads s [] (with_world s w).
Proof.
  intros (_ & _ & Hb) Hrx. apply reads_slots; [done|apply Hb|done|]. intros fd c c' _ Hc Hc'. cbn in Hc'.
  simplify_eq. unfold slot_messages. cbn. by rewrite Hrx.
Qed.

Lemma keeps_streams_world s w : (∀ fd, tx w fd = tx (world s) fd) → keeps_streams s (with_world s w).
Proof.
  intros Htx. apply keeps_streams_slots; [done|]. intros fd c c' _ Hc Hc' Hact. cbn in Hc'. simplify_eq.
  split; [done|]. unfold out_stream. cbn. by rewrite Htx.
Qed.

(** ** Accepting connections *)

(** The slots after the connections [fds] were accepted: theirs are fresh and
    active, the others are what they were, new ones are unused. *)
Record accepted_slots (fds : list Z) (cs cs' : list ClientState) : Prop := {
  as_length : (length cs <= length cs')%nat;
  as_accepted j : Z.of_nat j ∈ fds → cs' !! j = Some (set_active fresh_client);
  as_kept j c : Z.of_nat j ∉ fds → cs !! j = Some c → cs' !! j = Some c;
  as_unused j c : Z.of_nat j ∉ fds → cs !! j = None → cs' !! j = Some c → c = fresh_client;
}.

Lemma accepted_slots_nil cs : accepted_slots [] cs cs.
Proof. split; try done; [|congruence]. intros j Hj. by apply elem_of_nil in Hj. Qed.

Lemma accepted_slots_cons fd fds cs cs1 cs2 : accepted_slots [fd] cs cs1 → accepted_slots fds cs1 cs2 →
  accepted_slots (fd :: fds) cs cs2.
Proof.
  intros [L1 A1 K1 U1] [L2 A2 K2 U2]. split; [lia|..].
  - intros j Hj. destruct (decide (Z.of_nat j ∈ fds)) as [?|Hn]; [by apply A2|].
    apply elem_of_cons in Hj as [Hj|?]; [|done]. apply K2; [done|]. apply A1. rewrite Hj. by left.
  - intros j c [Hne Hn]%not_elem_of_cons Hj. apply K2; [done|]. apply K1; [|done].
    by rewrite list_elem_of_singleton.
  - intros j c [Hne Hn]%not_elem_of_cons Hj Hc. destruct (cs1 !! j) as [c1|] eqn:H1; [|by eapply U2].
    rewrite (K2 j c1 Hn H1) in Hc. injection Hc as <-. apply (U1 j); [|done..].
    by rewrite list_elem_of_singleton.
Qed.

(** [clients_.resize] when the descriptor is beyond the end. *)
Definition grown (fd : Z) (cs : list ClientState) : list ClientState :=
  if Z.of_nat (length cs) <=? u64 fd then
    let newSize := Z.max (u64 (Z.of_nat (length cs) * 2)) (u64 (fd + 1)) in
    take (Z.to_nat newSize) cs ++ replicate (Z.to_nat newSize - length cs) fresh_client
  else cs.

Lemma grown_spec fd cs : 0 <= fd < 2 ^ 31 - 1 → Z.of_nat (length cs) <= 2 ^ 32 →
  ∃ k, grown fd cs = cs ++ replicate k fresh_client ∧ (Z.to_nat fd < length (grown fd cs))%nat ∧
    Z.of_nat (length (grown fd cs)) <= 2 ^ 32.
Proof.
  intros Hfd Hlen. unfold grown. rewrite (u64_id fd) by width.
  destruct (Z.leb_spec (Z.of_nat (length cs)) fd) as [Hge|Hlt].
  - rewrite !u64_id by width. set (n := Z.max _ _). exists (Z.to_nat n - length cs)%nat.
    rewrite take_ge by lia. rewrite length_app, length_replicate. split; [done|]. lia.
  - exists 0%nat. cbn. rewrite app_nil_r. split; [done|]. lia.
Qed.

Lemma grown_accepted fd cs : 0 <= fd < 2 ^ 31 - 1 → Z.of_nat (length cs) <= 2 ^ 32 →
  accepted_slots [fd] cs (<[Z.to_nat fd := set_active fresh_client]> (grown fd cs)).
Proof.
  intros Hfd Hlen. destruct (grown_spec fd cs Hfd Hlen) as (k & Hk & Hlt & _). split.
  - rewrite length_insert, Hk, length_app. lia.
  - intros j <-%list_elem_of_singleton. rewrite Nat2Z.id in *. by apply list_lookup_insert_eq.
  - intros j c Hj Hc. rewrite list_elem_of_singleton in Hj. rewrite list_lookup_insert_ne by lia.
    rewrite Hk. by apply lookup_app_l_Some.
  - intros j c Hj Hnone Hc. rewrite list_elem_of_singleton in Hj. rewrite list_lookup_insert_ne in Hc by lia.
    rewrite Hk, lookup_app_r in Hc by by apply lookup_ge_None_1.
    by apply lookup_replicate_1 in Hc as [? _].
Qed.

(** The system after [fd] was accepted on [sfd] and registered with [ep]. *)
Record arrived (sfd ep fd : Z) (data : list Z) (w w' : W) : Prop := {
  ar_fd : 0 <= fd < 2 ^ 31 - 1;
  ar_rx : rx w' fd = data;
  ar_tx : tx w' fd = [];
  ar_others fd' : fd' ≠ fd → same_view fd' w w';
  ar_watched : watched w' ep ⊆ {[fd]} ∪ watched w ep;
  ar_backlog : backlog w sfd = (fd, data) :: backlog w' sfd;
}.

Lemma arrived_quiet sfd ep fd data w w1 w2 : arrived sfd ep fd data w w1 → quiet w1 w2 →
  arrived sfd ep fd data w w2.
Proof.
  intros [H1 H2 H3 H4 H5 H6] Hq. destruct (quiet_view _ _ fd Hq) as (Hrx & Htx & _).
  destruct (Hq fd) as [_ (_ & Hw & Hb)]. split; try done; [congruence|congruence| | |by rewrite Hb].
  - intros fd' Hne. etrans; [by apply H4|by apply quiet_view].
  - etrans; [apply Hw|done].
Qed.

Lemma arrived_watched sfd ep fd data w w1 w2 : arrived sfd ep fd data w w1 →
  calm w1 w2 → watched w2 ep ⊆ {[fd]} ∪ watched w1 ep → arrived sfd ep fd data w w2.
Proof.
  intros [H1 H2 H3 H4 H5 H6] [Hv Hb] Hw. destruct (Hv fd) as (Hrx & Htx & _).
  split; try done; [congruence|congruence| |set_solver|by rewrite Hb].
  intros fd' Hne. etrans; [by apply H4|done].
Qed.

Definition admitted fd s w : Server Qin Qout W :=
  with_world (set_clients (<[Z.to_nat fd := set_active fresh_client]> (grown fd (clients_ s))) s) w.

Lemma server_ok_arrived fd data s w : server_ok s →
  arrived (server_fd_ s) (epoll_fd_ s) fd data (world s) w → server_ok (admitted fd s w).
Proof.
  intros [Hsl Hll Hco Hwa Hba Har Hpe] [Hfd Hrx _ Hv Hw Hb].
  destruct (grown_spec fd _ Hfd Hll) as (k & Hk & Hlt & Hbound).
  pose proof (grown_accepted fd _ Hfd Hll) as Hacc. rewrite Hb in Hba, Har.
  apply Forall_cons in Hba as [[Hby HR] Hba]. cbn [length] in Har.
  assert (∀ fd', in_clients fd' (clients_ s) → in_clients fd' (clients_ (admitted fd s w))) as Hin.
  { unfold in_clients, admitted. cbn. rewrite length_insert, Hk, length_app. lia. }
  split; cbn; try done; [|by rewrite length_insert|..|lia|].
  - apply Forall_insert; [|split; [by apply (read_state_ok fresh_client), fresh_client_ok|apply fresh_write_ok]].
    rewrite Hk. apply Forall_app. split; [done|]. apply Forall_replicate.
    split; [apply fresh_client_ok|apply fresh_write_ok].
  - intros fd' c H0 Hc Hact. destruct (decide (fd' = fd)) as [->|Hne].
    + rewrite list_lookup_insert_eq in Hc by done. injection Hc as <-. unfold conn_ok, admitted. cbn [world with_world].
      rewrite Hrx. by split.
    + assert (clients_ s !! Z.to_nat fd' = Some c) as Hold.
      { destruct (clients_ s !! Z.to_nat fd') as [c'|] eqn:Ho.
        - rewrite (as_kept _ _ _ Hacc _ c') in Hc; [done| |done]. rewrite list_elem_of_singleton. lia.
        - assert (c = fresh_client) as -> by (apply (as_unused _ _ _ Hacc (Z.to_nat fd')); [|done..];
            rewrite list_elem_of_singleton; lia). done. }
      destruct (Hco fd' c H0 Hold Hact) as [H1 H2]. destruct (Hv fd' Hne) as (Hr & _).
      unfold conn_ok, admitted. cbn [world with_world]. by rewrite Hr.
  - intros fd' Hfd'. apply Hw, elem_of_union in Hfd' as [->%elem_of_singleton|Hfd'].
    + right. unfold in_clients. rewrite length_insert. lia.
    + destruct (Hwa fd' Hfd') as [?|[? ?]]; [by left|right]. split; [by apply Hin|done].
  - eapply Forall_impl; [exact Hpe|]. intros fd'. apply Hin.
Qed.

(** The messages of an accepted connection are still to be read. *)
Lemma reads_arrived fd data s w : server_ok s →
  arrived (server_fd_ s) (epoll_fd_ s) fd data (world s) w → reads s [] (admitted fd s w).
Proof.
  intros Hok [Hfd Hrx _ Hv _ Hb] fd'. pose proof (grown_accepted fd _ Hfd (sv_length _ Hok)) as Hacc.
  assert (arrivals (world s) (server_fd_ s) = messages fd (frames_of data) ++ arrivals w (server_fd_ s)) as Harr
    by (unfold arrivals; by rewrite Hb).
  unfold unread. rewrite Harr, from_app, from_messages.
  change (from fd' []) with (@nil InboundMessage). cbn [app]. rewrite app_assoc. apply sublist_app; [|reflexivity]. unfold slot_at. destruct (decide (fd = fd')) as [<-|Heq].
  - rewrite decide_True by lia. apply sublist_inserts_l.
    rewrite (as_accepted _ _ _ Hacc) by (rewrite list_elem_of_singleton; lia).
    cbn. unfold slot_messages. cbn. by rewrite Hrx.
  - rewrite app_nil_r. case_decide as H0; [|done]. cbn [admitted with_world set_clients clients_ world].
    assert (Z.of_nat (Z.to_nat fd') ∉ [fd]) as Hne by (rewrite list_elem_of_singleton; lia).
    destruct (clients_ s !! Z.to_nat fd') as [c|] eqn:Hc.
    + rewrite (as_kept _ _ _ Hacc _ _ Hne Hc). cbn. unfold slot_messages. by destruct (Hv fd') as (-> & _).
    + destruct (<[Z.to_nat fd := set_active fresh_client]> (grown fd (clients_ s)) !! Z.to_nat fd') as [c|] eqn:Hc';
        [|done].
      rewrite (as_unused _ _ _ Hacc _ _ Hne Hc Hc'). done.
Qed.

(** Nothing was sent yet on an accepted connection. *)
Lemma keeps_streams_arrived fd data s w : server_ok s →
  arrived (server_fd_ s) (epoll_fd_ s) fd data (world s) w → keeps_streams s (admitted fd s w).
Proof.
  intros Hok [Hfd _ Htx Hv _ Hb] fd' c' Hfd' Hc' Hact.
  pose proof (grown_accepted fd _ Hfd (sv_length _ Hok)) as Hacc.
  cbn [admitted with_world set_clients clients_] in Hc'.
  destruct (decide (fd' = fd)) as [->|Hne].
  - right. unfold waiting. rewrite Hb. split; [by left|].
    rewrite (as_accepted _ _ _ Hacc) in Hc' by (rewrite list_elem_of_singleton; lia). injection Hc' as <-.
    unfold out_stream. cbn. by rewrite Htx.
  - left. assert (Z.of_nat (Z.to_nat fd') ∉ [fd]) as Hno by (rewrite list_elem_of_singleton; lia).
    destruct (clients_ s !! Z.to_nat fd') as [c|] eqn:Hc.
    + rewrite (as_kept _ _ _ Hacc _ _ Hno Hc) in Hc'. injection Hc' as <-. exists c. split; [done|].
      split; [done|]. unfold out_stream. cbn. by destruct (Hv fd' Hne) as (_ & -> & _).
    + by rewrite (as_unused _ _ _ Hacc _ _ Hno Hc Hc') in Hact.
Qed.

(** The end of the loop body: grow the vector, reset the slot and activate it. *)
Lemma admit_run fd s w : 0 <= fd < 2 ^ 31 - 1 → Z.of_nat (length (clients_ s)) <= 2 ^ 32 →
  (modify (λ s,
     let cs := clients_ s in
     if Z.of_nat (length cs) <=? u64 fd then
       let newSize := Z.max (u64 (Z.of_nat (length cs) * 2)) (u64 (fd + 1)) in
       set_clients (take (Z.to_nat newSize) cs ++ replicate (Z.to_nat newSize - length cs) fresh_client) s
     else s) ;;;
   update_client fd (λ _, fresh_client) ;;; update_client fd set_active ;;; ret Next) (with_world s w) =
  Ok (admitted fd s w) Next.
Proof.
  intros Hfd Hlen. destruct (grown_spec fd _ Hfd Hlen) as (k & Hk & Hlt & _). unfold bind at 1, modify.
  set (s2 := with_world (set_clients (grown fd (clients_ s)) s) w).
  match goal with |- context [bind (update_client fd _) _ ?s1] => replace s1 with s2 end.
  2: { unfold s2, grown. cbn. destruct (_ <=? _); [done|by destruct s]. }
  destruct (lookup_lt_is_Some_2 (clients_ s2) (Z.to_nat fd) Hlt) as [c Hc].
  rewrite (bind_Ok _ _ _ _ _ (update_client_Ok fd (proj1 Hfd) s2 c _ Hc)).
  set (s3 := set_clients (<[Z.to_nat fd := fresh_client]> (clients_ s2)) s2).
  assert (clients_ s3 !! Z.to_nat fd = Some fresh_client) as Hl3 by by apply list_lookup_insert_eq.
  rewrite (bind_Ok _ _ _ _ _ (update_client_Ok fd (proj1 Hfd) s3 _ _ Hl3)).
  unfold s3, s2, admitted. cbn. by rewrite list_insert_insert_eq.
Qed.

Lemma accept_body_spec s ms : server_ok s → shared_rep (inbound_queue_ s) ms →
  (∃ s', accept_body s = Ok s' Break ∧ io_step s ms s' [] ∧ clients_ s' = clients_ s ∧
     backlog (world s') (server_fd_ s) = backlog (world s) (server_fd_ s) ∧
     blocked (world s') (server_fd_ s) = true) ∨
  (∃ s' fd data, accept_body s = Ok s' Next ∧ io_step s ms s' [] ∧
     accepted_slots [fd] (clients_ s) (clients_ s') ∧
     backlog (world s) (server_fd_ s) = (fd, data) :: backlog (world s') (server_fd_ s)) ∨
  fails accept_errors (accept_body s).
Proof.
  intros Hok Hq. remember (accept_body s) as o eqn:Eo. unfold accept_body, gets in Eo. unfold bind at 1 in Eo.
  destruct (accept_spec (server_fd_ s) (world s)) as (w1 & r & Hr & Hres).
  unfold bind at 1, sys at 1, zoom at 1 in Eo. rewrite Hr in Eo. fold (with_world s w1) in Eo.
  destruct r as [fd| |].
  - right. destruct Hres as (data & Hb & Hfd & Hrx & Htx & _ & _ & Hv & Hw).
    assert (arrived (server_fd_ s) (epoll_fd_ s) fd data (world s) w1) as H1.
    { split; try done. specialize (Hw (epoll_fd_ s)). set_solver. }
    destruct (set_nonblocking_spec fd w1) as (w2 & ok & He2 & Hq2).
    unfold bind at 1, sys at 1, zoom at 1 in Eo. cbn [world with_world] in Eo. rewrite He2 in Eo.
    destruct ok; [|right; by failed_with Eo]. unfold check at 1 in Eo. rewrite bind_ret in Eo.
    unfold bind at 1 in Eo.
    destruct (epoll_add_spec (epoll_fd_ s) fd w2) as (w3 & ok & He3 & Hc3 & Hw3).
    unfold bind at 1, sys at 1, zoom at 1 in Eo. cbn [world epoll_fd_ with_world] in Eo. rewrite He3 in Eo.
    destruct ok; [|right; by failed_with Eo]. unfold check in Eo. rewrite bind_ret in Eo. left.
    destruct (setsockopt_spec fd TCP_NODELAY w3) as (w4 & He4 & Hq4).
    unfold bind at 1, sys, zoom in Eo. cbn [world with_world] in Eo. rewrite He4 in Eo.
    assert (arrived (server_fd_ s) (epoll_fd_ s) fd data (world s) w4) as H4.
    { eapply arrived_quiet; [|exact Hq4]. eapply arrived_watched; [|done..]. by eapply arrived_quiet. }
    pose proof (server_ok_arrived fd data s w4 Hok H4) as Hok'.
    exists (admitted fd s w4), fd, data. split.
    { rewrite Eo. exact (admit_run fd s w4 Hfd (sv_length _ Hok)). }
    pose proof (grown_accepted fd _ Hfd (sv_length _ Hok)) as Hacc.
    split; [|split; [done|apply H4]].
    apply io_step_same; try done; [apply Hacc|by eapply reads_arrived|by eapply keeps_streams_arrived|].
    exists [(fd, data)]. apply H4.
  - left. destruct Hres as (Ho & Hrx & Htx & Hbl). exists (with_world s w1). split; [done|].
    assert (∀ fd, rx w1 fd = rx (world s) fd ∧ tx w1 fd = tx (world s) fd) as Hall.
    { intros fd. destruct (decide (fd = server_fd_ s)) as [->|Hne]; [done|].
      by destruct Ho as [Ho _]; destruct (Ho fd Hne) as (? & ? & _). }
    pose proof Ho as [_ Hk]. pose proof Hk as (_ & _ & Hb). split; [|split; [done|split; [apply Hb|done]]].
    apply io_step_same; try done; [apply server_ok_world|apply reads_world|apply keeps_streams_world|];
      try done; [apply Hall..|]. unfold waiting. cbn. by rewrite Hb.
  - right; right. by failed_with Eo.
Qed.

(** Either all connections that were waiting are accepted, or a call failed and
    an exception leaves the loop. *)
Lemma accept_loop_spec n s ms : server_ok s → shared_rep (inbound_queue_ s) ms →
  (length (backlog (world s) (server_fd_ s)) < n)%nat →
  (∃ s' fds, accept_client n s = Ok s' tt ∧ io_step s ms s' [] ∧
     fst <$> backlog (world s) (server_fd_ s) = fds ++ (fst <$> backlog (world s') (server_fd_ s)) ∧
     accepted_slots fds (clients_ s) (clients_ s') ∧ blocked (world s') (server_fd_ s) = true) ∨
  fails accept_errors (accept_client n s).
Proof.
  revert s ms. induction n as [|n IH]; intros s ms Hok Hq Hn; [lia|].
  unfold accept_client. cbn [while_brk].
  destruct (accept_body_spec s ms Hok Hq)
    as [(s1 & He & Hio & Hcl & Hb & Hbl)|[(s1 & fd & data & He & Hio & Hacc & Hb)|Hf]].
  - left. exists s1, []. rewrite (bind_Ok _ _ _ _ _ He). split; [done|]. split; [done|].
    split; [by rewrite Hb|]. split; [|done]. rewrite Hcl. apply accepted_slots_nil.
  - pose proof Hio as [Hok1 _ _ Hsf _ Hq1 _]. rewrite app_nil_r in Hq1. rewrite <- Hsf in Hb.
    destruct (IH s1 ms Hok1 Hq1) as [(s2 & fds & He2 & Hio2 & Hb2 & Hacc2 & Hbl2)|Hf].
    + rewrite Hsf in Hb |- *. rewrite Hb in Hn. cbn in Hn. lia.
    + left. exists s2, (fd :: fds). rewrite (bind_Ok _ _ _ _ _ He). split; [exact He2|].
      split; [apply (io_step_trans s ms s1 [] s2 []); [done|by rewrite app_nil_r]|].
      rewrite Hsf in *. split; [by rewrite Hb; cbn; rewrite Hb2|]. split; [|done].
      by eapply accepted_slots_cons.
    + right. rewrite (bind_Ok _ _ _ _ _ He). exact Hf.
  - right. by apply fails_bind.
Qed.

(** ** Events *)

(** Events are for the listening socket or for a descriptor with a slot; a turn
    of the loop does not change that, since slots are never removed. *)
Definition event_ok s (e : epoll_event) : Prop :=
  ev_fd e = server_fd_ s ∨ in_clients (ev_fd e) (clients_ s) ∧ ev_fd e < 2 ^ 31.

Lemma event_ok_step s ms s' new e : io_step s ms s' new → event_ok s e → event_ok s' e.
Proof.
  intros [_ Hl _ Hs _ _ _ _ _ _] [?|[[? ?] ?]]; [left; congruence|right]. unfold in_clients. lia.
Qed.

Lemma dispatch_spec e s ms : server_ok s → event_ok s e → shared_rep (inbound_queue_ s) ms →
  (∃ s' new, dispatch host fuel e s = Ok s' tt ∧ io_step s ms s' new) ∨
  ends_early accept_errors (dispatch host fuel e s).
Proof.
  intros Hok Hev Hq. remember (dispatch host fuel e s) as o eqn:Eo.
  unfold dispatch, gets in Eo. unfold bind at 1 in Eo.
  destruct (Z.eqb_spec (ev_fd e) (server_fd_ s)) as [Heq|Hne].
  { destruct (accept_loop_spec fuel s ms Hok Hq (sv_arrivals _ Hok)) as [(s' & fds & He & Hio & _)|Hf];
      [left; rewrite He in Eo; by exists s', []|right; left; by rewrite Eo]. }
  destruct Hev as [?|[Hin Hlt]]; [done|]. pose proof Hin as [Hfd _].
  assert (∃ s1 new, (if ev_in e then handle_read host fuel (ev_fd e) else ret tt) s = Ok s1 tt ∧
    io_step s ms s1 new) as (s1 & n1 & He1 & Hio1).
  { destruct (ev_in e); [by apply handle_read_step|]. exists s, []. split; [done|by apply io_step_refl]. }
  rewrite (bind_Ok _ _ _ _ _ He1) in Eo. destruct (ev_out e); [|by left; exists s1, n1].
  assert (in_clients (ev_fd e) (clients_ s1)) as Hin1.
  { pose proof (io_length _ _ _ _ Hio1). unfold in_clients in *. lia. }
  destruct (lookup_lt_is_Some_2 (clients_ s1) (Z.to_nat (ev_fd e))) as [c Hc]; [unfold in_clients in Hin1; lia|].
  pose proof (io_ok _ _ _ _ Hio1) as Hok1. destruct (slots_lookup s1 _ c Hok1 Hc) as [_ Hwo].
  destruct (handle_write_touched (ev_fd e) s1 c Hfd Hc Hwo) as [(s2 & He2 & Ht)|Hkill];
    [left|right; right; rewrite Eo; by exists (ev_fd e)].
  exists s2, (n1 ++ []). split; [congruence|]. eapply io_step_trans; [done|].
  by apply (touched_step (ev_fd e)); [..|apply Hio1].
Qed.

Lemma events_spec es s ms : server_ok s → Forall (event_ok s) es → shared_rep (inbound_queue_ s) ms →
  (∃ s' new, for_each es (dispatch host fuel) s = Ok s' tt ∧ io_step s ms s' new) ∨
  ends_early accept_errors (for_each es (dispatch host fuel) s).
Proof.
  revert s ms. induction es as [|e es IH]; intros s ms Hok Hes Hq; cbn [for_each].
  { left. exists s, []. split; [done|by apply io_step_refl]. }
  apply Forall_cons in Hes as [He Hes].
  destruct (dispatch_spec e s ms Hok He Hq) as [(s1 & n1 & E1 & Hio)|Hf].
  2: { right. by apply ends_early_bind. }
  rewrite (bind_Ok _ _ _ _ _ E1). destruct (IH s1 (ms ++ n1)) as [(s2 & n2 & E2 & Hio2)|?]; [..|by right].
  - apply Hio.
  - eapply Forall_impl; [exact Hes|]. intros e'. by eapply event_ok_step.
  - apply Hio.
  - left. exists s2, (n1 ++ n2). split; [done|by eapply io_step_trans].
Qed.

(** ** A turn of the loop *)

Lemma carry_on_server_ok s s' more : server_ok s → all_carry_on s s' more → all_write_ok s' →
  Forall (λ fd, in_clients fd (clients_ s)) (pending_writes_ s') → server_fd_ s' = server_fd_ s → epoll_fd_ s' = epoll_fd_ s → server_ok s'.
Proof.
  intros Hok (Hlen & (_ & Hw & Hb) & Hall) Hwo Hp Hs He. pose proof Hok as [Hsl Hll Hco Hwa Hba Har Hpe].
  assert (∀ fd c', 0 <= fd → clients_ s' !! Z.to_nat fd = Some c' →
    ∃ c, clients_ s !! Z.to_nat fd = Some c ∧ client_ok c' ∧
      (active c' = true → conn_ok s' fd c')) as Hslot.
  { intros fd c' Hfd Hc'. destruct (lookup_lt_is_Some_2 (clients_ s) (Z.to_nat fd)) as [c Hc].
    { rewrite <- Hlen. by eapply lookup_lt_Some. }
    exists c. split; [done|]. destruct (slots_lookup s fd c Hok Hc) as [Hco' _].
    specialize (Hall fd c Hfd Hc). destruct (active c) eqn:Hact.
    - destruct Hall as (c2 & Hc2 & _ & Hor). assert (c2 = c') as -> by congruence.
      destruct Hor as [(_ & _ & Hr & Hrx)|[-> _]].
      + split; [by eapply read_state_ok|]. intros _. unfold conn_ok.
        rewrite Hrx, (read_state_partial _ _ Hr). by apply Hco.
      + split; [apply fresh_client_ok|done].
    - simplify_eq. split; [done|congruence]. }
  split; rewrite ?Hs, ?He, ?Hlen, ?Hb; unfold in_clients; rewrite ?Hlen; try done.
  - apply Forall_lookup. intros j c' Hj. unfold all_write_ok in Hwo. rewrite Forall_lookup in Hwo.
    destruct (Hslot (Z.of_nat j) c') as (c & _ & ? & _); [lia|by rewrite Nat2Z.id|]. split; [done|by eapply Hwo].
  - intros fd c' Hfd Hc'. by destruct (Hslot fd c' Hfd Hc') as (c & _ & _ & ?).
  - intros fd Hin. apply Hw in Hin. by apply Hwa.
Qed.

Lemma carry_on_reads s s' more : all_carry_on s s' more → server_fd_ s' = server_fd_ s → reads s [] s'.
Proof.
  intros (Hlen & (_ & _ & Hb) & Hall) Hs. apply reads_slots; [done|by rewrite Hs, Hb|done|].
  intros fd c c' Hfd Hc Hc'. specialize (Hall fd c Hfd Hc). unfold slot_messages. destruct (active c) eqn:Hact.
  - destruct Hall as (c2 & Hc2 & _ & Hor). assert (c2 = c') as -> by congruence.
    destruct Hor as [(-> & _ & Hr & ->)|[-> _]]; [by rewrite (read_state_partial _ _ Hr)|apply sublist_nil_l].
  - assert (c' = c) as -> by congruence. by rewrite Hact.
Qed.

Lemma server_ok_write_ok s : server_ok s → all_write_ok s.
Proof. intros Hok. eapply Forall_impl; [apply Hok|]. by intros c [_ ?]. Qed.

(** ** Set-up *)

Lemma check_true what s : check true what s = Ok s tt.
Proof. done. Qed.

Lemma check_false what s : check false what s = Throw s (runtime_error what).
Proof. done. Qed.

Ltac simpl_state E :=
  cbn [clients_ pending_writes_ server_fd_ epoll_fd_ inbound_queue_ outbound_queue_ world] in E.

(** Run the next call of a computation [E : o = ...]; a failed check ends it. *)
Ltac next_call E H :=
  unfold bind at 1, sys at 1, zoom at 1 in E; cbn [world] in E; rewrite H in E; simpl_state E.
Ltac failed E :=
  rewrite (bind_Throw _ _ _ _ _ (check_false _ _)) in E; right; failed_with E.
Ltac checked E ok :=
  destruct ok; [rewrite (bind_Ok _ _ _ _ _ (check_true _ _)) in E|failed E].

(** The state [start] reaches when no call fails. *)
Definition started s (sfd ep : Z) w : Server Qin Qout W :=
  mkServer (replicate 1024 fresh_client) [] sfd ep (inbound_queue_ s) (outbound_queue_ s) w.

Lemma started_ok s sfd ep w w' : calm w w' → watched w' ep ⊆ {[sfd]} →
  Forall (λ a, bytes_ok a.2 ∧ R a.2) (backlog w sfd) → (length (backlog w sfd) < fuel)%nat →
  server_ok (started s sfd ep w').
Proof.
  clear R_frames. intros [_ Hb] Hw Hba Har. split; cbn [started clients_ world server_fd_ epoll_fd_ pending_writes_].
  - apply Forall_replicate. split; [apply fresh_client_ok|apply fresh_write_ok].
  - rewrite length_replicate. lia.
  - intros fd c _ Hc Hact. apply lookup_replicate_1 in Hc as [-> _]. done.
  - intros fd Hin. left. set_solver.
  - by rewrite Hb.
  - by rewrite Hb.
  - done.
Qed.

Lemma start_spec port s : clients_ s = [] → pending_writes_ s = [] →
  (∃ sfd ep w, start port s = Ok (started s sfd ep w) tt ∧ calm (world s) w ∧ watched w ep ⊆ {[sfd]}) ∨
  fails start_errors (start port s).
Proof.
  clear R_frames. intros Hcl Hp.
  destruct (socket_spec (world s)) as (w1 & r & H1 & Q1). set (sfd := default (-1) r).
  destruct (setsockopt_spec sfd SO_REUSEADDR w1) as (w2 & H2 & Q2).
  destruct (bind_spec sfd port w2) as (w3 & ok3 & H3 & Q3).
  destruct (listen_spec sfd 5 w3) as (w4 & ok4 & H4 & Q4).
  destruct (set_nonblocking_spec sfd w4) as (w5 & ok5 & H5 & Q5).
  destruct (epoll_create_spec w5) as (w6 & e & H6 & C6 & Hempty). set (ep := default (-1) e).
  destruct (epoll_add_spec ep sfd w6) as (w7 & ok7 & H7 & C7 & Hw7).
  destruct (setsockopt_spec sfd TCP_NODELAY w7) as (w8 & H8 & Q8).
  assert (calm (world s) w8) as Hcalm.
  { transitivity w1; [by apply quiet_calm|]. transitivity w2; [by apply quiet_calm|].
    transitivity w3; [by apply quiet_calm|]. transitivity w4; [by apply quiet_calm|].
    transitivity w5; [by apply quiet_calm|]. transitivity w6; [done|]. transitivity w7; [done|].
    by apply quiet_calm. }
  remember (start port s) as o eqn:E. unfold start in E.
  next_call E H1. fold sfd in E. unfold bind at 1, modify at 1 in E. simpl_state E. next_call E H2.
  destruct (Z.eqb_spec sfd (-1)) as [_|_]; cbn [negb] in E; [failed E|].
  rewrite (bind_Ok _ _ _ _ _ (check_true _ _)) in E.
  next_call E H3. checked E ok3. next_call E H4. checked E ok4. next_call E H5. checked E ok5.
  next_call E H6. fold ep in E. unfold bind at 1, modify at 1 in E. simpl_state E.
  destruct (Z.eqb_spec ep (-1)) as [_|Hep]; cbn [negb] in E; [failed E|].
  rewrite (bind_Ok _ _ _ _ _ (check_true _ _)) in E. next_call E H7. checked E ok7. next_call E H8.
  assert (e = Some ep) as He by (unfold ep in *; by destruct e).
  left. exists sfd, ep, w8. split; [|split; [done|]].
  - rewrite E. unfold modify, started, set_clients.
    cbn [clients_ pending_writes_ server_fd_ epoll_fd_ inbound_queue_ outbound_queue_ world].
    rewrite Hcl, Hp, take_nil. cbn [app length]. by rewrite Nat.sub_0_r.
  - destruct (Q8 0) as [_ (_ & Hw8 & _)]. rewrite (Hempty ep He) in Hw7. specialize (Hw8 ep). set_solver.
Qed.

(** ** Main theorems *)

(** C15: accepting connections.  [accept_client] returns: either every connection
    that was waiting has a fresh active slot, the vector having grown where it
    was too short, all other slots are as they were, [accept] reported that
    nothing more is waiting and the invariant of the server holds; or one of the
    calls failed, and a [runtime_error] leaves the event loop. *)
Theorem accept_client_registers s ms : server_ok s → shared_rep (inbound_queue_ s) ms →
  (∃ s' fds, accept_client fuel s = Ok s' tt ∧ server_ok s' ∧ shared_rep (inbound_queue_ s') ms ∧
     fst <$> backlog (world s) (server_fd_ s) = fds ++ (fst <$> backlog (world s') (server_fd_ s)) ∧
     accepted_slots fds (clients_ s) (clients_ s') ∧ blocked (world s') (server_fd_ s) = true) ∨
  fails accept_errors (accept_client fuel s).
Proof.
  intros Hok Hq.
  destruct (accept_loop_spec fuel s ms Hok Hq (sv_arrivals _ Hok)) as [(s' & fds & He & Hio & H)|?]; [left|by right].
  exists s', fds. split; [done|]. split; [apply Hio|]. split; [|done].
  pose proof (io_inbound _ _ _ _ Hio) as Hi. by rewrite app_nil_r in Hi.
Qed.

(** After [start] the server is ready: 1024 unused slots, nothing watched but
    the listening socket, the queues untouched and the invariant established; a
    call that fails on the way ends [start] with a [runtime_error]. *)
Lemma start_ready port sfd0 efd0 iq oq w0 :
  (∀ sfd, Forall (λ a, bytes_ok a.2 ∧ R a.2) (backlog w0 sfd) ∧ (length (backlog w0 sfd) < fuel)%nat) →
  let s := ExchangeServer_ctor sfd0 efd0 iq oq w0 in
  (∃ s', start port s = Ok s' tt ∧ server_ok s' ∧ clients_ s' = replicate 1024 fresh_client ∧
     inbound_queue_ s' = iq ∧ outbound_queue_ s' = oq ∧
     watched (world s') (epoll_fd_ s') ⊆ {[server_fd_ s']}) ∨
  fails start_errors (start port s).
Proof.
  intros Hbl s. destruct (start_spec port s eq_refl eq_refl) as [(sfd & ep & w & He & Hc & Hw)|?]; [left|by right].
  exists (started s sfd ep w). split; [done|]. split; [|done].
  apply (started_ok s sfd ep w0); [done|done|apply Hbl..].
Qed.

(** C13: the event loop is safe.  From a state that satisfies the invariant, and
    whatever the peers send, a turn terminates without undefined behaviour: it
    restores the invariant, empties the outbound queue, and adds messages to the
    inbound queue only at its end; or accepting a connection failed with a
    [runtime_error]; or a [send] to a peer that is gone raised [SIGPIPE]. *)
Theorem event_loop_turn_safe s ms out : server_ok s → shared_rep (inbound_queue_ s) ms →
  q_rep (outbound_queue_ s) out → (length out < fuel)%nat → Forall (λ m, is_int (out_fd m)) out →
  buffers_have_room s out →
  (∃ s' new, event_loop_turn host fuel s = Ok s' tt ∧ server_ok s' ∧ q_rep (outbound_queue_ s') [] ∧
     shared_rep (inbound_queue_ s') (ms ++ new) ∧ Forall P new) ∨
  ends_early accept_errors (event_loop_turn host fuel s).
Proof.
  intros Hok Hq Hout Hf Hint Hroom.
  assert (event_loop_turn host fuel s = ((drain_outbound_queue fuel ;;; flush_pending_writes) ;;;
    (ep <- gets epoll_fd_ ;; events <- sys (sys_epoll_wait ep 64) ;; for_each events (dispatch host fuel))) s) as ->.
  { by rewrite bind_assoc. }
  destruct (drain_flush_spec fuel s out) as [(s1 & He & Hq1 & Hp & Hwo & Hall & (Hin & Hs & Hep) & _)|[fd Hkill]];
    [done..|pose proof (sv_length _ Hok); lia|by apply server_ok_write_ok|done|apply Hok| |].
  2: { right; right. exists fd. by apply broken_pipe_bind. }
  assert (server_ok s1) as Hok1 by (eapply (carry_on_server_ok s); [done..|by rewrite Hp|done|done]).
  destruct (epoll_wait_spec (epoll_fd_ s1) 64 (world s1)) as (w & es & Hw & Hqu & Hes).
  assert (server_ok (with_world s1 w)) as Hok2.
  { apply server_ok_world; [done|apply (Hqu 0)|]. intros fd. by apply quiet_view. }
  rewrite (bind_Ok _ _ _ _ _ He).
  assert (∀ k, (ep <- gets epoll_fd_ ;; events <- sys (sys_epoll_wait ep 64) ;; for_each events k) s1 =
    for_each es k (with_world s1 w)) as ->.
  { intros k. unfold bind, gets, sys, zoom. by rewrite Hw. }
  destruct (events_spec es (with_world s1 w) ms) as [(s2 & new & E & [Hok' _ Ho' _ _ Hi' Hg])|?];
    [done| |by cbn; rewrite Hin| |by right].
  - eapply Forall_impl; [exact Hes|]. intros e He'. by apply (sv_watched _ Hok1) in He'.
  - left. exists s2, new. split; [done|]. split; [done|]. split; [by rewrite Ho'|done].
Qed.
End loop.
