(* ===== verification/Program.v ===== *)
(** * The server program: [src/main.cpp]

    [main] constructs the two ring buffers, the book, the engine, the
    serializer, the processor and the server, starts the server, and then runs
    two threads for ever: the processing thread ([OrderProcessor::run]) and the
    I/O thread ([ExchangeServer::run]).  They share the two queues and nothing
    else, so the program is an interleaving of steps with at most one access to
    a queue each: the I/O thread pops one response, flushes and waits, or handles
    one event (whose attempts to push are interleaved with pops as the schedule
    of the inbound queue says); the processing thread pops one request,
    processes it, or tries to push one response. *)

From S2P Require Import Prelude Outcome OrdMap Order OrderBook BookSpec MatchingEngine MatchSpec MatchFacts Bytes Serializer BinarySerializer RingBuffer SharedQueue OrderProcessor Sockets ExchangeServer.

(** ** Data *)

(** Where the I/O thread is in a turn of its loop. *)
Inductive IoPhase := Draining | Flushing | Handling (events : list epoll_event).

Inductive Thread := IoThread | ProcessorThread.

(** The responses of the request that is being processed, before they are pushed
    on the outbound queue.  They are collected by [process] itself, in a queue
    of its own: an outbox with room for one message that is emptied before each
    push. *)
Definition Outbox : Type := list OutboundMessage.

#[export] Instance outbox_queue : BoundedQueue Outbox OutboundMessage := {
  q_try_push m := λ l, match l with [] => Ok [m] true | _ => Ok l false end;
  q_try_pop := λ l, match l with [] => Ok [] None | m :: l' => Ok l' (Some m) end;
}.

Definition empty_outbox (k : nat) : SharedQueue Outbox OutboundMessage :=
  mkShared [] [] (replicate k 1%nat).

Definition collected (o : SharedQueue Outbox OutboundMessage) : list OutboundMessage :=
  sq_taken o ++ sq_queue o.

(** [pg_hand]: requests the processing thread has popped and not processed yet;
    [pg_todo]: responses it has still to push.  [pg_done] and [pg_sent] record
    the requests processed and the responses popped so far. *)
Record Program (Qin Qout W : Type) := mkProgram {
  pg_server : Server Qin Qout W;
  pg_phase : IoPhase;
  pg_processor : Proc Outbox;
  pg_hand : list InboundMessage;
  pg_todo : list OutboundMessage;
  pg_done : list InboundMessage;
  pg_sent : list OutboundMessage;
}.
Arguments mkProgram {Qin Qout W}.
Arguments pg_server {Qin Qout W}.
Arguments pg_phase {Qin Qout W}.
Arguments pg_processor {Qin Qout W}.
Arguments pg_hand {Qin Qout W}.
Arguments pg_todo {Qin Qout W}.
Arguments pg_done {Qin Qout W}.
Arguments pg_sent {Qin Qout W}.

Section program.
Context {Qin Qout W : Type}.
Context `{!BoundedQueue Qin InboundMessage, !BoundedQueue Qout OutboundMessage, !Sockets W}.
Context (z : Serializer) (host : endian) (clock : nat → Z) (fuel : nat).

Abbreviation Prog := (Program Qin Qout W).
Abbreviation MP := (M Prog).
Implicit Types g : Prog.

Definition set_phase (ph : IoPhase) g : Prog :=
  mkProgram (pg_server g) ph (pg_processor g) (pg_hand g) (pg_todo g) (pg_done g) (pg_sent g).
Definition set_hand (l : list InboundMessage) g : Prog :=
  mkProgram (pg_server g) (pg_phase g) (pg_processor g) l (pg_todo g) (pg_done g) (pg_sent g).
Definition set_todo (l : list OutboundMessage) g : Prog :=
  mkProgram (pg_server g) (pg_phase g) (pg_processor g) (pg_hand g) l (pg_done g) (pg_sent g).
Definition set_done (l : list InboundMessage) g : Prog :=
  mkProgram (pg_server g) (pg_phase g) (pg_processor g) (pg_hand g) (pg_todo g) l (pg_sent g).
Definition set_sent (l : list OutboundMessage) g : Prog :=
  mkProgram (pg_server g) (pg_phase g) (pg_processor g) (pg_hand g) (pg_todo g) (pg_done g) l.
Definition set_server (s : Server Qin Qout W) g : Prog :=
  mkProgram s (pg_phase g) (pg_processor g) (pg_hand g) (pg_todo g) (pg_done g) (pg_sent g).
Definition set_processor (p : Proc Outbox) g : Prog :=
  mkProgram (pg_server g) (pg_phase g) p (pg_hand g) (pg_todo g) (pg_done g) (pg_sent g).

Definition on_server {A} (m : M (Server Qin Qout W) A) : MP A := zoom pg_server set_server m.
Definition on_processor {A} (m : M (Proc Outbox) A) : MP A := zoom pg_processor set_processor m.

(** ** The I/O thread *)

Definition io_action : MP unit :=
  phase <- gets pg_phase ;;
  match phase with
  | Draining =>
      result <- on_server (on_outbound q_try_pop) ;;
      match result with
      | Some message =>
          on_server (deliver message) ;;; modify (λ g, set_sent (pg_sent g ++ [message]) g)
      | None => modify (set_phase Flushing)
      end
  | Flushing =>
      on_server flush_pending_writes ;;;
      ep <- gets (λ g, epoll_fd_ (pg_server g)) ;;
      events <- on_server (sys (sys_epoll_wait ep 64)) ;;
      modify (set_phase (Handling events))
  | Handling [] => modify (set_phase Draining)
  | Handling (e :: events) =>
      on_server (dispatch host fuel e) ;;; modify (set_phase (Handling events))
  end.

(** ** The processing thread *)

(** The requests it popped while the I/O thread was handling an event. *)
Definition take_over g : Prog :=
  let s := pg_server g in
  let q := inbound_queue_ s in
  set_hand (pg_hand g ++ sq_taken q)
    (set_server (mkServer (clients_ s) (pending_writes_ s) (server_fd_ s) (epoll_fd_ s)
                   (mkShared (sq_queue q) [] (sq_sched q)) (outbound_queue_ s) (world s)) g).

(** [process(message)] up to the pushes. *)
Definition process_request (i : InboundMessage) : MP unit :=
  on_processor
    (modify (λ p, mkProc (pr_book p) (pr_reads p) (pr_fds p) (pr_buffer p)
                    (empty_outbox (book_size (pr_book p) + 2))) ;;;
     process host clock i) ;;;
  modify (λ g, set_todo (collected (pr_outbox (pg_processor g))) g).

Definition processor_action : MP unit :=
  modify take_over ;;;
  todo <- gets pg_todo ;;
  hand <- gets pg_hand ;;
  match todo, hand with
  | message :: rest, _ =>
      ok <- on_server (on_outbound (q_try_push message)) ;;
      if (ok : bool) then modify (set_todo rest) else ret tt
  | [], i :: rest =>
      process_request i ;;;
      modify (λ g, set_done (pg_done g ++ [i]) (set_hand rest g))
  | [], [] =>
      result <- on_server (on_inbound (on_queue q_try_pop)) ;;
      match result with
      | Some i => modify (set_hand [i])
      | None => ret tt
      end
  end.

(** ** The program *)

Definition program_step (t : Thread) : MP unit :=
  match t with IoThread => io_action | ProcessorThread => processor_action end.

(** The objects [main] constructs; the descriptors of the server have no initial
    value, and [sched] is the schedule of the pops from the inbound queue. *)
Definition main_objects (iq : Qin) (oq : Qout) (sched : list nat) (sfd0 efd0 : Z) (w : W) : Prog :=
  mkProgram (ExchangeServer_ctor sfd0 efd0 (mkShared iq [] sched) oq w) Draining
    (mkProc empty_book 0 ∅ [] (empty_outbox 0)) [] [] [] [].

(** [server.start()] and the interleaving of the two threads up to a point. *)
Definition main (schedule : list Thread) : MP unit :=
  on_server (start 8080) ;;; for_each schedule program_step.
End program.

(** The program as it is linked: ring buffers of the default capacity and the
    binary serializer.  [din] and [dout] are the default-constructed messages in
    the slots of the rings, [min] and [mout] what a moved-from slot holds. *)
Definition exchange_main {W} `{!Sockets W} (host : endian) (clock : nat → Z) (fuel : nat)
    (din : InboundMessage) (dout : OutboundMessage)
    (min : InboundMessage → InboundMessage) (mout : OutboundMessage → OutboundMessage)
    (sched : list nat) (sfd0 efd0 : Z) (w : W) (schedule : list Thread) :
    outcome (Program (Ring InboundMessage) (Ring OutboundMessage) W) unit :=
  let _ : BoundedQueue (Ring InboundMessage) InboundMessage := ring_queue DEFAULT_RING_CAPACITY min in
  let _ : BoundedQueue (Ring OutboundMessage) OutboundMessage := ring_queue DEFAULT_RING_CAPACITY mout in
  main (Binary.BinarySerializer host) host clock fuel schedule
    (main_objects (empty_ring din DEFAULT_RING_CAPACITY) (empty_ring dout DEFAULT_RING_CAPACITY)
       sched sfd0 efd0 w).
