(* ===== verification/ProgramProof.v ===== *)
(** * The two threads together

    The invariant of the whole program, kept by every step of either thread, and
    the theorems about [main]: it is safe for peers that keep to the protocol, and
    the bytes each client gets are the responses of the sequential exchange.  A
    lemma shows that a turn of the event loop is a sequence of the steps of the
    I/O thread the program is made of. *)

From S2P Require Import Prelude Outcome OrdMap Order OrderBook BookSpec MatchingEngine MatchSpec MatchTheorems MatchFacts Bytes Serializer BinarySerializer RingBuffer SharedQueue OrderProcessor ProcessorProof ExchangeSpec Sockets ExchangeServer ServerRead Framing ServerWrite ServerLoop Program.

(** ** The outbox *)

#[export] Instance outbox_laws : BoundedQueueLaws Outbox OutboundMessage.
Proof.
  refine {| q_capacity := 1; q_rep q l := q = l ∧ (length l <= 1)%nat |}.
  - by intros q l [-> ?].
  - intros q l x [-> ?] ?. exists [x]. destruct l; [done|cbn in *; lia].
  - intros q l x [-> ?] ?. by destruct l.
  - by intros q [-> _].
  - intros q x l [-> ?]. exists l. cbn in *. split; [done|]. split; [done|lia].
Defined.

Lemma outbox_capacity : (0 < q_capacity (Q := Outbox))%nat.
Proof. cbn. lia. Qed.

Lemma empty_outbox_ok k : shared_ok (empty_outbox k) [] k.
Proof.
  exists []. split_and!; [cbn; split; [done|lia]|done|]. left. unfold positives, empty_outbox. cbn [sq_sched].
  induction k as [|k IH]; [done|]. cbn [replicate]. rewrite filter_cons_True by done. cbn. lia.
Qed.

Lemma collected_all (o : SharedQueue Outbox OutboundMessage) ms : shared_rep o ms → collected o = ms.
Proof. by intros (l & [<- _] & ->). Qed.

(** ** Peers that keep to the protocol *)

Section peers.
Context (z : Serializer) `{!SerializerLaws z}.

(** Frames carry a request with a payload of the size its type needs; empty
    frames are ignored by the server. *)
Definition good_frame (f : MessageType * list Z) : Prop :=
  frame_wf f ∧ (f.2 = [] ∨ request_ok z (mkInbound 0 f.1 f.2)).

(** A peer sends frames, and may stop at any byte. *)
Definition good_stream (l : list Z) : Prop :=
  ∃ gs, Forall good_frame gs ∧ l `prefix_of` wire_bytes gs.

Definition good_request (m : InboundMessage) : Prop := request_ok z m ∧ is_int (in_fd m).

Lemma good_messages fd fs : 0 <= fd < 2 ^ 31 → Forall good_frame fs → Forall good_request (messages fd fs).
Proof.
  intros Hfd. induction 1 as [|[t p] fs [Hwf Hg] Hfs IH]; [by apply Forall_nil_2|].
  change ((t, p) :: fs) with ([(t, p)] ++ fs). rewrite messages_app. apply Forall_app. split; [|done].
  unfold messages. cbn. destruct p; [by apply Forall_nil_2|]. destruct Hg as [?|Hreq]; [done|].
  apply Forall_singleton. split; [exact Hreq|unfold is_int; cbn; lia].
Qed.

Lemma good_stream_frames fd fs rest : 0 <= fd < 2 ^ 31 → Forall frame_wf fs →
  good_stream (wire_bytes fs ++ rest) → good_stream rest ∧ Forall good_request (messages fd fs).
Proof.
  intros Hfd Hfs (gs & Hgs & Hpre).
  destruct (wire_bytes_prefix fs gs Hfs) as [gs' ->].
  { eapply Forall_impl; [exact Hgs|]. by intros f [? _]. }
  { etrans; [by apply prefix_app_r|exact Hpre]. }
  rewrite wire_bytes_app in Hpre. apply prefix_app_inv in Hpre. apply Forall_app in Hgs as [Hg1 Hg2].
  split; [by exists gs'|by apply good_messages].
Qed.

(** Responses go to connections that have sent a request. *)
Lemma answers_addressees_from host clock K l (p : Proc Outbox) st st' outs : Forall (request_ok z) l →
  (∀ i, i ∈ l → K (in_fd i)) → refines p st → routes_to K st →
  answers z host clock l st = Some (st', outs) → Forall (λ m, K (out_fd m)) outs.
Proof.
  revert p st outs. induction l as [|i l IH]; intros p st outs Hreq HK Hrf HR Ha; cbn in Ha.
  { injection Ha as <- <-. by apply Forall_nil_2. }
  apply Forall_cons in Hreq as [Hi Hreq]. destruct (answer z host clock i st) as [[st1 new]|] eqn:H1; [|done].
  cbn in Ha. destruct (answers z host clock l st1) as [[st2 more]|] eqn:H2; [|done]. injection Ha as <- <-.
  destruct (answer_addressees z host clock K i p st st1 new) as [Hnew HR1]; [done|done|by apply HK; left|done..|].
  apply Forall_app. split; [done|].
  set (p0 := mkProc (pr_book p) (pr_reads p) (pr_fds p) (pr_buffer p) (empty_outbox (length new + 0))).
  assert (refines p0 st) as Hrf0 by by destruct Hrf.
  destruct (process_refines z host clock outbox_capacity i p0 st st1 new [] 0 Hi Hrf0 H1)
    as (p1 & _ & Hrf1 & _); [apply empty_outbox_ok|].
  apply (IH p1 st1); [done| |done..]. intros j Hj. apply HK. by right.
Qed.

Lemma answers_addressees host clock l st' outs : Forall (request_ok z) l →
  answers z host clock l spec_initial = Some (st', outs) → Forall (λ m, out_fd m ∈ in_fd <$> l) outs.
Proof.
  intros Hreq. apply (answers_addressees_from host clock (λ fd, fd ∈ in_fd <$> l) l
    (mkProc empty_book 0 ∅ [] (empty_outbox 0))); [done| |apply empty_refines|].
  - intros i Hi. by apply list_elem_of_fmap_2.
  - by intros id ?%elem_of_nil.
Qed.

Lemma good_request_ok m : good_request m → request_ok z m ∧ is_int (in_fd m).
Proof. done. Qed.
End peers.

Section program.
Context {Qin Qout W : Type}.
Context `{!BoundedQueue Qin InboundMessage, !BoundedQueueLaws Qin InboundMessage}.
Context `{!BoundedQueue Qout OutboundMessage, !BoundedQueueLaws Qout OutboundMessage}.
Context `{!Sockets W, !SocketView W, !SocketLaws W}.
Context (z : Serializer) `{!SerializerLaws z} (host : endian) (clock : nat → Z) (fuel : nat).
Implicit Types (g : Program Qin Qout W) (s : Server Qin Qout W).

(** What the peers send, and what the requests read from it satisfy. *)
Context (R : list Z → Prop) (P : InboundMessage → Prop).
Hypothesis R_frames : ∀ fd fs rest, 0 <= fd < 2 ^ 31 → Forall frame_wf fs →
  R (wire_bytes fs ++ rest) → R rest ∧ Forall P (messages fd fs).
Hypothesis P_ok : ∀ m, P m → request_ok z m ∧ is_int (in_fd m).

(** The system when the program is started. *)
Context (w0 : W).

Definition peers_ok (w : W) : Prop := ∀ sfd,
  Forall (λ a, bytes_ok fuel a.2 ∧ R a.2) (backlog w sfd) ∧ (length (backlog w sfd) < fuel)%nat.

(** ** The invariant *)

Definition outgoing (m : OutboundMessage) : Prop := is_int (out_fd m).

(** As long as the descriptors are not reused and the requests processed so far
    are a legal history: what was sent and is buffered for each client that is
    connected are the payloads of the responses to it that were popped. *)
Definition streams_ok (requests : list InboundMessage) s (popped : list OutboundMessage) : Prop :=
  NoDup (fst <$> backlog w0 (server_fd_ s)) →
  is_Some (answers z host clock requests spec_initial) →
  ∀ fd c, 0 <= fd → clients_ s !! Z.to_nat fd = Some c → active c = true →
    out_stream fd s c = payloads_for fd popped.

(** [ms]: the requests of the inbound queue that were not taken over yet;
    [out]: the responses in the outbound queue. *)
Record program_ok g (ms : list InboundMessage) (out : list OutboundMessage) : Prop := {
  po_server : server_ok fuel R (pg_server g);
  po_events : match pg_phase g with
    | Handling es => Forall (event_ok (pg_server g)) es
    | _ => True
    end;
  po_inbound : shared_rep (inbound_queue_ (pg_server g)) ms;
  po_outbound : q_rep (outbound_queue_ (pg_server g)) out;
  po_requests : Forall P (pg_hand g ++ ms);
  po_done : Forall P (pg_done g);
  po_responses : Forall outgoing (out ++ pg_todo g);
  po_book : book_inv (pr_book (pg_processor g));
  po_routes : routes_in is_int (pr_fds (pg_processor g));
  po_linear st outs : answers z host clock (pg_done g) spec_initial = Some (st, outs) →
    refines (pg_processor g) st ∧ outs = pg_sent g ++ out ++ pg_todo g;
  po_account fd : from fd (pg_done g ++ pg_hand g ++ ms) ++ unread fd (pg_server g) `sublist_of`
    from fd (arrivals w0 (server_fd_ (pg_server g)));
  po_waiting : waiting (pg_server g) `suffix_of` backlog w0 (server_fd_ (pg_server g));
  po_streams : streams_ok (pg_done g) (pg_server g) (pg_sent g);
}.

Lemma done_arrived g ms out fd : program_ok g ms out →
  from fd (pg_done g) `sublist_of` from fd (arrivals w0 (server_fd_ (pg_server g))).
Proof.
  intros Hok. etrans; [|apply (po_account _ _ _ Hok)]. rewrite from_app, <- app_assoc.
  by apply sublist_inserts_r.
Qed.

(** All that a connection sends is still to be read before it is accepted. *)
Lemma from_connection fd data (l : list (Z * list Z)) : NoDup (fst <$> l) → (fd, data) ∈ l →
  from fd (l ≫= λ a, messages a.1 (frames_of a.2)) = messages fd (frames_of data).
Proof.
  clear R_frames. induction l as [|[fd' data'] l IH]; intros Hnd Hin; [by apply elem_of_nil in Hin|].
  cbn [fmap list_fmap] in Hnd. apply NoDup_cons in Hnd as [Hno Hnd]. cbn [mbind list_bind].
  rewrite from_app, from_messages. cbn [fst snd] in *. apply elem_of_cons in Hin as [[= <- <-]|Hin].
  - rewrite decide_True by done. etrans; [|apply app_nil_r]. f_equal. apply filter_none.
    intros m (a & Hm & Ha)%list_elem_of_bind <-. apply messages_fd in Hm. apply Hno. rewrite Hm.
    by apply list_elem_of_fmap_2.
  - rewrite decide_False; [by apply IH|]. intros ->. apply Hno. by apply (list_elem_of_fmap_2 fst _ _ Hin).
Qed.

Lemma not_accepted_yet g ms out fd : program_ok g ms out →
  NoDup (fst <$> backlog w0 (server_fd_ (pg_server g))) → fd ∈ fst <$> waiting (pg_server g) →
  from fd (pg_done g) = [].
Proof.
  intros Hok Hnd ([fd' data] & Heq & Hin)%list_elem_of_fmap. cbn in Heq. subst fd'.
  pose proof (po_account _ _ _ Hok fd) as Hacc. destruct (po_waiting _ _ _ Hok) as [k Hk].
  unfold unread, arrivals in Hacc. fold (waiting (pg_server g)) in Hacc.
  rewrite (from_connection fd data (backlog w0 _)) in Hacc; [|done|rewrite Hk, elem_of_app; by right].
  rewrite Hk, fmap_app in Hnd. apply NoDup_app in Hnd as (_ & _ & Hnd).
  rewrite (from_connection fd data (waiting _)) in Hacc by done.
  apply sublist_length in Hacc. rewrite from_app, !length_app in Hacc. apply nil_length_inv. lia.
Qed.

(** No response was for a connection that is still waiting. *)
Lemma nothing_sent_yet g ms out fd : program_ok g ms out →
  NoDup (fst <$> backlog w0 (server_fd_ (pg_server g))) →
  is_Some (answers z host clock (pg_done g) spec_initial) →
  fd ∈ fst <$> waiting (pg_server g) → payloads_for fd (pg_sent g) = [].
Proof.
  intros Hok Hnd [[st outs] Ha] Hin. pose proof (not_accepted_yet g ms out fd Hok Hnd Hin) as Hno.
  destruct (po_linear _ _ _ Hok st outs Ha) as [_ Houts].
  assert (Forall (λ m, out_fd m ∈ in_fd <$> pg_done g) outs) as Hto.
  { apply (answers_addressees z host clock (pg_done g) st outs); [|done].
    eapply Forall_impl; [apply (po_done _ _ _ Hok)|]. intros m Hm. by apply P_ok. }
  rewrite Houts in Hto. apply Forall_app in Hto as [Hto _]. apply payloads_for_nil.
  eapply Forall_impl; [exact Hto|]. intros m (i & -> & Hi)%list_elem_of_fmap Heq.
  assert (i ∈ from fd (pg_done g)) as Hf by by apply list_elem_of_filter.
  rewrite Hno in Hf. by apply elem_of_nil in Hf.
Qed.

(** The bytes for a connected client that are sent, buffered and on the way. *)
Lemma delivered_streams g ms out st outs fd c : program_ok g ms out →
  answers z host clock (pg_done g) spec_initial = Some (st, outs) →
  NoDup (fst <$> backlog w0 (server_fd_ (pg_server g))) →
  0 <= fd → clients_ (pg_server g) !! Z.to_nat fd = Some c → active c = true →
  tx (world (pg_server g)) fd ++ unsent c ++ payloads_for fd (out ++ pg_todo g) = payloads_for fd outs.
Proof.
  intros Hok Ha Hnd Hfd Hc Hact. destruct (po_linear _ _ _ Hok st outs Ha) as [_ ->].
  rewrite (payloads_for_app fd (pg_sent g)), app_assoc. f_equal.
  by apply (po_streams _ _ _ Hok Hnd (ex_intro _ _ Ha)).
Qed.

Definition program_inv g : Prop := ∃ ms out, program_ok g ms out.

(** Buffers stay below the size of the address space. *)
Definition roomy g : Prop := ∀ out, q_rep (outbound_queue_ (pg_server g)) out →
  buffers_have_room (pg_server g) out.

Lemma server_ok_queues s (iq : SharedQueue Qin InboundMessage) (oq : Qout) : server_ok fuel R s → server_ok fuel R
  (mkServer (clients_ s) (pending_writes_ s) (server_fd_ s) (epoll_fd_ s) iq oq (world s)).
Proof. intros [? ? ? ? ? ? ?]. by split. Qed.

Lemma on_server_Ok {A} (m : M (Server Qin Qout W) A) g s a : m (pg_server g) = Ok s a →
  on_server m g = Ok (set_server s g) a.
Proof. unfold on_server, zoom. by intros ->. Qed.

Lemma on_server_fails {A} errors (m : M (Server Qin Qout W) A) g :
  fails errors (m (pg_server g)) → fails errors (on_server m g).
Proof. intros (s & e & He & Hin). unfold on_server, zoom. rewrite He. by eexists _, e. Qed.

(** The program ends: an error of [errors] leaves [main], or [SIGPIPE]. *)
Definition program_ends {A} errors (o : outcome (Program Qin Qout W) A) : Prop :=
  fails errors o ∨ ∃ fd, broken_pipe (world ∘ pg_server) fd o.

Lemma on_server_killed {A} fd (m : M (Server Qin Qout W) A) g :
  broken_pipe world fd (m (pg_server g)) → broken_pipe (world ∘ pg_server) fd (on_server m g).
Proof. intros (s & He & Hd). exists (set_server s g). unfold on_server, zoom. by rewrite He. Qed.

Lemma on_server_ends {A} errors (m : M (Server Qin Qout W) A) g :
  ends_early errors (m (pg_server g)) → program_ends errors (on_server m g).
Proof. intros [H|[fd H]]; [left; by apply on_server_fails|right; exists fd; by apply on_server_killed]. Qed.

Lemma program_ends_bind {A B} errors (m : M (Program Qin Qout W) A) (k : A → M (Program Qin Qout W) B) g :
  program_ends errors (m g) → program_ends errors (bind m k g).
Proof. intros [H|[fd H]]; [left; by apply fails_bind|right; exists fd; by apply broken_pipe_bind]. Qed.

Lemma program_ends_mono {A} errors errors' (o : outcome (Program Qin Qout W) A) :
  (∀ e, e ∈ errors → e ∈ errors') → program_ends errors o → program_ends errors' o.
Proof. intros H [?|?]; [left; by eapply fails_mono|by right]. Qed.

Ltac simpl_program :=
  cbn [set_server set_phase set_hand set_todo set_done set_sent set_processor
       pg_server pg_phase pg_processor pg_hand pg_todo pg_done pg_sent
       clients_ pending_writes_ server_fd_ epoll_fd_ inbound_queue_ outbound_queue_ world] in *.

(** ** Steps of the I/O thread *)

(** A step that changes the server only, and keeps the outbound queue. *)
Lemma io_step_program g ms out s' new ph : program_ok g ms out →
  io_step fuel R P (pg_server g) ms s' new →
  match ph with Handling es => Forall (event_ok s') es | _ => True end →
  program_ok (set_phase ph (set_server s' g)) (ms ++ new) out.
Proof.
  intros Hok [Hs' _ Ho' Hf' _ Hi' Hg Ha' Hk' Hw'] Hph.
  pose proof Hok as [Hs He Hi Ho Hrq Hdn Hrs Hb Hrt Hl Hacc Hwt Hst]. split; simpl_program; try done.
  - by rewrite Ho'.
  - rewrite app_assoc. by apply Forall_app.
  - intros fd. rewrite Hf'. etrans; [|apply Hacc].
    rewrite !(app_assoc (pg_done g)), app_assoc, from_app, <- app_assoc. by apply sublist_app, Ha'.
  - rewrite Hf'. by etrans.
  - intros Hnd Hlegal fd c Hfd Hc Hact. rewrite Hf' in Hnd.
    destruct (Hk' fd c Hfd Hc Hact) as [(c0 & Hc0 & Hact0 & ->)|[Hin ->]]; [by apply Hst|].
    symmetry. by eapply nothing_sent_yet.
Qed.

Lemma drain_step g ms out : program_ok g ms out → roomy g → pg_phase g = Draining →
  ∃ g', io_action host fuel g = Ok g' tt ∧ program_inv g'.
Proof.
  intros [Hs He Hi Ho Hrq Hdn Hrs Hb Hrt Hl Hacc Hwt Hst] Hroom Hph. specialize (Hroom out Ho).
  unfold io_action, gets. unfold bind at 1. rewrite Hph. destruct out as [|m out].
  - assert (on_outbound q_try_pop (pg_server g) = Ok (pg_server g) None) as Hp.
    { unfold on_outbound, zoom. rewrite (q_pop_empty _ Ho). by destruct (pg_server g). }
    rewrite (bind_Ok _ _ _ _ _ (on_server_Ok _ _ _ _ Hp)). eexists. split; [done|].
    exists ms, []. by split; simpl_program.
  - destruct (q_pop_first _ _ _ Ho) as (q & Hp & Hq).
    assert (on_outbound q_try_pop (pg_server g) =
      Ok (mkServer (clients_ (pg_server g)) (pending_writes_ (pg_server g)) (server_fd_ (pg_server g))
            (epoll_fd_ (pg_server g)) (inbound_queue_ (pg_server g)) q (world (pg_server g))) (Some m)) as Hpop
      by (unfold on_outbound, zoom; by rewrite Hp).
    rewrite (bind_Ok _ _ _ _ _ (on_server_Ok _ _ _ _ Hpop)). cbn [app] in Hrs.
    apply Forall_cons in Hrs as [Hm Hrs]. set (s1 := mkServer _ _ _ _ _ q _).
    assert (server_ok fuel R s1) as Hs1 by by apply server_ok_queues.
    pose proof (sv_length _ _ _ Hs1) as Hlen.
    assert (deliver m s1 = _) as Hd by (apply deliver_spec; [exact Hm|lia]).
    rewrite (bind_Ok _ _ _ _ _ (on_server_Ok (deliver m) (set_server s1 g) _ _ Hd)).
    assert (buffers_have_room s1 [m]) as Hroom1.
    { eapply Forall_impl; [exact Hroom|]. intros c Hc. cbn. cbn in Hc. rewrite app_nil_r.
      rewrite length_app in Hc. lia. }
    set (s2 := set_pending _ _).
    pose proof (drained_carry_on s1 s2 [m] (server_ok_write_ok _ _ _ Hs1) Hroom1 eq_refl eq_refl) as Hc.
    eexists. split; [done|]. exists ms, out. split; simpl_program; try done.
    + apply (carry_on_server_ok fuel R s1 s2 _ Hs1 Hc); [|..|done|done].
      * eapply all_carry_on_write_ok; [by eapply server_ok_write_ok|exact Hc].
      * apply Forall_app. split; [apply Hs1|apply deliver_pending_in].
    + by rewrite Hph.
    + intros st outs Ha. destruct (Hl st outs Ha) as [? ->]. split; [done|]. by rewrite <- !app_assoc.
    + intros fd. etrans; [|apply Hacc]. apply sublist_app; [done|]. by apply (carry_on_reads s1 s2 _ Hc).
    + intros Hnd Hlegal fd c' Hfd Hc' Hact. rewrite payloads_for_app.
      destruct (carried_stream s1 s2 _ fd c' Hc Hfd Hc' Hact) as (c & Hlk & Hact0 & ->). f_equal. by apply Hst.
Qed.

Lemma flush_step g ms out : program_ok g ms out → pg_phase g = Flushing →
  (∃ g', io_action host fuel g = Ok g' tt ∧ program_inv g') ∨ program_ends accept_errors (io_action host fuel g).
Proof.
  intros Hok Hph. pose proof (po_server _ _ _ Hok) as Hs. set (s := pg_server g) in *.
  destruct (flush_loop_spec (pending_writes_ s) s (server_ok_write_ok _ _ _ Hs) (sv_pending _ _ _ Hs))
    as [(s1 & He & Hc & (Hi1 & Ho1 & Hf1 & Hp1) & _)|[fd Hkill]].
  2: { right; right. exists fd. unfold io_action, gets. unfold bind at 1. rewrite Hph.
       apply broken_pipe_bind, on_server_killed. unfold flush_pending_writes, gets. unfold bind at 1.
       by apply broken_pipe_bind. }
  left. assert (flush_pending_writes s = Ok (set_pending [] s1) tt) as Hfl.
  { unfold flush_pending_writes, gets. unfold bind at 1. by rewrite (bind_Ok _ _ _ _ _ He). }
  assert (server_ok fuel R (set_pending [] s1)) as Hs1.
  { apply (carry_on_server_ok fuel R s (set_pending [] s1) _ Hs Hc); [|by apply Forall_nil_2|done|done].
    eapply (all_carry_on_write_ok s s1); [by eapply server_ok_write_ok|exact Hc]. }
  destruct (epoll_wait_spec (epoll_fd_ s1) 64 (world s1)) as (w & es & Hw & Hqu & Hes).
  set (s2 := with_world (set_pending [] s1) w).
  assert (server_ok fuel R s2) as Hs2.
  { apply server_ok_world; [done|apply (Hqu 0)|]. intros fd. by apply quiet_view. }
  exists (set_phase (Handling es) (set_server s2 g)). split.
  - unfold io_action, gets. unfold bind at 1. rewrite Hph.
    rewrite (bind_Ok _ _ _ _ _ (on_server_Ok _ _ _ _ Hfl)). unfold bind at 1.
    assert (sys (sys_epoll_wait (epoll_fd_ s1) 64) (set_pending [] s1) = Ok s2 es) as Hsys
      by (unfold sys, zoom; cbn [set_pending world]; by rewrite Hw).
    by rewrite (bind_Ok _ _ _ _ _ (on_server_Ok _ (set_server (set_pending [] s1) g) _ _ Hsys)).
  - exists (ms ++ []), out. apply (io_step_program g ms out); [done| |].
    + pose proof (po_inbound _ _ _ Hok) as Hi. destruct (Hqu 0) as [_ (_ & _ & Hbl)].
      assert (waiting s2 = waiting s) as Hwt.
      { unfold waiting. cbn. by rewrite Hf1, Hbl, (proj2 (proj2 (proj1 (proj2 Hc)))). }
      split; try done; cbn; [by rewrite (proj1 Hc)|by rewrite app_nil_r, Hi1|..|by rewrite Hwt].
      * apply (reads_trans s [] (set_pending [] s1) []); [by apply (carry_on_reads s (set_pending [] s1) _ Hc)|].
        apply reads_world; [apply (Hqu 0)|intros fd; by apply quiet_view].
      * intros fd c' Hfd Hc' Hact. left.
        destruct (carried_stream s s1 _ fd c' Hc Hfd Hc' Hact) as (c & Hlk & Hact0 & E). exists c.
        split; [done|]. split; [done|]. rewrite app_nil_r in E. etrans; [|exact E]. unfold out_stream. cbn.
        by destruct (quiet_view _ _ fd Hqu) as (_ & -> & _).
    + eapply Forall_impl; [exact Hes|]. intros e He'. by apply (sv_watched _ _ _ Hs1) in He'.
Qed.

Lemma event_step g ms out e es : program_ok g ms out → pg_phase g = Handling (e :: es) →
  (∃ g', io_action host fuel g = Ok g' tt ∧ program_inv g') ∨
  program_ends accept_errors (io_action host fuel g).
Proof.
  intros Hok Hph. pose proof (po_events _ _ _ Hok) as Hev. rewrite Hph in Hev.
  apply Forall_cons in Hev as [He Hes].
  pose proof (dispatch_spec host fuel R P R_frames e (pg_server g) ms
    (po_server _ _ _ Hok) He (po_inbound _ _ _ Hok)) as Hd.
  remember (io_action host fuel g) as o eqn:Eo. unfold io_action, gets in Eo. unfold bind at 1 in Eo.
  rewrite Hph in Eo. destruct Hd as [(s' & new & Hd & Hio)|Hf].
  - rewrite (bind_Ok _ _ _ _ _ (on_server_Ok _ _ _ _ Hd)) in Eo. left. eexists. split; [exact Eo|].
    exists (ms ++ new), out. apply io_step_program; [done..|].
    eapply Forall_impl; [exact Hes|]. intros e'. by eapply event_ok_step.
  - right. rewrite Eo. by apply program_ends_bind, on_server_ends.
Qed.

Lemma io_action_spec g : program_inv g → roomy g →
  (∃ g', io_action host fuel g = Ok g' tt ∧ program_inv g') ∨
  program_ends accept_errors (io_action host fuel g).
Proof.
  intros (ms & out & Hok) Hroom. destruct (pg_phase g) as [| |[|e es]] eqn:Hph.
  - left. by eapply drain_step.
  - by eapply flush_step.
  - left. unfold io_action, gets. unfold bind at 1. rewrite Hph. eexists. split; [done|].
    exists ms, out. destruct Hok as [Hs He Hi Ho Hrq Hdn Hrs Hb Hrt Hl Hacc Hwt Hst]. by split; simpl_program.
  - by eapply event_step.
Qed.

(** ** Steps of the processing thread *)

Lemma take_over_ok g ms out : program_ok g ms out → ∃ ms', program_ok (take_over g) ms' out ∧
  q_rep (sq_queue (inbound_queue_ (pg_server (take_over g)))) ms' ∧
  sq_taken (inbound_queue_ (pg_server (take_over g))) = [].
Proof.
  intros [Hs He (l & Hq & ->) Ho Hrq Hdn Hrs Hb Hrt Hl Hacc Hwt Hst]. exists l. unfold take_over. split; [|by simpl_program].
  split; simpl_program; try done.
  - by apply server_ok_queues.
  - by exists l.
  - by rewrite <- app_assoc.
  - intros fd. specialize (Hacc fd). rewrite <- !app_assoc in *. exact Hacc.
Qed.

(** Pushing the next response. *)
Lemma push_step g ms out m rest : program_ok g ms out → pg_todo g = m :: rest →
  ∃ g', (ok <- on_server (on_outbound (q_try_push m)) ;;
         if (ok : bool) then modify (set_todo rest) else ret tt) g = Ok g' tt ∧ program_inv g'.
Proof.
  intros [Hs He Hi Ho Hrq Hdn Hrs Hb Hrt Hl Hacc Hwt Hst] Htodo. rewrite Htodo in Hrs, Hl.
  pose proof (q_rep_bound _ _ Ho). destruct (decide (length out < q_capacity)%nat) as [Hlt|Hge].
  - destruct (q_push_room _ _ m Ho Hlt) as (q & Hp & Hq).
    assert (on_outbound (q_try_push m) (pg_server g) =
      Ok (mkServer (clients_ (pg_server g)) (pending_writes_ (pg_server g)) (server_fd_ (pg_server g))
            (epoll_fd_ (pg_server g)) (inbound_queue_ (pg_server g)) q (world (pg_server g))) true) as Hpush
      by (unfold on_outbound, zoom; by rewrite Hp).
    rewrite (bind_Ok _ _ _ _ _ (on_server_Ok _ _ _ _ Hpush)). eexists. split; [done|].
    exists ms, (out ++ [m]). split; simpl_program; try done.
    + by apply server_ok_queues.
    + by rewrite <- app_assoc.
    + intros st outs Ha. rewrite <- app_assoc. by apply Hl.
  - assert (on_outbound (q_try_push m) (pg_server g) = Ok (pg_server g) false) as Hpush.
    { unfold on_outbound, zoom. rewrite (q_push_full _ _ m Ho) by lia. by destruct (pg_server g). }
    rewrite (bind_Ok _ _ _ _ _ (on_server_Ok _ _ _ _ Hpush)). eexists. split; [done|].
    exists ms, out. split; simpl_program; rewrite ?Htodo; done.
Qed.

(** Popping the next request. *)
Lemma pop_step g ms out : program_ok g ms out → pg_hand g = [] →
  q_rep (sq_queue (inbound_queue_ (pg_server g))) ms →
  sq_taken (inbound_queue_ (pg_server g)) = [] →
  ∃ g', (result <- on_server (on_inbound (on_queue q_try_pop)) ;;
         match result with Some i => modify (set_hand [i]) | None => ret tt end) g = Ok g' tt ∧
    program_inv g'.
Proof.
  intros [Hs He Hi Ho Hrq Hdn Hrs Hb Hrt Hl Hacc Hwt Hst] Hhand Hq Ht. rewrite Hhand in Hrq, Hacc. destruct ms as [|i ms].
  - assert (on_inbound (on_queue q_try_pop) (pg_server g) = Ok (pg_server g) None) as Hp.
    { unfold on_inbound, on_queue, zoom. rewrite (q_pop_empty _ Hq).
      by destruct (pg_server g) as [? ? ? ? []]. }
    rewrite (bind_Ok _ _ _ _ _ (on_server_Ok _ _ _ _ Hp)). eexists. split; [done|].
    exists [], out. split; simpl_program; rewrite ?Hhand; done.
  - destruct (q_pop_first _ _ _ Hq) as (q & Hp & Hq').
    eassert (on_inbound (on_queue q_try_pop) (pg_server g) = Ok _ (Some i)) as Hpop
      by (unfold on_inbound, on_queue, zoom; by rewrite Hp).
    rewrite (bind_Ok _ _ _ _ _ (on_server_Ok _ _ _ _ Hpop)). eexists. split; [done|].
    exists ms, out. split; simpl_program; try done.
    + by apply server_ok_queues.
    + exists ms. cbn [sq_queue sq_taken]. by rewrite Ht.
Qed.

(** The processor with an empty outbox of its own. *)
Definition boxed (p : Proc Outbox) : Proc Outbox :=
  mkProc (pr_book p) (pr_reads p) (pr_fds p) (pr_buffer p) (empty_outbox (book_size (pr_book p) + 2)).

Lemma boxed_refines p st : refines p st → refines (boxed p) st.
Proof. intros [? ? ? ?]. by split. Qed.

(** Processing the next request. *)
Lemma request_step g ms out i rest : program_ok g ms out → pg_hand g = i :: rest → pg_todo g = [] →
  ∃ g', (process_request z host clock i ;;;
         modify (λ g, set_done (pg_done g ++ [i]) (set_hand rest g))) g = Ok g' tt ∧ program_inv g'.
Proof.
  intros [Hs He Hi Ho Hrq Hdn Hrs Hb Hrt Hl Hacc Hwt Hst] Hhand Htodo. rewrite Hhand in Hrq, Hacc. rewrite Htodo in Hrs, Hl.
  cbn [app] in Hrq. apply Forall_cons in Hrq as [HP Hrq]. destruct (P_ok i HP) as [Hreq Hint].
  set (p := pg_processor g) in *. pose proof (empty_outbox_ok (book_size (pr_book p) + 2)) as Hbox.
  destruct (process_total z host clock outbox_capacity is_int i (boxed p) [] 0 Hreq Hb)
    as (p' & reports & resp & Hp & Hb' & Hrt' & Hrep & Hrep'%shared_ok_rep); [done|done|done|by rewrite Nat.add_0_r|].
  apply collected_all in Hrep'. cbn [app] in Hrep'.
  exists (set_done (pg_done g ++ [i]) (set_hand rest (set_todo (collected (pr_outbox p')) (set_processor p' g)))).
  split.
  { assert (on_processor (modify boxed ;;; process host clock i) g = Ok (set_processor p' g) tt) as Hon
      by (unfold on_processor, zoom, bind, modify; fold p; by rewrite Hp).
    unfold process_request. unfold bind at 1. by rewrite (bind_Ok _ _ _ _ _ Hon). }
  exists ms, out. split; simpl_program; try done.
  - apply Forall_app. split; [done|]. by apply Forall_singleton.
  - rewrite app_nil_r in Hrs. apply Forall_app. split; [done|]. rewrite Hrep'. apply Forall_app. split; [done|].
    by apply Forall_singleton.
  - intros st' outs' Ha. rewrite answers_app in Ha.
    destruct (answers z host clock (pg_done g) spec_initial) as [[st outs]|] eqn:Hans; [|done]. cbn in Ha.
    destruct (answer z host clock i st) as [[st1 new]|] eqn:Hone; [|done]. cbn in Ha.
    rewrite app_nil_r in Ha. injection Ha as <- <-. destruct (Hl st outs eq_refl) as [Hrf ->].
    pose proof (answer_length z host clock outbox_capacity i p st st1 new Hreq Hrf Hone) as Hlen.
    destruct (process_refines z host clock outbox_capacity i (boxed p) st st1 new [] 0 Hreq
      (boxed_refines _ _ Hrf) Hone) as (p2 & Hp2 & Hrf2 & Hnew%shared_ok_rep).
    { eapply shared_ok_le; [exact Hbox|lia]. }
    assert (p2 = p') as -> by congruence. apply collected_all in Hnew. cbn [app] in Hnew.
    split; [done|]. by rewrite Hnew, app_nil_r, app_assoc.
  - intros fd. rewrite <- app_assoc. exact (Hacc fd).
  - intros Hnd [[st' outs'] Ha]. apply Hst; [done|]. rewrite answers_app in Ha.
    by destruct (answers z host clock (pg_done g) spec_initial) as [[st outs]|].
Qed.

Lemma processor_action_spec g : program_inv g →
  ∃ g', processor_action z host clock g = Ok g' tt ∧ program_inv g'.
Proof.
  intros (ms & out & Hok). destruct (take_over_ok g ms out Hok) as (ms' & Hok' & Hq & Ht).
  unfold processor_action, gets. unfold bind at 1 2 3, modify at 1.
  destruct (pg_todo (take_over g)) as [|m rest] eqn:Htodo; [|by eapply push_step].
  destruct (pg_hand (take_over g)) as [|i rest] eqn:Hhand; [by eapply pop_step|by eapply request_step].
Qed.

Lemma program_step_spec t g : program_inv g → roomy g →
  (∃ g', program_step z host clock fuel t g = Ok g' tt ∧ program_inv g') ∨
  program_ends accept_errors (program_step z host clock fuel t g).
Proof.
  intros Hinv Hroom. destruct t; [by apply io_action_spec|left; by apply processor_action_spec].
Qed.

(** ** Executions *)

Lemma schedule_spec schedule g : program_inv g →
  (∀ n g', for_each (take n schedule) (program_step z host clock fuel) g = Ok g' tt → roomy g') →
  (∃ g', for_each schedule (program_step z host clock fuel) g = Ok g' tt ∧ program_inv g') ∨
  program_ends accept_errors (for_each schedule (program_step z host clock fuel) g).
Proof.
  revert g. induction schedule as [|t schedule IH]; intros g Hinv Hroom; [left; by exists g|].
  destruct (program_step_spec t g Hinv (Hroom 0%nat g eq_refl)) as [(g1 & E1 & Hinv1)|Hf].
  - cbn [for_each]. rewrite (bind_Ok _ _ _ _ _ E1). apply IH; [done|]. intros n g' E.
    apply (Hroom (S n)). cbn [take for_each]. by rewrite (bind_Ok _ _ _ _ _ E1).
  - right. cbn [for_each]. by apply program_ends_bind.
Qed.

Lemma started_program_inv iq oq sched sfd0 efd0 sfd ep w : q_rep iq [] → q_rep oq [] → peers_ok w0 →
  calm w0 w → watched w ep ⊆ {[sfd]} →
  let g0 := main_objects iq oq sched sfd0 efd0 w0 in
  program_inv (set_server (started (pg_server g0) sfd ep w) g0).
Proof.
  intros Hiq Hoq Hpeers Hc Hw. exists [], []. split; simpl_program; try done.
  - by apply (started_ok fuel R _ sfd ep w0 w Hc Hw); apply Hpeers.
  - by exists [].
  - split; [apply empty_book_ok|]. by intros x y ?%elem_of_nil.
  - intros st outs [= <- <-]. split; [apply empty_refines|done].
  - intros fd. unfold unread. cbn [started clients_ world server_fd_ app]. unfold arrivals. rewrite (proj2 Hc).
    unfold slot_at. case_decide; [|done].
    destruct (replicate 1024 fresh_client !! Z.to_nat fd) as [c|] eqn:Hl; [|done].
    by apply lookup_replicate_1 in Hl as [-> _].
  - unfold waiting. cbn [started world server_fd_]. by rewrite (proj2 Hc).
  - intros _ _ fd c _ Hl Hact. cbn [started clients_] in Hl. by apply lookup_replicate_1 in Hl as [-> _].
Qed.

Lemma main_spec iq oq sched sfd0 efd0 schedule : q_rep iq [] → q_rep oq [] → peers_ok w0 →
  let run n := main z host clock fuel (take n schedule) (main_objects iq oq sched sfd0 efd0 w0) in
  (∀ n g, run n = Ok g tt → roomy g) →
  (∃ g, main z host clock fuel schedule (main_objects iq oq sched sfd0 efd0 w0) = Ok g tt ∧ program_inv g) ∨
  program_ends (start_errors ++ accept_errors)
    (main z host clock fuel schedule (main_objects iq oq sched sfd0 efd0 w0)).
Proof.
  intros Hiq Hoq Hpeers run Hroom. set (g0 := main_objects iq oq sched sfd0 efd0 w0) in *.
  destruct (start_spec 8080 (pg_server g0) eq_refl eq_refl) as [(sfd & ep & w & He & Hc & Hw)|Hf].
  - pose proof (on_server_Ok _ g0 _ _ He) as Hs. unfold main. rewrite (bind_Ok _ _ _ _ _ Hs).
    destruct (schedule_spec schedule (set_server (started (pg_server g0) sfd ep w) g0)) as [?|Hf];
      [by apply started_program_inv| |by left|right; eapply program_ends_mono; [|exact Hf]; set_solver].
    intros n g' E. apply (Hroom n). unfold run, main. by rewrite (bind_Ok _ _ _ _ _ Hs).
  - right. left. apply (fails_mono start_errors); [set_solver|]. by apply fails_bind, on_server_fails.
Qed.

(** ** A turn of the event loop as steps of the I/O thread *)

Definition io_run (n : nat) : M (Program Qin Qout W) unit :=
  for_each (replicate n IoThread) (program_step z host clock fuel).

(** The other thread's part of the state. *)
Definition processor_part g : Proc Outbox * list InboundMessage * list OutboundMessage * list InboundMessage :=
  (pg_processor g, pg_hand g, pg_todo g, pg_done g).

(** A computation of the server and a run of the program end in the same way. *)
Definition ends_alike g (ph : IoPhase) (o : outcome (Server Qin Qout W) unit)
    (o' : outcome (Program Qin Qout W) unit) : Prop :=
  match o, o' with
  | Ok s _, Ok g' _ => pg_server g' = s ∧ pg_phase g' = ph ∧ processor_part g' = processor_part g
  | Throw s e, Throw g' e' => pg_server g' = s ∧ e' = e ∧ processor_part g' = processor_part g
  | Killed s, Killed g' => pg_server g' = s ∧ processor_part g' = processor_part g
  | UB, UB | Diverge, Diverge => True
  | _, _ => False
  end.

Lemma io_run_step n g g1 : io_action host fuel g = Ok g1 tt → io_run (S n) g = io_run n g1.
Proof. intros E. unfold io_run. cbn [replicate for_each program_step]. by rewrite (bind_Ok _ _ _ _ _ E). Qed.

Lemma io_run_last g : io_run 1 g = io_action host fuel g.
Proof.
  unfold io_run. cbn [replicate for_each program_step]. unfold bind, ret.
  by destruct (io_action host fuel g) as [? []| | | |].
Qed.

(** A first part that ends well, followed by the rest. *)
Lemma ends_alike_step g g1 ph o n : io_action host fuel g = Ok g1 tt →
  processor_part g1 = processor_part g → ends_alike g1 ph o (io_run n g1) →
  ends_alike g ph o (io_run (S n) g).
Proof.
  intros E Hp H. rewrite (io_run_step n g g1 E). unfold ends_alike in *.
  destruct o, (io_run n g1) as [g' []| | | |]; try done; by rewrite <- Hp.
Qed.

(** The computation of the server, and with it the step, ends in [H]. *)
Ltac stops_here Ha H :=
  exists 1%nat; rewrite io_run_last, Ha; unfold bind, on_server, zoom; simpl_program; by rewrite H.

Lemma events_decompose es g : pg_phase g = Handling es →
  ∃ n, ends_alike g Draining (for_each es (dispatch host fuel) (pg_server g)) (io_run n g).
Proof.
  revert g. induction es as [|e es IH]; intros g Hph.
  { exists 1%nat. rewrite io_run_last. unfold io_action, gets, bind. by rewrite Hph. }
  cbn [for_each].
  assert (io_action host fuel g =
    (on_server (dispatch host fuel e) ;;; modify (set_phase (Handling es))) g) as Ha
    by (unfold io_action, gets; unfold bind at 1; by rewrite Hph).
  destruct (dispatch host fuel e (pg_server g)) as [s1 []|s1 x| | |s1] eqn:Hd.
  - rewrite (bind_Ok _ _ _ _ _ Hd). rewrite (bind_Ok _ _ _ _ _ (on_server_Ok _ _ _ _ Hd)) in Ha.
    destruct (IH (set_phase (Handling es) (set_server s1 g)) eq_refl) as (n & Hn).
    exists (S n). by apply (ends_alike_step _ _ _ _ _ Ha).
  - stops_here Ha Hd.
  - stops_here Ha Hd.
  - stops_here Ha Hd.
  - stops_here Ha Hd.
Qed.

(** The rest of a turn after the outbound queue was found empty. *)
Definition flush_and_handle : M (Server Qin Qout W) unit :=
  flush_pending_writes ;;; ep <- gets epoll_fd_ ;;
  events <- sys (sys_epoll_wait ep 64) ;; for_each events (dispatch host fuel).

Lemma flush_decompose g : pg_phase g = Flushing →
  ∃ n, ends_alike g Draining (flush_and_handle (pg_server g)) (io_run n g).
Proof.
  intros Hph. unfold flush_and_handle.
  assert (io_action host fuel g =
    (on_server flush_pending_writes ;;; ep <- gets (λ g, epoll_fd_ (pg_server g)) ;;
     events <- on_server (sys (sys_epoll_wait ep 64)) ;; modify (set_phase (Handling events))) g) as Ha
    by (unfold io_action, gets; unfold bind at 1; by rewrite Hph).
  destruct (flush_pending_writes (pg_server g)) as [s1 []|s1 x| | |s1] eqn:Hf.
  2-5: stops_here Ha Hf.
  rewrite (bind_Ok _ _ _ _ _ Hf). rewrite (bind_Ok _ _ _ _ _ (on_server_Ok _ _ _ _ Hf)) in Ha.
  unfold gets in Ha |- *. unfold bind at 1. unfold bind at 1 in Ha. simpl_program.
  destruct (sys (sys_epoll_wait (epoll_fd_ s1) 64) s1) as [s2 es|s2 x| | |s2] eqn:Hw.
  - rewrite (bind_Ok _ _ _ _ _ Hw). rewrite (bind_Ok _ _ _ _ _ (on_server_Ok _ (set_server s1 g) _ _ Hw)) in Ha.
    destruct (events_decompose es (set_phase (Handling es) (set_server s2 (set_server s1 g))) eq_refl) as (n & Hn).
    exists (S n). by apply (ends_alike_step _ _ _ _ _ Ha).
  - stops_here Ha Hw.
  - stops_here Ha Hw.
  - stops_here Ha Hw.
  - stops_here Ha Hw.
Qed.

Lemma drain_decompose k g : pg_phase g = Draining →
  drain_outbound_queue k (pg_server g) ≠ Diverge →
  ∃ n, ends_alike g Draining ((drain_outbound_queue k ;;; flush_and_handle) (pg_server g)) (io_run n g).
Proof.
  revert g. induction k as [|k IH]; intros g Hph Hd; [done|]. cbn [drain_outbound_queue] in *.
  assert (io_action host fuel g =
    (result <- on_server (on_outbound q_try_pop) ;;
     match result with
     | Some message => on_server (deliver message) ;;; modify (λ g, set_sent (pg_sent g ++ [message]) g)
     | None => modify (set_phase Flushing)
     end) g) as Ha by (unfold io_action, gets; unfold bind at 1; by rewrite Hph).
  destruct (on_outbound q_try_pop (pg_server g)) as [s1 [m|]|s1 x| | |s1] eqn:Hp.
  3-6: stops_here Ha Hp.
  - rewrite (bind_Ok _ _ _ _ _ (on_server_Ok _ _ _ _ Hp)) in Ha. rewrite (bind_Ok _ _ _ _ _ Hp) in Hd.
    unfold bind at 1 2. rewrite Hp.
    destruct (deliver m s1) as [s2 []|s2 x| | |s2] eqn:Hm.
    + rewrite (bind_Ok _ _ _ _ _ (on_server_Ok _ (set_server s1 g) _ _ Hm)) in Ha.
      rewrite (bind_Ok _ _ _ _ _ Hm) in Hd. rewrite (bind_Ok _ _ _ _ _ Hm).
      destruct (IH _ (eq_refl : pg_phase (set_phase Draining (set_sent (pg_sent g ++ [m]) (set_server s2 g))) = _) Hd)
        as (n & Hn).
      exists (S n). eapply (ends_alike_step g _ _ _ _ Ha); [done|].
      replace (set_sent _ _) with (set_phase Draining (set_sent (pg_sent g ++ [m]) (set_server s2 g))); [exact Hn|].
      unfold set_phase, set_sent, set_server. simpl_program. by rewrite Hph.
    + rewrite (bind_Throw _ _ _ _ _ Hm). stops_here Ha Hm.
    + stops_here Ha Hm.
    + stops_here Ha Hm.
    + stops_here Ha Hm.
  - rewrite (bind_Ok _ _ _ _ _ (on_server_Ok _ _ _ _ Hp)) in Ha. unfold bind at 1 2. rewrite Hp.
    destruct (flush_decompose (set_phase Flushing (set_server s1 g)) eq_refl) as (n & Hn).
    exists (S n). by apply (ends_alike_step _ _ _ _ _ Ha).
Qed.

(** The steps of the I/O thread are those of [ExchangeServer::run]: whenever
    [event_loop_turn] ends, so does a number of steps of the I/O thread of the
    program, in the same way and in the same state of the server, and without
    touching what belongs to the processing thread. *)
Lemma turn_decomposes g : pg_phase g = Draining →
  drain_outbound_queue fuel (pg_server g) ≠ Diverge →
  ∃ n, ends_alike g Draining (event_loop_turn host fuel (pg_server g)) (io_run n g).
Proof.
  intros Hph Hd. destruct (drain_decompose fuel g Hph Hd) as (n & Hn). by exists n.
Qed.
End program.

Section signals.
Context {Qin Qout W : Type}.
Context `{!BoundedQueue Qin InboundMessage, !BoundedQueue Qout OutboundMessage}.
Context `{!Sockets W, !SocketView W, !SocketLaws W}.
Context (z : Serializer) (host : endian) (clock : nat → Z) (fuel : nat).
Implicit Types (g : Program Qin Qout W) (s : Server Qin Qout W).

(** The attempt to send for a connected client with data in its buffer. *)
Lemma try_send_calls fd s c : 0 <= fd → clients_ s !! Z.to_nat fd = Some c → active c = true →
  write_buffer c ≠ [] →
  (∀ w, sys_send fd (unsent c) (world s) = Ok w SendFailed → try_send fd s = disconnect_client fd (with_world s w)) ∧
  (∀ w, sys_send fd (unsent c) (world s) = Killed w → try_send fd s = Killed (with_world s w)).
Proof.
  intros Hfd Hc Hact Hne. unfold try_send. rewrite (bind_Ok _ _ _ _ _ (client_Ok fd Hfd _ _ Hc)), Hact.
  cbn [negb]. rewrite bool_decide_eq_false_2 by done.
  split; intros w Hs; unfold bind at 1, sys, zoom; by rewrite Hs.
Qed.

End signals.

Section main.
Context {W : Type} `{!Sockets W, !SocketView W, !SocketLaws W}.
Context (host : endian) (clock : nat → Z) (fuel : nat).
Context (din : InboundMessage) (dout : OutboundMessage).
Context (min : InboundMessage → InboundMessage) (mout : OutboundMessage → OutboundMessage).
#[local] Instance main_in : BoundedQueue (Ring InboundMessage) InboundMessage :=
  ring_queue DEFAULT_RING_CAPACITY min.
#[local] Instance main_out : BoundedQueue (Ring OutboundMessage) OutboundMessage :=
  ring_queue DEFAULT_RING_CAPACITY mout.
#[local] Instance main_in_laws : BoundedQueueLaws (Ring InboundMessage) InboundMessage :=
  ring_queue_laws DEFAULT_RING_CAPACITY min default_capacity_power.
#[local] Instance main_out_laws : BoundedQueueLaws (Ring OutboundMessage) OutboundMessage :=
  ring_queue_laws DEFAULT_RING_CAPACITY mout default_capacity_power.
#[local] Instance main_laws : SerializerLaws (Binary.BinarySerializer host) :=
  Binary.BinarySerializer_laws host.
Context (sched : list nat) (sfd0 efd0 : Z) (w0 : W) (schedule : list Thread).

Abbreviation run_main := (exchange_main host clock fuel din dout min mout sched sfd0 efd0 w0).

(** No write buffer outgrows the address space during the execution. *)
Definition always_roomy : Prop := ∀ n g, run_main (take n schedule) = Ok g tt → roomy g.

Lemma run_main_spec (R : list Z → Prop) (P : InboundMessage → Prop) :
  (∀ fd fs rest, 0 <= fd < 2 ^ 31 → Forall frame_wf fs →
     R (wire_bytes fs ++ rest) → R rest ∧ Forall P (messages fd fs)) →
  (∀ m, P m → request_ok (Binary.BinarySerializer host) m ∧ is_int (in_fd m)) →
  peers_ok fuel R w0 → always_roomy →
  (∃ g, run_main schedule = Ok g tt ∧ program_inv (Binary.BinarySerializer host) host clock fuel R P w0 g) ∨
  program_ends (start_errors ++ accept_errors) (run_main schedule).
Proof.
  intros HR HP Hpeers Hroom. unfold exchange_main.
  apply (main_spec (Binary.BinarySerializer host) host clock fuel R P HR HP w0); [..|done|exact Hroom];
    apply empty_ring_rep, default_capacity_power.
Qed.

Lemma run_main_inv (R : list Z → Prop) (P : InboundMessage → Prop) g :
  (∀ fd fs rest, 0 <= fd < 2 ^ 31 → Forall frame_wf fs →
     R (wire_bytes fs ++ rest) → R rest ∧ Forall P (messages fd fs)) →
  (∀ m, P m → request_ok (Binary.BinarySerializer host) m ∧ is_int (in_fd m)) →
  peers_ok fuel R w0 → always_roomy → run_main schedule = Ok g tt →
  program_inv (Binary.BinarySerializer host) host clock fuel R P w0 g.
Proof.
  intros HR HP Hpeers Hroom He.
  destruct (run_main_spec R P HR HP Hpeers Hroom) as [(g' & He' & Hinv)|[(g' & e & He' & _)|(fd & g' & He' & _)]];
    [|congruence..]. by assert (g' = g) as -> by congruence.
Qed.

(** C6: the program is safe.  When every peer sends well-formed requests, stopping
    wherever it likes, and no write buffer outgrows the address space, no
    interleaving of the two threads reaches undefined behaviour, an endless loop
    inside a step or the end of the processing thread; the book is always well-formed and uncrossed, and the requests of
    each connection are processed in the order in which its peer sent them, none
    twice and none that was not sent.  The only ways to stop are one of the errors
    [start] and [accept_client] throw, and [SIGPIPE] from a [send] to a peer that
    is gone. *)
Theorem main_safe : peers_ok fuel (good_stream (Binary.BinarySerializer host)) w0 → always_roomy →
  (∃ g, run_main schedule = Ok g tt ∧ book_inv (pr_book (pg_processor g)) ∧
     server_ok fuel (good_stream (Binary.BinarySerializer host)) (pg_server g) ∧
     ∀ fd, from fd (pg_done g) `sublist_of` from fd (arrivals w0 (server_fd_ (pg_server g)))) ∨
  fails (start_errors ++ accept_errors) (run_main schedule) ∨
  ∃ fd, broken_pipe (world ∘ pg_server) fd (run_main schedule).
Proof.
  intros Hpeers Hroom.
  destruct (run_main_spec _ _ (good_stream_frames _) (good_request_ok _) Hpeers Hroom)
    as [(g & He & ms & out & Hok)|?]; [left|by right].
  exists g. split; [done|]. split; [apply Hok|]. split; [by apply (po_server _ _ _ _ _ _ _ _ _ _ Hok)|].
  intros fd. by eapply done_arrived.
Qed.

(** C5: the exchange is linearizable, up to the bytes on the wire.  Whatever the
    interleaving, take the requests in the order in which the processing thread
    has processed them: if they are a legal history of the sequential exchange,
    then the book, the clock and the routing table are what that history leads
    to, and its responses are those popped from the outbound queue, those in it
    and those still to be pushed, in order.  If moreover the connections have
    different descriptors, then for every client that is still connected the
    bytes its socket took so far, the bytes in its write buffer and the payloads
    for it that are still on the way are together exactly the payloads of the
    responses addressed to it, in order, each exactly once. *)
Theorem main_linearizes g st outs : peers_ok fuel (good_stream (Binary.BinarySerializer host)) w0 → always_roomy →
  run_main schedule = Ok g tt →
  answers (Binary.BinarySerializer host) host clock (pg_done g) spec_initial = Some (st, outs) →
  refines (pg_processor g) st ∧
  ∃ queued, ring_rep DEFAULT_RING_CAPACITY (outbound_queue_ (pg_server g)) queued ∧
    outs = pg_sent g ++ queued ++ pg_todo g ∧
    (NoDup (fst <$> backlog w0 (server_fd_ (pg_server g))) →
     ∀ fd c, 0 <= fd → clients_ (pg_server g) !! Z.to_nat fd = Some c → active c = true →
       tx (world (pg_server g)) fd ++ unsent c ++ payloads_for fd (queued ++ pg_todo g) = payloads_for fd outs).
Proof.
  intros Hpeers Hroom He Ha.
  destruct (run_main_inv _ _ g (good_stream_frames _) (good_request_ok _) Hpeers Hroom He) as (ms & out & Hok).
  destruct (po_linear _ _ _ _ _ _ _ _ _ _ Hok st outs Ha) as [Hrf Ho].
  split; [done|]. exists out. split; [apply (po_outbound _ _ _ _ _ _ _ _ _ _ Hok)|]. split; [done|].
  intros Hnd fd c Hfd Hc Hact. by eapply delivered_streams.
Qed.
End main.
