(* ===== verification/NetworkUtils.v ===== *)
(** * Blocking reads: [src/network_utils.cpp]

    [read_exact] repeats [recv] until the buffer is full, and [read_message]
    reads a header and then the payload whose length the header gives.  The
    socket is a parameter, so nothing is known about the pieces in which the
    bytes come. *)

From S2P Require Import Prelude Outcome Order Bytes Serializer RingBuffer SharedQueue Sockets ExchangeServer ServerRead.

Section network.
Context {W : Type} `{!Sockets W}.
Context (host : endian) (fd : Z).

(** The loop of [read_exact]; the state is the memory at [buffer] and the
    system.  Every [recv] that returns data shortens what is asked for. *)
Fixpoint read_exact_from (fuel : nat) (n total_read : Z) : M (list Z * W) bool :=
  match fuel with
  | O => λ _, Diverge
  | S fuel' =>
      if total_read <? n then
        r <- zoom snd (λ w s, (s.1, w)) (sys_recv fd (u64 (n - total_read))) ;;
        match r with
        | Received l =>
            zoom fst (λ b s, (b, s.2)) (memcpy_out (Z.to_nat total_read) l) ;;;
            read_exact_from fuel' n (u64 (total_read + Z.of_nat (length l)))
        | _ => ret false
        end
      else ret true
  end.

Definition read_exact (fuel : nat) (n : Z) : M (list Z * W) bool := read_exact_from fuel n 0.

(** Run [read_exact] on a buffer outside the state. *)
Definition read_into (fuel : nat) (n : Z) (buf : list Z) : M (Message * W) (list Z * bool) := λ s,
  match read_exact fuel n (buf, s.2) with
  | Ok (buf', w) ok => Ok (s.1, w) (buf', ok)
  | Throw (_, w) e => Throw (s.1, w) e
  | UB => UB
  | Diverge => Diverge
  | Killed (_, w) => Killed (s.1, w)
  end.

(** [header] is an array without initial value, [h0]. *)
Definition read_message (fuel : nat) (h0 : list Z) : M (Message * W) bool :=
  h <- read_into fuel 5 h0 ;;
  let '(header, ok) := h in
  if negb ok then ret false
  else
    modify (λ s, (mkMessage (MessageType_of_byte (nth 0 header 0)) (payload s.1), s.2)) ;;;
    net_payload_length <- read_uint host 1 4 header ;;
    let payload_length := ntohl host net_payload_length in
    modify (λ s, (mkMessage (msg_type s.1) (resize (Z.to_nat payload_length) (payload s.1)), s.2)) ;;;
    s <- get ;;
    p <- read_into fuel payload_length (payload s.1) ;;
    let '(body, ok2) := p in
    modify (λ s, (mkMessage (msg_type s.1) body, s.2)) ;;;
    ret (ok2 : bool).
End network.

Section laws.
Context {W : Type} `{!Sockets W, !SocketView W, !SocketLaws W}.
Context (host : endian) (fd : Z).
Implicit Types (w : W) (buf : list Z).

(** [l] was read off the stream of [fd] between two states. *)
Definition consumed w w' (l : list Z) : Prop :=
  others fd w w' ∧ tx w' fd = tx w fd ∧ rx w fd = l ++ rx w' fd.

(** A call has reported that there is no data: the end of the stream, an error
    or a time-out. *)
Definition no_more w : Prop := dead w fd = true ∨ short_read w fd = true.

Lemma read_exact_from_spec fuel n total buf w :
  0 <= total <= n → is_u64 n → n <= Z.of_nat (length buf) → (Z.to_nat (n - total) < fuel)%nat →
  ∃ w' buf' ok l, read_exact_from fd fuel n total (buf, w) = Ok (buf', w') ok ∧
    length buf' = length buf ∧ consumed w w' l ∧
    take (Z.to_nat total + length l) buf' = take (Z.to_nat total) buf ++ l ∧
    if (ok : bool) then Z.of_nat (length l) = n - total
    else Z.of_nat (length l) < n - total ∧ no_more w'.
Proof.
  revert total buf w. induction fuel as [|fuel IH]; intros total buf w Ht Hn Hb Hf; [lia|].
  cbn [read_exact_from]. destruct (Z.ltb_spec total n) as [Hlt|Hge].
  2: { exists w, buf, true, []. split; [done|]. split; [done|]. split; [done|].
       rewrite app_nil_r, Nat.add_0_r. split; [done|cbn; lia]. }
  rewrite u64_id by width.
  destruct (recv_spec fd (n - total) w) as (w1 & r & Hr & Ho & Htx & _ & _ & Hres); [lia|].
  unfold bind at 1, zoom at 1. cbn [fst snd]. rewrite Hr.
  destruct r as [l| | |].
  2-4: destruct Hres as [Hrx Hflag]; exists w1, buf, false, []; (split; [done|]); (split; [done|]);
    (split; [done|]); rewrite app_nil_r, Nat.add_0_r; (split; [done|]); (split; [cbn; lia|]);
    first [by left|by right].
  destruct Hres as (Hne & Hlen & Hrx & _).
  destruct (store_at_next total l buf) as (buf1 & Hst & Hl1 & Htk & _); [lia|lia|].
  unfold store_at in Hst. unfold bind at 1, zoom at 1. cbn [fst snd].
  destruct (memcpy_out (Z.to_nat total) l buf) as [b []| | | |] eqn:Hm; try done. injection Hst as ->.
  rewrite u64_id by width.
  assert (l ≠ [] → 0 < Z.of_nat (length l)) as Hpos by (destruct l; cbn; [done|lia]). specialize (Hpos Hne).
  destruct (IH (total + Z.of_nat (length l)) buf1 w1) as (w2 & buf2 & ok & k & He & Hl2 & Hc & Htk2 & Hok);
    [lia|done|lia|lia|].
  destruct Hc as (Ho2 & Htx2 & Hrx2). exists w2, buf2, ok, (l ++ k). split; [done|]. split; [congruence|].
  split; [|split].
  - split; [by etrans|]. split; [congruence|]. by rewrite Hrx, Hrx2, app_assoc.
  - rewrite app_assoc, <- Htk, <- Htk2, length_app. f_equal. lia.
  - rewrite length_app. destruct ok; [lia|]. destruct Hok. split; [lia|done].
Qed.

(** [read_exact] returns after at most [n] calls. *)
Lemma read_exact_spec fuel n buf w : is_u64 n → Z.of_nat (length buf) = n → (Z.to_nat n < fuel)%nat →
  ∃ w' buf' ok l, read_exact fd fuel n (buf, w) = Ok (buf', w') ok ∧
    length buf' = length buf ∧ consumed w w' l ∧ take (length l) buf' = l ∧
    if (ok : bool) then buf' = l else Z.of_nat (length l) < n ∧ no_more w'.
Proof.
  intros Hn Hb Hf. unfold read_exact.
  destruct (read_exact_from_spec fuel n 0 buf w) as (w' & buf' & ok & l & He & Hl & Hc & Ht & Hok); [width..|].
  exists w', buf', ok, l. do 3 (split; [done|]). split; [exact Ht|]. destruct ok.
  - cbn in Ht. rewrite take_ge in Ht by lia. exact Ht.
  - by rewrite Z.sub_0_r in Hok.
Qed.

Lemma read_into_spec fuel n buf m w : is_u64 n → Z.of_nat (length buf) = n → (Z.to_nat n < fuel)%nat →
  ∃ w' buf' ok l, read_into fd fuel n buf (m, w) = Ok (m, w') (buf', ok) ∧
    length buf' = length buf ∧ consumed w w' l ∧ take (length l) buf' = l ∧
    if (ok : bool) then buf' = l else Z.of_nat (length l) < n ∧ no_more w'.
Proof.
  intros Hn Hb Hf. unfold read_into. cbn [fst snd].
  destruct (read_exact_spec fuel n buf w Hn Hb Hf) as (w' & buf' & ok & l & He & H).
  exists w', buf', ok, l. by rewrite He.
Qed.

Lemma length_resize n v : length (resize n v) = n.
Proof. unfold resize. rewrite length_app, length_take, length_replicate. lia. Qed.

(** ** The header of a frame *)

Definition frame_header (t : MessageType) (p : list Z) : list Z :=
  MessageType_to_byte t :: store BigEndian 4 (u32 (Z.of_nat (length p))).

Lemma frame_split t p : frame t p = frame_header t p ++ p.
Proof. done. Qed.

Lemma frame_header_fields t p : frame_wf (t, p) → length (frame_header t p) = 5%nat ∧
  header_type (frame_header t p) = t ∧ header_length (frame_header t p) = Z.of_nat (length p).
Proof.
  intros [Ht Hp]. cbn in Ht, Hp. split; [|split; [done|]].
  - unfold frame_header. cbn [length]. by rewrite length_store.
  - unfold header_length.
    change (drop 1 (frame_header t p)) with (store BigEndian 4 (u32 (Z.of_nat (length p)))).
    by rewrite load_store_u32, u32_id by auto with width.
Qed.

(** A proper initial segment of [x] was read. *)
Lemma cut_short (x rest l r : list Z) : x ++ rest = l ++ r → (length l < length x)%nat →
  ∃ k, x = l ++ k ∧ k ≠ [] ∧ r = k ++ rest.
Proof.
  intros Heq Hlt. exists (drop (length l) x).
  assert (take (length l) x = l) as Htk.
  { apply (f_equal (take (length l))) in Heq. rewrite take_app_le, take_app_length in Heq by lia. done. }
  split; [by rewrite <- Htk at 1; rewrite take_drop|]. split.
  - intros Hnil. apply (f_equal length) in Hnil. rewrite length_drop in Hnil. cbn in Hnil. lia.
  - apply (f_equal (drop (length l))) in Heq. by rewrite drop_app_le, drop_app_length in Heq by lia.
Qed.

(** ** Main theorem *)

(** C27: a message is read back whole.  When the stream continues with the frame
    of a message, [read_message] returns; it reports success exactly with that
    type and payload stored and the stream advanced to the byte after the frame,
    whatever the sizes of the pieces, and it reports failure only when a [recv]
    call returned no data before the frame was complete. *)
Theorem read_message_reads_frame fuel h0 m w t p rest :
  frame_wf (t, p) → bytes_wf (rx w fd) → length h0 = 5%nat → rx w fd = frame t p ++ rest →
  (5 < fuel)%nat → (length p < fuel)%nat →
  ∃ m' w' ok, read_message host fd fuel h0 (m, w) = Ok (m', w') ok ∧ others fd w w' ∧
    if (ok : bool) then m' = mkMessage t p ∧ rx w' fd = rest
    else no_more w' ∧ ∃ l k, frame t p = l ++ k ∧ k ≠ [] ∧ rx w' fd = k ++ rest.
Proof.
  intros Hf Hwf Hh Hrx Hfuel1 Hfuel2. unfold read_message.
  destruct (frame_header_fields t p Hf) as (Hhl & Hht & Hhlen). rewrite frame_split, <- app_assoc in Hrx.
  destruct (read_into_spec fuel 5 h0 m w) as (w1 & hb & ok & l & He & Hbl & (Ho & _ & Hrx1) & _ & Hok);
    [width|lia|lia|]. rewrite (bind_Ok _ _ _ _ _ He). rewrite Hrx in Hrx1. destruct ok; cbn [negb].
  2: { destruct Hok as [Hlt Hno]. exists m, w1, false. split; [done|]. split; [done|]. split; [done|].
       destruct (cut_short _ _ _ _ Hrx1) as (k & Hk & Hne & ->); [lia|].
       exists l, (k ++ p). split; [by rewrite frame_split, Hk, <- app_assoc|].
       split; [by destruct k|by rewrite app_assoc]. }
  subst l. apply app_inj_1 in Hrx1 as [<- Hrx1]; [|congruence].
  unfold bind at 1, modify at 1. cbn [fst snd].
  destruct (read_length host (frame_header t p) (mkMessage t (payload m), w1) Hhl) as (raw & Hraw & Hlen).
  { rewrite Hrx in Hwf. by apply Forall_app in Hwf as [? _]. }
  change (MessageType_of_byte (nth 0 (frame_header t p) 0)) with (header_type (frame_header t p)).
  rewrite Hht, (bind_Ok _ _ _ _ _ Hraw), Hlen, Hhlen, Nat2Z.id.
  unfold bind at 1, modify at 1. unfold bind at 1, get. cbn [fst snd msg_type payload].
  destruct Hf as [_ Hp]. cbn in Hp.
  destruct (read_into_spec fuel (Z.of_nat (length p)) (resize (length p) (payload m))
    (mkMessage t (resize (length p) (payload m))) w1)
    as (w2 & body & ok & l & He2 & Hbl2 & (Ho2 & _ & Hrx2) & _ & Hok2);
    [width|by rewrite length_resize|lia|].
  rewrite (bind_Ok _ _ _ _ _ He2). unfold bind, modify, ret. cbn [fst snd msg_type].
  exists (mkMessage t body), w2, ok. split; [done|]. split; [by etrans|].
  rewrite length_resize in Hbl2. rewrite <- Hrx1 in Hrx2. destruct ok.
  - subst l. apply app_inj_1 in Hrx2 as [-> ->]; [done|congruence].
  - destruct Hok2 as [Hlt Hno]. split; [done|].
    destruct (cut_short _ _ _ _ Hrx2) as (k & Hk & Hne & ->); [lia|].
    exists (frame_header t p ++ l), k. split; [|done]. by rewrite frame_split, <- app_assoc, <- Hk.
Qed.
End laws.
