(* ===== verification/OrderSimulator.v ===== *)
(** * Random orders: [src/order_simulator.cpp]

    The random engine and the distributions of the standard library are a
    parameter: drawing gives a value and the next state of the engine, and the
    laws say only in which range a value lies.  A draw from the normal
    distribution is used through [std::llround] alone, so the interface has the
    rounded sample. *)

From S2P Require Import Prelude Outcome Order.

Definition is_long_long (z : Z) : Prop := - 2 ^ 63 <= z < 2 ^ 63.

Class RandomEngine (R : Type) := {
  (** [std::uniform_int_distribution(lo, hi)(rng)] *)
  uniform_int : Z → Z → R → Z * R;
  (** [std::llround(std::normal_distribution(center, 5.0)(rng))] *)
  normal_llround : Z → R → Z * R;
}.

Class RandomEngineLaws (R : Type) `{!RandomEngine R} := {
  uniform_int_range lo hi r : lo <= hi → lo <= (uniform_int lo hi r).1 <= hi;
  normal_llround_range c r : is_long_long (normal_llround c r).1;
}.

(** [sim_reads] counts the clock readings of the orders constructed. *)
Record OrderSimulator (R : Type) := mkSimulator {
  id_counter_ : Z;
  center_price_ : Z;
  rng_ : R;
  sim_reads : nat;
}.
Arguments mkSimulator {R}.
Arguments id_counter_ {R}.
Arguments center_price_ {R}.
Arguments rng_ {R}.
Arguments sim_reads {R}.

Section simulator.
Context {R : Type} `{!RandomEngine R}.
Context (clock : nat → Z).

(** The constructor; [seed] is the engine seeded from [std::random_device]. *)
Definition OrderSimulator_ctor (cp starting_id : Z) (seed : R) : OrderSimulator R :=
  mkSimulator starting_id cp seed 0.

Definition draw (f : R → Z * R) : M (OrderSimulator R) Z := λ s,
  let '(x, r) := f (rng_ s) in Ok (mkSimulator (id_counter_ s) (center_price_ s) r (sim_reads s)) x.

(** [id_counter_++] *)
Definition next_id : M (OrderSimulator R) Z := λ s,
  Ok (mkSimulator (u64 (id_counter_ s + 1)) (center_price_ s) (rng_ s) (sim_reads s)) (id_counter_ s).

Definition sim_clock : M (OrderSimulator R) Z := λ s,
  Ok (mkSimulator (id_counter_ s) (center_price_ s) (rng_ s) (S (sim_reads s))) (clock (sim_reads s)).

Definition generate_order : M (OrderSimulator R) Order :=
  cp <- gets center_price_ ;;
  s <- draw (uniform_int 0 1) ;;
  let side := if s =? 0 then BID else ASK in
  t <- draw (uniform_int 0 1) ;;
  let orderType := if t =? 0 then LIMIT else MARKET in
  price <- (if decide (orderType = LIMIT) then
              rounded <- draw (normal_llround cp) ;;
              ret (u64 (if rounded <? 1 then 1 else rounded))
            else ret 0) ;;
  quantity <- draw (uniform_int 1 1000) ;;
  id <- next_id ;;
  now <- sim_clock ;;
  or_throw (Order_ctor now id price quantity side orderType).

(** The loop of [generate_n_orders] for the remaining [n] rounds. *)
Fixpoint generate_loop (n : nat) (orders : list Order) : M (OrderSimulator R) (list Order) :=
  match n with
  | O => ret orders
  | S n' => order <- generate_order ;; generate_loop n' (orders ++ [order])
  end.

(** [max_size()] of a vector of 32-byte orders. *)
Definition orders_max_size : Z := 2 ^ 58 - 1.

(** [orders.reserve(n)] converts [n] to [size_t]. *)
Definition generate_n_orders (n : Z) : M (OrderSimulator R) (list Order) :=
  if orders_max_size <? u64 n then throw (length_error "vector::reserve")
  else generate_loop (Z.to_nat n) [].
End simulator.

(** ** What is generated *)

(** A generated order: valid, with a named side and type and a quantity of at
    most 1000. *)
Record generated (o : Order) : Prop := {
  ge_valid : order_valid o;
  ge_side : side_ o = BID ∨ side_ o = ASK;
  ge_type : orderType_ o = LIMIT ∨ orderType_ o = MARKET;
  ge_quantity : 1 <= quantity_ o <= 1000;
}.

(** [n] consecutive ids from [id] on, in [uint64_t] arithmetic. *)
Definition ids_from (id : Z) (n : nat) : list Z := (λ i, u64 (id + Z.of_nat i)) <$> seq 0 n.

Lemma ids_from_S id n : is_u64 id → ids_from id (S n) = id :: ids_from (u64 (id + 1)) n.
Proof.
  intros Hid. unfold ids_from. cbn [seq fmap list_fmap]. f_equal; [rewrite Z.add_0_r; by apply u64_id|].
  rewrite <- fmap_S_seq, <- list_fmap_compose. apply list_fmap_ext. intros _ i _. cbn.
  unfold u64. rewrite Zplus_mod_idemp_l. f_equal. lia.
Qed.

Lemma ids_from_app id n m : ids_from id (n + m) = ids_from id n ++ ids_from (u64 (id + Z.of_nat n)) m.
Proof.
  unfold ids_from. rewrite seq_app, fmap_app. f_equal. rewrite Nat.add_0_l, <- (Nat.add_0_r n) at 1.
  rewrite <- fmap_add_seq, <- list_fmap_compose. apply list_fmap_ext. intros _ i _. cbn.
  unfold u64. rewrite Zplus_mod_idemp_l. f_equal. lia.
Qed.

Lemma ids_from_NoDup id n : Z.of_nat n <= 2 ^ 64 → NoDup (ids_from id n).
Proof.
  intros Hn. unfold ids_from. apply NoDup_fmap_2_strong; [|apply NoDup_seq].
  intros i j Hi%elem_of_seq Hj%elem_of_seq Heq. unfold u64 in Heq.
  assert ((Z.of_nat i - Z.of_nat j) mod 2 ^ 64 = 0) as Hm.
  { replace (Z.of_nat i - Z.of_nat j) with ((id + Z.of_nat i) - (id + Z.of_nat j)) by lia.
    by rewrite Zminus_mod, Heq, Z.sub_diag. }
  apply Z.mod_divide in Hm as [k Hk]; [|lia]. assert (k = 0) by nia. lia.
Qed.

Section laws.
Context {R : Type} `{!RandomEngine R, !RandomEngineLaws R}.
Context (clock : nat → Z).
Implicit Types (s : OrderSimulator R).

Lemma draw_spec (P : Z → Prop) (f : R → Z * R) s : (∀ r, P (f r).1) →
  ∃ s' x, draw f s = Ok s' x ∧ P x ∧ id_counter_ s' = id_counter_ s ∧
    sim_reads s' = sim_reads s.
Proof.
  intros HP. unfold draw. specialize (HP (rng_ s)). destruct (f (rng_ s)) as [x r].
  eexists _, x. by split_and!.
Qed.

(** The price of a limit order is a rounded sample, at least 1. *)
Lemma price_spec cp (t : OrderType) s : t = LIMIT ∨ t = MARKET →
  ∃ s' p, (if decide (t = LIMIT) then
             rounded <- draw (normal_llround cp) ;;
             ret (u64 (if rounded <? 1 then 1 else rounded))
           else ret 0) s = Ok s' p ∧ is_u64 p ∧ (t = LIMIT → 0 < p) ∧ (t = MARKET → p = 0) ∧
    id_counter_ s' = id_counter_ s ∧ sim_reads s' = sim_reads s.
Proof.
  intros Ht. destruct (decide (t = LIMIT)) as [->|Hne].
  - destruct (draw_spec is_long_long (normal_llround cp) s) as (s' & x & He & Hx & Hi & Hc).
    { apply normal_llround_range. }
    rewrite (bind_Ok _ _ _ _ _ He). unfold is_long_long in Hx.
    assert (0 < (if x <? 1 then 1 else x) < 2 ^ 63) as Hr by (destruct (Z.ltb_spec x 1); lia).
    rewrite u64_id by width. eexists s', _. split; [done|]. split; [width|]. by split_and!; try lia.
  - exists s, 0. split; [done|]. split; [width|]. by destruct Ht.
Qed.

Lemma generate_order_spec s : is_u64 (id_counter_ s) →
  ∃ s' o, generate_order clock s = Ok s' o ∧ generated o ∧ id_ o = id_counter_ s ∧
    id_counter_ s' = u64 (id_counter_ s + 1) ∧ sim_reads s' = S (sim_reads s).
Proof.
  intros Hid. unfold generate_order, gets. unfold bind at 1.
  destruct (draw_spec (λ x, 0 <= x <= 1) (uniform_int 0 1) s) as (s1 & x & He1 & Hx & Hi1 & Hc1).
  { intros r. by apply uniform_int_range. }
  rewrite (bind_Ok _ _ _ _ _ He1). set (side := if x =? 0 then BID else ASK).
  destruct (draw_spec (λ x, 0 <= x <= 1) (uniform_int 0 1) s1) as (s2 & y & He2 & Hy & Hi2 & Hc2).
  { intros r. by apply uniform_int_range. }
  rewrite (bind_Ok _ _ _ _ _ He2). set (ty := if y =? 0 then LIMIT else MARKET).
  assert (ty = LIMIT ∨ ty = MARKET) as Hty by (unfold ty; case_match; auto).
  assert (side = BID ∨ side = ASK) as Hside by (unfold side; case_match; auto).
  destruct (price_spec (center_price_ s) ty s2 Hty) as (s3 & p & He3 & Hp & Hpl & Hpm & Hi3 & Hc3).
  rewrite (bind_Ok _ _ _ _ _ He3).
  destruct (draw_spec (λ x, 1 <= x <= 1000) (uniform_int 1 1000) s3) as (s4 & q & He4 & Hq & Hi4 & Hc4).
  { intros r. by apply uniform_int_range. }
  rewrite (bind_Ok _ _ _ _ _ He4). unfold bind, next_id, sim_clock. cbn [id_counter_ sim_reads].
  set (now := clock (sim_reads s4)).
  assert (order_valid (mkOrder (u64 now) (id_counter_ s4) p q side ty)) as Hv.
  { split; cbn; [|done|done|lia]. split; cbn; [auto with width|congruence|done|width|..].
    - by destruct Hside as [-> | ->].
    - by destruct Hty as [-> | ->]. }
  rewrite (Order_ctor_complete now _ Hv : Order_ctor now (id_counter_ s4) p q side ty = _).
  eexists _, _. split; [done|]. cbn. split_and!; [|congruence..]. by split.
Qed.

Lemma generate_loop_spec n orders s : is_u64 (id_counter_ s) →
  ∃ s' new, generate_loop clock n orders s = Ok s' (orders ++ new) ∧ Forall generated new ∧
    id_ <$> new = ids_from (id_counter_ s) n ∧ id_counter_ s' = u64 (id_counter_ s + Z.of_nat n).
Proof.
  revert orders s. induction n as [|n IH]; intros orders s Hid; cbn [generate_loop].
  { exists s, []. rewrite app_nil_r, Z.add_0_r, u64_id by done. by repeat split; constructor. }
  destruct (generate_order_spec s Hid) as (s1 & o & He & Hg & Ho & Hi & _).
  rewrite (bind_Ok _ _ _ _ _ He).
  destruct (IH (orders ++ [o]) s1) as (s2 & new & He2 & Hall & Hids & Hi2); [rewrite Hi; auto with width|].
  exists s2, (o :: new). rewrite He2, <- app_assoc. split; [done|]. split; [by constructor|]. split.
  - rewrite ids_from_S, fmap_cons, Ho, Hids, Hi by done. done.
  - rewrite Hi2, Hi. unfold u64. rewrite Zplus_mod_idemp_l. f_equal. lia.
Qed.

(** ** Main theorem *)

(** C29: the simulator only makes orders the exchange accepts.  For every count
    an [int] can hold from 0 on, and whatever the random engine draws,
    [generate_n_orders] returns that many orders without an exception: each is
    valid, bid or ask, limit with a price of at least 1 or market with price 0,
    with 1 to 1000 units, and their ids are pairwise different and run on from
    the counter, which is left at the next one.  A negative count throws. *)
Theorem generate_n_orders_valid n s : - 2 ^ 31 <= n < 2 ^ 31 → is_u64 (id_counter_ s) →
  (0 <= n → ∃ s' os, generate_n_orders clock n s = Ok s' os ∧ Z.of_nat (length os) = n ∧
    Forall generated os ∧ id_ <$> os = ids_from (id_counter_ s) (Z.to_nat n) ∧ NoDup (id_ <$> os) ∧
    id_counter_ s' = u64 (id_counter_ s + n)) ∧
  (n < 0 → generate_n_orders clock n s = Throw s (length_error "vector::reserve")).
Proof.
  intros Hn Hid. unfold generate_n_orders. split; intros H0.
  - rewrite u64_id by width. rewrite (proj2 (Z.ltb_ge _ _)) by (unfold orders_max_size; lia).
    destruct (generate_loop_spec (Z.to_nat n) [] s Hid) as (s' & os & He & Hall & Hids & Hi).
    exists s', os. split; [done|].
    assert (length os = Z.to_nat n) as Hl.
    { apply (f_equal length) in Hids. unfold ids_from in Hids.
      by rewrite !length_fmap, length_seq in Hids. }
    split_and!; [lia|done|done| |by rewrite Z2Nat.id in Hi by lia].
    rewrite Hids. apply ids_from_NoDup. lia.
  - rewrite (proj2 (Z.ltb_lt _ _)); [done|]. unfold u64, orders_max_size.
    rewrite <- (Z.mod_add n 1), Z.mod_small by lia. lia.
Qed.
End laws.
