(* ===== verification/ExchangeClient.v ===== *)
(** * The load-generating client: [src/exchange_client.cpp], [src/client_main.cpp]

    A client connects, sends a million random orders and prints the rate.  Each
    client thread has its own range of order ids. *)

From S2P Require Import Prelude Outcome Order Bytes Serializer RingBuffer SharedQueue Sockets ExchangeServer ServerRead OrderSimulator.

(** [for (int i = 0; i < n; i++) body] *)
Fixpoint times {S} (n : nat) (body : M S unit) : M S unit :=
  match n with
  | O => ret tt
  | Datatypes.S n' => body ;;; times n' body
  end.

(** [cl_cout] is what was written to [std::cout] and [std::cerr]. *)
Record ExchangeClient (R W : Type) := mkExchangeClient {
  socket_fd_ : Z;
  host_ : string;
  port_ : Z;
  msg_buffer_ : list Z;
  order_simulator_ : OrderSimulator R;
  cl_cout : string;
  cl_world : W;
}.
Arguments mkExchangeClient {R W}.
Arguments socket_fd_ {R W}.
Arguments host_ {R W}.
Arguments port_ {R W}.
Arguments msg_buffer_ {R W}.
Arguments order_simulator_ {R W}.
Arguments cl_cout {R W}.
Arguments cl_world {R W}.

Definition NUM_ORDERS : Z := 1000000.
Definition BATCH_SIZE : Z := 10000.

Section client.
Context {R W : Type} `{!RandomEngine R, !Sockets W} {z : Serializer}.
Context (clock : nat → Z).

Abbreviation MC := (M (ExchangeClient R W)).

Definition set_client (b : list Z) (sim : OrderSimulator R) (out : string) (w : W)
    (c : ExchangeClient R W) : ExchangeClient R W :=
  mkExchangeClient (socket_fd_ c) (host_ c) (port_ c) b sim out w.

Definition on_world {A} (m : M W A) : MC A :=
  zoom cl_world (λ w c, set_client (msg_buffer_ c) (order_simulator_ c) (cl_cout c) w c) m.
Definition on_simulator {A} (m : M (OrderSimulator R) A) : MC A :=
  zoom order_simulator_ (λ s c, set_client (msg_buffer_ c) s (cl_cout c) (cl_world c) c) m.
Definition on_msg_buffer {A} (m : M (list Z) A) : MC A :=
  zoom msg_buffer_ (λ b c, set_client b (order_simulator_ c) (cl_cout c) (cl_world c) c) m.
Definition print (str : string) : MC unit :=
  modify (λ c, set_client (msg_buffer_ c) (order_simulator_ c) (cl_cout c +:+ str) (cl_world c) c).

(** The constructor; [socket_fd_] has no initial value, [fd0]. *)
Definition ExchangeClient_ctor (fd0 : Z) (host : string) (port : Z) (sim : OrderSimulator R)
    (out : string) (w : W) : ExchangeClient R W :=
  mkExchangeClient fd0 host port [] sim out w.

Definition connect : MC unit :=
  r <- on_world sys_socket ;;
  let fd := default (-1) r in
  modify (λ c, mkExchangeClient fd (host_ c) (port_ c) (msg_buffer_ c) (order_simulator_ c) (cl_cout c)
                 (cl_world c)) ;;;
  (if fd =? -1 then throw (runtime_error "socket creation failed") else ret tt) ;;;
  c <- get ;;
  ok <- on_world (sys_connect fd (host_ c) (port_ c)) ;;
  (if (ok : bool) then ret tt else throw (runtime_error "failed to connect")) ;;;
  on_world (sys_setsockopt fd TCP_NODELAY).

(** One order; the result of [send] is not looked at. *)
Definition send_order : MC unit :=
  order <- on_simulator (generate_order clock) ;;
  on_msg_buffer (put []) ;;;
  on_msg_buffer (serialize_order order) ;;;
  c <- get ;;
  r <- on_world (sys_send (socket_fd_ c) (msg_buffer_ c)) ;;
  ret tt.

(** The two loops of [run]: batches, and the orders of a batch. *)
Definition send_batches : MC unit :=
  times (Z.to_nat (NUM_ORDERS `quot` BATCH_SIZE)) (times (Z.to_nat BATCH_SIZE) send_order).

(** The end of [run]; dividing an integer by zero is undefined. *)
Definition report (ms : Z) : MC unit :=
  print (pretty NUM_ORDERS +:+ " orders in " +:+ pretty ms +:+ "ms" +:+ nl) ;;;
  (if ms =? 0 then undefined
   else print (pretty ((NUM_ORDERS * 1000) `quot` ms) +:+ " orders/sec" +:+ nl)) ;;;
  c <- get ;;
  on_world (sys_close (socket_fd_ c)).

(** Clock readings are in nanoseconds. *)
Definition client_run : MC unit :=
  start <- on_simulator (sim_clock clock) ;;
  send_batches ;;;
  stop <- on_simulator (sim_clock clock) ;;
  report ((stop - start) `quot` 1000000).

(** ** [run_client_thread] *)

Definition starting_id (thread_id : Z) : Z := u64 (u64 (thread_id + 1) * 100000000).

Definition thread_client (thread_id fd0 : Z) (seed : R) (out : string) (w : W) : ExchangeClient R W :=
  ExchangeClient_ctor fd0 "127.0.0.1" 8080 (OrderSimulator_ctor 1000 (starting_id thread_id) seed) out w.

Definition run_client_thread (thread_id : Z) : MC unit :=
  try_catch
    (connect ;;;
     print ("Thread " +:+ pretty thread_id +:+ " connected and running." +:+ nl) ;;;
     client_run ;;;
     print ("Thread " +:+ pretty thread_id +:+ " finished sending all orders." +:+ nl))
    (λ e, print ("Client thread " +:+ pretty thread_id +:+ " error: " +:+ exn_what e +:+ nl)).
End client.

(** ** Lemmas *)

Section laws.
Context {R W : Type} `{!RandomEngine R, !RandomEngineLaws R}.
Context `{!Sockets W, !SocketView W, !SocketLaws W} (z : Serializer) `{!SerializerLaws z}.
Context (clock : nat → Z) (fd : Z).
Implicit Types (c : ExchangeClient R W) (w : W).

(** The frames of a list of orders. *)
Definition order_frames (os : list Order) : list (MessageType * list Z) :=
  (λ o, (NEW_ORDER, order_payload o)) <$> os.

Definition order_frame (o : Order) : list Z := frame NEW_ORDER (order_payload o).

(** How much of its argument a [send] took. *)
Definition bytes_taken (r : send_result) : nat := match r with Sent n => n | _ => 0 end.

(** An order and how many bytes of its frame [send] took; what that put on the
    wire; and that it was all of the frame. *)
Definition wire_sent (l : list (Order * nat)) : list Z := l ≫= λ a, take a.2 (order_frame a.1).

Definition whole (a : Order * nat) : Prop := a.2 = length (order_frame a.1).

Lemma wire_sent_whole l : Forall whole l → wire_sent l = wire_bytes (order_frames (fst <$> l)).
Proof.
  induction 1 as [|a l Ha _ IH]; [done|]. unfold wire_sent. cbn [mbind list_bind].
  change (l ≫= _) with (wire_sent l). rewrite Ha, firstn_all, IH. done.
Qed.

(** The orders of [l] were generated and given to [send] between two states of
    the client. *)
Record sent_orders c c' (l : list (Order * nat)) : Prop := {
  so_fd : socket_fd_ c' = socket_fd_ c;
  so_generated : Forall generated (fst <$> l);
  so_ids : id_ <$> (fst <$> l) = ids_from (id_counter_ (order_simulator_ c)) (length l);
  so_next : id_counter_ (order_simulator_ c') =
    u64 (id_counter_ (order_simulator_ c) + Z.of_nat (length l));
  so_reads : sim_reads (order_simulator_ c') = (sim_reads (order_simulator_ c) + length l)%nat;
  so_sends : Forall (λ a, ∃ w w' r, sys_send fd (order_frame a.1) w = Ok w' r ∧ a.2 = bytes_taken r) l;
  so_tx : tx (cl_world c') fd = tx (cl_world c) fd ++ wire_sent l;
}.

(** The client is connected on [fd]. *)
Definition ready c : Prop := socket_fd_ c = fd ∧ is_u64 (id_counter_ (order_simulator_ c)).

Lemma on_world_killed {A} (m : M W A) c :
  broken_pipe id fd (m (cl_world c)) → broken_pipe cl_world fd (on_world m c).
Proof.
  intros (w & He & Hd). eexists. unfold on_world, zoom. rewrite He. split; [done|exact Hd].
Qed.

Lemma send_order_spec c : ready c →
  (∃ c' a, send_order clock c = Ok c' tt ∧ sent_orders c c' [a]) ∨
  broken_pipe cl_world fd (send_order clock c).
Proof.
  intros (Hfd & Hid). remember (send_order clock c) as out eqn:E. unfold send_order in E.
  destruct (generate_order_spec clock (order_simulator_ c) Hid) as (s' & o & He & Hg & Ho & Hi & Hr).
  unfold bind at 1, on_simulator, zoom at 1 in E. rewrite He in E.
  unfold bind at 1, on_msg_buffer at 1, zoom at 1, put in E.
  unfold bind at 1, on_msg_buffer at 1, zoom at 1 in E. cbn [msg_buffer_ set_client] in E.
  rewrite serialize_order_eq in E. unfold bind at 1, get in E. cbn [msg_buffer_ set_client socket_fd_ app] in E.
  rewrite Hfd in E. fold (order_frame o) in E.
  destruct (send_spec fd (order_frame o) (cl_world c)) as [(w & r & Hs & _ & _ & _ & _ & Hres)|Hkill].
  2: { right. rewrite E. by apply broken_pipe_bind, on_world_killed. }
  unfold bind, on_world, zoom in E. cbn [cl_world set_client] in E. rewrite Hs in E.
  left. eexists _, (o, bytes_taken r). split; [exact E|]. split; cbn; try done.
  - by apply Forall_singleton.
  - rewrite Ho. unfold ids_from. cbn. by rewrite Z.add_0_r, u64_id.
  - lia.
  - apply Forall_singleton. by exists (cl_world c), w, r.
  - rewrite app_nil_r. destruct r; cbn; [by destruct Hres as (_ & _ & ->)|by rewrite app_nil_r, (proj1 Hres)..].
Qed.

Lemma sent_orders_ready c c' l : ready c → sent_orders c c' l → ready c'.
Proof. intros (? & ?) [? _ _ Hn _ _ _]. split; [congruence|]. rewrite Hn. apply u64_is_u64. Qed.

Lemma sent_orders_trans c c1 c2 l k : sent_orders c c1 l → sent_orders c1 c2 k →
  sent_orders c c2 (l ++ k).
Proof.
  intros [Hf Hg Hi Hn Hr Hs Ht] [Hf2 Hg2 Hi2 Hn2 Hr2 Hs2 Ht2].
  split; [congruence|rewrite fmap_app; by apply Forall_app|..].
  - rewrite !fmap_app, length_app, ids_from_app, Hi, Hi2, Hn. done.
  - rewrite Hn2, Hn, length_app. unfold u64. rewrite Zplus_mod_idemp_l. f_equal. lia.
  - rewrite length_app. lia.
  - by apply Forall_app.
  - rewrite Ht2, Ht. unfold wire_sent. by rewrite bind_app, app_assoc.
Qed.

Lemma sent_orders_refl c : ready c → sent_orders c c [].
Proof.
  intros (_ & Hid). split; try done.
  - cbn [length]. by rewrite Z.add_0_r, u64_id.
  - by rewrite app_nil_r.
Qed.

(** A step sends [k] orders, or ends the process. *)
Definition sends (k : nat) (body : M (ExchangeClient R W) unit) : Prop := ∀ c, ready c →
  (∃ c' l, body c = Ok c' tt ∧ sent_orders c c' l ∧ length l = k) ∨ broken_pipe cl_world fd (body c).

Lemma times_spec n k body : sends k body → sends (n * k) (times n body).
Proof.
  intros Hbody. induction n as [|n IH]; intros c Hc; cbn [times].
  { left. exists c, []. split; [done|]. split; [by apply sent_orders_refl|done]. }
  destruct (Hbody c Hc) as [(c1 & l & He & Hs & Hk)|Hkill]; [|right; by apply broken_pipe_bind].
  rewrite (bind_Ok _ _ _ _ _ He).
  destruct (IH c1) as [(c2 & l' & He2 & Hs2 & Hk2)|?]; [by eapply sent_orders_ready|left|by right].
  exists c2, (l ++ l'). split; [done|]. split; [by eapply sent_orders_trans|].
  rewrite length_app. lia.
Qed.

Lemma send_batches_spec : sends (Z.to_nat NUM_ORDERS) (send_batches clock).
Proof.
  assert (Z.to_nat (NUM_ORDERS `quot` BATCH_SIZE) * (Z.to_nat BATCH_SIZE * 1) = Z.to_nat NUM_ORDERS)%nat as <-.
  { rewrite Nat.mul_1_r, <- Z2Nat.inj_mul by (vm_compute; discriminate). by apply (f_equal Z.to_nat). }
  apply times_spec, times_spec. intros c Hc.
  destruct (send_order_spec c Hc) as [(c' & a & He & Hs)|?]; [left; by exists c', [a]|by right].
Qed.

(** A clock reading. *)
Definition tick c : ExchangeClient R W :=
  let s := order_simulator_ c in
  set_client (msg_buffer_ c) (mkSimulator (id_counter_ s) (center_price_ s) (rng_ s) (S (sim_reads s)))
    (cl_cout c) (cl_world c) c.

(** The second clock reading is the one after those of the orders. *)
Lemma client_run_timed c : ready c →
  let start := sim_reads (order_simulator_ c) in
  (∃ c2 l, sent_orders (tick c) c2 l ∧ length l = Z.to_nat NUM_ORDERS ∧
    client_run clock c =
      report ((clock (start + S (Z.to_nat NUM_ORDERS))%nat - clock start) `quot` 1000000) (tick c2)) ∨
  broken_pipe cl_world fd (client_run clock c).
Proof.
  intros Hc start. assert (ready (tick c)) as Hc1 by done.
  assert (on_simulator (sim_clock clock) c = Ok (tick c) (clock start)) as He1 by done.
  unfold client_run. rewrite (bind_Ok _ _ _ _ _ He1).
  destruct (send_batches_spec (tick c) Hc1) as [(c2 & l & He & Hs & Hl)|?]; [left|right; by apply broken_pipe_bind].
  exists c2, l. split; [done|]. split; [done|]. rewrite (bind_Ok _ _ _ _ _ He).
  replace (start + S (Z.to_nat NUM_ORDERS))%nat with (sim_reads (order_simulator_ c2)); [done|].
  rewrite (so_reads _ _ _ Hs), Hl. unfold start. cbn [tick set_client order_simulator_ sim_reads].
  by rewrite Nat.add_succ_comm.
Qed.

(** The end of a run that took at least a millisecond. *)
Lemma report_closes c ms : ms ≠ 0 → ∃ c', report ms c = Ok c' tt ∧
  sys_close (socket_fd_ c) (cl_world c) = Ok (cl_world c') tt.
Proof.
  intros Hne. unfold report. rewrite (proj2 (Z.eqb_neq _ _) Hne).
  unfold bind, print, modify, get, on_world, zoom. cbn [cl_world set_client socket_fd_].
  destruct (close_spec (socket_fd_ c) (cl_world c)) as (w' & Hw' & _). rewrite Hw'. by eexists.
Qed.

Lemma milliseconds elapsed : 1000000 <= elapsed → elapsed `quot` 1000000 ≠ 0.
Proof.
  intros Hel. pose proof (Z.quot_le_mono 1000000 elapsed 1000000 ltac:(lia) Hel).
  rewrite Z.quot_same in *; lia.
Qed.

(** ** Main theorems *)

(** C30: what a client puts on the wire, whatever its [send] calls take.  [run]
    generates exactly one million valid orders with consecutive ids from the
    simulator's counter on and gives the frame of each to one [send], whose
    result it ignores: the stream is the concatenation of the parts of the
    frames that were taken, in order, and it is the encoding of the million
    orders if every [send] took all of its frame.  Then [run] closes the socket,
    or, when the two clock readings are less than a millisecond apart, divides by
    zero.  The other way to end is [SIGPIPE], when the server is gone. *)
Theorem client_run_streams_orders c : ready c →
  let start := sim_reads (order_simulator_ c) in
  let elapsed := clock (start + S (Z.to_nat NUM_ORDERS))%nat - clock start in
  (∃ w l, Z.of_nat (length l) = NUM_ORDERS ∧ Forall generated (fst <$> l) ∧
     id_ <$> (fst <$> l) = ids_from (id_counter_ (order_simulator_ c)) (length l) ∧
     Forall (λ a, ∃ w w' r, sys_send fd (order_frame a.1) w = Ok w' r ∧ a.2 = bytes_taken r) l ∧
     tx w fd = tx (cl_world c) fd ++ wire_sent l ∧
     (Forall whole l → tx w fd = tx (cl_world c) fd ++ wire_bytes (order_frames (fst <$> l))) ∧
     (1000000 <= elapsed → ∃ c', client_run clock c = Ok c' tt ∧ sys_close fd w = Ok (cl_world c') tt) ∧
     (0 <= elapsed < 1000000 → client_run clock c = UB)) ∨
  broken_pipe cl_world fd (client_run clock c).
Proof.
  intros Hc start elapsed.
  destruct (client_run_timed c Hc) as [(c2 & l & [Hf Hg Hi _ _ Hs Ht] & Hl & He)|?]; [left|by right].
  fold start elapsed in He. rewrite He. cbn in Hf, Hi, Ht. exists (cl_world c2), l.
  split; [rewrite Hl; by apply Z2Nat.id|]. split; [done|]. split; [done|]. split; [done|]. split; [done|].
  split; [intros Hw; by rewrite Ht, wire_sent_whole|]. split; intros Hel.
  - destruct (report_closes (tick c2) _ (milliseconds _ Hel)) as (c' & Hr & Hcl).
    exists c'. split; [done|]. cbn in Hcl. destruct Hc as [<- _]. by rewrite <- Hf.
  - unfold report. by rewrite Z.quot_small by lia.
Qed.
End laws.

(** Clients do not reuse each other's order ids: the million ids of one
    client thread and those of another one have no element in common, whatever
    the number of threads an [int] can count. *)
Lemma client_ids_disjoint i j id : 0 <= i < 2 ^ 31 - 1 → 0 <= j < 2 ^ 31 - 1 → i ≠ j →
  id ∈ ids_from (starting_id i) (Z.to_nat NUM_ORDERS) →
  id ∉ ids_from (starting_id j) (Z.to_nat NUM_ORDERS).
Proof.
  assert (∀ i id, 0 <= i < 2 ^ 31 - 1 → id ∈ ids_from (starting_id i) (Z.to_nat NUM_ORDERS) →
    (i + 1) * 100000000 <= id < (i + 1) * 100000000 + 1000000) as H.
  { clear. intros i id Hi Hin. unfold ids_from in Hin.
    apply list_elem_of_fmap in Hin as (k & -> & Hk%elem_of_seq). unfold NUM_ORDERS in Hk.
    unfold starting_id. rewrite (u64_id (i + 1)), (u64_id ((i + 1) * _)), u64_id by width. lia. }
  intros Hi Hj Hne Hin Hin'. pose proof (H i id Hi Hin). pose proof (H j id Hj Hin'). lia.
Qed.
