(* ===== verification/ClientProgram.v ===== *)
(** * The client program: [src/client_main.cpp]

    [main] reads the number of client threads from the command line, creates them,
    which may fail, and waits for them.  The threads share nothing inside the process: each has
    its own serializer, simulator and socket, so each runs on its own part of the
    system.  The last part of the file is about the orders of all threads
    together. *)

From S2P Require Import Prelude Outcome Order Bytes Serializer BinarySerializer RingBuffer SharedQueue Sockets ExchangeServer ServerRead OrderSimulator ExchangeClient.
From Stdlib Require Import Ascii.

(** ** [std::stoi] *)

Definition is_space (a : ascii) : bool :=
  let n := Z.of_N (N_of_ascii a) in (n =? 32) || ((9 <=? n) && (n <=? 13)).

Definition digit (a : ascii) : option Z :=
  let n := Z.of_N (N_of_ascii a) in
  if (48 <=? n) && (n <=? 57) then Some (n - 48) else None.

Fixpoint skip_spaces (s : string) : string :=
  match s with
  | String a s' => if is_space a then skip_spaces s' else s
  | EmptyString => s
  end.

(** The value of the digits a string starts with, after those of [v]. *)
Fixpoint digits (s : string) (v : option Z) : option Z :=
  match s with
  | String a s' => match digit a with Some d => digits s' (Some (10 * default 0 v + d)) | None => v end
  | EmptyString => v
  end.

Definition stoi (s : string) : exn + Z :=
  let '(sign, s') := match skip_spaces s with
    | String "-"%char r => (-1, r)
    | String "+"%char r => (1, r)
    | r => (1, r)
    end in
  match digits s' None with
  | None => inl (invalid_argument "stoi")
  | Some v => if decide (- 2 ^ 31 <= sign * v < 2 ^ 31) then inr (sign * v) else inl (out_of_range "stoi")
  end.

(** ** [main] *)

Definition num_threads (argv : list string) : exn + Z :=
  match argv with
  | _ :: arg :: _ => stoi arg
  | _ => inr 1
  end.

(** The values of [i] in [for (int i = 0; i < n; ++i)]. *)
Definition thread_ids (n : Z) : list Z := Z.of_nat <$> seq 0 (Z.to_nat n).

Section main.
Context {R W : Type} `{!RandomEngine R, !Sockets W} {z : Serializer}.

(** What thread [i] finds: the clock, the indeterminate [socket_fd_], the random
    seed and its part of the system. *)
Context (clock : Z → nat → Z) (fd0 : Z → Z) (seed : Z → R) (w0 : Z → W).

(** Whether the system can create thread [i]. *)
Context (spawns : Z → bool).

Definition client_thread (i : Z) : outcome (ExchangeClient R W) unit :=
  run_client_thread (clock i) i (thread_client i (fd0 i) (seed i) EmptyString (w0 i)).

(** [threads.emplace_back(run_client_thread, i)]: [std::thread] throws when the
    thread cannot be created, which ends the program. *)
Definition create_thread (i : Z) : M string unit :=
  if spawns i then ret tt else throw (system_error "Resource temporarily unavailable").

(** [t.join()] returns when the thread has ended. *)
Definition join (t : outcome (ExchangeClient R W) unit) : M string unit := λ out,
  match t with
  | Ok _ _ => Ok out tt
  | Throw _ _ => UB
  | UB => UB
  | Diverge => Diverge
  | Killed _ => Killed out
  end.

(** The state is what [main] itself writes to [std::cout]; the result is what
    became of the threads. *)
Definition client_main (argv : list string) : M string (list (outcome (ExchangeClient R W) unit)) :=
  n <- or_throw (num_threads argv) ;;
  modify (λ out, out +:+ "Starting " +:+ pretty n +:+ " client threads..." +:+ nl) ;;;
  for_each (thread_ids n) create_thread ;;;
  let threads := client_thread <$> thread_ids n in
  for_each threads join ;;;
  modify (λ out, out +:+ "All clients finished." +:+ nl) ;;;
  ret threads.
End main.

(** ** Lemmas *)

Lemma thread_ids_range n i : i ∈ thread_ids n ↔ 0 <= i < n.
Proof.
  unfold thread_ids. rewrite list_elem_of_fmap. split.
  - intros (k & -> & Hk%elem_of_seq). lia.
  - intros Hi. exists (Z.to_nat i). rewrite elem_of_seq. lia.
Qed.

Lemma thread_ids_NoDup n : NoDup (thread_ids n).
Proof. unfold thread_ids. apply NoDup_fmap_2; [apply _|apply NoDup_seq]. Qed.

Lemma NUM_ORDERS_bound : Z.of_nat (Z.to_nat NUM_ORDERS) <= 2 ^ 64.
Proof. rewrite Z2Nat.id; unfold NUM_ORDERS; lia. Qed.

(** All ids of different threads are different. *)
Lemma all_ids_NoDup l : NoDup l → Forall (λ i, 0 <= i < 2 ^ 31 - 1) l →
  NoDup (l ≫= λ i, ids_from (starting_id i) (Z.to_nat NUM_ORDERS)).
Proof.
  induction 1 as [|i l Hi Hl IH]; intros Hall; [apply NoDup_nil_2|].
  apply Forall_cons in Hall as [Hr Hall]. cbn [mbind list_bind]. apply NoDup_app.
  split; [apply ids_from_NoDup, NUM_ORDERS_bound|]. split; [|by apply IH].
  intros id Hid (j & Hin & Hj)%list_elem_of_bind. rewrite Forall_forall in Hall.
  refine (client_ids_disjoint i j id Hr (Hall j Hj) _ Hid Hin). intros ->. by apply Hi.
Qed.

Section threads.
Context {R W : Type} `{!RandomEngine R, !RandomEngineLaws R}.
Context `{!Sockets W, !SocketView W, !SocketLaws W} (z : Serializer) `{!SerializerLaws z}.
Implicit Types c : ExchangeClient R W.

(** [connect] uses neither the simulator nor the buffer. *)
Lemma connect_simulator c c' : connect c = Ok c' tt → order_simulator_ c' = order_simulator_ c.
Proof.
  unfold connect, on_world. intros H.
  apply bind_inv_Ok in H as (c1 & r & H1 & H). apply bind_inv_Ok in H as (c2 & [] & H2 & H).
  apply bind_inv_Ok in H as (c3 & [] & H3 & H). apply bind_inv_Ok in H as (c4 & c4' & H4 & H).
  apply bind_inv_Ok in H as (c5 & ok & H5 & H). apply bind_inv_Ok in H as (c6 & [] & H6 & H7).
  unfold zoom, modify, get, ret in *. repeat case_match; by simplify_eq.
Qed.

Context (clock : Z → nat → Z) (fd0 : Z → Z) (seed : Z → R) (w0 : Z → W) (spawns : Z → bool).
Context (fd : Z → Z).
Abbreviation thread_result := (outcome (ExchangeClient R W) unit).

(** Thread [i] gets a fresh connection on [fd i], and its run takes at least a
    millisecond. *)
Record connects (i : Z) : Prop := {
  cn_connected : ∃ c, connect (thread_client i (fd0 i) (seed i) EmptyString (w0 i)) = Ok c tt ∧
    socket_fd_ c = fd i ∧ tx (cl_world c) (fd i) = [];
  cn_elapsed : 1000000 <= clock i (S (Z.to_nat NUM_ORDERS)) - clock i 0%nat;
}.

(** Thread [i] gave the frames of the orders of [l] to [send], which took as much
    of each as [l] says, and nothing else is on the wire. *)
Definition thread_sent (i : Z) (l : list (Order * nat)) : Prop :=
  ∃ c w, client_thread clock fd0 seed w0 i = Ok c tt ∧ sys_close (fd i) w = Ok (cl_world c) tt ∧
    tx w (fd i) = wire_sent z l ∧
    (Forall (whole z) l → tx w (fd i) = wire_bytes (order_frames z (fst <$> l))) ∧
    Forall generated (fst <$> l) ∧
    id_ <$> (fst <$> l) = ids_from (starting_id i) (Z.to_nat NUM_ORDERS).

Lemma client_thread_spec i : connects i →
  (∃ l, thread_sent i l) ∨ broken_pipe cl_world (fd i) (client_thread clock fd0 seed w0 i).
Proof.
  intros [(c & Hc & Hfd & Htx) Hel]. pose proof (connect_simulator _ _ Hc) as Hsim.
  set (c1 := set_client (msg_buffer_ c) (order_simulator_ c)
    (cl_cout c +:+ ("Thread " +:+ pretty i +:+ " connected and running." +:+ nl)) (cl_world c) c).
  assert (ready (fd i) c1) as Hr.
  { split; [done|]. cbn. rewrite Hsim. apply u64_is_u64. }
  assert (client_thread clock fd0 seed w0 i =
    try_catch (client_run (clock i) ;;; print ("Thread " +:+ pretty i +:+ " finished sending all orders." +:+ nl))
      (λ e, print ("Client thread " +:+ pretty i +:+ " error: " +:+ exn_what e +:+ nl)) c1) as Hth.
  { unfold client_thread, run_client_thread, try_catch. by rewrite (bind_Ok _ _ _ _ _ Hc). }
  unfold thread_sent. rewrite Hth. clear Hth. unfold try_catch.
  destruct (client_run_timed z (clock i) (fd i) c1 Hr)
    as [(c2 & l & [Hf Hg Hi _ _ _ Ht] & Hl & He)|(c2 & He & Hd)].
  2: { right. exists c2. by rewrite (bind_Killed _ _ _ _ He). }
  left. exists l. cbn [order_simulator_ c1 set_client] in He. rewrite Hsim in He.
  cbn [thread_client ExchangeClient_ctor order_simulator_ OrderSimulator_ctor sim_reads] in He.
  cbn in Hf, Hi, Ht. rewrite Hsim in Hi. rewrite Htx in Ht.
  destruct (report_closes (tick c2) _ (milliseconds _ Hel)) as (c3 & Hrep & Hcl).
  rewrite Nat.add_0_l, Hrep in He. eexists _, (cl_world c2). split; [by rewrite (bind_Ok _ _ _ _ _ He)|].
  cbn in Hcl. cbn [cl_world set_client]. split; [by rewrite <- Hfd, <- Hf|].
  split; [done|]. split; [intros Hw; by rewrite Ht, wire_sent_whole|]. split; [done|]. by rewrite Hi, Hl.
Qed.

Lemma created ids out : Forall (λ i, spawns i = true) ids → for_each ids (create_thread spawns) out = Ok out tt.
Proof.
  induction 1 as [|i l Hi Hl IH]; cbn [for_each]; [done|]. unfold bind, create_thread at 1. by rewrite Hi.
Qed.

Lemma not_created i ids out : i ∈ ids → spawns i = false →
  ∃ e, for_each ids (create_thread spawns) out = Throw out (system_error e).
Proof.
  intros Hi Hno. induction ids as [|j l IH]; [by apply elem_of_nil in Hi|].
  cbn [for_each]. unfold bind, create_thread at 1. destruct (spawns j) eqn:Hj; [|by eexists].
  apply elem_of_cons in Hi as [->|Hi]; [congruence|]. by apply IH.
Qed.

(** All threads ended well, or one of them was ended by [SIGPIPE], and with it the
    program. *)
Lemma joined threads out : Forall (λ t : thread_result, (∃ c, t = Ok c tt) ∨ ∃ c, t = Killed c) threads →
  (for_each threads join out = Ok out tt ∧ Forall (λ t : thread_result, ∃ c, t = Ok c tt) threads) ∨
  for_each threads join out = Killed out.
Proof.
  induction 1 as [|t l Ht Hl IH]; cbn [for_each]; [left; split; [done|by apply Forall_nil_2]|].
  destruct Ht as [[c ->]|[c ->]]; unfold bind, join at 1 3; [|by right].
  destruct IH as [[-> Hall]| ->]; [left|by right]. split; [done|]. constructor; [by eexists|done].
Qed.

Lemma threads_spec l : Forall connects l →
  Forall (λ t : thread_result, ∃ c, t = Ok c tt) (client_thread clock fd0 seed w0 <$> l) →
  ∃ ls, Forall2 thread_sent l ls ∧
    id_ <$> (fst <$> concat ls) = l ≫= λ i, ids_from (starting_id i) (Z.to_nat NUM_ORDERS).
Proof.
  induction l as [|i l IH]; intros Hc Hok; [by exists []|].
  apply Forall_cons in Hc as [Hi Hc]. cbn [fmap list_fmap] in Hok. apply Forall_cons in Hok as [[c Hok] Hall].
  destruct (IH Hc Hall) as (ls & Hsent & Hids).
  destruct (client_thread_spec i Hi) as [(k & Hk)|(c' & He & _)]; [|congruence].
  exists (k :: ls). split; [by constructor|]. destruct Hk as (? & ? & _ & _ & _ & _ & _ & Hi').
  cbn [concat mbind list_bind]. rewrite !fmap_app, Hids, Hi'. reflexivity.
Qed.

(** ** Main theorem *)

(** C31: the load of the client program.  The command line asks for [n] threads.
    If one of them cannot be created, an exception ends [main].  If all are
    created, each gets a connection and each run lasts at least a millisecond,
    then [main] waits for all of them and returns, unless the server goes away
    and [SIGPIPE] ends the program.  When it returns, thread number [i] has
    generated a million valid orders and given the frame of each to [send], what
    is on its connection are the parts of the frames that [send] took, all of
    them if every call took everything, and no two of the [n] million orders
    have the same id. *)
Theorem client_main_load argv n out : num_threads argv = inr n → n < 2 ^ 31 →
  let started := out +:+ "Starting " +:+ pretty n +:+ " client threads..." +:+ nl in
  ((∃ i, 0 <= i < n ∧ spawns i = false) →
     ∃ e, client_main clock fd0 seed w0 spawns argv out = Throw started (system_error e)) ∧
  ((∀ i, 0 <= i < n → spawns i = true ∧ connects i) →
    (∃ threads ls,
      client_main clock fd0 seed w0 spawns argv out = Ok (started +:+ "All clients finished." +:+ nl) threads ∧
      length threads = Z.to_nat n ∧
      Forall2 thread_sent (thread_ids n) ls ∧ NoDup (id_ <$> (fst <$> concat ls))) ∨
    client_main clock fd0 seed w0 spawns argv out = Killed started).
Proof.
  intros Hn Hlt started. set (ts := client_thread clock fd0 seed w0 <$> thread_ids n).
  assert (client_main clock fd0 seed w0 spawns argv out = (for_each (thread_ids n) (create_thread spawns) ;;;
    for_each ts join ;;; modify (λ out, out +:+ "All clients finished." +:+ nl) ;;; ret ts) started) as ->.
  { unfold client_main. by rewrite Hn. }
  split.
  - intros (i & Hi%thread_ids_range & Hno). destruct (not_created i _ started Hi Hno) as [e He].
    exists e. by rewrite (bind_Throw _ _ _ _ _ He).
  - intros Hall. assert (Forall connects (thread_ids n)) as Hconn.
    { apply Forall_forall. intros i Hi. by apply Hall, thread_ids_range. }
    assert (for_each (thread_ids n) (create_thread spawns) started = Ok started tt) as Hcr.
    { apply created, Forall_forall. intros i Hi. by apply Hall, thread_ids_range. }
    rewrite (bind_Ok _ _ _ _ _ Hcr). destruct (joined ts started) as [[Hj Hok]|Hj].
    { apply Forall_fmap. eapply Forall_impl; [exact Hconn|]. intros i Hi.
      destruct (client_thread_spec i Hi) as [(l & c & w & He & _)|(c & He & _)]; [left|right]; by exists c. }
    + left. destruct (threads_spec _ Hconn Hok) as (ls & Hsent & Hids).
      rewrite (bind_Ok _ _ _ _ _ Hj). eexists _, ls. split; [reflexivity|].
      split; [unfold ts, thread_ids; by rewrite !length_fmap, length_seq|]. split; [done|]. rewrite Hids.
      apply all_ids_NoDup; [apply thread_ids_NoDup|]. apply Forall_forall. intros i Hi%thread_ids_range. lia.
    + right. by rewrite (bind_Killed _ _ _ _ Hj).
Qed.
End threads.
