(* ===== verification/EndToEnd.v ===== *)
(** * Client program and server program together

    The byte streams of the client program satisfy what the server program
    demands of its peers, its orders are a legal history of the sequential
    exchange, and so the theorems about [main] apply to them. *)

From S2P Require Import Prelude Outcome OrdMap Order OrderBook BookSpec MatchingEngine MatchSpec MatchTheorems MatchFacts Bytes Serializer BinarySerializer RingBuffer SharedQueue OrderProcessor ProcessorProof ExchangeSpec Sockets ExchangeServer ServerRead Framing ServerWrite ServerLoop Program ProgramProof OrderSimulator ExchangeClient.

(** ** Streams *)

Section streams.
Context (host : endian).
#[local] Instance binary_laws : SerializerLaws (Binary.BinarySerializer host) :=
  Binary.BinarySerializer_laws host.
Abbreviation binary := (Binary.BinarySerializer host).

Lemma binary_payload o : bytes_wf (order_payload (z := binary) o) ∧
  length (order_payload (z := binary) o) = 22%nat ∧ min_payload (z := binary) = 22%nat.
Proof.
  split; [apply Binary.order_bytes_wf|split; [|done]]. cbn. unfold Binary.order_bytes. cbn.
  by rewrite !length_app, !length_store.
Qed.

Lemma order_frame_good o : good_frame binary (NEW_ORDER, order_payload (z := binary) o).
Proof.
  destruct (binary_payload o) as (Hwf & Hlen & Hmin). split.
  - split; [done|]. cbn [snd]. rewrite Hlen. width.
  - right. split; [done|]. left. split; [done|]. cbn [in_payload snd]. lia.
Qed.

(** Any initial segment of what a client sends is acceptable. *)
Lemma order_stream_good os l : l `prefix_of` wire_bytes (order_frames binary os) → good_stream binary l.
Proof.
  intros Hpre. exists (order_frames binary os). split; [|done].
  apply Forall_fmap, Forall_true. intros o. apply order_frame_good.
Qed.

Lemma order_stream_bytes os l : l `prefix_of` wire_bytes (order_frames binary os) → bytes_wf l.
Proof.
  intros [k Hk]. assert (bytes_wf (wire_bytes (order_frames binary os))) as Hwf.
  { clear. induction os as [|o os IH]; [by apply Forall_nil_2|].
    change (wire_bytes (order_frames binary (o :: os)))
      with (frame NEW_ORDER (order_payload (z := binary) o) ++ wire_bytes (order_frames binary os)).
    apply Forall_app. split; [|done]. unfold frame. apply Forall_cons. split; [by split|].
    apply Forall_app. split; [apply store_wf|apply binary_payload]. }
  rewrite Hk in Hwf. by apply Forall_app in Hwf as [? _].
Qed.
End streams.

(** ** Histories *)

Section histories.
Context (z : Serializer) `{!SerializerLaws z} (host : endian) (clock : nat → Z).

(** The request the server makes of an order that arrives on a connection. *)
Definition order_request (a : Z * Order) : InboundMessage :=
  mkInbound a.1 NEW_ORDER (order_payload a.2).

Lemma answer_replies i st st' new : answer z host clock i st = Some (st', new) →
  ∃ reports resp, new = reports ++ [mkOutbound (in_fd i) resp].
Proof.
  unfold answer. destruct (in_type i); try done.
  - destruct (deserialize_order _ _ _) as [? order|? e| | |?]; try done.
    + case_decide; [done|]. unfold answer_order. destruct (spec_match _ _ _ _) as [[sb ts] n].
      intros [= <- <-]. by eexists _, _.
    + intros [= <- <-]. by eexists [], _.
  - destruct (deserialize_cancel _ _) as [? id|? e| | |?]; try done.
    unfold answer_cancel. case_decide; intros [= <- <-]; by eexists [], _.
Qed.

(** Every request is answered, in the order of the requests. *)
Lemma answers_reply l st st' outs : answers z host clock l st = Some (st', outs) →
  (in_fd <$> l) `sublist_of` (out_fd <$> outs).
Proof.
  revert st outs. induction l as [|i l IH]; intros st outs Ha; cbn in Ha; [apply sublist_nil_l|].
  destruct (answer z host clock i st) as [[st1 new]|] eqn:H1; [|done]. cbn in Ha.
  destruct (answers z host clock l st1) as [[st2 more]|] eqn:H2; [|done]. injection Ha as <- <-.
  destruct (answer_replies _ _ _ _ H1) as (reports & resp & ->).
  rewrite !fmap_app. cbn [fmap list_fmap out_fd]. rewrite <- app_assoc.
  apply sublist_inserts_l. apply sublist_skip. by apply (IH st1).
Qed.

(** Orders with different ids are a legal history. *)
Lemma fresh_history_from l (p : Proc Outbox) st : refines p st → Forall (λ a, order_valid a.2) l →
  NoDup (id_ ∘ snd <$> l) → (∀ a, a ∈ l → ¬ spec_resting (id_ a.2) (sp_book st)) →
  is_Some (answers z host clock (order_request <$> l) st).
Proof.
  revert p st. induction l as [|[fd o] l IH]; intros p st Hrf Hv Hnd Hfresh; [by eexists|].
  apply Forall_cons in Hv as [Ho Hv]. apply NoDup_cons in Hnd as [Hnew Hnd]. cbn in Ho.
  set (i := order_request (fd, o)). set (order := restamp (clock (sp_reads st)) o).
  assert (order_valid order) as Hvo by by apply restamp_valid.
  assert (∀ S (s : S), deserialize_order (clock (sp_reads st)) (mkMessage NEW_ORDER (in_payload i)) s = Ok s order) as Hdes.
  { intros S s. by apply deserialize_order_eq. }
  assert (¬ spec_resting (id_ order) (sp_book st)) as Hno by (apply (Hfresh (fd, o)); by left).
  assert (answer z host clock i st = Some (answer_order z clock i order st)) as Hans.
  { unfold answer. change (in_type i) with NEW_ORDER. rewrite Hdes. by rewrite decide_False. }
  destruct (answer_order z clock i order st) as [st1 new] eqn:Hone.
  set (p0 := mkProc (pr_book p) (pr_reads p) (pr_fds p) (pr_buffer p) (empty_outbox (length new + 0))).
  assert (refines p0 st) as Hrf0 by by destruct Hrf.
  destruct (refines_order z host clock outbox_capacity i order p0 st st1 new [] 0)
    as (p1 & _ & Hrf1 & _); [done| |done| |done|done|done|apply empty_outbox_ok|].
  { cbn. pose proof min_payload_id. pose proof (order_payload_length o). lia. }
  { intros s. cbn [pr_reads p0]. rewrite (rf_reads _ _ Hrf). apply Hdes. }
  change (order_request <$> (fd, o) :: l) with (i :: (order_request <$> l)). cbn [answers].
  rewrite Hans. cbn. destruct (IH p1 st1 Hrf1 Hv Hnd) as [[st2 more] Hm].
  - intros a Ha Hrest. destruct Hrf as [([Hok _] & _) Hb Hn _]. unfold answer_order in Hone.
    destruct (spec_match clock order (S (sp_reads st)) (sp_book st)) as [[sb ts] n] eqn:Hsp.
    injection Hone as <- <-. cbn in Hrest. rewrite <- Hb in Hsp.
    destruct (spec_match_ids clock _ _ _ _ _ _ Hok Hvo Hsp) as [Hids _].
    destruct (Hids _ Hrest) as [Hold|Heq].
    + rewrite Hb in Hold. apply (Hfresh a); [by right|done].
    + apply Hnew. cbn in Heq |- *. rewrite <- Heq. by apply (list_elem_of_fmap_2 (id_ ∘ snd)).
  - rewrite Hm. by eexists.
Qed.

Lemma fresh_history l : Forall (λ a, order_valid a.2) l → NoDup (id_ ∘ snd <$> l) →
  is_Some (answers z host clock (order_request <$> l) spec_initial).
Proof.
  intros Hv Hnd. apply (fresh_history_from l (mkProc empty_book 0 ∅ [] (empty_outbox 0))); [|done|done|].
  - apply empty_refines.
  - by intros a _ ?%elem_of_nil.
Qed.
End histories.

(** ** The server with such clients *)

Section served.
Context {W : Type} `{!Sockets W, !SocketView W, !SocketLaws W}.
Context (host : endian) (clock : nat → Z) (fuel : nat).
Context (din : InboundMessage) (dout : OutboundMessage).
Context (min : InboundMessage → InboundMessage) (mout : OutboundMessage → OutboundMessage).
Context (sched : list nat) (sfd0 efd0 : Z) (w0 : W) (schedule : list Thread).
Abbreviation binary := (Binary.BinarySerializer host).
#[local] Instance served_laws : SerializerLaws binary := Binary.BinarySerializer_laws host.
Abbreviation run_main := (exchange_main host clock fuel din dout min mout sched sfd0 efd0 w0).

Lemma order_messages fd os : messages fd (order_frames binary os) = (λ o, order_request binary (fd, o)) <$> os.
Proof.
  induction os as [|o os IH]; [done|].
  change (order_frames binary (o :: os)) with ([(NEW_ORDER, order_payload (z := binary) o)] ++ order_frames binary os).
  rewrite messages_app, IH. unfold messages. cbn [mbind list_bind]. destruct (binary_payload host o) as (_ & Hl & _).
  change (binary_laws host) with served_laws in Hl.
  destruct (order_payload (z := binary) o) eqn:Hp; [done|]. cbn. unfold order_request. cbn [fst snd]. by rewrite Hp.
Qed.

(** A connection and the orders its client would send, stopping somewhere. *)
Definition connection (a : Z * list Z) (b : Z * list Order) : Prop :=
  a.1 = b.1 ∧ a.2 `prefix_of` wire_bytes (order_frames binary b.2).

(** The orders of all clients, with their connections. *)
Definition all_orders (cls : list (Z * list Order)) : list (Z * Order) :=
  cls ≫= λ b, (λ o, (b.1, o)) <$> b.2.

Lemma all_orders_ids cls : id_ ∘ snd <$> all_orders cls = id_ <$> concat (snd <$> cls).
Proof.
  unfold all_orders. induction cls as [|b cls IH]; [done|]. cbn. rewrite !fmap_app, IH. f_equal.
  by rewrite <- list_fmap_compose.
Qed.

Lemma arrivals_orders sfd cls : Forall2 connection (backlog w0 sfd) cls →
  arrivals w0 sfd ⊆+ order_request binary <$> all_orders cls.
Proof.
  unfold arrivals, all_orders. induction 1 as [|a b l k [Hfd Hpre] _ IH]; [done|].
  cbn [mbind list_bind]. rewrite fmap_app. apply submseteq_app; [|exact IH].
  destruct (frames_of_prefix (order_frames binary b.2) a.2) as [fs Hfs]; [|done|].
  { apply Forall_fmap, Forall_true. intros o. apply (order_frame_good host o). }
  rewrite <- list_fmap_compose, Hfd. change (_ ∘ _) with (λ o, order_request binary (b.1, o)).
  rewrite <- order_messages, Hfs, messages_app. by apply submseteq_inserts_r.
Qed.

Lemma connections_fds l cls : Forall2 connection l cls → fst <$> l = fst <$> cls.
Proof. induction 1 as [|a b l k [Hfd _] _ IH]; [done|]. cbn. by rewrite Hfd, IH. Qed.

(** Such clients keep to the protocol. *)
Lemma connections_ok cls : (∀ sfd, Forall2 connection (backlog w0 sfd) cls ∧
     Forall (λ a, (length a.2 + 2 <= fuel)%nat) (backlog w0 sfd)) → (length cls < fuel)%nat →
  peers_ok fuel (good_stream binary) w0.
Proof.
  intros Hback Hn sfd. destruct (Hback sfd) as [Hc Hlen]. split; [|by rewrite (Forall2_length _ _ _ Hc)].
  clear -Hc Hlen. induction Hc as [|a b l k [_ Hpre] _ IH]; [by apply Forall_nil_2|].
  apply Forall_cons in Hlen as [Ha Hlen]. constructor; [|by apply IH]. split; [split; [|done]|].
  - by eapply order_stream_bytes.
  - by eapply order_stream_good.
Qed.

(** Requests that are among those of some orders are requests of some of them. *)
Lemma requests_among ms L : ms ⊆+ order_request binary <$> L → ∃ l, ms = order_request binary <$> l ∧ l ⊆+ L.
Proof.
  intros [k Hk]%submseteq_Permutation. symmetry in Hk.
  apply Permutation_map_inv in Hk as (L' & Heq & Hp). symmetry in Heq.
  apply (fmap_app_inv (order_request binary)) in Heq as (l & l2 & -> & _ & ->).
  exists l. split; [done|]. rewrite Hp. by apply submseteq_inserts_r.
Qed.

End served.
