(* ===== verification/SimulatedSockets.v ===== *)
(** * A simulated network

    A concrete implementation of the [Sockets] interface that satisfies its
    laws: streams are finite maps, a list of sizes says how many bytes the next
    calls move at most (0 makes a call report that it would block), connections
    wait in a list until they are accepted, and a script says which events
    [epoll_wait] reports and whose peers are gone. *)

From S2P Require Import Prelude Outcome Bytes Sockets.

(** The events and connections to come, and the connections without a peer: a
    [send] on one of those raises [SIGPIPE]. *)
Record Script := mkScript {
  sc_watched : gset Z;
  sc_backlog : list (Z * list Z);
  sc_events : list (list epoll_event);
  sc_gone : gset Z;
}.

Record SimNet := mkNet {
  net_rx : gmap Z (list Z);
  net_tx : gmap Z (list Z);
  net_out : gmap Z bool;
  net_short : gmap Z bool;
  net_blocked : gmap Z bool;
  net_sizes : list nat;
  net_script : Script;
}.

(** A network on which nothing was reported yet and nobody connects. *)
Definition quiet_net (r t : gmap Z (list Z)) (o : gmap Z bool) (sizes : list nat) : SimNet :=
  mkNet r t o ∅ ∅ sizes (mkScript ∅ [] [] ∅).

Definition set_script (sc : Script) (w : SimNet) : SimNet :=
  mkNet (net_rx w) (net_tx w) (net_out w) (net_short w) (net_blocked w) (net_sizes w) sc.

Definition next_size (n : nat) (w : SimNet) : nat := default n (head (net_sizes w)).

Definition sim_recv (fd len : Z) : M SimNet recv_result := λ w,
  let data := default [] (net_rx w !! fd) in
  let k := Nat.min (Z.to_nat len) (next_size (length data) w) in
  let w' short := mkNet (<[fd := drop k data]> (net_rx w)) (net_tx w) (net_out w)
    (<[fd := short]> (net_short w)) (net_blocked w) (tail (net_sizes w)) (net_script w) in
  match take k data with
  | [] => Ok (w' true) RecvWouldBlock
  | l => Ok (w' (bool_decide (Z.of_nat (length l) < len))) (Received l)
  end.

Definition sim_send (fd : Z) (data : list Z) : M SimNet send_result := λ w,
  let k := Nat.min (length data) (next_size (length data) w) in
  let sent := default [] (net_tx w !! fd) in
  if decide (fd ∈ sc_gone (net_script w)) then Killed w
  else if decide (data ≠ [] ∧ k = 0%nat) then
    Ok (mkNet (net_rx w) (net_tx w) (net_out w) (net_short w) (<[fd := true]> (net_blocked w))
          (tail (net_sizes w)) (net_script w)) SendWouldBlock
  else
    Ok (mkNet (net_rx w) (<[fd := sent ++ take k data]> (net_tx w)) (net_out w) (net_short w)
          (net_blocked w) (tail (net_sizes w)) (net_script w)) (Sent k).

(** Connections with an impossible descriptor are not accepted. *)
Definition sim_accept (sfd : Z) : M SimNet accept_result := λ w,
  let sc := net_script w in
  match sc_backlog sc with
  | (fd, data) :: rest =>
      if decide (0 <= fd < 2 ^ 31 - 1) then
        Ok (mkNet (<[fd := data]> (net_rx w)) (<[fd := []]> (net_tx w)) (<[fd := false]> (net_out w))
              (net_short w) (net_blocked w) (net_sizes w)
              (mkScript (sc_watched sc) rest (sc_events sc) (sc_gone sc ∖ {[fd]}))) (Accepted fd)
      else Ok w AcceptFailed
  | [] => Ok (mkNet (net_rx w) (net_tx w) (net_out w) (net_short w) (<[sfd := true]> (net_blocked w))
             (net_sizes w) sc) AcceptWouldBlock
  end.

Definition sim_epoll_wait (ep n : Z) : M SimNet (list epoll_event) := λ w,
  let sc := net_script w in
  Ok (set_script (mkScript (sc_watched sc) (sc_backlog sc) (tail (sc_events sc)) (sc_gone sc)) w)
     (filter (λ e, ev_fd e ∈ sc_watched sc) (default [] (head (sc_events sc)))).

#[export] Instance sim_sockets : Sockets SimNet := {
  sys_socket := ret (Some 3);
  sys_setsockopt _ _ := ret tt;
  sys_bind _ _ := ret true;
  sys_listen _ _ := ret true;
  sys_set_nonblocking _ := ret true;
  sys_accept := sim_accept;
  sys_connect _ _ _ := ret true;
  sys_recv := sim_recv;
  sys_send := sim_send;
  sys_close _ := ret tt;
  sys_epoll_create := λ w, let sc := net_script w in
    Ok (set_script (mkScript ∅ (sc_backlog sc) (sc_events sc) (sc_gone sc)) w) (Some 4);
  sys_epoll_add _ fd := λ w, let sc := net_script w in
    Ok (set_script (mkScript ({[fd]} ∪ sc_watched sc) (sc_backlog sc) (sc_events sc) (sc_gone sc)) w) true;
  sys_epoll_mod _ fd b := modify (λ w, mkNet (net_rx w) (net_tx w) (<[fd := b]> (net_out w))
                                          (net_short w) (net_blocked w) (net_sizes w) (net_script w));
  sys_epoll_del _ fd := λ w, let sc := net_script w in
    Ok (set_script (mkScript (sc_watched sc ∖ {[fd]}) (sc_backlog sc) (sc_events sc) (sc_gone sc)) w) tt;
  sys_epoll_wait := sim_epoll_wait;
}.

#[export] Instance sim_socket_view : SocketView SimNet := {
  rx w fd := default [] (net_rx w !! fd);
  tx w fd := default [] (net_tx w !! fd);
  epoll_out w fd := default false (net_out w !! fd);
  short_read w fd := default false (net_short w !! fd);
  blocked w fd := default false (net_blocked w !! fd);
  epoll_failed _ _ := false;
  dead w fd := bool_decide (fd ∈ sc_gone (net_script w));
  watched w _ := sc_watched (net_script w);
  backlog w _ := sc_backlog (net_script w);
}.

(** The maps change at one descriptor only. *)
Ltac sim_view := cbn; split_and!; cbn; rewrite ?lookup_insert_ne by done.
Ltac sim_others := split; [intros ? ?; by sim_view|done].

#[export] Instance sim_socket_laws : SocketLaws SimNet.
Proof.
  split.
  - intros fd len w Hlen. cbn [sys_recv sim_sockets]. unfold sim_recv.
    set (data := default [] (net_rx w !! fd)). set (k := Nat.min _ _).
    destruct (take k data) as [|b l] eqn:Ht; eexists _, _; (split; [done|]); (split; [by sim_others|]).
    + cbn. rewrite !lookup_insert_eq. split_and!; try done. cbn. fold data.
      rewrite <- (take_drop k data) at 2. by rewrite Ht.
    + cbn. rewrite !lookup_insert_eq. split_and!; try done. 
      * pose proof (f_equal length Ht) as Hl. rewrite length_take in Hl. cbn [length] in Hl |- *. lia.
      * cbn. fold data. rewrite app_comm_cons, <- Ht. by rewrite take_drop.
  - intros fd data w. cbn [sys_send sim_sockets]. unfold sim_send. set (k := Nat.min _ _).
    case_decide as Hg; [right; exists w; split; [done|by apply bool_decide_eq_true_2]|left].
    case_decide as Hk; eexists _, _; (split; [done|]); (split; [by sim_others|]); cbn;
      rewrite !lookup_insert_eq; split_and!; try done; try lia. intros Hne Hk0. by destruct Hk.
  - intros ep fd b w. eexists. split; [done|]. split; [by sim_others|]. cbn.
    rewrite lookup_insert_eq. by split_and!; try left.
  - intros ep fd w. eexists. split; [done|]. split; [done|]. split_and!; cbn; try done. set_solver.
  - intros fd w. by exists w.
  - intros sfd w. cbn [sys_accept sim_sockets]. unfold sim_accept.
    destruct (sc_backlog (net_script w)) as [|[fd data] rest] eqn:Hb.
    { eexists _, _. split; [done|]. split; [by sim_others|]. cbn. by rewrite lookup_insert_eq. }
    case_decide as Hfd; [|by eexists _, _]. eexists _, (Accepted fd). split; [done|]. exists data.
    cbn. rewrite Hb, !lookup_insert_eq. split_and!; try done; try lia.
    { apply bool_decide_eq_false_2. set_solver. }
    intros fd' Hne. by sim_view.
  - intros fd w. by exists w, true.
  - intros fd opt w. by exists w.
  - intros ep fd w. eexists _, _. split; [done|]. by split.
  - intros w. by eexists _, _.
  - intros fd port w. by exists w, true.
  - intros fd n w. by exists w, true.
  - intros w. by eexists _, _.
  - intros ep n w. eexists _, _. split; [done|]. split; [done|]. cbn.
    apply Forall_forall. intros e He. by apply list_elem_of_filter in He as [? _].
Qed.
