(* ===== verification/UnitTests.v ===== *)
(** * Unit tests of the repository, evaluated on the model

    Scenarios of [tests/test_matching_engine.cpp] and
    [tests/test_ring_buffer.cpp] run on the definitions. *)

From S2P Require Import Prelude Outcome OrdMap Order OrderBook MatchingEngine RingBuffer.

Definition test_clock (n : nat) : Z := 1000 + Z.of_nat n.

(** Feed a list of [(id, price, quantity, side, type)] to a fresh engine. *)
Definition run_orders (l : list (Z * Z * Z * Side * OrderType)) : outcome Engine unit :=
  for_each l (λ '(i, p, q, sd, t),
    o <- or_throw (Order_ctor 0 i p q sd t) ;; match_ test_clock o)
    (mkEngine empty_book [] 0).

Definition view (r : outcome Engine unit) : option (option Z * option Z * list Trade) :=
  match r with
  | Ok e _ => Some (best_bid (eng_book e), best_ask (eng_book e), eng_trades e)
  | _ => None
  end.

Example test_PartialFill :
  view (run_orders [(1, 100, 50, ASK, LIMIT); (2, 100, 100, BID, LIMIT)]) =
  Some (Some 100, None, [mkTrade 100 2 1 50 1001]).
Proof. vm_compute. reflexivity. Qed.

Example test_PriceTimePriorityMultipleTrades :
  view (run_orders [(1, 100, 50, ASK, LIMIT); (2, 100, 50, ASK, LIMIT); (3, 100, 100, BID, LIMIT)]) =
  Some (None, None, [mkTrade 100 3 1 50 1002; mkTrade 100 3 2 50 1003]).
Proof. vm_compute. reflexivity. Qed.

Example test_MarketOrderMultipleLevelPartialFill :
  view (run_orders [(1, 100, 50, ASK, LIMIT); (2, 101, 50, ASK, LIMIT); (3, 102, 50, ASK, LIMIT);
                    (4, 0, 130, BID, MARKET)]) =
  Some (None, Some 102, [mkTrade 100 4 1 50 1003; mkTrade 101 4 2 50 1004; mkTrade 102 4 3 30 1005]).
Proof. vm_compute. reflexivity. Qed.

Example test_MarketOrderEmptyBook :
  view (run_orders [(1, 0, 100, BID, MARKET)]) = Some (None, None, []).
Proof. vm_compute. reflexivity. Qed.

(** A ring of capacity 4 refuses the fifth item and returns the first four. *)
Example test_FullRing :
  (rs <- run_ring 4 id [OpPush 1; OpPush 2; OpPush 3; OpPush 4; OpPush 5; OpPop; OpPop; OpPop;
                        OpPop; OpPop] ;; ret rs) (empty_ring 0 4) =
  Ok (mkRing [1; 2; 3; 4] 4 4)
    [ResPush true; ResPush true; ResPush true; ResPush true; ResPush false;
     ResPop (Some 1); ResPop (Some 2); ResPop (Some 3); ResPop (Some 4); ResPop None].
Proof. vm_compute. reflexivity. Qed.
