(* ===== verification/Witnesses.v ===== *)
(** * Concrete runs

    A small book, its orders and requests, on which the theorems of the other
    files are applied: each [_witness] lemma shows that the hypotheses of the
    theorem it is named after can hold together. *)

From S2P Require Import Prelude Outcome OrdMap Order OrderBook BookSpec BookDepth MatchingEngine MatchSpec MatchTheorems MatchFacts Bytes Serializer BinarySerializer RingBuffer SpscConcurrent SharedQueue OrderProcessor ProcessorProof ProcessorTheorems Sockets ExchangeServer ServerRead ServerWrite ThreadSafeQueue NetworkUtils OrderSimulator ExchangeClient SimulatedSockets UnitTests.

(** ** Data *)

Definition limit (id price quantity : Z) (side : Side) : Order :=
  mkOrder 7 id price quantity side LIMIT.
Definition market (id quantity : Z) (side : Side) : Order :=
  mkOrder 7 id 0 quantity side MARKET.

Ltac valid_order := split; [split|..]; cbn; try done; try (by split); intros; simplify_eq; lia.

(** Evaluate a decidable proposition. *)
Ltac evaluate :=
  match goal with |- ?P => apply (bool_decide_eq_true_1 P) end; vm_compute; reflexivity.

(** The engine after an order, with the clock of the unit tests. *)
Definition after (o : Order) (e : Engine) : Engine :=
  match match_ test_clock o e with Ok e' _ => e' | _ => e end.

(** A bid at 100 and two asks at 105, the first one for 30 and the second for 20. *)
Definition demo_engine : Engine :=
  after (limit 3 105 20 ASK) (after (limit 2 105 30 ASK)
    (after (limit 1 100 50 BID) (mkEngine empty_book [] 0))).
Definition demo_book : OrderBook := eng_book demo_engine.

(** An order that fills the first ask and part of the second. *)
Definition demo_bid : Order := limit 4 106 40 BID.

Lemma demo_bid_valid : order_valid demo_bid.
Proof. valid_order. Qed.

Lemma demo_bid_side : on_book_side demo_bid.
Proof. by left. Qed.

(** Orders with fresh ids keep the invariants. *)
Lemma after_ok o e : book_inv (eng_book e) ∧ book_indexed (eng_book e) →
  order_valid o → bool_decide (spec_resting (id_ o) (abs (eng_book e))) = false →
  book_inv (eng_book (after o e)) ∧ book_indexed (eng_book (after o e)).
Proof.
  intros [[Hok Hun] Hix] Hv Hid%bool_decide_eq_false.
  pose proof (match_spec_match test_clock o e Hok Hv) as H.
  destruct (spec_match _ _ _ _) as [[sb ts] n]. destruct H as (b' & H & _ & _ & Hix').
  unfold after. rewrite H. split; [|by apply Hix'].
  by apply (book_step_inv test_clock e _ (step_match _ _ _ _ Hv H)).
Qed.

Lemma demo_book_inv : book_inv demo_book ∧ book_indexed demo_book.
Proof.
  assert (book_inv empty_book ∧ book_indexed empty_book) as H0.
  { split; [split|]; [apply empty_book_ok| |apply empty_book_indexed].
    intros x y ?%elem_of_nil. done. }
  repeat (apply after_ok; [|valid_order|vm_compute; reflexivity]). exact H0.
Qed.

Lemma demo_book_ok : book_ok demo_book.
Proof. apply demo_book_inv. Qed.
Lemma demo_book_indexed : book_indexed demo_book.
Proof. apply demo_book_inv. Qed.

(** ** Orders *)

Lemma Order_ctor_validates_witness :
  Order_ctor 9 1 100 50 BID LIMIT = inr (mkOrder 9 1 100 50 BID LIMIT) ∧
  ∃ w, Order_ctor 9 1 100 0 BID LIMIT = inl (invalid_argument w).
Proof.
  split.
  - apply (Order_ctor_validates 9 1 100 50 BID LIMIT); try done; by split_and!.
  - apply (Order_ctor_validates 9 1 100 0 BID LIMIT); try done. intros [? _]. lia.
Defined.

Lemma Order_ctor_accepts_negative_price_witness :
  ∃ o, Order_ctor 9 1 (u64 (-500)) 100 BID LIMIT = inr o ∧ price_ o = 18446744073709551116.
Proof. apply (Order_ctor_accepts_negative_price 9 1 (-500) 100 BID); lia. Defined.

(** ** The book *)

Lemma add_order_refines_witness :
  ∃ b', add_order (limit 4 105 10 ASK) demo_book = Ok b' tt ∧ book_indexed b'.
Proof.
  destruct (add_order_refines demo_book (limit 4 105 10 ASK) demo_book_ok) as (b' & He & _ & _ & Hix);
    [valid_order|].
  exists b'. split; [exact He|]. apply Hix; [apply demo_book_indexed|].
  evaluate.
Defined.

Lemma cancel_order_refines_witness :
  (∃ b', cancel_order 2 demo_book = Ok b' tt ∧ abs b' = spec_cancel 2 (abs demo_book)) ∧
  cancel_order 9 demo_book = Throw demo_book (invalid_argument "order id not found in the book").
Proof.
  split.
  - destruct (cancel_order_refines demo_book 2 demo_book_ok demo_book_indexed) as [H _].
    destruct H as (b' & He & _ & _ & Habs & _); [|by exists b'].
    evaluate.
  - apply (cancel_order_refines demo_book 9 demo_book_ok demo_book_indexed).
    evaluate.
Defined.

Lemma cancel_order_memory_safe_witness :
  (order_map_ demo_book !! 3 = None ∧
   cancel_order 3 demo_book = Throw demo_book (invalid_argument "order id not found in the book")) ∨
  (∃ n b', cancel_order 3 demo_book = Ok b' tt ∧ book_ok b' ∧ id_ (elem n) = 3 ∧
     all_nodes demo_book ≡ₚ n :: all_nodes b').
Proof. apply (cancel_order_memory_safe demo_book 3 demo_book_ok). Defined.

Lemma add_cancel_roundtrip_witness : ∃ b1 b2,
  add_order (limit 4 101 10 BID) demo_book = Ok b1 tt ∧ cancel_order 4 b1 = Ok b2 tt ∧
  abs b2 = abs demo_book ∧ order_map_ b2 = order_map_ demo_book.
Proof.
  apply (add_cancel_roundtrip demo_book (limit 4 101 10 BID) demo_book_ok demo_book_indexed).
  - valid_order.
  - split; [done|by left].
  - evaluate.
Defined.

(** Order 2 of the book, and a second order under the same id. *)
Lemma duplicate_id_orphans_witness : ∃ n b1 b2,
  id_ (elem n) = 2 ∧ add_order (limit 2 110 10 ASK) demo_book = Ok b1 tt ∧
  cancel_order 2 b1 = Ok b2 tt ∧ n ∈ all_nodes b2 ∧
  cancel_order 2 b2 = Throw b2 (invalid_argument "order id not found in the book").
Proof.
  assert (∃ n, n ∈ all_nodes demo_book ∧ id_ (elem n) = 2) as (n & Hn & Hid).
  { apply spec_resting_node. evaluate. }
  exists n. destruct (duplicate_id_orphans demo_book n (limit 2 110 10 ASK) demo_book_ok Hn)
    as (b1 & b2 & H); [valid_order|split; [done|by right]|done|].
  by exists b1, b2.
Defined.

Lemma best_quotes_extremal_witness :
  best_bid demo_book = Some 100 ∧ best_ask demo_book = Some 105 ∧
  (∀ o, o ∈ sb_bids (abs demo_book) → price_ o <= 100) ∧
  (∀ o, o ∈ sb_asks (abs demo_book) → 105 <= price_ o).
Proof.
  assert (best_bid demo_book = Some 100) as Hb by (vm_compute; reflexivity).
  assert (best_ask demo_book = Some 105) as Ha by (vm_compute; reflexivity).
  pose proof (best_quotes_extremal demo_book demo_book_ok) as H. rewrite Hb, Ha in H.
  destruct H as [[_ H1] [_ H2]]. by split_and!.
Defined.

Lemma print_depth_shows_levels_witness :
  print_depth demo_book 5 "" = Ok ("---order book---" +:+ nl +:+ " ASK 105 | 50" +:+ nl +:+
    "--------------" +:+ nl +:+ " BID 100 | 50" +:+ nl) tt.
Proof.
  assert (depth_text 5 (abs demo_book) = "---order book---" +:+ nl +:+ " ASK 105 | 50" +:+ nl +:+
    "--------------" +:+ nl +:+ " BID 100 | 50" +:+ nl) as Ht by (vm_compute; reflexivity).
  pose proof (print_depth_shows_levels demo_book 5 "" demo_book_ok) as H. rewrite Ht in H.
  apply H; [lia|]. vm_compute. reflexivity.
Defined.

(** ** The matching engine *)

Lemma match_refines_witness : ∃ e', match_ test_clock demo_bid demo_engine = Ok e' tt ∧
  book_ok (eng_book e') ∧
  eng_trades e' = [mkTrade 105 4 2 30 1003; mkTrade 105 4 3 10 1004].
Proof.
  pose proof (match_refines test_clock demo_bid demo_engine demo_book_ok demo_bid_valid) as H.
  destruct (spec_match _ _ _ _) as [[sb ts] n] eqn:Hs.
  assert (ts = [mkTrade 105 4 2 30 1003; mkTrade 105 4 3 10 1004]) as ->.
  { vm_compute in Hs. by simplify_eq. }
  destruct H as (b' & H & Hok & _). eexists. split; [exact H|]. split; [exact Hok|].
  vm_compute. reflexivity.
Defined.

Lemma match_conserves_quantity_witness : ∃ e', match_ test_clock demo_bid demo_engine = Ok e' tt ∧
  0 <= traded (new_trades demo_engine e') <= 40.
Proof.
  destruct (match_conserves_quantity test_clock demo_bid demo_engine demo_book_ok demo_bid_valid
    demo_bid_side) as (e' & H & Ht & _). exists e'. split; [exact H|exact Ht].
Defined.

Lemma match_trades_sound_witness : ∃ e', match_ test_clock demo_bid demo_engine = Ok e' tt ∧
  Forall (λ t, crosses demo_bid (trade_price t) = true) (new_trades demo_engine e').
Proof.
  destruct (match_trades_sound test_clock demo_bid demo_engine demo_book_ok demo_bid_valid
    demo_bid_side) as (e' & H & Hall). exists e'. split; [exact H|].
  eapply Forall_impl; [exact Hall|]. by intros t (x & _ & _ & _ & ?).
Defined.

Lemma match_price_time_priority_witness : ∃ e' l1 l2,
  match_ test_clock demo_bid demo_engine = Ok e' tt ∧ sb_asks (abs demo_book) = l1 ++ l2.
Proof.
  destruct (match_price_time_priority test_clock demo_bid demo_engine demo_book_ok demo_bid_valid
    demo_bid_side) as (e' & l1 & l2 & _ & H & Hl & _). by exists e', l1, l2.
Defined.

Lemma match_exhaustive_witness : ∃ e',
  match_ test_clock (market 4 90 BID) demo_engine = Ok e' tt ∧
  (traded (new_trades demo_engine e') < 90 →
   ∀ x, x ∈ sb_asks (abs (eng_book e')) → crosses (market 4 90 BID) (price_ x) = false).
Proof.
  apply (match_exhaustive test_clock (market 4 90 BID) demo_engine demo_book_ok);
    [valid_order|by left].
Defined.

Lemma reachable_books_uncrossed_witness : book_ok demo_book ∧ uncrossed (abs demo_book).
Proof.
  destruct (reachable_books_uncrossed test_clock [] 0 demo_engine) as (H1 & H2 & _); [|by split].
  eapply rtc_l; [apply (step_match _ (limit 1 100 50 BID)); [valid_order|vm_compute; reflexivity]|].
  eapply rtc_l; [apply (step_match _ (limit 2 105 30 ASK)); [valid_order|vm_compute; reflexivity]|].
  eapply rtc_l; [apply (step_match _ (limit 3 105 20 ASK)); [valid_order|vm_compute; reflexivity]|].
  apply rtc_refl.
Defined.

Lemma match_only_limit_rests_witness : ∃ e',
  match_ test_clock (market 4 90 BID) demo_engine = Ok e' tt ∧
  sb_bids (abs (eng_book e')) = sb_bids (abs demo_book).
Proof.
  apply (match_only_limit_rests test_clock (market 4 90 BID) demo_engine demo_book_ok);
    [valid_order|by left|done].
Defined.

(** ** The binary serializer *)

Lemma order_roundtrip_witness :
  ∃ p, Binary.serialize_order LittleEndian demo_bid [] = Ok (frame NEW_ORDER p) tt ∧
    length p = 22%nat ∧
    Binary.deserialize_order LittleEndian 99 (mkMessage NEW_ORDER p) tt = Ok tt (restamp 99 demo_bid).
Proof. apply (Binary.order_roundtrip LittleEndian 99 demo_bid [] tt demo_bid_valid). Defined.

Lemma trade_roundtrip_witness :
  ∃ p, Binary.serialize_trade BigEndian (mkTrade 105 4 2 30 1003) [] = Ok (frame TRADE p) tt ∧
    length p = 36%nat ∧
    Binary.deserialize_trade BigEndian (mkMessage TRADE p) tt = Ok tt (mkTrade 105 4 2 30 1003).
Proof.
  apply (Binary.trade_roundtrip BigEndian (mkTrade 105 4 2 30 1003) [] tt).
  split; cbn; width.
Defined.

Lemma id_messages_roundtrip_witness :
  ∃ p, length p = 8%nat ∧ Binary.serialize_cancel LittleEndian 4 [] = Ok (frame CANCEL_ORDER p) tt ∧
    Binary.deserialize_cancel LittleEndian (mkMessage CANCEL_ORDER p) tt = Ok tt 4.
Proof.
  destruct (Binary.id_messages_roundtrip LittleEndian 4 [] tt) as (p & Hl & H1 & _ & _ & H2 & _);
    [width|]. by exists p.
Defined.

Lemma rejection_roundtrip_witness :
  ∃ p, Binary.serialize_rejection LittleEndian (mkRejection 4 "no") [] = Ok (frame REJECT p) tt ∧
    Binary.deserialize_rejection LittleEndian (mkMessage REJECT p) tt = Ok tt (mkRejection 4 "no").
Proof. apply (Binary.rejection_roundtrip (mkRejection 4 "no") [] tt); cbn; width. Defined.

Lemma messages_roundtrip_witness :
  ∃ p, Binary.serialize_trade BigEndian (mkTrade 105 4 2 30 1003) [] = Ok (frame TRADE p) tt ∧
    Binary.deserialize_trade BigEndian (mkMessage TRADE p) tt = Ok tt (mkTrade 105 4 2 30 1003).
Proof.
  apply (Binary.messages_roundtrip BigEndian (mkTrade 105 4 2 30 1003) 4 (mkRejection 4 "no") [] tt);
    [split|..]; cbn; width.
Defined.

Lemma rejection_big_endian_loses_reason_witness :
  ∃ p, Binary.serialize_rejection BigEndian (mkRejection 4 "no") [] = Ok (frame REJECT p) tt ∧
    Binary.deserialize_rejection BigEndian (mkMessage REJECT p) tt = Ok tt (mkRejection 4 "").
Proof.
  apply (Binary.rejection_big_endian_loses_reason (mkRejection 4 "no") [] tt); cbn; width.
Defined.

Lemma deserialize_order_memory_safe_iff_witness :
  Binary.deserialize_order LittleEndian 0 (mkMessage NEW_ORDER [1; 2; 3]) tt = UB.
Proof.
  apply (Binary.deserialize_order_memory_safe_iff LittleEndian 0 NEW_ORDER [1; 2; 3] tt); [|cbn; lia].
  repeat constructor; width.
Defined.

(** ** The ring buffer *)

Lemma four_power : power_of_two 4.
Proof. by exists 2. Qed.

(** A ring of four slots whose counters are about to wrap around. *)
Definition wrapping_ring : Ring Z := mkRing [7; 8; 5; 6] 1 (2 ^ 64 - 2).

Lemma wrapping_ring_rep : ring_rep 4 wrapping_ring [5; 6; 7].
Proof.
  split; try done; try (cbn; width).
  intros i x Hi. do 3 (destruct i as [|i]; [cbn in Hi; simplify_eq; vm_compute; reflexivity|]). done.
Qed.

Lemma ring_refines_fifo_witness : ∃ r',
  run_ring 4 id [OpPush 9; OpPush 10; OpPop; OpPop; OpPush 11] wrapping_ring =
    Ok r' [ResPush true; ResPush false; ResPop (Some 5); ResPop (Some 6); ResPush true] ∧
  ring_rep 4 r' [7; 9; 11].
Proof.
  apply (ring_refines_fifo 4 id [OpPush 9; OpPush 10; OpPop; OpPop; OpPush 11] wrapping_ring [5; 6; 7]
    four_power wrapping_ring_rep).
Defined.

(** The producer pushes one item and the consumer starts to pop it. *)
Definition spsc_start : spsc := spsc_init 4 0.
Definition spsc_pushed : spsc :=
  mkSpsc [mkCell 5 1 0; mkCell 0 0 0; mkCell 0 0 0; mkCell 0 0 0] [0; 1] [0]
    P_idle 0 (C_head 0 1) 1 [5] [].

Lemma spsc_pushed_reachable : rtc (spsc_step 4 id) spsc_start spsc_pushed.
Proof.
  eapply rtc_l; [left; by eapply (p_load_head _ 5 0)|].
  eapply rtc_l; [left; eapply (p_load_tail _ 5 0 0 0); [done|cbn; lia|done]|].
  eapply rtc_l; [left; eapply (p_write _ 5 0 0); [done|vm_compute; congruence|vm_compute; reflexivity]|].
  eapply rtc_l; [left; by eapply (p_publish _ 5 0)|].
  eapply rtc_l; [right; by eapply (c_load_tail _ _ 0)|].
  eapply rtc_l; [right; eapply (c_load_head _ _ 0 1 1); [done|cbn; lia|vm_compute; reflexivity]|].
  vm_compute. apply rtc_refl.
Qed.

Lemma spsc_race_free_witness : ¬ producer_race 4 spsc_pushed ∧ ¬ consumer_race 4 spsc_pushed.
Proof. apply (spsc_race_free 4 id four_power 0 spsc_pushed spsc_pushed_reachable). Defined.

Lemma spsc_fifo_witness : @popped Z spsc_pushed `prefix_of` pushed spsc_pushed.
Proof. apply (spsc_fifo 4 id four_power 0 spsc_pushed spsc_pushed_reachable). Defined.

Lemma spsc_nonblocking_witness :
  (∃ s', producer_step 4 spsc_pushed s') ∧ (∃ s', consumer_step 4 id spsc_pushed s').
Proof. apply (spsc_nonblocking 4 id four_power 0 spsc_pushed spsc_pushed_reachable). Defined.

(** ** The order processor *)

(** The program's queues and serializer, on a little-endian host. *)
#[local] Instance out_queue : BoundedQueue (Ring OutboundMessage) OutboundMessage :=
  ring_queue DEFAULT_RING_CAPACITY id.
#[local] Instance out_laws : BoundedQueueLaws (Ring OutboundMessage) OutboundMessage :=
  ring_queue_laws DEFAULT_RING_CAPACITY id default_capacity_power.
#[local] Instance in_queue : BoundedQueue (Ring InboundMessage) InboundMessage :=
  ring_queue DEFAULT_RING_CAPACITY id.
#[local] Instance in_laws : BoundedQueueLaws (Ring InboundMessage) InboundMessage :=
  ring_queue_laws DEFAULT_RING_CAPACITY id default_capacity_power.
Definition wire : Serializer := Binary.BinarySerializer LittleEndian.
#[local] Instance wire_laws : SerializerLaws wire := Binary.BinarySerializer_laws LittleEndian.

Lemma default_capacity_pos : (0 < q_capacity (Q := Ring OutboundMessage))%nat.
Proof. cbn [q_capacity out_laws]. change (0 < Z.to_nat 8192)%nat. lia. Qed.

(** The demo book with its three orders submitted by connections 11 to 13, an
    empty outbound queue, and an I/O thread that pops one message at a time. *)
Definition demo_proc : Proc (Ring OutboundMessage) :=
  mkProc demo_book 3 {[1 := 11; 2 := 12; 3 := 13]} []
    (mkShared (empty_ring (mkOutbound 0 []) DEFAULT_RING_CAPACITY) [] (replicate 20 1%nat)).

Lemma demo_outbox k : (k <= 20)%nat → shared_ok (pr_outbox demo_proc) [] k.
Proof.
  intros Hk. exists []. split; [apply empty_ring_rep, default_capacity_power|]. split; [done|]. left. exact Hk.
Qed.

Lemma demo_proc_inv : proc_inv demo_proc.
Proof.
  split; [apply demo_book_inv|]. split; [apply demo_book_inv|].
  intros id Hid. vm_compute in Hid. 
  repeat (apply elem_of_cons in Hid as [->|Hid]; [vm_compute; eauto|]). by apply elem_of_nil in Hid.
Qed.

Definition new_order_request (fd : Z) (o : Order) : InboundMessage :=
  mkInbound fd NEW_ORDER (Binary.order_bytes LittleEndian o).
Definition cancel_request (fd id : Z) : InboundMessage :=
  mkInbound fd CANCEL_ORDER (store LittleEndian 8 id ++ []).

(** Connection 14 buys 40: connections 12 and 13 are told first. *)
Lemma process_new_order_witness : ∃ p' ms,
  process (z := wire) LittleEndian test_clock (new_order_request 14 demo_bid) demo_proc = Ok p' tt ∧
  out_fd <$> ms = [12; 13; 14] ∧ shared_ok (pr_outbox p') ms 3.
Proof.
  pose proof (process_new_order wire LittleEndian test_clock default_capacity_pos
    (new_order_request 14 demo_bid) demo_proc [] 3 demo_bid eq_refl eq_refl demo_bid_valid
    demo_book_ok) as H. cbv zeta in H.
  destruct (spec_match _ _ _ _) as [[sb ts] n] eqn:Hs. vm_compute in Hs. simplify_eq.
  destruct H as (p' & He & _ & _ & _ & _ & _ & Ho); [apply demo_outbox; cbn; lia|].
  eexists p', _. split; [exact He|]. split; [|exact Ho]. vm_compute. reflexivity.
Defined.

(** An order for nothing, from connection 14. *)
Definition empty_order : InboundMessage := new_order_request 14 (limit 4 106 0 BID).

Lemma process_invalid_order_witness : ∃ p',
  process (z := wire) LittleEndian test_clock empty_order demo_proc = Ok p' tt ∧
  pr_book p' = demo_book ∧
  shared_ok (pr_outbox p')
    [rejection_response (z := wire) 14 4 "quantity must be greater than 0"] 3.
Proof.
  destruct (process_invalid_order wire LittleEndian test_clock default_capacity_pos empty_order
    demo_proc [] 3 "quantity must be greater than 0") as (p' & He & Hb & _ & Ho);
    [done|cbn; lia| |apply demo_outbox; lia|by exists p'].
  intros s. vm_compute. reflexivity.
Defined.

Lemma process_cancel_resting_witness : ∃ p',
  process (z := wire) LittleEndian test_clock (cancel_request 12 2) demo_proc = Ok p' tt ∧
  abs (pr_book p') = spec_cancel 2 (abs demo_book) ∧ proc_inv p'.
Proof.
  destruct (process_cancel_resting wire LittleEndian test_clock default_capacity_pos
    (cancel_request 12 2) demo_proc [] 3 2) as (p' & He & Ha & Hi & _);
    [done|done|width|apply demo_proc_inv|evaluate|apply demo_outbox; lia|by exists p'].
Defined.

Lemma process_cancel_unknown_acks_witness : ∃ p' resp,
  process (z := wire) LittleEndian test_clock (cancel_request 12 9) demo_proc = Ok p' tt ∧
  shared_ok (pr_outbox p') [mkOutbound 12 resp] 3 ∧
  firstn 5 resp = [6; 0; 0; 0; 8] ∧ firstn 1 (drop 13 resp) = [4].
Proof.
  destruct (process_cancel_unknown_acks wire LittleEndian test_clock default_capacity_pos
    (cancel_request 12 9) demo_proc [] 3 9) as (p' & raw_id & He & _ & Ho);
    [done|done|width|vm_compute; reflexivity|apply demo_outbox; lia|].
  eexists p', _. split; [exact He|]. split; [exact Ho|]. split; reflexivity.
Defined.

Lemma process_unnamed_side_acknowledged_witness : ∃ p',
  process (z := wire) LittleEndian test_clock
    (new_order_request 14 (limit 4 106 40 (Side_unnamed 7))) demo_proc = Ok p' tt ∧
  abs (pr_book p') = abs demo_book ∧
  shared_ok (pr_outbox p') [mkOutbound 14 [3; 0; 0; 0; 8; 4; 0; 0; 0; 0; 0; 0; 0]] 3.
Proof.
  destruct (process_unnamed_side_acknowledged wire LittleEndian test_clock default_capacity_pos
    (new_order_request 14 (limit 4 106 40 (Side_unnamed 7))) demo_proc [] 3
    (limit 4 106 40 (Side_unnamed 7)) 7) as (p' & He & Ha & Ho);
    [done|done|valid_order|done|apply demo_book_ok|apply demo_outbox; lia|by exists p'].
Defined.

Lemma process_short_payload_undefined_witness :
  process (z := wire) LittleEndian test_clock (mkInbound 14 CANCEL_ORDER [1; 2; 3]) demo_proc = UB.
Proof.
  apply (process_short_payload_undefined wire LittleEndian test_clock); [by right|cbn; lia].
Defined.

Lemma new_order_request_ok fd o : request_ok wire (new_order_request fd o).
Proof.
  split; [apply Binary.order_bytes_wf|left]. split; [done|]. exact (order_payload_length (z := wire) o).
Qed.

Lemma process_keeps_invariant_witness : ∃ p',
  process (z := wire) LittleEndian test_clock (new_order_request 14 demo_bid) demo_proc = Ok p' tt ∧
  proc_inv p'.
Proof.
  apply (process_keeps_invariant wire LittleEndian test_clock default_capacity_pos
    (new_order_request 14 demo_bid) demo_proc [] 0).
  - apply new_order_request_ok.
  - intros _ o Ho. vm_compute in Ho. simplify_eq. evaluate.
  - apply demo_proc_inv.
  - apply demo_outbox. vm_compute. lia.
Defined.

(** The inbound queue of the program holding two requests. *)
Definition demo_inbound : Ring InboundMessage :=
  mkRing (<[0%nat := new_order_request 14 demo_bid]> (<[1%nat := cancel_request 11 1]>
    (replicate (Z.to_nat DEFAULT_RING_CAPACITY) (mkInbound 0 NEW_ORDER [])))) 2 0.

Lemma demo_inbound_rep :
  q_rep demo_inbound ([new_order_request 14 demo_bid; cancel_request 11 1] ++ []).
Proof.
  split; cbn [demo_inbound buffer_ head_ tail_ length app]; try done; try width.
  intros i x Hi. destruct i as [|[|i]]; [| |done]; cbn in Hi; simplify_eq;
      vm_compute; reflexivity.
Qed.

Lemma run_answers_all_witness : ∃ q' p' new,
  run (z := wire) LittleEndian test_clock 2 (demo_inbound, demo_proc) = Ok (q', p') tt ∧
  [14; 11] `sublist_of` (out_fd <$> new) ∧ book_inv (pr_book p').
Proof.
  destruct (run_answers_all wire LittleEndian test_clock default_capacity_pos
    [new_order_request 14 demo_bid; cancel_request 11 1] [] demo_inbound demo_proc []
    demo_inbound_rep) as (q' & p' & new & He & _ & Hi & _ & Hs).
  - apply Forall_cons. split; [apply new_order_request_ok|]. apply Forall_singleton.
    split; [|right; split; [done|cbn; lia]]. apply Forall_app. split; [apply store_wf|constructor].
  - apply demo_book_inv.
  - apply demo_outbox. vm_compute. lia.
  - exists q', p', new. split; [exact He|]. split; [exact Hs|exact Hi].
Defined.

Definition stray_inbound : Ring InboundMessage :=
  mkRing (<[0%nat := mkInbound 14 TRADE []]>
    (replicate (Z.to_nat DEFAULT_RING_CAPACITY) (mkInbound 0 NEW_ORDER []))) 1 0.

Lemma run_unknown_type_terminates_witness : ∃ q' p',
  run (z := wire) LittleEndian test_clock 1 (stray_inbound, demo_proc) =
    Throw (q', p') (runtime_error "unknown message type").
Proof.
  destruct (run_unknown_type_terminates wire LittleEndian test_clock 0
    (mkInbound 14 TRADE []) [] stray_inbound demo_proc) as (q' & p' & He & _); 
    [|done|done|exists q', p'; exact He].
  split; cbn [stray_inbound buffer_ head_ tail_ length app]; try done; try width.
  intros i x Hi. destruct i as [|i]; [|done]; cbn in Hi; simplify_eq; vm_compute; reflexivity.
Defined.

(** ** The server *)

(** Connection 7 of a server with sixteen slots.  Its peer sends an order, a
    keep-alive and a cancel; the network delivers them in pieces of 3, 9, 1 and
    40 bytes. *)
Definition peer_frames : list (MessageType * list Z) :=
  [(NEW_ORDER, Binary.order_bytes LittleEndian demo_bid); (ORDER_ACK, []);
   (CANCEL_ORDER, store LittleEndian 8 4)].

Definition peer_bytes : list Z := wire_bytes peer_frames.

Definition demo_server (c : ClientState) (out : Ring OutboundMessage) (pending : list Z) (w : SimNet) :
    Server (Ring InboundMessage) (Ring OutboundMessage) SimNet :=
  mkServer (<[7%nat := c]> (replicate 16 fresh_client)) pending 3 4
    (mkShared (empty_ring (mkInbound 0 NEW_ORDER []) DEFAULT_RING_CAPACITY) [] []) out w.

Definition no_output : Ring OutboundMessage := empty_ring (mkOutbound 0 []) DEFAULT_RING_CAPACITY.

Definition reading_server : Server (Ring InboundMessage) (Ring OutboundMessage) SimNet :=
  demo_server (set_active fresh_client) no_output []
    (quiet_net {[7 := peer_bytes]} ∅ ∅ [3%nat; 9%nat; 1%nat; 40%nat]).

Lemma no_output_rep : q_rep no_output [].
Proof. apply empty_ring_rep, default_capacity_power. Qed.

Lemma reading_server_inbound : shared_rep (inbound_queue_ reading_server) [].
Proof. exists []. split; [|done]. apply empty_ring_rep, default_capacity_power. Qed.

Lemma reading_server_alive s' : handle_read LittleEndian 100 7 reading_server = Ok s' tt →
  dead (world s') 7 = true → False.
Proof.
  intros He. assert (match handle_read LittleEndian 100 7 reading_server with
    Ok s _ => dead (world s) 7 | _ => true end = false) as H by (vm_compute; reflexivity).
  rewrite He in H. congruence.
Qed.

Lemma handle_read_reassembles_witness : ∃ s' c' fs,
  handle_read LittleEndian 100 7 reading_server = Ok s' tt ∧
  shared_rep (inbound_queue_ s') (messages 7 fs) ∧ client_ok c' ∧
  peer_bytes = wire_bytes fs ++ partial c' ++ rx (world s') 7.
Proof.
  destruct (handle_read_reassembles LittleEndian 7 ltac:(lia) 100 reading_server
    (set_active fresh_client) []) as (s' & c' & fs & He & _ & _ & Hq & Hok & _ & [(Hb & _)|(_ & Hd & _)]).
  - reflexivity.
  - reflexivity.
  - destruct fresh_client_ok. by split.
  - apply (bool_decide_eq_true_1 (Forall is_u8 peer_bytes)). vm_compute. reflexivity.
  - apply reading_server_inbound.
  - apply (bool_decide_eq_true_1 (length peer_bytes + 2 <= 100)%nat). vm_compute. reflexivity.
  - by exists s', c', fs.
  - by destruct (reading_server_alive s' He Hd).
Defined.

Lemma peer_frames_wf : Forall frame_wf peer_frames.
Proof. repeat constructor; vm_compute; try done; discriminate. Qed.

Lemma handle_read_delivers_frames_witness : ∃ s' c' fs gs',
  handle_read LittleEndian 100 7 reading_server = Ok s' tt ∧
  partial c' ++ rx (world s') 7 = wire_bytes gs' ∧ shared_rep (inbound_queue_ s') (messages 7 fs).
Proof.
  destruct (handle_read_delivers_frames LittleEndian 7 ltac:(lia) 100 reading_server
    (set_active fresh_client) [] peer_frames) as (s' & c' & fs & gs' & He & _ & _ & Hq & [[_ Hd]|(_ & Hb & _)]).
  - reflexivity.
  - reflexivity.
  - destruct fresh_client_ok. by split.
  - apply (bool_decide_eq_true_1 (Forall is_u8 peer_bytes)). vm_compute. reflexivity.
  - apply reading_server_inbound.
  - apply (bool_decide_eq_true_1 (length peer_bytes + 2 <= 100)%nat). vm_compute. reflexivity.
  - apply peer_frames_wf.
  - reflexivity.
  - by destruct (reading_server_alive s' He Hd).
  - by exists s', c', fs, gs'.
Defined.

(** Two messages for connection 7 and one for a slot without a client. *)
Definition demo_messages : list OutboundMessage :=
  [mkOutbound 7 [1; 2; 3]; mkOutbound 9 [8]; mkOutbound 7 [4; 5]].

Definition demo_output : Ring OutboundMessage :=
  mkRing (<[0%nat := mkOutbound 7 [1; 2; 3]]> (<[1%nat := mkOutbound 9 [8]]>
    (<[2%nat := mkOutbound 7 [4; 5]]>
      (replicate (Z.to_nat DEFAULT_RING_CAPACITY) (mkOutbound 0 []))))) 3 0.

Lemma demo_output_rep : q_rep demo_output demo_messages.
Proof.
  split; cbn [demo_output demo_messages buffer_ head_ tail_ length]; try done; try width.
  intros i x Hi. destruct i as [|[|[|i]]]; [| | |done]; cbn in Hi; simplify_eq; vm_compute; reflexivity.
Qed.

Lemma slots_ok P c : P fresh_client → P c → Forall P (<[7%nat := c]> (replicate 16 fresh_client)).
Proof. intros Hf Hc. by apply Forall_insert; [apply Forall_replicate|]. Qed.

Lemma flush_delivers_witness : ∃ s',
  (drain_outbound_queue 10 ;;; flush_pending_writes)
    (demo_server (set_active fresh_client) demo_output [] (quiet_net ∅ ∅ ∅ [4%nat])) = Ok s' tt ∧
  pending_writes_ s' = [] ∧
  all_carry_on (demo_server (set_active fresh_client) demo_output [] (quiet_net ∅ ∅ ∅ [4%nat])) s'
    (λ fd, payloads_for fd demo_messages) ∧ settled 7 s'.
Proof.
  destruct (flush_delivers 10
    (demo_server (set_active fresh_client) demo_output [] (quiet_net ∅ ∅ ∅ [4%nat])) demo_messages)
    as [(s' & He & _ & Hp & _ & Hall & Hset)|(fd & s' & He & _)].
  - apply demo_output_rep.
  - cbn. lia.
  - by repeat constructor.
  - cbn. lia.
  - by apply slots_ok; split_and!; cbn; try width.
  - apply slots_ok; cbn; lia.
  - constructor.
  - exists s'. split_and!; [done..|]. apply Hset; [lia|]. right; right.
    exists (mkOutbound 7 [1; 2; 3]). split; [left|done].
  - exfalso. revert He. vm_compute. discriminate.
Defined.

(** A client with five bytes of which two are sent. *)
Definition half_sent : ClientState := set_write [1; 2; 3; 4; 5] 2 (set_active fresh_client).

Lemma half_sent_ok : write_ok half_sent.
Proof. split_and!; cbn; width. Qed.

Lemma handle_write_keeps_stream_witness : ∃ s',
  handle_write 7 (demo_server half_sent no_output [] (quiet_net ∅ {[7 := [1; 2]]} ∅ [2%nat])) = Ok s' tt ∧
  carries_on 7 (demo_server half_sent no_output [] (quiet_net ∅ {[7 := [1; 2]]} ∅ [2%nat])) half_sent s' [] ∧
  write_progress 7 (demo_server half_sent no_output [] (quiet_net ∅ {[7 := [1; 2]]} ∅ [2%nat])) half_sent s'.
Proof.
  destruct (handle_write_keeps_stream 7
    (demo_server half_sent no_output [] (quiet_net ∅ {[7 := [1; 2]]} ∅ [2%nat])) half_sent)
    as [(s' & He & _ & Hc & Hp)|(s' & He & _)]; [lia|reflexivity|reflexivity|apply half_sent_ok|done|by exists s'|].
  exfalso. revert He. vm_compute. discriminate.
Defined.

Lemma stale_epollout_disconnects_witness : ∃ s1 s2,
  try_send 7 (demo_server half_sent no_output [] (quiet_net ∅ ∅ {[7 := true]} [])) = Ok s1 tt ∧
  handle_write 7 s1 = Ok s2 tt ∧ clients_ s2 !! 7%nat = Some fresh_client.
Proof.
  destruct (stale_epollout_disconnects 7
    (demo_server half_sent no_output [] (quiet_net ∅ ∅ {[7 := true]} [])) half_sent
    (quiet_net ∅ {[7 := [3; 4; 5]]} {[7 := true]} []) (quiet_net ∅ {[7 := [3; 4; 5]]} {[7 := true]} []))
    as (s1 & s2 & H1 & _ & H2 & H3);
    [lia|reflexivity|reflexivity|apply half_sent_ok|done|reflexivity..|by exists s1, s2].
Defined.

Lemma flush_would_block_forgets_witness : ∃ s',
  flush_pending_writes (demo_server half_sent no_output [7] (quiet_net ∅ ∅ ∅ [0%nat])) = Ok s' tt ∧
  pending_writes_ s' = [] ∧ clients_ s' !! 7%nat = Some half_sent.
Proof.
  destruct (flush_would_block_forgets 7 (demo_server half_sent no_output [7] (quiet_net ∅ ∅ ∅ [0%nat]))
    half_sent (mkNet ∅ ∅ ∅ ∅ {[7 := true]} [] (mkScript ∅ [] [] ∅))) as (s' & He & Hp & Hc & _);
    [lia|reflexivity|reflexivity|done|reflexivity..|by exists s'].
Defined.

(** ** Blocking reads *)

(** The order frame of [peer_bytes] arrives in pieces of 3, 9, 1 and 40 bytes. *)
Lemma read_message_reads_frame_witness : ∃ m' w' ok,
  read_message LittleEndian 7 50 (replicate 5 0)
    (mkMessage TRADE [], world reading_server) = Ok (m', w') ok ∧
  (ok = true → m' = mkMessage NEW_ORDER (Binary.order_bytes LittleEndian demo_bid)).
Proof.
  destruct (read_message_reads_frame LittleEndian 7 50 (replicate 5 0) (mkMessage TRADE [])
    (world reading_server) NEW_ORDER (Binary.order_bytes LittleEndian demo_bid)
    (wire_bytes (tail peer_frames))) as (m' & w' & ok & He & _ & Hok).
  - split; [reflexivity|vm_compute; by split].
  - apply (bool_decide_eq_true_1 (Forall is_u8 peer_bytes)). vm_compute. reflexivity.
  - reflexivity.
  - vm_compute. reflexivity.
  - lia.
  - apply (bool_decide_eq_true_1 (length (Binary.order_bytes LittleEndian demo_bid) < 50)%nat).
    vm_compute. reflexivity.
  - exists m', w', ok. split; [exact He|]. intros ->. apply Hok.
Defined.

(** ** The client *)

(** An engine that counts: uniform draws cycle through their range, normal
    samples fall on both sides of zero. *)
#[local] Instance counting_engine : RandomEngine Z := {
  uniform_int lo hi r := (lo + r `mod` (hi - lo + 1), r + 1);
  normal_llround c r := (r `mod` 11 - 5, r + 1);
}.

#[local] Instance counting_engine_laws : RandomEngineLaws Z.
Proof.
  split; cbn.
  - intros lo hi r Hle. pose proof (Z.mod_pos_bound r (hi - lo + 1)). lia.
  - intros _ r. unfold is_long_long. pose proof (Z.mod_pos_bound r 11). lia.
Qed.

Lemma generate_n_orders_valid_witness : ∃ s' os,
  generate_n_orders test_clock 3 (OrderSimulator_ctor 1000 100000000 5) = Ok s' os ∧
  id_ <$> os = [100000000; 100000001; 100000002] ∧ Forall generated os.
Proof.
  destruct (generate_n_orders_valid test_clock 3 (OrderSimulator_ctor 1000 100000000 5))
    as [H _]; [lia|by split|].
  destruct (H ltac:(lia)) as (s' & os & He & _ & Hall & Hids & _).
  exists s', os. split; [exact He|]. split; [|exact Hall]. rewrite Hids. vm_compute. reflexivity.
Defined.

(** A client of thread 0 on connection 7, with a clock that advances by one
    millisecond per reading. *)
Definition demo_client : ExchangeClient Z SimNet :=
  thread_client 0 7 5 EmptyString (quiet_net ∅ ∅ ∅ []).

(** On a simulated network with all peers present no signal ends the client. *)
Definition peers_present (c : ExchangeClient Z SimNet) : Prop := sc_gone (net_script (cl_world c)) = ∅.

Definition unkilled {A} (m : M (ExchangeClient Z SimNet) A) : Prop := ∀ c, peers_present c →
  match m c with Ok c' _ | Throw c' _ => peers_present c' | Killed _ => False | _ => True end.

Lemma unkilled_bind {A B} (m : M _ A) (k : A → M _ B) : unkilled m → (∀ a, unkilled (k a)) → unkilled (bind m k).
Proof. intros Hm Hk c Hc. unfold bind. specialize (Hm c Hc). destruct (m c); [by apply Hk|done..]. Qed.

Lemma unkilled_send fd data : unkilled (on_world (sys_send fd data)).
Proof.
  intros c Hc. unfold on_world, zoom. cbn [sys_send sim_sockets]. unfold sim_send. rewrite Hc.
  rewrite decide_False by set_solver. by case_decide.
Qed.

Lemma generate_order_unkilled {R} `{!RandomEngine R} clock (s s' : OrderSimulator R) :
  generate_order clock s ≠ Killed s'.
Proof.
  unfold generate_order, bind, gets, draw, next_id, sim_clock, ret.
  repeat match goal with |- context [uniform_int ?a ?b ?r] => destruct (uniform_int a b r) end.
  destruct (decide _); [destruct (normal_llround _ _)|];
    repeat match goal with |- context [uniform_int ?a ?b ?r] => destruct (uniform_int a b r) end;
    by destruct (Order_ctor _ _ _ _ _ _).
Qed.

Lemma unkilled_order : unkilled (on_simulator (generate_order (λ i, 1000000 * Z.of_nat i))).
Proof.
  intros c Hc. unfold on_simulator, zoom. pose proof (generate_order_unkilled (λ i, 1000000 * Z.of_nat i)
    (order_simulator_ c)) as H. destruct (generate_order _ _) as [| | | |s']; [exact Hc..|done|done|by apply (H s')].
Qed.

Lemma unkilled_frame o : unkilled (on_msg_buffer (serialize_order (Serializer := wire) o)).
Proof. intros c Hc. unfold on_msg_buffer, zoom. by rewrite serialize_order_eq. Qed.

Lemma unkilled_times n body : unkilled body → unkilled (times n body).
Proof. intros Hb. induction n as [|n IH]; [by intros c|]. by apply unkilled_bind. Qed.

Lemma unkilled_batches : unkilled (send_batches (z := wire) (λ i, 1000000 * Z.of_nat i)).
Proof.
  apply unkilled_times, unkilled_times. apply unkilled_bind; [apply unkilled_order|intros o].
  apply unkilled_bind; [by intros c|intros _]. apply unkilled_bind; [apply unkilled_frame|intros _].
  apply unkilled_bind; [by intros c|intros c]. apply unkilled_bind; [apply unkilled_send|by intros r c'].
Qed.

Lemma unkilled_run : unkilled (client_run (z := wire) (λ i, 1000000 * Z.of_nat i)).
Proof.
  apply unkilled_bind; [by intros c|intros start]. apply unkilled_bind; [apply unkilled_batches|intros _].
  apply unkilled_bind; [by intros c|intros stop]. apply unkilled_bind; [by intros c|intros _].
  apply unkilled_bind; [by destruct (_ =? 0); intros c|intros _]. apply unkilled_bind; [by intros c|by intros c' c].
Qed.

Lemma client_run_streams_orders_witness : ∃ c' w l,
  client_run (z := wire) (λ i, 1000000 * Z.of_nat i) demo_client = Ok c' tt ∧
  Z.of_nat (length l) = NUM_ORDERS ∧ tx w 7 = wire_sent wire l.
Proof.
  destruct (client_run_streams_orders wire (λ i, 1000000 * Z.of_nat i) 7 demo_client)
    as [(w & l & Hl & _ & _ & _ & Ht & _ & H & _)|(c & He & _)].
  - split; [reflexivity|by split].
  - destruct H as (c' & He & _).
    { cbn [sim_reads order_simulator_ demo_client thread_client ExchangeClient_ctor OrderSimulator_ctor].
      unfold NUM_ORDERS. lia. }
    exists c', w, l. split; [exact He|]. split; [exact Hl|exact Ht].
  - exfalso. pose proof (unkilled_run demo_client eq_refl) as H. by rewrite He in H.
Defined.

(** ** The mutex queue *)

(** Thread 1 checks too early, pushes of threads 0 and 2 interleave, and thread
    1 pops one item. *)
Definition one_pop : list (nat * taction Z) :=
  [(1%nat, CallPop 0); (0%nat, CallPush 5); (2%nat, CallPush 6); (0%nat, Continue); (0%nat, Continue);
   (1%nat, CallPop 0); (0%nat, Continue); (1%nat, CallPop 1); (0%nat, Continue); (1%nat, Continue);
   (1%nat, Continue); (1%nat, Continue); (1%nat, Continue); (2%nat, Continue); (2%nat, Continue)].

Lemma tsq_single_consumer_witness : ∃ s, tsq_run one_pop tsq_init = Some s ∧ ts_popped s = [5] ∧
  ts_pushed s = ts_popped s ++ ts_queue s.
Proof.
  eexists. split; [vm_compute; reflexivity|]. split; [reflexivity|].
  apply (tsq_single_consumer 1 one_pop); [by repeat constructor|vm_compute; reflexivity].
Defined.
