(* ===== verification/ProgramWitnesses.v ===== *)
(** * Concrete runs of the threads and programs

    The theorems about the event loop, the processing thread, the two programs
    and their composition, applied to a simulated network with one client. *)

From S2P Require Import Prelude Outcome OrdMap Order OrderBook BookSpec MatchingEngine MatchSpec MatchTheorems MatchFacts Bytes Serializer BinarySerializer RingBuffer SharedQueue OrderProcessor ProcessorProof ProcessorTheorems ExchangeSpec Sockets ExchangeServer ServerRead ServerWrite ServerLoop Program ProgramProof OrderSimulator ExchangeClient ClientProgram EndToEnd SimulatedSockets UnitTests Witnesses.

#[local] Existing Instances out_queue out_laws in_queue in_laws wire_laws counting_engine counting_engine_laws.

(** ** The event loop *)

(** A server with sixteen unused slots and one connection waiting. *)
Definition waiting_server : Server (Ring InboundMessage) (Ring OutboundMessage) SimNet :=
  mkServer (replicate 16 fresh_client) [] 3 4
    (mkShared (empty_ring (mkInbound 0 NEW_ORDER []) DEFAULT_RING_CAPACITY) [] []) no_output
    (mkNet ∅ ∅ ∅ ∅ ∅ [] (mkScript {[3]} [(20, [1; 2])] [[mkEvent 3 true false]] ∅)).

Lemma waiting_server_ok : server_ok 10 (λ _, True) waiting_server.
Proof.
  split; cbn [waiting_server clients_ world server_fd_ epoll_fd_ pending_writes_].
  - apply Forall_replicate. split; [apply fresh_client_ok|apply fresh_write_ok].
  - rewrite length_replicate. lia.
  - intros fd c _ Hc Hact. by apply lookup_replicate_1 in Hc as [-> _].
  - intros fd Hin. left. cbn in Hin. set_solver.
  - apply Forall_singleton. split; [|done]. split; [|cbn; lia]. repeat constructor; width.
  - cbn. lia.
  - apply Forall_nil_2.
Qed.

Lemma any_frames fd fs (rest : list Z) : 0 <= fd < 2 ^ 31 → Forall frame_wf fs → True →
  True ∧ Forall (λ _ : InboundMessage, True) (messages fd fs).
Proof. intros _ _ _. split; [done|]. by apply Forall_true. Qed.

Lemma waiting_inbound : shared_rep (inbound_queue_ waiting_server) [].
Proof. exists []. split; [|done]. apply empty_ring_rep, default_capacity_power. Qed.

Lemma accept_client_registers_witness : ∃ s' fds, accept_client 10 waiting_server = Ok s' tt ∧
  accepted_slots fds (clients_ waiting_server) (clients_ s') ∧ server_ok 10 (λ _, True) s'.
Proof.
  destruct (accept_client_registers 10 (λ _, True) (λ _, True) (λ fd fs rest Hfd Hfs _, any_frames fd fs rest Hfd Hfs I)
    waiting_server [] waiting_server_ok waiting_inbound)
    as [(s' & fds & He & Hok & _ & _ & Hacc & _)|(s' & e & He & _)].
  - exists s', fds. split; [exact He|]. split; [exact Hacc|exact Hok].
  - exfalso. revert He. vm_compute. discriminate.
Defined.

Lemma event_loop_turn_safe_witness : ∃ s', event_loop_turn LittleEndian 10 waiting_server = Ok s' tt ∧
  server_ok 10 (λ _, True) s' ∧ q_rep (outbound_queue_ s') [].
Proof.
  destruct (event_loop_turn_safe LittleEndian 10 (λ _, True) (λ _, True)
    (λ fd fs rest Hfd Hfs _, any_frames fd fs rest Hfd Hfs I) waiting_server [] []
    waiting_server_ok waiting_inbound no_output_rep)
    as [(s' & new & He & Hok & Hq & _)|[(s' & e & He & _)|(fd & s' & He & _)]].
  - cbn. lia.
  - apply Forall_nil_2.
  - apply Forall_replicate. cbn. lia.
  - exists s'. split; [exact He|]. split; [exact Hok|exact Hq].
  - exfalso. revert He. vm_compute. discriminate.
  - exfalso. revert He. vm_compute. discriminate.
Defined.

(** ** The processing thread *)

Definition demo_state : SpecState := mkSpecState (abs demo_book) 3 {[1 := 11; 2 := 12; 3 := 13]}.

Lemma demo_refines : refines demo_proc demo_state.
Proof. split; [apply demo_proc_inv|done..]. Qed.

Lemma run_refines_exchange_witness : ∃ q' p' st' new,
  answers wire LittleEndian test_clock [new_order_request 14 demo_bid; cancel_request 11 1] demo_state =
    Some (st', new) ∧
  run (z := wire) LittleEndian test_clock 2 (demo_inbound, demo_proc) = Ok (q', p') tt ∧ refines p' st'.
Proof.
  assert (∃ st' new, answers wire LittleEndian test_clock [new_order_request 14 demo_bid; cancel_request 11 1]
    demo_state = Some (st', new) ∧ (length new + 0 <= 20)%nat) as (st' & new & Ha & Hlen).
  { eexists _, _. split; [vm_compute; reflexivity|vm_compute; lia]. }
  destruct (run_refines_exchange wire LittleEndian test_clock default_capacity_pos
    [new_order_request 14 demo_bid; cancel_request 11 1] [] demo_inbound demo_proc demo_state st' new [] 0
    demo_inbound_rep) as (q' & p' & He & _ & Hrf & _).
  - apply Forall_cons. split; [apply new_order_request_ok|]. apply Forall_singleton.
    split; [|right; split; [done|cbn; lia]]. apply Forall_app. split; [apply store_wf|constructor].
  - apply demo_refines.
  - exact Ha.
  - apply demo_outbox. exact Hlen.
  - exists q', p', st', new. split; [exact Ha|]. split; [exact He|exact Hrf].
Defined.

(** The same processor with the outbox of the program. *)
Definition demo_boxed : Proc Outbox :=
  mkProc (pr_book demo_proc) (pr_reads demo_proc) (pr_fds demo_proc) [] (empty_outbox 20).

Lemma process_queue_independent_witness : ∃ p1 p2,
  process (z := wire) LittleEndian test_clock (new_order_request 14 demo_bid) demo_proc = Ok p1 tt ∧
  process (z := wire) LittleEndian test_clock (new_order_request 14 demo_bid) demo_boxed = Ok p2 tt ∧
  core p1 = core p2.
Proof.
  assert (book_size (pr_book demo_proc) + 2 <= 20)%nat as Hsize by (vm_compute; lia).
  destruct (process_queue_independent wire LittleEndian test_clock (new_order_request 14 demo_bid)
    demo_proc demo_boxed [] [] default_capacity_pos outbox_capacity) as (p1 & p2 & new & H1 & H2 & Hc & _).
  - apply new_order_request_ok.
  - apply demo_book_inv.
  - reflexivity.
  - apply demo_outbox, Hsize.
  - apply (shared_ok_le _ _ _ 20); [apply empty_outbox_ok|exact Hsize].
  - exists p1, p2. split; [exact H1|]. split; [exact H2|exact Hc].
Defined.

(** ** The server program *)

(** Clients 7 and 9 have unsent data, and the peer of 7 is gone. *)
Definition broken_program : Program (Ring InboundMessage) (Ring OutboundMessage) SimNet :=
  mkProgram
    (mkServer (<[9%nat := half_sent]> (<[7%nat := half_sent]> (replicate 16 fresh_client))) [7; 9] 3 4
       (mkShared (empty_ring (mkInbound 0 NEW_ORDER []) DEFAULT_RING_CAPACITY) [] []) no_output
       (mkNet ∅ ∅ ∅ ∅ ∅ [] (mkScript {[7; 9]} [] [] {[7]})))
    Flushing demo_boxed [] [] [] [].


(** One client that sends the demo order.  The schedule lets the I/O thread
    accept the connection and read the order, the processing thread process it
    and push the response, and the I/O thread deliver and send it. *)
Definition client_bytes : list Z := wire_bytes (order_frames wire [demo_bid]).

Definition one_client : SimNet :=
  mkNet ∅ ∅ ∅ ∅ ∅ [] (mkScript ∅ [(20, client_bytes)] [[mkEvent 3 true false]; [mkEvent 20 true false]] ∅).

Definition demo_schedule : list Thread := replicate 7 IoThread ++ replicate 3 ProcessorThread ++ replicate 4 IoThread.

Abbreviation demo_main :=
  (exchange_main LittleEndian test_clock 60 (mkInbound 0 NEW_ORDER []) (mkOutbound 0 []) id id [] 0 0 one_client).

(** Few and short messages in the outbound ring, and short buffers. *)
Definition short_output (o : outcome (Program (Ring InboundMessage) (Ring OutboundMessage) SimNet) unit) : bool :=
  match o with
  | Ok g _ =>
      let s := pg_server g in let r := outbound_queue_ s in
      (u64 (head_ r - tail_ r) <? 100) &&
      (forallb (λ m, Z.of_nat (length (out_payload m)) <? 1000) (buffer_ r) &&
       forallb (λ c, Z.of_nat (length (write_buffer c)) <? 1000) (clients_ s))
  | _ => true
  end.

Lemma payloads_short (ms : list OutboundMessage) : Forall (λ m, Z.of_nat (length (out_payload m)) < 1000) ms →
  Z.of_nat (length (ms ≫= out_payload)) <= 1000 * Z.of_nat (length ms).
Proof. induction 1 as [|m ms Hm _ IH]; cbn [mbind list_bind length]; [done|]. rewrite length_app. lia. Qed.

Lemma short_output_roomy g : short_output (Ok g tt) = true → roomy g.
Proof.
  intros [Hn [Hm Hc]%andb_prop]%andb_prop out Ho. apply Z.ltb_lt in Hn. rewrite forallb_forall in Hm, Hc.
  pose proof (rr_count _ _ _ Ho) as Hcount.
  assert (Forall (λ m, Z.of_nat (length (out_payload m)) < 1000) out) as Hshort.
  { apply Forall_lookup. intros i m Hi%(rr_items _ _ _ Ho). apply Z.ltb_lt, Hm.
    by apply list_elem_of_In, list_elem_of_lookup; eexists. }
  apply payloads_short in Hshort. apply Forall_forall. intros c Hin%list_elem_of_In%Hc%Z.ltb_lt. lia.
Qed.

Lemma demo_roomy : always_roomy LittleEndian test_clock 60 (mkInbound 0 NEW_ORDER []) (mkOutbound 0 []) id id
  [] 0 0 one_client demo_schedule.
Proof.
  assert (Forall (λ n, short_output (demo_main (take n demo_schedule)) = true) (seq 0 15)) as H by evaluate.
  intros n g Hg. apply short_output_roomy.
  rewrite <- Hg. destruct (decide (n < 15)%nat) as [Hlt|Hge].
  - rewrite Forall_forall in H. apply H, elem_of_seq. lia.
  - rewrite Forall_forall in H. specialize (H 14%nat). rewrite take_ge in H |- * by (cbn; lia).
    apply H, elem_of_seq. lia.
Qed.

Lemma client_bytes_fit : (length client_bytes + 2 <= 60)%nat.
Proof. evaluate. Qed.

Lemma demo_peers : peers_ok 60 (good_stream wire) one_client.
Proof.
  intros sfd. cbn [backlog sim_socket_view one_client net_script sc_backlog]. split; [|cbn; lia].
  apply Forall_singleton. split; [split|].
  - by apply (order_stream_bytes LittleEndian [demo_bid]).
  - exact client_bytes_fit.
  - by apply (order_stream_good LittleEndian [demo_bid]).
Qed.

(** The acknowledgement of the demo order. *)
Definition demo_ack : list Z := [3; 0; 0; 0; 8; 4; 0; 0; 0; 0; 0; 0; 0].

(** The run ends well with one request processed and its sender told. *)
Lemma demo_run : ∃ g, demo_main demo_schedule = Ok g tt ∧ length (pg_done g) = 1%nat ∧
  tx (world (pg_server g)) 20 = demo_ack.
Proof.
  assert (match demo_main demo_schedule with
    Ok g _ => (length (pg_done g), tx (world (pg_server g)) 20) | _ => (0%nat, []) end = (1%nat, demo_ack)) as H
    by (vm_compute; reflexivity).
  destruct (demo_main demo_schedule) as [g []| | | |]; [|discriminate H..]. injection H as H1 H2. by exists g.
Qed.

Lemma main_safe_witness : ∃ g, demo_main demo_schedule = Ok g tt ∧ book_inv (pr_book (pg_processor g)).
Proof.
  destruct (main_safe LittleEndian test_clock 60 (mkInbound 0 NEW_ORDER []) (mkOutbound 0 []) id id
    [] 0 0 one_client demo_schedule demo_peers demo_roomy) as [(g & He & Hb & _)|[(g & e & He & _)|(fd & g & He & _)]].
  - exists g. split; [exact He|exact Hb].
  - exfalso. destruct demo_run as (g' & Hg' & _). rewrite He in Hg'. discriminate Hg'.
  - exfalso. destruct demo_run as (g' & Hg' & _). rewrite He in Hg'. discriminate Hg'.
Defined.

Lemma main_linearizes_witness : ∃ g st queued, demo_main demo_schedule = Ok g tt ∧
  tx (world (pg_server g)) 20 = demo_ack ∧
  refines (pg_processor g) st ∧
  answers wire LittleEndian test_clock (pg_done g) spec_initial = Some (st, pg_sent g ++ queued ++ pg_todo g) ∧
  ∀ fd c, 0 <= fd → clients_ (pg_server g) !! Z.to_nat fd = Some c → active c = true →
    tx (world (pg_server g)) fd ++ unsent c ++ payloads_for fd (queued ++ pg_todo g) =
      payloads_for fd (pg_sent g ++ queued ++ pg_todo g).
Proof.
  destruct demo_run as (g & Hg & Hlen & Htx).
  assert (is_Some (answers wire LittleEndian test_clock (pg_done g) spec_initial)) as [[st outs] Ha].
  { assert (bool_decide (is_Some (match demo_main demo_schedule with
      Ok g _ => answers wire LittleEndian test_clock (pg_done g) spec_initial | _ => None end)) = true) as H
      by (vm_compute; reflexivity).
    rewrite Hg in H. by apply bool_decide_eq_true in H. }
  destruct (main_linearizes LittleEndian test_clock 60 (mkInbound 0 NEW_ORDER []) (mkOutbound 0 []) id id
    [] 0 0 one_client demo_schedule g st outs demo_peers demo_roomy Hg Ha) as (Hrf & queued & _ & Ho & Hstr).
  exists g, st, queued. split; [exact Hg|]. split; [exact Htx|]. split; [exact Hrf|]. split; [rewrite <- Ho; exact Ha|].
  rewrite <- Ho. apply Hstr. apply NoDup_singleton.
Defined.

(** ** The client program *)

Lemma unkilled_thread : unkilled (run_client_thread (z := wire) (λ k, 1000000 * Z.of_nat k) 0).
Proof.
  intros c Hc. unfold run_client_thread, try_catch.
  assert (unkilled (connect ;;; print ("Thread " +:+ pretty 0 +:+ " connected and running." +:+ nl) ;;;
     client_run (z := wire) (λ k, 1000000 * Z.of_nat k) ;;;
     print ("Thread " +:+ pretty 0 +:+ " finished sending all orders." +:+ nl))) as H.
  { apply unkilled_bind; [by intros c'|intros _]. apply unkilled_bind; [by intros c'|intros _].
    apply unkilled_bind; [apply unkilled_run|by intros _ c']. }
  specialize (H c Hc). destruct (bind _ _ c); done.
Qed.

Lemma client_main_load_witness : ∃ out threads (ls : list (list (Order * nat))),
  client_main (z := wire) (λ _ k, 1000000 * Z.of_nat k) (λ _, 0) (λ _, 5) (λ _, quiet_net ∅ ∅ ∅ []) (λ _, true)
    ["client"; "1"]%string EmptyString = Ok out threads ∧
  length threads = 1%nat ∧ NoDup (id_ <$> (fst <$> concat ls)).
Proof.
  destruct (client_main_load wire (λ _ k, 1000000 * Z.of_nat k) (λ _, 0) (λ _, 5) (λ _, quiet_net ∅ ∅ ∅ [])
    (λ _, true) (λ _, 3)) with (argv := ["client"; "1"]%string) (n := 1) (out := EmptyString)
    as [_ [(threads & ls & He & Hl & _ & Hnd)|He]].
  - reflexivity.
  - reflexivity.
  - intros i Hi. split; [reflexivity|]. split.
    + assert (i = 0) as -> by lia. eexists. split; [cbv -[starting_id]; reflexivity|].
      split; reflexivity.
    + unfold NUM_ORDERS. lia.
  - eexists _, threads, ls. split; [exact He|]. split; [exact Hl|exact Hnd].
  - exfalso. revert He. unfold client_main. change (num_threads _) with (inr 1 : exn + Z).
    unfold or_throw, bind, modify, ret. change (thread_ids 1) with [0]. cbn [for_each fmap list_fmap].
    unfold bind, create_thread, ret, client_thread, join.
    set (c := thread_client _ _ _ _ _). pose proof (unkilled_thread c eq_refl) as H.
    destruct (run_client_thread _ 0 c); [discriminate..|contradiction].
Defined.

(** ** Both *)

Lemma demo_bid_generated : generated demo_bid.
Proof. split; [apply demo_bid_valid|by left|by left|cbn; lia]. Qed.

